(** * Digital service engine: configuration resolution core

    A shallow embedding of the resolution core of the service-selection
    document engine (node registry, visibility engine, visibility
    simulation, trigger-map validation, fallback resolver, normaliser and
    constraint propagation), together with the properties that the
    specification states about it.

    Conventions of the embedding.
    - A JavaScript [Set<string>] is an insertion-ordered list without
      repetition ([JsSet]); a [Map<string, V>] and a [Record<string, V>]
      are insertion-ordered association lists ([JsMap]).  Every
      [new Set(s)] of the source copies, so sets are plain values here.
    - The entries of a plain object are read in the order of the list that
      stands for it.  JavaScript enumerates integer-like property names
      first, in ascending order: for an object with such names (the
      [global] fallback map is keyed by service ids) the list is that
      enumeration order, which the loops over [Object.entries] keep
      (they only drop entries).
    - Strings are ASCII; [Array.prototype.sort] without a comparator is
      the sort by [String.leb].
    - No property is named [__proto__] (an assignment to that name on a
      plain object sets the prototype and adds no property).
    - [undefined] for an optional property is [None].
    - Numbers that only count (depths, numbers of states) are [nat] or [Z];
      service rates are exact rationals [Q]. *)

From Stdlib Require Import String Ascii List Bool Arith ZArith QArith Lia Lqa.
From Stdlib Require Import Permutation Sorting.Sorted NArith.
From Equations Require Import Equations.
Import ListNotations.

Close Scope Q_scope.
Local Open Scope string_scope.
Local Open Scope list_scope.

(* ===================================================================== *)
(** * JavaScript containers *)
(* ===================================================================== *)

Module JsSet.

(** [Set<string>]: members in insertion order. *)
Definition t := list string.

Definition empty : t := [].

Definition has (s : t) (x : string) : bool := existsb (String.eqb x) s.

Definition add (s : t) (x : string) : t := if has s x then s else s ++ [x].

Definition delete (s : t) (x : string) : t :=
  filter (fun y => negb (String.eqb x y)) s.

(** [new Set(iterable)] *)
Definition of_list (l : list string) : t := fold_left add l empty.

End JsSet.

Module JsMap.

(** [Map<string, V>] and plain objects used as dictionaries: entries in
    insertion order, one entry per key. *)
Definition t (V : Type) := list (string * V).

Definition empty {V} : t V := [].

Fixpoint get {V} (m : t V) (k : string) : option V :=
  match m with
  | [] => None
  | (k', v) :: m' => if String.eqb k k' then Some v else get m' k
  end.

Definition has {V} (m : t V) (k : string) : bool :=
  match get m k with Some _ => true | None => false end.

(** [m.set(k, v)]: an existing key keeps its position. *)
Fixpoint set {V} (m : t V) (k : string) (v : V) : t V :=
  match m with
  | [] => [(k, v)]
  | (k', v') :: m' =>
      if String.eqb k k' then (k', v) :: m' else (k', v') :: set m' k v
  end.

(** [new Map(entries)]: a later entry for the same key replaces the
    earlier one. *)
Definition of_entries {V} (l : list (string * V)) : t V :=
  fold_left (fun m kv => set m (fst kv) (snd kv)) l empty.

Definition keys {V} (m : t V) : list string := map fst m.

End JsMap.

(** JavaScript truthiness of a string: [""] is falsy. *)
Definition truthyStr (s : string) : bool := negb (String.eqb s EmptyString).

(* ===================================================================== *)
(** * Untyped JavaScript values *)
(* ===================================================================== *)

(** The values [normalise] may receive.  An object is the list of its own
    enumerable properties in enumeration order; numbers are the finite
    integers. *)
#[warning="-register-all"] Inductive JsVal : Type :=
| JUndefined
| JNull
| JBool (b : bool)
| JNum (n : Z)
| JStr (s : string)
| JArr (items : list JsVal)
| JObj (props : list (string * JsVal)).

(* ===================================================================== *)
(** * Schema (src/schema/index.ts) *)
(* ===================================================================== *)

Inductive PricingRole := Base | Utility.

Record FieldOption := {
  o_id : string;
  o_label : string;
  o_service_id : option Z;
  o_pricing_role : option PricingRole
}.

(** [bind_id?: string | string[]] *)
Inductive BindId :=
| BindOne (id : string)
| BindMany (ids : list string).

Record Field := {
  f_id : string;
  f_label : option string;
  f_bind_id : option BindId;
  f_button : bool;                      (* [button === true] *)
  f_options : option (list FieldOption);
  f_pricing_role : option PricingRole;
  f_quantity : bool                     (* [meta?.quantity] is truthy *)
}.

Inductive FlagKey := Refill | Cancel | Dripfeed.

Definition FLAG_KEYS : list FlagKey := [Refill; Cancel; Dripfeed].

(** [Partial<Record<FlagKey, V>>] *)
Record Flags (V : Type) := {
  refill : option V;
  cancel : option V;
  dripfeed : option V
}.
Arguments refill {V} _.
Arguments cancel {V} _.
Arguments dripfeed {V} _.

Definition flag {V} (k : FlagKey) (r : Flags V) : option V :=
  match k with
  | Refill => refill r
  | Cancel => cancel r
  | Dripfeed => dripfeed r
  end.

Definition noFlags {V} : Flags V :=
  {| refill := None; cancel := None; dripfeed := None |}.

Definition setFlag {V} (k : FlagKey) (v : V) (r : Flags V) : Flags V :=
  match k with
  | Refill => {| refill := Some v; cancel := cancel r; dripfeed := dripfeed r |}
  | Cancel => {| refill := refill r; cancel := Some v; dripfeed := dripfeed r |}
  | Dripfeed => {| refill := refill r; cancel := cancel r; dripfeed := Some v |}
  end.

Record Override := { ov_from : bool; ov_to : bool; ov_origin : string }.

Record Tag := {
  t_id : string;
  t_label : string;
  t_bind_id : option string;
  t_service_id : option Z;
  t_includes : option (list string);
  t_excludes : option (list string);
  t_constraints : option (Flags bool);
  t_constraints_origin : option (Flags string);
  t_constraints_overrides : option (Flags Override);
  t_meta : option JsVal
}.

Record ServiceProps := {
  filters : list Tag;
  fields : list Field;
  includes_for_buttons : option (JsMap.t (list string));
  excludes_for_buttons : option (JsMap.t (list string));
  order_for_tags : option (JsMap.t (list string))
}.

(** [x ?? []] *)
Definition orEmpty {A} (o : option (list A)) : list A :=
  match o with Some l => l | None => [] end.

(** [m ?? {}] *)
Definition orNoMap {V} (o : option (JsMap.t V)) : JsMap.t V :=
  match o with Some m => m | None => JsMap.empty end.

(* ===================================================================== *)
(** * Node registry (src/core/node-map.ts) *)
(* ===================================================================== *)

Inductive NodeRef :=
| NTag (id : string) (node : Tag)
| NField (id : string) (node : Field)
| NOption (id : string) (node : FieldOption) (fieldId : string).

Definition NodeMap := JsMap.t NodeRef.

Definition registerOption (fid : string) (m : NodeMap) (o : FieldOption) : NodeMap :=
  if JsMap.has m (o_id o) then m else JsMap.set m (o_id o) (NOption (o_id o) o fid).

Definition registerField (m : NodeMap) (f : Field) : NodeMap :=
  let m1 := if JsMap.has m (f_id f) then m
            else JsMap.set m (f_id f) (NField (f_id f) f) in
  fold_left (registerOption (f_id f)) (orEmpty (f_options f)) m1.

Definition registerTag (m : NodeMap) (t : Tag) : NodeMap :=
  if JsMap.has m (t_id t) then m else JsMap.set m (t_id t) (NTag (t_id t) t).

Definition buildNodeMap (props : ServiceProps) : NodeMap :=
  fold_left registerField (fields props)
    (fold_left registerTag (filters props) JsMap.empty).

Inductive TriggerRef :=
| TComposite (triggerKey fieldId optionId : string)
| TTag (triggerKey id : string)
| TField (triggerKey id : string)
| TOption (triggerKey id fieldId : string).

(** [s.slice(i)] *)
Definition sliceFrom (i : nat) (s : string) : string :=
  substring i (String.length s - i) s.

Definition resolveTrigger (trigger : string) (nodeMap : NodeMap) : option TriggerRef :=
  match index 0 "::" trigger with
  | Some idx =>
      Some (TComposite trigger (substring 0 idx trigger) (sliceFrom (idx + 2) trigger))
  | None =>
      match JsMap.get nodeMap trigger with
      | None => None
      | Some (NOption id _ fieldId) => Some (TOption trigger id fieldId)
      | Some (NField id _) => Some (TField trigger id)
      | Some (NTag id _) => Some (TTag trigger id)
      end
  end.

(* ===================================================================== *)
(** * Visibility engine (src/core/visibility.ts) *)
(* ===================================================================== *)

(** [new Map(tags.map((t) => [t.id, t]))] *)
Definition tagById (tags : list Tag) : JsMap.t Tag :=
  JsMap.of_entries (map (fun t => (t_id t, t)) tags).

Definition fieldById (fs : list Field) : JsMap.t Field :=
  JsMap.of_entries (map (fun f => (f_id f, f)) fs).

(** [parentId ? tagById.get(parentId) : undefined] *)
Definition parentOf (byId : JsMap.t Tag) (cur : Tag) : option Tag :=
  match t_bind_id cur with
  | Some parentId => if truthyStr parentId then JsMap.get byId parentId else None
  | None => None
  end.

(** The lineage loop: [while (cur && !guard.has(cur.id)) { ... }].  Every
    turn puts a new tag id into [guard], so [fuel] larger than the number
    of tags is never used up (lemma [lineageLoop_fuel]). *)
Fixpoint lineageLoop (fuel : nat) (byId : JsMap.t Tag) (cur : option Tag)
    (d : nat) (guard : JsSet.t) (lineageDepth : JsMap.t nat) : JsMap.t nat :=
  match fuel with
  | O => lineageDepth
  | S fuel' =>
      match cur with
      | None => lineageDepth
      | Some c =>
          if JsSet.has guard (t_id c) then lineageDepth
          else lineageLoop fuel' byId (parentOf byId c) (S d)
                 (JsSet.add guard (t_id c))
                 (JsMap.set lineageDepth (t_id c) d)
      end
  end.

(** Lineage with depth: self = 0, parent = 1, grandparent = 2 ... *)
Definition lineageDepthOf (tags : list Tag) (tag : Tag) : JsMap.t nat :=
  lineageLoop (S (length tags)) (tagById tags) (Some tag) 0 JsSet.empty JsMap.empty.

Definition isTagInLineage (lineageDepth : JsMap.t nat) (id : string) : bool :=
  JsMap.has lineageDepth id.

(** The loop of [ownerDepthForField] over a [bind_id] array. *)
Definition bestDepth (lineageDepth : JsMap.t nat) (best : option nat) (id : string)
    : option nat :=
  match JsMap.get lineageDepth id with
  | None => best
  | Some d =>
      match best with
      | None => Some d
      | Some b => if Nat.ltb d b then Some d else best
      end
  end.

Definition ownerDepthForField (lineageDepth : JsMap.t nat) (f : Field) : option nat :=
  match f_bind_id f with
  | None => None
  | Some (BindOne b) => if truthyStr b then JsMap.get lineageDepth b else None
  | Some (BindMany b) => fold_left (bestDepth lineageDepth) b None
  end.

Definition ownerDepthForTriggerKey (nodeMap : NodeMap) (byField : JsMap.t Field)
    (lineageDepth : JsMap.t nat) (triggerKey : string) : option nat :=
  match resolveTrigger triggerKey nodeMap with
  | None => None
  | Some (TComposite _ fieldId _) =>
      match JsMap.get byField fieldId with
      | None => None
      | Some f => ownerDepthForField lineageDepth f
      end
  | Some (TField _ id) =>
      match JsMap.get byField id with
      | None => None
      | Some f => if f_button f then ownerDepthForField lineageDepth f else None
      end
  | Some (TOption _ _ fieldId) =>
      match (if truthyStr fieldId then JsMap.get byField fieldId else None) with
      | None => None
      | Some f => ownerDepthForField lineageDepth f
      end
  | Some (TTag _ _) => None
  end.

Definition isBoundToLineage (lineageDepth : JsMap.t nat) (f : Field) : bool :=
  match f_bind_id f with
  | None => false
  | Some (BindOne b) => truthyStr b && isTagInLineage lineageDepth b
  | Some (BindMany b) => existsb (isTagInLineage lineageDepth) b
  end.

(** [relevantTriggersInOrder]: the selected keys that resolve to a trigger
    owned by the lineage, in the insertion order of the selection. *)
Definition relevantTriggers (ownerDepth : string -> option nat) (selected : JsSet.t)
    : list string :=
  filter (fun key => match ownerDepth key with Some _ => true | None => false end)
    selected.

(** Base candidates: fields bound to the lineage and the current tag's own
    includes, then the current tag's own excludes removed. *)
Definition addBase (lineageDepth : JsMap.t nat) (tagInclude : JsSet.t)
    (visible : JsSet.t) (f : Field) : JsSet.t :=
  let v1 := if isBoundToLineage lineageDepth f then JsSet.add visible (f_id f)
            else visible in
  if JsSet.has tagInclude (f_id f) then JsSet.add v1 (f_id f) else v1.

Definition baseVisible (lineageDepth : JsMap.t nat) (tag : Tag) (fs : list Field)
    : JsSet.t :=
  let tagInclude := JsSet.of_list (orEmpty (t_includes tag)) in
  let tagExclude := JsSet.of_list (orEmpty (t_excludes tag)) in
  fold_left JsSet.delete tagExclude
    (fold_left (addBase lineageDepth tagInclude) fs JsSet.empty).

Inductive DecisionKind := Include | Exclude.

Record ButtonDecision := { depth : nat; kind : DecisionKind }.

(** Closest depth wins; at the same depth an exclude replaces an include. *)
Definition applyDecision (decide : JsMap.t ButtonDecision) (fieldId : string)
    (next : ButtonDecision) : JsMap.t ButtonDecision :=
  match JsMap.get decide fieldId with
  | None => JsMap.set decide fieldId next
  | Some prev =>
      if Nat.ltb (depth next) (depth prev) then JsMap.set decide fieldId next
      else if Nat.ltb (depth prev) (depth next) then decide
      else match kind prev, kind next with
           | Include, Exclude => JsMap.set decide fieldId next
           | _, _ => decide
           end
  end.

(** The state threaded through the loop over the relevant triggers. *)
Record TriggerAcc := {
  decide : JsMap.t ButtonDecision;
  revealedOrder : list string;
  revealedSeen : JsSet.t
}.

Definition applyInclude (d : nat) (acc : TriggerAcc) (id : string) : TriggerAcc :=
  let dec := applyDecision (decide acc) id {| depth := d; kind := Include |} in
  if JsSet.has (revealedSeen acc) id
  then {| decide := dec; revealedOrder := revealedOrder acc;
          revealedSeen := revealedSeen acc |}
  else {| decide := dec; revealedOrder := revealedOrder acc ++ [id];
          revealedSeen := JsSet.add (revealedSeen acc) id |}.

Definition applyExclude (d : nat) (acc : TriggerAcc) (id : string) : TriggerAcc :=
  {| decide := applyDecision (decide acc) id {| depth := d; kind := Exclude |};
     revealedOrder := revealedOrder acc;
     revealedSeen := revealedSeen acc |}.

Definition applyTrigger (ownerDepth : string -> option nat)
    (incMap excMap : JsMap.t (list string)) (acc : TriggerAcc) (triggerKey : string)
    : TriggerAcc :=
  match ownerDepth triggerKey with
  | None => acc
  | Some d =>
      fold_left (applyExclude d) (orEmpty (JsMap.get excMap triggerKey))
        (fold_left (applyInclude d) (orEmpty (JsMap.get incMap triggerKey)) acc)
  end.

(** Button decisions override the tag state. *)
Definition applyFinal (visible : JsSet.t) (e : string * ButtonDecision) : JsSet.t :=
  match kind (snd e) with
  | Include => JsSet.add visible (fst e)
  | Exclude => JsSet.delete visible (fst e)
  end.

(** Everything [visibleFieldIdsUnder] computes before it orders the ids. *)
Record VisState := {
  vs_lineage : JsMap.t nat;
  vs_base : JsSet.t;          (* [visible] before the button decisions *)
  vs_acc : TriggerAcc;
  vs_visible : JsSet.t        (* [visible] after the button decisions *)
}.

Definition visState (props : ServiceProps) (tag : Tag) (selected : JsSet.t) : VisState :=
  let nodeMap := buildNodeMap props in
  let lineageDepth := lineageDepthOf (filters props) tag in
  let byField := fieldById (fields props) in
  let ownerDepth := ownerDepthForTriggerKey nodeMap byField lineageDepth in
  let incMap := orNoMap (includes_for_buttons props) in
  let excMap := orNoMap (excludes_for_buttons props) in
  let relevant := relevantTriggers ownerDepth selected in
  let base := baseVisible lineageDepth tag (fields props) in
  let acc := fold_left (applyTrigger ownerDepth incMap excMap) relevant
               {| decide := JsMap.empty; revealedOrder := [];
                  revealedSeen := JsSet.empty |} in
  {| vs_lineage := lineageDepth;
     vs_base := base;
     vs_acc := acc;
     vs_visible := fold_left applyFinal (decide acc) base |}.

Definition notIn (s : JsSet.t) (x : string) : bool := negb (JsSet.has s x).

Definition visibleFieldIdsUnder (props : ServiceProps) (tagId : string)
    (selected : JsSet.t) : list string :=
  match JsMap.get (tagById (filters props)) tagId with
  | None => []
  | Some tag =>
      let st := visState props tag selected in
      let visible := vs_visible st in
      let base := map f_id (filter (fun f => JsSet.has visible (f_id f)) (fields props)) in
      let pinned :=
        match order_for_tags props with
        | Some m => orEmpty (JsMap.get m tagId)
        | None => []
        end in
      match pinned with
      | _ :: _ =>
          let ordered := filter (JsSet.has visible) pinned in
          let orderedSet := JsSet.of_list ordered in
          ordered ++ filter (notIn orderedSet) base
      | [] =>
          let promoted := filter (JsSet.has visible) (revealedOrder (vs_acc st)) in
          let promotedSet := JsSet.of_list promoted in
          promoted ++ filter (notIn promotedSet) base
      end
  end.

(** [ids.map((id) => fieldById.get(id)).filter(Boolean)] *)
Definition visibleFieldsUnder (props : ServiceProps) (tagId : string)
    (selected : JsSet.t) : list Field :=
  let byField := fieldById (fields props) in
  flat_map (fun id => match JsMap.get byField id with Some f => [f] | None => [] end)
    (visibleFieldIdsUnder props tagId selected).

(* ===================================================================== *)
(** * The JavaScript runtime *)
(* ===================================================================== *)

(** The built-in functions the code calls and whose full definition lies
    outside the repository.  Only the stated laws are used in proofs. *)
Class JsRuntime := {
  (** [String.prototype.trim] *)
  trim : string -> string;
  trim_idem : forall s, trim (trim s) = trim s;
  (** [Number(v)] when the result is finite, [None] otherwise *)
  toNumber : JsVal -> option Z;
  toNumber_num : forall n, toNumber (JNum n) = Some n;
  (** [String(v)] *)
  toStr : JsVal -> string;
  toStr_str : forall s, toStr (JStr s) = s;
  (** the property name that [obj[Number(v)]] reads *)
  numberKey : JsVal -> string;
  numberKey_num : forall n, numberKey (JNum n) = toStr (JNum n)
}.

(** A runtime for ASCII strings, used to run the model on examples. *)
Definition isSpace (c : ascii) : bool :=
  let n := nat_of_ascii c in
  (n =? 32)%nat || ((9 <=? n)%nat && (n <=? 13)%nat).

Fixpoint trimStart (s : string) : string :=
  match s with
  | EmptyString => EmptyString
  | String c s' => if isSpace c then trimStart s' else s
  end.

Fixpoint trimEnd (s : string) : string :=
  match s with
  | EmptyString => EmptyString
  | String c s' =>
      match trimEnd s' with
      | EmptyString => if isSpace c then EmptyString else String c EmptyString
      | r => String c r
      end
  end.

Definition asciiTrim (s : string) : string := trimEnd (trimStart s).

Definition digitOf (c : ascii) : option Z :=
  let n := nat_of_ascii c in
  if ((48 <=? n)%nat && (n <=? 57)%nat)%bool then Some (Z.of_nat (n - 48)) else None.

Fixpoint parseDigits (acc : Z) (s : string) : option Z :=
  match s with
  | EmptyString => Some acc
  | String c s' =>
      match digitOf c with
      | Some d => parseDigits (10 * acc + d) s'
      | None => None
      end
  end.

Definition asciiToNumber (v : JsVal) : option Z :=
  match v with
  | JNum n => Some n
  | JBool b => Some (if b then 1 else 0)%Z
  | JNull => Some 0%Z
  | JStr s =>
      match asciiTrim s with
      | EmptyString => Some 0%Z
      | String "-" r => match r with
                        | EmptyString => None
                        | _ => option_map Z.opp (parseDigits 0 r)
                        end
      | r => parseDigits 0 r
      end
  | _ => None
  end.

Definition digitChar (d : nat) : ascii := ascii_of_nat (48 + d).

Fixpoint natDigits (fuel n : nat) (acc : string) : string :=
  match fuel with
  | O => acc
  | S fuel' =>
      let acc' := String (digitChar (n mod 10)) acc in
      if (n / 10 =? 0)%nat then acc' else natDigits fuel' (n / 10) acc'
  end.

Definition decimalOfZ (z : Z) : string :=
  let n := Z.to_nat (Z.abs z) in
  let ds := natDigits (S n) n EmptyString in
  if (z <? 0)%Z then String "-" ds else ds.

Definition asciiToStr (v : JsVal) : string :=
  match v with
  | JStr s => s
  | JNum n => decimalOfZ n
  | JBool true => "true"
  | JBool false => "false"
  | JNull => "null"
  | JUndefined => "undefined"
  | JArr _ => EmptyString
  | JObj _ => "[object Object]"
  end.

Definition asciiNumberKey (v : JsVal) : string :=
  match asciiToNumber v with
  | Some n => decimalOfZ n
  | None => "NaN"
  end.

(* ===================================================================== *)
(** * Validation context and findings (src/core/validate/shared.ts) *)
(* ===================================================================== *)

Record Details := {
  d_tagId : option string;
  d_other : option string;
  d_label : option string;
  d_key : option string;
  d_ids : option (list string);       (* [markers] / [utilityOptionIds] *)
  d_affectedIds : option (list string)
}.

Record ValidationError := {
  e_code : string;
  e_severity : string;
  e_message : string;
  e_nodeId : option string;
  e_details : Details
}.

Record ValidationCtx := {
  v_props : ServiceProps;
  v_nodeMap : NodeMap;
  v_errors : list ValidationError;
  v_selectedKeys : JsSet.t
}.

Definition v_tags (v : ValidationCtx) : list Tag := filters (v_props v).

Definition v_fieldById (v : ValidationCtx) : JsMap.t Field :=
  fieldById (fields (v_props v)).

Definition pushErrors (v : ValidationCtx) (es : list ValidationError) : ValidationCtx :=
  {| v_props := v_props v; v_nodeMap := v_nodeMap v;
     v_errors := v_errors v ++ es; v_selectedKeys := v_selectedKeys v |}.

Definition setSelectedKeys (v : ValidationCtx) (s : JsSet.t) : ValidationCtx :=
  {| v_props := v_props v; v_nodeMap := v_nodeMap v;
     v_errors := v_errors v; v_selectedKeys := s |}.

(** [createFieldsVisibleUnder(v)]: reads [v.selectedKeys] at call time. *)
Definition fieldsVisibleUnder (v : ValidationCtx) (tagId : string) : list Field :=
  visibleFieldsUnder (v_props v) tagId (v_selectedKeys v).

Definition noDetails : Details :=
  {| d_tagId := None; d_other := None; d_label := None; d_key := None;
     d_ids := None; d_affectedIds := None |}.

(** [withAffected(details, ids)] *)
Definition withAffected (details : Details) (ids : option (list string)) : Details :=
  match ids with
  | None => details
  | Some l =>
      if (length l <=? 1)%nat then details
      else {| d_tagId := d_tagId details; d_other := d_other details;
              d_label := d_label details; d_key := d_key details;
              d_ids := d_ids details; d_affectedIds := Some l |}
  end.

(** The double quote character of the messages. *)
Definition dq : string := String (ascii_of_nat 34) EmptyString.

(** Insertion sort: [Array.prototype.sort] on strings, by code unit. *)
Fixpoint insertSorted (x : string) (l : list string) : list string :=
  match l with
  | [] => [x]
  | y :: l' => if String.leb x y then x :: l else y :: insertSorted x l'
  end.

Definition sortStrings (l : list string) : list string :=
  fold_right insertSorted [] l.

(* ===================================================================== *)
(** * Visibility rules and simulation (src/core/validate/steps/visibility.ts) *)
(* ===================================================================== *)

Record SimulateVisibilityOptions := {
  simulate : bool;                       (* [options.simulate === true] *)
  maxStates : option Z;
  maxDepth : option Z;
  simulateAllRoots : bool;
  onlyEffectfulTriggers : option bool
}.

Definition stableKeyOfSelection (keys : JsSet.t) : string :=
  String.concat "|" (sortStrings keys).

Definition hasNoBind (t : Tag) : bool :=
  match t_bind_id t with
  | Some b => negb (truthyStr b)
  | None => true
  end.

Definition resolveRootTags (tags : list Tag) : list Tag :=
  match filter hasNoBind tags with
  | [] => firstn 1 tags
  | roots => roots
  end.

Definition isEffectfulTrigger (v : ValidationCtx) (trigger : string) : bool :=
  let inc := orNoMap (includes_for_buttons (v_props v)) in
  let exc := orNoMap (excludes_for_buttons (v_props v)) in
  (0 <? length (orEmpty (JsMap.get inc trigger)))%nat
  || (0 <? length (orEmpty (JsMap.get exc trigger)))%nat.

Definition triggersOfField (v : ValidationCtx) (onlyEffectful : bool) (f : Field)
    : list string :=
  let keep := fun t => negb onlyEffectful || isEffectfulTrigger v t in
  (if f_button f then filter keep [f_id f] else [])
  ++ filter keep (map (fun o => (f_id f ++ "::" ++ o_id o)%string) (orEmpty (f_options f))).

Definition collectSelectableTriggersInContext (v : ValidationCtx) (tagId : string)
    (selectedKeys : JsSet.t) (onlyEffectful : bool) : list string :=
  let visible := visibleFieldsUnder (v_props v) tagId selectedKeys in
  sortStrings (flat_map (triggersOfField v onlyEffectful) visible).

Definition mkError (code message : string) (nodeId : string) (details : Details)
    : ValidationError :=
  {| e_code := code; e_severity := "error"; e_message := message;
     e_nodeId := Some nodeId; e_details := details |}.

Definition isBaseRole (r : PricingRole) : bool :=
  match r with Base => true | Utility => false end.

(** [o.pricing_role ?? f.pricing_role ?? "base"] *)
Definition roleOf (f : Field) (o : FieldOption) : PricingRole :=
  match o_pricing_role o with
  | Some r => r
  | None => match f_pricing_role f with Some r => r | None => Base end
  end.

Section Rules.

Context {R : JsRuntime}.

(** Duplicate visible labels under one tag. *)
Definition duplicateLabelStep (tagId : string)
    (acc : JsMap.t string * list ValidationError) (f : Field)
    : JsMap.t string * list ValidationError :=
  let label := trim (match f_label f with Some l => l | None => EmptyString end) in
  if truthyStr label then
    match JsMap.get (fst acc) label with
    | Some otherId =>
        (fst acc,
         snd acc ++
         [mkError "duplicate_visible_label"
            ("Duplicate visible label " ++ dq ++ label ++ dq ++ " under tag "
               ++ dq ++ tagId ++ dq ++ ".")%string
            (f_id f)
            (withAffected
               {| d_tagId := Some tagId; d_other := Some otherId;
                  d_label := Some label; d_key := None; d_ids := None;
                  d_affectedIds := None |}
               (Some (if truthyStr otherId then [tagId; f_id f; otherId]
                      else [tagId; f_id f])))])
    | None => (JsMap.set (fst acc) label (f_id f), snd acc)
    end
  else acc.

Definition duplicateLabels (v : ValidationCtx) (t : Tag) : list ValidationError :=
  snd (fold_left (duplicateLabelStep (t_id t)) (fieldsVisibleUnder v (t_id t))
         (JsMap.empty, [])).

(** At most one quantity marker per visible group. *)
Definition quantityMarkers (v : ValidationCtx) (t : Tag) : list ValidationError :=
  let markers := map f_id (filter f_quantity (fieldsVisibleUnder v (t_id t))) in
  if (1 <? length markers)%nat then
    [mkError "quantity_multiple_markers"
       ("Multiple quantity markers found under tag " ++ dq ++ t_id t ++ dq
          ++ ". Only one is allowed per visible group.")%string
       (t_id t)
       (withAffected
          {| d_tagId := Some (t_id t); d_other := None; d_label := None;
             d_key := None; d_ids := Some markers; d_affectedIds := None |}
          (Some (t_id t :: markers)))]
  else [].

(** Utility-priced options need a base-priced option in the same group. *)
Definition pricedOptions (f : Field) : list (FieldOption * PricingRole) :=
  map (fun o => (o, roleOf f o))
    (filter (fun o => match o_service_id o with Some _ => true | None => false end)
       (orEmpty (f_options f))).

Definition utilityWithoutBase (v : ValidationCtx) (t : Tag) : list ValidationError :=
  let priced := flat_map pricedOptions (fieldsVisibleUnder v (t_id t)) in
  let hasBase := existsb (fun p => isBaseRole (snd p)) priced in
  let utilityOptionIds :=
    map (fun p => o_id (fst p)) (filter (fun p => negb (isBaseRole (snd p))) priced) in
  let hasUtility := (0 <? length utilityOptionIds)%nat in
  if hasUtility && negb hasBase then
    [mkError "utility_without_base"
       ("Utility-priced options exist under tag " ++ dq ++ t_id t ++ dq
          ++ " but no base-priced options were found in the same visible group.")%string
       (t_id t)
       (withAffected
          {| d_tagId := Some (t_id t); d_other := None; d_label := None;
             d_key := None; d_ids := Some utilityOptionIds;
             d_affectedIds := None |}
          (Some (t_id t :: utilityOptionIds)))]
  else [].

Definition runVisibilityRulesOnce (v : ValidationCtx) : ValidationCtx :=
  pushErrors v
    (flat_map (duplicateLabels v) (v_tags v)
     ++ flat_map (quantityMarkers v) (v_tags v)
     ++ flat_map (utilityWithoutBase v) (v_tags v)).

Definition keyOfErr (e : ValidationError) : string :=
  let tagId := match d_tagId (e_details e) with Some t => t | None => EmptyString end in
  let other := match d_other (e_details e) with Some o => o | None => EmptyString end in
  let nodeId := match e_nodeId e with Some n => n | None => EmptyString end in
  (e_code e ++ "::" ++ nodeId ++ "::" ++ tagId ++ "::" ++ other ++ "::"
     ++ e_message e)%string.

Definition dedupeStep (acc : JsSet.t * list ValidationError) (e : ValidationError)
    : JsSet.t * list ValidationError :=
  if JsSet.has (fst acc) (keyOfErr e) then acc
  else (JsSet.add (fst acc) (keyOfErr e), snd acc ++ [e]).

(** De-duplicate only the findings added from [startIndex] on. *)
Definition dedupeErrorsInPlace (v : ValidationCtx) (startIndex : nat) : ValidationCtx :=
  let kept := snd (fold_left dedupeStep (skipn startIndex (v_errors v))
                     (JsSet.empty, [])) in
  {| v_props := v_props v; v_nodeMap := v_nodeMap v;
     v_errors := firstn startIndex (v_errors v) ++ kept;
     v_selectedKeys := v_selectedKeys v |}.

(** One entry of the depth-first stack. *)
Record State := {
  rootTagId : string;
  selected : JsSet.t;
  s_depth : nat
}.

(** The local variables of the simulation when the loop is left.
    [sim_explored] is an observation trace, not a variable of the source:
    the states for which the rules were run, oldest first. *)
Record Sim := {
  sim_ctx : ValidationCtx;
  sim_visited : JsSet.t;
  sim_validatedStates : nat;
  sim_explored : list State
}.

(** The states pushed for one validated state; the head of the result is
    the top of the stack. *)
Definition expand (v : ValidationCtx) (maxDepth : Z) (onlyEffectful : bool)
    (state : State) : list State :=
  if (Z.of_nat (s_depth state) >=? maxDepth)%Z then []
  else
    map (fun trig => {| rootTagId := rootTagId state;
                        selected := JsSet.add (JsSet.of_list (selected state)) trig;
                        s_depth := S (s_depth state) |})
      (filter (notIn (selected state))
         (collectSelectableTriggersInContext v (rootTagId state) (selected state)
            onlyEffectful)).

(** [while (stack.length) { ... }]: the head of [stack] is its top. *)
Equations? simLoop (maxSt maxDp : Z) (onlyEffectful : bool) (stack : list State)
    (visited : JsSet.t) (validatedStates : nat) (v : ValidationCtx)
    (explored : list State) : Sim
    by wf (Z.to_nat (maxSt - Z.of_nat validatedStates), length stack)
          (Subterm.lexprod nat nat lt lt) :=
  simLoop maxSt maxDp onlyEffectful [] visited validatedStates v explored :=
    {| sim_ctx := v; sim_visited := visited;
       sim_validatedStates := validatedStates; sim_explored := explored |};
  simLoop maxSt maxDp onlyEffectful (state :: rest) visited validatedStates v explored
    with Logic.inspect (Z.of_nat validatedStates >=? maxSt)%Z => {
    | exist _ true _ =>
        {| sim_ctx := v; sim_visited := visited;
           sim_validatedStates := validatedStates; sim_explored := explored |}
    | exist _ false Hcap
        with JsSet.has visited (stableKeyOfSelection (selected state)) => {
        | true =>
            simLoop maxSt maxDp onlyEffectful rest visited validatedStates v explored
        | false =>
            let v1 := runVisibilityRulesOnce (setSelectedKeys v (selected state)) in
            simLoop maxSt maxDp onlyEffectful
              (expand v1 maxDp onlyEffectful state ++ rest)
              (JsSet.add visited (stableKeyOfSelection (selected state)))
              (S validatedStates) v1 (explored ++ [state]) } }.
Proof.
  left. rewrite Z.geb_leb in Hcap. apply Z.leb_gt in Hcap. lia.
Defined.

End Rules.

Section Validation.

Context {R : JsRuntime}.

Definition effectiveMaxStates (options : SimulateVisibilityOptions) : Z :=
  Z.max 1 (match maxStates options with Some n => n | None => 500 end).

Definition effectiveMaxDepth (options : SimulateVisibilityOptions) : Z :=
  Z.max 0 (match maxDepth options with Some n => n | None => 6 end).

(** [options.onlyEffectfulTriggers !== false] *)
Definition effectiveOnlyEffectful (options : SimulateVisibilityOptions) : bool :=
  match onlyEffectfulTriggers options with
  | Some false => false
  | _ => true
  end.

(** The seed states, one per simulated root; the last root is on top. *)
Definition seedStack (v : ValidationCtx) (options : SimulateVisibilityOptions)
    (originalSelected : JsSet.t) : list State :=
  let roots := resolveRootTags (v_tags v) in
  let rootTags := if simulateAllRoots options then roots else firstn 1 roots in
  rev (map (fun rt => {| rootTagId := t_id rt;
                         selected := JsSet.of_list originalSelected;
                         s_depth := 0 |}) rootTags).

(** The walk of [validateVisibility] with [simulate: true], up to the
    point where the loop is left. *)
Definition simulateWalk (v : ValidationCtx) (options : SimulateVisibilityOptions) : Sim :=
  let originalSelected := JsSet.of_list (v_selectedKeys v) in
  simLoop (effectiveMaxStates options) (effectiveMaxDepth options)
    (effectiveOnlyEffectful options) (seedStack v options originalSelected)
    JsSet.empty 0 v [].

Definition validateVisibility (v : ValidationCtx) (options : SimulateVisibilityOptions)
    : ValidationCtx :=
  if negb (simulate options) then runVisibilityRulesOnce v
  else
    let originalSelected := JsSet.of_list (v_selectedKeys v) in
    let errorsStart := length (v_errors v) in
    let sim := simulateWalk v options in
    dedupeErrorsInPlace (setSelectedKeys (sim_ctx sim) originalSelected) errorsStart.

(* =================================================================== *)
(** ** Trigger-map validation (src/core/validate/steps/option-maps.ts) *)
(* =================================================================== *)

(** Fallback parser for legacy ["fieldId::optionId"] keys. *)
Definition parseFieldOptionKey (key : string) : option (string * string) :=
  match index 0 "::" key with
  | None => None
  | Some idx =>
      let fieldId := trim (substring 0 idx key) in
      let optionId := trim (sliceFrom (idx + 2) key) in
      if truthyStr fieldId && truthyStr optionId then Some (fieldId, optionId)
      else None
  end.

Definition hasOption (v : ValidationCtx) (fid oid : string) : bool :=
  match JsMap.get (v_fieldById v) fid with
  | None => false
  | Some f => existsb (fun o => String.eqb (o_id o) oid) (orEmpty (f_options f))
  end.

Record KeyCheck := {
  ok : bool;
  k_nodeId : option string;
  k_affected : option (list string)
}.

Definition validateTriggerKey (v : ValidationCtx) (key : string) : KeyCheck :=
  match JsMap.get (v_nodeMap v) key with
  | Some (NOption id _ fieldId) =>
      {| ok := true; k_nodeId := Some fieldId; k_affected := Some [fieldId; id] |}
  | Some (NField id node) =>
      {| ok := f_button node; k_nodeId := Some id; k_affected := Some [id] |}
  | Some (NTag id _) =>
      {| ok := false; k_nodeId := Some id; k_affected := Some [id] |}
  | None =>
      match parseFieldOptionKey key with
      | None => {| ok := false; k_nodeId := None; k_affected := None |}
      | Some (fieldId, optionId) =>
          {| ok := hasOption v fieldId optionId;
             k_nodeId := Some fieldId;
             k_affected := Some [fieldId; optionId] |}
      end
  end.

Definition keyDetails (k : string) : Details :=
  {| d_tagId := None; d_other := None; d_label := None; d_key := Some k;
     d_ids := None; d_affectedIds := None |}.

Definition badKeyMessage (key : string) : string :=
  ("Invalid trigger-map key " ++ dq ++ key ++ dq
     ++ ". Expected a known node id (option or button-field), or "
     ++ dq ++ "fieldId::optionId" ++ dq ++ " pointing to an existing option.")%string.

Definition badKeyError (v : ValidationCtx) (k : string) : list ValidationError :=
  let r := validateTriggerKey v k in
  if ok r then []
  else [{| e_code := "bad_option_key"; e_severity := "error";
           e_message := badKeyMessage k; e_nodeId := k_nodeId r;
           e_details := withAffected (keyDetails k) (k_affected r) |}].

Definition conflictError (v : ValidationCtx) (excMap : JsMap.t (list string))
    (k : string) : list ValidationError :=
  if JsMap.has excMap k then
    let r := validateTriggerKey v k in
    [{| e_code := "option_include_exclude_conflict"; e_severity := "error";
        e_message :=
          ("Trigger-map key " ++ dq ++ k ++ dq
             ++ " appears in both includes_for_buttons and excludes_for_buttons.")%string;
        e_nodeId := k_nodeId r;
        e_details := withAffected (keyDetails k) (k_affected r) |}]
  else [].

Definition validateOptionMaps (v : ValidationCtx) : ValidationCtx :=
  let incMap := orNoMap (includes_for_buttons (v_props v)) in
  let excMap := orNoMap (excludes_for_buttons (v_props v)) in
  pushErrors v
    (flat_map (badKeyError v) (JsMap.keys incMap)
     ++ flat_map (badKeyError v) (JsMap.keys excMap)
     ++ flat_map (conflictError v excMap) (JsMap.keys incMap)).

(** The context that [validate(props, ctx)] builds before its first step. *)
Definition initialCtx (props : ServiceProps) (selectedOptionKeys : list string)
    : ValidationCtx :=
  {| v_props := props; v_nodeMap := buildNodeMap props; v_errors := [];
     v_selectedKeys := JsSet.of_list selectedOptionKeys |}.

End Validation.

(* ===================================================================== *)
(** * Fallback resolver (src/core/utils/fallback.ts) *)
(* ===================================================================== *)

(** [ServiceIdRef = number | string] *)
Inductive ServiceIdRef :=
| SvcNum (n : Z)
| SvcStr (s : string).

(** What the resolver reads of a [DgpServiceCapability]: [cap_rate] is
    [Some] when [rate] is a finite number, a flag is [true] when its value
    is truthy. *)
Record DgpServiceCapability := {
  cap_rate : option Q;
  cap_dripfeed : bool;
  cap_refill : bool;
  cap_cancel : bool
}.

(** [DgpServiceMap]: capabilities by property name. *)
Definition DgpServiceMap := JsMap.t DgpServiceCapability.

Inductive RatePolicy :=
| LtePrimary
| WithinPct (pct : Q)
| AtLeastPctLower (pct : Q).

Record FallbackSettings := {
  requireConstraintFit : option bool;
  ratePolicy : option RatePolicy
}.

Record ServiceFallback := {
  fb_nodes : option (JsMap.t (list ServiceIdRef));
  fb_global : option (JsMap.t (list ServiceIdRef))
}.

Record FallbackParams := {
  p_primary : ServiceIdRef;
  p_nodeId : option string;
  p_tagId : option string;
  p_services : DgpServiceMap;
  p_fallbacks : option ServiceFallback;
  p_settings : option FallbackSettings;
  p_props : ServiceProps
}.

(** [DEFAULT_SETTINGS] overridden by the given settings. *)
Definition settingsRequireFit (s : option FallbackSettings) : bool :=
  match s with
  | Some st => match requireConstraintFit st with Some b => b | None => true end
  | None => true
  end.

Definition settingsRatePolicy (s : option FallbackSettings) : RatePolicy :=
  match s with
  | Some st => match ratePolicy st with Some p => p | None => LtePrimary end
  | None => LtePrimary
  end.

(** Equality of [Array.prototype.includes] on service ids. *)
Definition svcEqb (a b : ServiceIdRef) : bool :=
  match a, b with
  | SvcNum n, SvcNum m => Z.eqb n m
  | SvcStr s, SvcStr t => String.eqb s t
  | _, _ => false
  end.

Definition svcToJs (id : ServiceIdRef) : JsVal :=
  match id with
  | SvcNum n => JNum n
  | SvcStr s => JStr s
  end.

Definition passesRate (policy : RatePolicy) (primaryRate candRate : option Q) : bool :=
  match candRate, primaryRate with
  | Some c, Some p =>
      match policy with
      | LtePrimary => Qle_bool c p
      | WithinPct pct => Qle_bool c (p * (1 + pct / 100))%Q
      | AtLeastPctLower pct => Qle_bool c (p * (1 - pct / 100))%Q
      end
  | _, _ => false
  end.

(** Only flags explicitly [true] at the tag are enforced. *)
Definition satisfiesTagConstraints (tagId : string) (props : ServiceProps)
    (cap : DgpServiceCapability) : bool :=
  match find (fun t => String.eqb (t_id t) tagId) (filters props) with
  | None => true
  | Some tag =>
      match t_constraints tag with
      | None => true
      | Some eff =>
          let requires := fun k => match flag k eff with Some true => true | _ => false end in
          if requires Dripfeed && negb (cap_dripfeed cap) then false
          else if requires Refill && negb (cap_refill cap) then false
          else negb (requires Cancel && negb (cap_cancel cap))
      end
  end.

Section Fallback.

Context {R : JsRuntime}.

(** [map[Number(id)] ?? map[id]] *)
Definition getCap (services : DgpServiceMap) (id : ServiceIdRef)
    : option DgpServiceCapability :=
  match JsMap.get services (numberKey (svcToJs id)) with
  | Some c => Some c
  | None => JsMap.get services (toStr (svcToJs id))
  end.

Definition rateOf (services : DgpServiceMap) (id : ServiceIdRef) : option Q :=
  match getCap services id with
  | Some c => cap_rate c
  | None => None
  end.

(** The checks a candidate goes through once it is marked as tried. *)
Definition candidatePasses (params : FallbackParams) (cand : ServiceIdRef) : bool :=
  match getCap (p_services params) cand with
  | None => false
  | Some candCap =>
      if negb (passesRate (settingsRatePolicy (p_settings params))
                 (rateOf (p_services params) (p_primary params)) (cap_rate candCap))
      then false
      else
        match p_tagId params with
        | Some tagId =>
            if settingsRequireFit (p_settings params) && truthyStr tagId
            then satisfiesTagConstraints tagId (p_props params) candCap
            else true
        | None => true
        end
  end.

(** The inner loop over one list; [tried] is threaded through. *)
Fixpoint scanList (params : FallbackParams) (cands : list ServiceIdRef)
    (tried : list ServiceIdRef) : option ServiceIdRef * list ServiceIdRef :=
  match cands with
  | [] => (None, tried)
  | cand :: rest =>
      if existsb (svcEqb cand) tried then scanList params rest tried
      else if candidatePasses params cand then (Some cand, tried ++ [cand])
      else scanList params rest (tried ++ [cand])
  end.

Fixpoint scanLists (params : FallbackParams) (lists : list (list ServiceIdRef))
    (tried : list ServiceIdRef) : option ServiceIdRef :=
  match lists with
  | [] => None
  | cands :: more =>
      match scanList params cands tried with
      | (Some cand, _) => Some cand
      | (None, tried') => scanLists params more tried'
      end
  end.

(** The search order: node-scoped list first, then the global list keyed
    by the primary. *)
Definition candidateLists (params : FallbackParams) : list (list ServiceIdRef) :=
  let nodes := match p_fallbacks params with Some fb => fb_nodes fb | None => None end in
  let glob := match p_fallbacks params with Some fb => fb_global fb | None => None end in
  let nodeList :=
    match p_nodeId params, nodes with
    | Some nodeId, Some m =>
        if truthyStr nodeId
        then match JsMap.get m nodeId with Some l => [l] | None => [] end
        else []
    | _, _ => []
    end in
  let globalList :=
    match glob with
    | Some m => match JsMap.get m (toStr (svcToJs (p_primary params))) with
                | Some l => [l]
                | None => []
                end
    | None => []
    end in
  nodeList ++ globalList.

(** [null] is [None]. *)
Definition resolveServiceFallback (params : FallbackParams) : option ServiceIdRef :=
  scanLists params (candidateLists params) [].

End Fallback.

(* ===================================================================== *)
(** * Constraint propagation (src/core/normalise.ts) *)
(* ===================================================================== *)

(** [Partial<Record<FlagKey, { val: boolean; origin: string }>>] *)
Definition Inherited := Flags (bool * string).

Definition mapFlags {V} (f : FlagKey -> option V) : Flags V :=
  {| refill := f Refill; cancel := f Cancel; dripfeed := f Dripfeed |}.

(** [Object.keys(x).length ? x : undefined] *)
Definition nonEmptyFlags {V} (r : Flags V) : option (Flags V) :=
  match refill r, cancel r, dripfeed r with
  | None, None, None => None
  | _, _, _ => Some r
  end.

Record FlagOut := {
  fo_next : option bool;
  fo_origin : option string;
  fo_override : option Override
}.

(** The body of the loop over [FLAG_KEYS] in [visit], for one flag. *)
Definition resolveFlag (tagId : string) (inh : option (bool * string)) (prev : option bool)
    : FlagOut :=
  match inh with
  | Some (val, origin) =>
      match prev with
      | None =>
          {| fo_next := Some val; fo_origin := Some origin; fo_override := None |}
      | Some p =>
          if Bool.eqb p val
          then {| fo_next := Some val; fo_origin := Some tagId; fo_override := None |}
          else {| fo_next := Some val; fo_origin := Some origin;
                  fo_override := Some {| ov_from := p; ov_to := val; ov_origin := origin |} |}
      end
  | None =>
      match prev with
      | Some p => {| fo_next := Some p; fo_origin := Some tagId; fo_override := None |}
      | None => {| fo_next := None; fo_origin := None; fo_override := None |}
      end
  end.

(** [tag.constraints ?? {}] read at one flag. *)
Definition localFlag (tag : Tag) (k : FlagKey) : option bool :=
  match t_constraints tag with
  | Some c => flag k c
  | None => None
  end.

Definition flagOut (tag : Tag) (inherited : Inherited) (k : FlagKey) : FlagOut :=
  resolveFlag (t_id tag) (flag k inherited) (localFlag tag k).

(** The three assignments to the visited tag. *)
Definition writeConstraints (tag : Tag) (inherited : Inherited) : Tag :=
  {| t_id := t_id tag; t_label := t_label tag; t_bind_id := t_bind_id tag;
     t_service_id := t_service_id tag;
     t_includes := t_includes tag; t_excludes := t_excludes tag;
     t_constraints := nonEmptyFlags (mapFlags (fun k => fo_next (flagOut tag inherited k)));
     t_constraints_origin :=
       nonEmptyFlags (mapFlags (fun k => fo_origin (flagOut tag inherited k)));
     t_constraints_overrides :=
       nonEmptyFlags (mapFlags (fun k => fo_override (flagOut tag inherited k)));
     t_meta := t_meta tag |}.

(** Children inherit the effective values and the nearest origin. *)
Definition passDown (tag : Tag) (inherited : Inherited) : Inherited :=
  mapFlags (fun k =>
    match fo_next (flagOut tag inherited k), fo_origin (flagOut tag inherited k) with
    | Some v, Some o => Some (v, o)
    | _, _ => flag k inherited
    end).

(** [pid] when the tag has a parent that resolves, [None] for a root. *)
Definition resolvedParent (byId : JsMap.t Tag) (t : Tag) : option string :=
  match t_bind_id t with
  | Some pid => if truthyStr pid && JsMap.has byId pid then Some pid else None
  | None => None
  end.

(** Tag objects are named by their position in [props.filters]. *)
Definition indexed {A} (l : list A) : list (nat * A) := combine (seq 0 (length l)) l.

Definition addChild (byId : JsMap.t Tag) (children : JsMap.t (list nat)) (it : nat * Tag)
    : JsMap.t (list nat) :=
  match resolvedParent byId (snd it) with
  | None => children
  | Some pid => JsMap.set children pid (orEmpty (JsMap.get children pid) ++ [fst it])
  end.

Definition childrenMap (tags : list Tag) : JsMap.t (list nat) :=
  fold_left (addChild (tagById tags)) (indexed tags) JsMap.empty.

Definition isRootTag (byId : JsMap.t Tag) (t : Tag) : bool :=
  match resolvedParent byId t with None => true | Some _ => false end.

(** Roots; if there is none because of a cycle, every tag. *)
Definition startsOf (tags : list Tag) : list nat :=
  match filter (fun it => isRootTag (tagById tags) (snd it)) (indexed tags) with
  | [] => map fst (indexed tags)
  | roots => map fst roots
  end.

(** [tags[i] = t] *)
Fixpoint replaceAt {A} (i : nat) (x : A) (l : list A) : list A :=
  match l, i with
  | [], _ => []
  | _ :: l', O => x :: l'
  | y :: l', S i' => y :: replaceAt i' x l'
  end.

(** The mutable state of the traversal: the [visited] set and the tag
    objects. *)
Record PState := {
  ps_visited : JsSet.t;
  ps_tags : list Tag
}.

(** [visit(tag, inherited)].  The recursion is as deep as a chain of tags
    that were not visited before, so [fuel] above the number of tags is
    never used up (theorem [propagateConstraints_returns]); [None] is the
    result of a call that runs out of fuel. *)
Fixpoint visit (fuel : nat) (children : JsMap.t (list nat)) (i : nat)
    (inherited : Inherited) (st : PState) : option PState :=
  match fuel with
  | O => None
  | S fuel' =>
      match nth_error (ps_tags st) i with
      | None => Some st
      | Some tag =>
          if JsSet.has (ps_visited st) (t_id tag) then Some st
          else
            let st1 := {| ps_visited := JsSet.add (ps_visited st) (t_id tag);
                          ps_tags := replaceAt i (writeConstraints tag inherited)
                                       (ps_tags st) |} in
            fold_left
              (fun acc c =>
                 match acc with
                 | Some s => visit fuel' children c (passDown tag inherited) s
                 | None => None
                 end)
              (orEmpty (JsMap.get children (t_id tag)))
              (Some st1)
      end
  end.

Definition visitStart (fuel : nat) (children : JsMap.t (list nat))
    (acc : option PState) (r : nat) : option PState :=
  match acc with
  | Some s => visit fuel children r noFlags s
  | None => None
  end.

(** The tags after propagation. *)
Definition propagateConstraints (tags : list Tag) : option (list Tag) :=
  match tags with
  | [] => Some tags
  | _ =>
      option_map ps_tags
        (fold_left (visitStart (S (length tags)) (childrenMap tags)) (startsOf tags)
           (Some {| ps_visited := JsSet.empty; ps_tags := tags |}))
  end.

(* ===================================================================== *)
(** * Normalisation (src/core/normalise.ts) *)
(* ===================================================================== *)

(** What a call does: it returns, or it throws.  [IllTyped] and
    [OutOfFuel] mark the two limits of the model: a [rootIncludes] or
    [rootExcludes] array with an element that is not a string (the source
    copies such elements unchecked into a [string[]]), and a propagation
    that uses up its fuel (which never happens, see
    [propagateConstraints_returns]). *)
Inductive Outcome (A : Type) :=
| Returned (a : A)
| Thrown (message : string)
| IllTyped
| OutOfFuel.
Arguments Returned {A} _.
Arguments Thrown {A} _.
Arguments IllTyped {A}.
Arguments OutOfFuel {A}.

(** [typeof v === 'object'] for a truthy [v] *)
Definition isObject (v : JsVal) : bool :=
  match v with
  | JObj _ | JArr _ => true
  | _ => false
  end.

Definition truthy (v : JsVal) : bool :=
  match v with
  | JUndefined | JNull => false
  | JBool b => b
  | JNum n => negb (Z.eqb n 0)
  | JStr s => truthyStr s
  | JArr _ | JObj _ => true
  end.

(** [a ?? b] *)
Definition nullish (a b : JsVal) : JsVal :=
  match a with
  | JUndefined | JNull => b
  | _ => a
  end.

(** [v.k] *)
Definition jsGet (v : JsVal) (k : string) : JsVal :=
  match v with
  | JObj kvs => match JsMap.get kvs k with Some x => x | None => JUndefined end
  | _ => JUndefined
  end.

(** [k in v] *)
Definition jsIn (k : string) (v : JsVal) : bool :=
  match v with
  | JObj kvs => JsMap.has kvs k
  | _ => false
  end.

(** One optional property of an object literal: [...(c && {k: x})]. *)
Definition optProp (k : string) (o : option JsVal) : list (string * JsVal) :=
  match o with
  | Some x => [(k, x)]
  | None => []
  end.

Definition jsStrings (l : list string) : JsVal := JArr (map JStr l).

Definition roleToJs (r : PricingRole) : JsVal :=
  match r with
  | Base => JStr "base"
  | Utility => JStr "utility"
  end.

Section Normalise.

Context {R : JsRuntime}.

Definition nonBlank (s : string) : bool := (0 <? String.length (trim s))%nat.

(** [str(v)] *)
Definition str (v : JsVal) : option string :=
  match v with
  | JStr s => if nonBlank s then Some s else None
  | _ => None
  end.

(** [bool(v)] *)
Definition bool_ (v : JsVal) : option bool :=
  match v with
  | JUndefined => None
  | _ => Some (truthy v)
  end.

Definition toStringArray (v : JsVal) : list string :=
  match v with
  | JArr l => filter (fun s => truthyStr s && nonBlank s) (map toStr l)
  | _ => []
  end.

Definition toNumberOrUndefined (v : JsVal) : option Z :=
  match v with
  | JNull | JUndefined => None
  | _ => toNumber v
  end.

(** [dedupe(arr)] on strings *)
Definition dedupe (l : list string) : list string := JsSet.of_list l.

(** [Object.entries(v)] of an object or an array. *)
Definition entries (v : JsVal) : list (string * JsVal) :=
  match v with
  | JObj kvs => kvs
  | JArr l => map (fun it => (toStr (JNum (Z.of_nat (fst it))), snd it)) (indexed l)
  | _ => []
  end.

Definition orNone (l : list string) : option (list string) :=
  match l with
  | [] => None
  | _ => Some (dedupe l)
  end.

Definition coerceConstraints (c : JsVal) : option (Flags bool) :=
  if isObject c
  then Some {| refill := bool_ (jsGet c "refill");
               cancel := bool_ (jsGet c "cancel");
               dripfeed := bool_ (jsGet c "dripfeed") |}
  else None.

Definition coerceTag (src0 : JsVal) : Tag :=
  let src := if isObject src0 then src0 else JObj [] in
  let bind_id :=
    match str (jsGet src "bind_id") with
    | Some b => Some b
    | None => str (jsGet src "bindId")
    end in
  {| t_id := match str (jsGet src "id") with Some s => s | None => EmptyString end;
     t_label := match str (jsGet src "label") with Some s => s | None => EmptyString end;
     t_bind_id := bind_id;
     t_service_id :=
       toNumberOrUndefined (nullish (jsGet src "service_id") (jsGet src "serviceId"));
     t_includes := orNone (toStringArray (jsGet src "includes"));
     t_excludes := orNone (toStringArray (jsGet src "excludes"));
     t_constraints := coerceConstraints (jsGet src "constraints");
     t_constraints_origin := None;
     t_constraints_overrides := None;
     t_meta := if isObject (jsGet src "meta") then Some (jsGet src "meta") else None |}.

Definition coerceRole (v : JsVal) (inherit : PricingRole) : PricingRole :=
  match v with
  | JStr s => if String.eqb s "utility" then Utility
              else if String.eqb s "base" then Base else inherit
  | _ => inherit
  end.

Definition coerceOption (inheritRole : PricingRole) (src0 : JsVal) : JsVal :=
  let src := if isObject src0 then src0 else JObj [] in
  let value :=
    match jsGet src "value" with
    | JStr s => Some (JStr s)
    | JNum n => Some (JNum n)
    | _ => None
    end in
  JObj
    ([("id", JStr (match str (jsGet src "id") with Some s => s | None => EmptyString end));
      ("label", JStr (match str (jsGet src "label") with Some s => s | None => EmptyString end))]
     ++ optProp "value" value
     ++ optProp "service_id"
          (option_map JNum
             (toNumberOrUndefined
                (nullish (jsGet src "service_id") (jsGet src "serviceId"))))
     ++ [("pricing_role", roleToJs (coerceRole (jsGet src "pricing_role") inheritRole))]
     ++ optProp "meta" (if isObject (jsGet src "meta") then Some (jsGet src "meta") else None)).

Definition normaliseBindId (bind : JsVal) : option JsVal :=
  match bind with
  | JStr s => if truthyStr (trim s) then Some (JStr (trim s)) else None
  | JArr l =>
      match dedupe (filter truthyStr (map (fun b => trim (toStr b)) l)) with
      | [] => None
      | [one] => Some (JStr one)
      | arr => Some (jsStrings arr)
      end
  | _ => None
  end.

Definition stringOr (v : JsVal) (dflt : string) : string :=
  match v with
  | JStr s => s
  | _ => dflt
  end.

Definition axisOr (v : JsVal) (dflt : string) : string :=
  match v with
  | JStr s => if String.eqb s "x" || String.eqb s "y" then s else dflt
  | _ => dflt
  end.

(** [{...src.meta}] with [multi] made a boolean when present. *)
Definition coerceMeta (m : JsVal) : option JsVal :=
  if isObject m then
    let copy := entries m in
    Some (JObj (if JsMap.has copy "multi"
                then JsMap.set copy "multi"
                       (JBool (truthy (match JsMap.get copy "multi" with
                                       | Some x => x
                                       | None => JUndefined
                                       end)))
                else copy))
  else None.

Definition coerceField (defRole : PricingRole) (src0 : JsVal) : JsVal :=
  let src := if isObject src0 then src0 else JObj [] in
  let bindRaw := nullish (jsGet src "bind_id") (nullish (jsGet src "bind") JUndefined) in
  let type := match str (jsGet src "type") with Some s => s | None => "text" end in
  let id := match str (jsGet src "id") with Some s => JStr s | None => JUndefined end in
  let name :=
    match jsGet src "name" with
    | JStr s => if truthyStr s then Some (JStr s) else None
    | _ => None
    end in
  let pricing_role := coerceRole (jsGet src "pricing_role") defRole in
  let options :=
    match jsGet src "options" with
    | JArr (o :: os) => Some (JArr (map (coerceOption pricing_role) (o :: os)))
    | _ => None
    end in
  let component :=
    if String.eqb type "custom" then option_map JStr (str (jsGet src "component"))
    else None in
  let extra :=
    match (if jsIn "extra" src then jsGet src "extra" else JUndefined) with
    | JUndefined => None
    | x => Some x
    end in
  JObj
    ([("id", id); ("type", JStr type)]
     ++ optProp "bind_id" (normaliseBindId bindRaw)
     ++ optProp "name" name
     ++ optProp "options" options
     ++ optProp "component" component
     ++ [("pricing_role", roleToJs pricing_role);
         ("label", JStr (match str (jsGet src "label") with
                         | Some s => s
                         | None => EmptyString
                         end));
         ("placeholder", JStr (stringOr (jsGet src "placeholder") EmptyString));
         ("helperText", JStr (stringOr (jsGet src "helperText") EmptyString));
         ("helperTextPos", JStr "bottom");
         ("labelClassName", JStr (stringOr (jsGet src "labelClassName") EmptyString));
         ("required", JBool (truthy (jsGet src "required")));
         ("axis", JStr (axisOr (jsGet src "axis") "y"));
         ("labelAxis", JStr (axisOr (jsGet src "labelAxis") "x"))]
     ++ optProp "extra" extra
     ++ optProp "meta" (coerceMeta (jsGet src "meta"))).

Definition toStringArrayMapStep (out : JsMap.t (list string)) (kv : string * JsVal)
    : JsMap.t (list string) :=
  if truthyStr (fst kv) then
    match toStringArray (snd kv) with
    | [] => out
    | arr => JsMap.set out (fst kv) (dedupe arr)
    end
  else out.

Definition toStringArrayMap (src : JsVal) : option (JsMap.t (list string)) :=
  if isObject src then
    match fold_left toStringArrayMapStep (entries src) JsMap.empty with
    | [] => None
    | out => Some out
    end
  else None.

Definition stringMapToJs (m : JsMap.t (list string)) : JsVal :=
  JObj (map (fun kv => (fst kv, jsStrings (snd kv))) m).

(* ------------------------- fallbacks normaliser ------------------- *)

Definition toServiceId (x : JsVal) : ServiceIdRef :=
  match x with
  | JNum n => SvcNum n
  | JStr s => SvcStr s
  | other => SvcStr (toStr other)
  end.

Definition isEmptySvc (x : ServiceIdRef) : bool :=
  match x with
  | SvcStr s => negb (truthyStr s)
  | SvcNum _ => false
  end.

Definition toServiceIdArray (v : JsVal) : list ServiceIdRef :=
  match v with
  | JArr l => filter (fun x => negb (isEmptySvc x)) (map toServiceId l)
  | _ => []
  end.

(** [dedupe(arr)] on service ids *)
Definition dedupeSvc (l : list ServiceIdRef) : list ServiceIdRef :=
  fold_left (fun acc x => if existsb (svcEqb x) acc then acc else acc ++ [x]) l [].

(** [dedupe(arr.filter(x => String(x) !== key))] *)
Definition cleanList (key : string) (v : JsVal) : list ServiceIdRef :=
  dedupeSvc (filter (fun x => negb (String.eqb (toStr (svcToJs x)) key))
               (toServiceIdArray v)).

Definition fallbackStep (out : JsMap.t (list ServiceIdRef)) (kv : string * JsVal)
    : JsMap.t (list ServiceIdRef) :=
  match cleanList (fst kv) (snd kv) with
  | [] => out
  | clean => JsMap.set out (fst kv) clean
  end.

Definition nonEmptyMap {V} (m : JsMap.t V) : option (JsMap.t V) :=
  match m with
  | [] => None
  | _ => Some m
  end.

Definition coerceFallbacks (src : JsVal) : option ServiceFallback :=
  if isObject src then
    let g := jsGet src "global" in
    let glob :=
      if isObject g then nonEmptyMap (fold_left fallbackStep (entries g) JsMap.empty)
      else None in
    let nodes :=
      nonEmptyMap
        (fold_left fallbackStep
           (filter (fun kv => negb (String.eqb (fst kv) "global")) (entries src))
           JsMap.empty) in
    match nodes, glob with
    | None, None => None
    | _, _ => Some {| fb_nodes := nodes; fb_global := glob |}
    end
  else None.

Definition svcMapToJs (m : JsMap.t (list ServiceIdRef)) : JsVal :=
  JObj (map (fun kv => (fst kv, JArr (map svcToJs (snd kv)))) m).

(** The object [out] of [coerceFallbacks]: [global] is assigned first. *)
Definition fallbackToJs (fb : ServiceFallback) : JsVal :=
  JObj (optProp "global" (option_map svcMapToJs (fb_global fb))
        ++ optProp "nodes" (option_map svcMapToJs (fb_nodes fb))).

(* ------------------------------ tags ------------------------------ *)

Definition flagsToJs {V} (enc : V -> JsVal) (r : Flags V) : JsVal :=
  JObj (optProp "refill" (option_map enc (refill r))
        ++ optProp "cancel" (option_map enc (cancel r))
        ++ optProp "dripfeed" (option_map enc (dripfeed r))).

Definition overrideToJs (o : Override) : JsVal :=
  JObj [("from", JBool (ov_from o)); ("to", JBool (ov_to o));
        ("origin", JStr (ov_origin o))].

(** A tag as a JavaScript object; a property holding [undefined] is left
    out, as in the JSON form of the document. *)
Definition tagToJs (t : Tag) : JsVal :=
  JObj ([("id", JStr (t_id t)); ("label", JStr (t_label t))]
        ++ optProp "bind_id" (option_map JStr (t_bind_id t))
        ++ optProp "service_id" (option_map JNum (t_service_id t))
        ++ optProp "constraints" (option_map (flagsToJs JBool) (t_constraints t))
        ++ optProp "includes" (option_map jsStrings (t_includes t))
        ++ optProp "excludes" (option_map jsStrings (t_excludes t))
        ++ optProp "meta" (t_meta t)
        ++ optProp "constraints_origin"
             (option_map (flagsToJs JStr) (t_constraints_origin t))
        ++ optProp "constraints_overrides"
             (option_map (flagsToJs overrideToJs) (t_constraints_overrides t))).

Definition rootTag : Tag :=
  {| t_id := "root"; t_label := "Root"; t_bind_id := None; t_service_id := None;
     t_includes := None; t_excludes := None; t_constraints := None;
     t_constraints_origin := None; t_constraints_overrides := None;
     t_meta := None |}.

Definition isRootId (t : Tag) : bool := String.eqb (t_id t) "root".

(** The elements of an array that the source takes for a [string[]]. *)
Fixpoint rawStrings (l : list JsVal) : option (list string) :=
  match l with
  | [] => Some []
  | JStr s :: l' => option_map (cons s) (rawStrings l')
  | _ :: _ => None
  end.

(** [Array.isArray(x) ? x.slice() : []] *)
Definition rootList (v : JsVal) : option (list string) :=
  match v with
  | JArr l => rawStrings l
  | _ => Some []
  end.

Definition migrateRoot (rootIncludes rootExcludes : list string) (t : Tag) : Tag :=
  if isRootId t then
    let includes := dedupe (orEmpty (t_includes t) ++ rootIncludes) in
    let excludes := dedupe (orEmpty (t_excludes t) ++ rootExcludes) in
    let exclSet := JsSet.of_list excludes in
    {| t_id := t_id t; t_label := t_label t; t_bind_id := t_bind_id t;
       t_service_id := t_service_id t;
       t_includes := Some (filter (notIn exclSet) includes);
       t_excludes := Some excludes;
       t_constraints := t_constraints t;
       t_constraints_origin := t_constraints_origin t;
       t_constraints_overrides := t_constraints_overrides t;
       t_meta := t_meta t |}
  else t.

(** Steps 1, 3 and 4 of [normalise]: the tags before propagation. *)
Definition normaliseTags (obj : JsVal) (rootIncludes rootExcludes : list string)
    : list Tag :=
  let legacyFilters := nullish (jsGet obj "filters") (nullish (jsGet obj "tags") (JArr [])) in
  let tags0 := match legacyFilters with JArr l => map coerceTag l | _ => [] end in
  let tags1 := if existsb isRootId tags0 then tags0 else rootTag :: tags0 in
  match rootIncludes, rootExcludes with
  | [], [] => tags1
  | _, _ => map (migrateRoot rootIncludes rootExcludes) tags1
  end.

Definition normaliseFields (obj : JsVal) (defRole : PricingRole) : list JsVal :=
  match nullish (jsGet obj "fields") (JArr []) with
  | JArr l => map (coerceField defRole) l
  | _ => []
  end.

Definition normaliseWith (defRole : PricingRole) (input : JsVal) : Outcome JsVal :=
  if negb (isObject input) then Thrown "normalise(): expected an object payload"
  else
    let obj := input in
    let legacyIncForOpts :=
      nullish (jsGet obj "includes_for_options")
        (nullish (jsGet obj "includesForOptions") JUndefined) in
    let legacyExcForOpts :=
      nullish (jsGet obj "excludes_for_options")
        (nullish (jsGet obj "excludeForOptions") JUndefined) in
    match rootList (jsGet obj "rootIncludes"), rootList (jsGet obj "rootExcludes") with
    | Some rootIncludes, Some rootExcludes =>
        let tags := normaliseTags obj rootIncludes rootExcludes in
        let fields_ := normaliseFields obj defRole in
        let schema_version :=
          match jsGet obj "schema_version" with
          | JStr s => s
          | _ => "1.0"
          end in
        match propagateConstraints tags with
        | None => OutOfFuel
        | Some tags' =>
            Returned
              (JObj ([("filters", JArr (map tagToJs tags'));
                      ("fields", JArr fields_)]
                     ++ optProp "includes_for_options"
                          (option_map stringMapToJs (toStringArrayMap legacyIncForOpts))
                     ++ optProp "excludes_for_options"
                          (option_map stringMapToJs (toStringArrayMap legacyExcForOpts))
                     ++ [("schema_version", JStr schema_version)]
                     ++ optProp "fallbacks"
                          (option_map fallbackToJs
                             (coerceFallbacks (jsGet obj "fallbacks")))))
        end
    | _, _ => IllTyped
    end.

(** [normalise(input)] with the default options. *)
Definition normalise (input : JsVal) : Outcome JsVal := normaliseWith Base input.

End Normalise.

(* ===================================================================== *)
(** * The ASCII runtime is a runtime *)
(* ===================================================================== *)

Lemma trimEnd_idem (s : string) : trimEnd (trimEnd s) = trimEnd s.
Proof.
  induction s as [|c s IH]; simpl; [reflexivity|].
  destruct (trimEnd s) as [|a r] eqn:E.
  - destruct (isSpace c) eqn:Ec; simpl; [reflexivity|].
    rewrite Ec. reflexivity.
  - change (trimEnd (String c (String a r))) with
      (match trimEnd (String a r) with
       | EmptyString => if isSpace c then EmptyString else String c EmptyString
       | String x y => String c (String x y)
       end).
    rewrite IH. reflexivity.
Qed.

Lemma trimStart_fixed (c : ascii) (s : string) :
  isSpace c = false -> trimStart (String c s) = String c s.
Proof. intros H. simpl. rewrite H. reflexivity. Qed.

Lemma trimStart_trimEnd (s : string) :
  trimStart s = s -> trimStart (trimEnd s) = trimEnd s.
Proof.
  destruct s as [|c s]; [reflexivity|].
  intros H. simpl in H.
  destruct (isSpace c) eqn:Ec.
  - exfalso.
    assert (L : forall t, String.length (trimStart t) <= String.length t).
    { induction t as [|a t IHt]; simpl; [lia|].
      destruct (isSpace a); simpl; lia. }
    specialize (L s). rewrite H in L. simpl in L. lia.
  - simpl. destruct (trimEnd s); rewrite ?Ec; simpl; rewrite Ec; reflexivity.
Qed.

Lemma trimStart_idem (s : string) : trimStart (trimStart s) = trimStart s.
Proof.
  induction s as [|c s IH]; simpl; [reflexivity|].
  destruct (isSpace c) eqn:Ec; [exact IH|].
  simpl. rewrite Ec. reflexivity.
Qed.

Lemma asciiTrim_idem (s : string) : asciiTrim (asciiTrim s) = asciiTrim s.
Proof.
  unfold asciiTrim.
  rewrite (trimStart_trimEnd (trimStart s) (trimStart_idem s)).
  apply trimEnd_idem.
Qed.

#[export] Instance asciiRuntime : JsRuntime := {|
  trim := asciiTrim;
  trim_idem := asciiTrim_idem;
  toNumber := asciiToNumber;
  toNumber_num := fun n => eq_refl;
  toStr := asciiToStr;
  toStr_str := fun s => eq_refl;
  numberKey := asciiNumberKey;
  numberKey_num := fun n => eq_refl
|}.

(* ===================================================================== *)
(** * Facts about the containers *)
(* ===================================================================== *)

Lemma JsSet_has_In (s : JsSet.t) (x : string) : JsSet.has s x = true <-> In x s.
Proof.
  unfold JsSet.has. rewrite existsb_exists. split.
  - intros [y [Hy E]]. apply String.eqb_eq in E. subst. exact Hy.
  - intros H. exists x. split; [exact H|apply String.eqb_refl].
Qed.

Lemma JsSet_has_false (s : JsSet.t) (x : string) : JsSet.has s x = false <-> ~ In x s.
Proof.
  rewrite <- JsSet_has_In. destruct (JsSet.has s x); split; congruence.
Qed.

Lemma JsSet_In_add (s : JsSet.t) (x y : string) :
  In y (JsSet.add s x) <-> In y s \/ y = x.
Proof.
  unfold JsSet.add. destruct (JsSet.has s x) eqn:E.
  - apply JsSet_has_In in E. split; [auto|]. intros [H|H]; subst; auto.
  - rewrite in_app_iff. simpl. intuition.
Qed.

Lemma JsSet_In_delete (s : JsSet.t) (x y : string) :
  In y (JsSet.delete s x) <-> In y s /\ y <> x.
Proof.
  unfold JsSet.delete. rewrite filter_In. rewrite negb_true_iff, String.eqb_neq.
  intuition.
Qed.

Lemma JsSet_NoDup_add (s : JsSet.t) (x : string) : NoDup s -> NoDup (JsSet.add s x).
Proof.
  intros H. unfold JsSet.add. destruct (JsSet.has s x) eqn:E; [exact H|].
  apply JsSet_has_false in E.
  apply NoDup_app; [exact H|repeat constructor; simpl; tauto|].
  intros a Ha [<-|[]]. exact (E Ha).
Qed.

Lemma JsSet_In_fold_add (l : list string) (s : JsSet.t) (y : string) :
  In y (fold_left JsSet.add l s) <-> In y s \/ In y l.
Proof.
  revert s. induction l as [|a l IH]; intros s; simpl; [tauto|].
  rewrite IH, JsSet_In_add. intuition.
Qed.

Lemma JsSet_NoDup_fold_add (l : list string) (s : JsSet.t) :
  NoDup s -> NoDup (fold_left JsSet.add l s).
Proof.
  revert s. induction l as [|a l IH]; intros s H; simpl; [exact H|].
  apply IH, JsSet_NoDup_add, H.
Qed.

Lemma JsSet_In_of_list (l : list string) (y : string) : In y (JsSet.of_list l) <-> In y l.
Proof. unfold JsSet.of_list. rewrite JsSet_In_fold_add. simpl. tauto. Qed.

Lemma JsSet_NoDup_of_list (l : list string) : NoDup (JsSet.of_list l).
Proof. apply JsSet_NoDup_fold_add. constructor. Qed.

Lemma JsSet_has_of_list (l : list string) (y : string) :
  JsSet.has (JsSet.of_list l) y = JsSet.has l y.
Proof.
  destruct (JsSet.has l y) eqn:E.
  - apply JsSet_has_In, JsSet_In_of_list, JsSet_has_In, E.
  - apply JsSet_has_false. rewrite JsSet_In_of_list. apply JsSet_has_false, E.
Qed.

Lemma JsSet_fold_add_NoDup (l : list string) (s : JsSet.t) :
  NoDup (s ++ l) -> fold_left JsSet.add l s = s ++ l.
Proof.
  revert s. induction l as [|a l IH]; intros s H; simpl.
  - now rewrite app_nil_r.
  - assert (Ha : JsSet.has s a = false).
    { apply JsSet_has_false. intros Hin.
      apply NoDup_remove_2 in H. apply H. apply in_or_app. now left. }
    unfold JsSet.add at 2. rewrite Ha.
    rewrite IH; rewrite <- app_assoc; simpl; [reflexivity|exact H].
Qed.

(** Copying a set with [new Set(s)] gives the same members in the same
    order. *)
Lemma JsSet_of_list_NoDup (l : list string) : NoDup l -> JsSet.of_list l = l.
Proof. intros H. unfold JsSet.of_list. now rewrite JsSet_fold_add_NoDup. Qed.

Lemma JsSet_In_fold_delete (l : list string) (s : JsSet.t) (y : string) :
  In y (fold_left JsSet.delete l s) <-> In y s /\ ~ In y l.
Proof.
  revert s. induction l as [|a l IH]; intros s; simpl; [tauto|].
  rewrite IH, JsSet_In_delete. intuition.
Qed.

Lemma JsMap_get_set_same {V} (m : JsMap.t V) (k : string) (v : V) :
  JsMap.get (JsMap.set m k v) k = Some v.
Proof.
  induction m as [|[k' v'] m IH]; simpl.
  - now rewrite String.eqb_refl.
  - destruct (String.eqb k k') eqn:E; simpl; rewrite E; [reflexivity|exact IH].
Qed.

Lemma JsMap_get_set_other {V} (m : JsMap.t V) (k k' : string) (v : V) :
  k <> k' -> JsMap.get (JsMap.set m k v) k' = JsMap.get m k'.
Proof.
  intros Hne. induction m as [|[a b] m IH]; simpl.
  - apply String.eqb_neq in Hne. rewrite String.eqb_sym in Hne. now rewrite Hne.
  - destruct (String.eqb k a) eqn:E; simpl.
    + apply String.eqb_eq in E. subst a.
      assert (E' : String.eqb k' k = false) by (apply String.eqb_neq; congruence).
      now rewrite E'.
    + destruct (String.eqb k' a); [reflexivity|exact IH].
Qed.

Lemma JsMap_get_set {V} (m : JsMap.t V) (k k' : string) (v : V) :
  JsMap.get (JsMap.set m k v) k' = if String.eqb k k' then Some v else JsMap.get m k'.
Proof.
  destruct (String.eqb k k') eqn:E.
  - apply String.eqb_eq in E. subst. apply JsMap_get_set_same.
  - apply String.eqb_neq in E. now apply JsMap_get_set_other.
Qed.

Lemma JsMap_has_get {V} (m : JsMap.t V) (k : string) :
  JsMap.has m k = true <-> exists v, JsMap.get m k = Some v.
Proof.
  unfold JsMap.has. destruct (JsMap.get m k); split; eauto; try congruence.
  intros [v H]. congruence.
Qed.

Lemma JsMap_get_In {V} (m : JsMap.t V) (k : string) (v : V) :
  JsMap.get m k = Some v -> In (k, v) m.
Proof.
  induction m as [|[a b] m IH]; simpl; [congruence|].
  destruct (String.eqb k a) eqn:E.
  - apply String.eqb_eq in E. intros [= ->]. subst. now left.
  - intros H. right. now apply IH.
Qed.

Lemma JsMap_get_keys {V} (m : JsMap.t V) (k : string) :
  In k (JsMap.keys m) <-> exists v, JsMap.get m k = Some v.
Proof.
  unfold JsMap.keys. induction m as [|[a b] m IH]; simpl.
  - split; [tauto|]. intros [v H]. congruence.
  - destruct (String.eqb k a) eqn:E.
    + apply String.eqb_eq in E. subst. split; eauto.
    + apply String.eqb_neq in E. rewrite IH. split; [|tauto].
      intros [H|H]; [congruence|exact H].
Qed.

(** [new Map(entries)]: the last entry of a key is the one kept. *)
Lemma JsMap_get_fold_set {V} (l : list (string * V)) (m : JsMap.t V) (k : string) :
  JsMap.get (fold_left (fun m kv => JsMap.set m (fst kv) (snd kv)) l m) k =
  match JsMap.get (rev l) k with
  | Some v => Some v
  | None => JsMap.get m k
  end.
Proof.
  revert m. induction l as [|[a b] l IH]; intros m; simpl; [reflexivity|].
  rewrite IH. clear IH.
  assert (G : forall (l1 l2 : JsMap.t V),
             JsMap.get (l1 ++ l2) k =
             match JsMap.get l1 k with Some v => Some v | None => JsMap.get l2 k end).
  { induction l1 as [|[x y] l1 IH1]; intros l2; simpl; [reflexivity|].
    destruct (String.eqb k x); [reflexivity|apply IH1]. }
  rewrite G. destruct (JsMap.get (rev l) k); [reflexivity|].
  simpl. rewrite JsMap_get_set. rewrite (String.eqb_sym k a).
  destruct (String.eqb a k); reflexivity.
Qed.

Lemma JsMap_get_of_entries {V} (l : list (string * V)) (k : string) :
  JsMap.get (JsMap.of_entries l) k = JsMap.get (rev l) k.
Proof.
  unfold JsMap.of_entries. rewrite JsMap_get_fold_set.
  destruct (JsMap.get (rev l) k); reflexivity.
Qed.

(** A tag found by id has that id and is one of the tags. *)
Lemma tagById_Some (tags : list Tag) (id : string) (t : Tag) :
  JsMap.get (tagById tags) id = Some t -> In t tags /\ t_id t = id.
Proof.
  unfold tagById. rewrite JsMap_get_of_entries. intros H.
  apply JsMap_get_In in H. rewrite <- in_rev in H.
  apply in_map_iff in H. destruct H as [t' [E Hin]].
  inversion E; subst. split; [exact Hin|reflexivity].
Qed.

Lemma tagById_None (tags : list Tag) (id : string) :
  JsMap.get (tagById tags) id = None <-> ~ In id (map t_id tags).
Proof.
  unfold tagById. rewrite JsMap_get_of_entries.
  assert (K : In id (map t_id tags) <->
              In id (JsMap.keys (rev (map (fun t => (t_id t, t)) tags)))).
  { unfold JsMap.keys. rewrite <- map_rev, map_map. simpl.
    rewrite map_rev, <- in_rev. tauto. }
  rewrite K, JsMap_get_keys.
  destruct (JsMap.get (rev (map (fun t : Tag => (t_id t, t)) tags)) id) eqn:E.
  - split; [congruence|]. intros H. exfalso. apply H. eauto.
  - split; [|reflexivity]. intros _ [v Hv]. congruence.
Qed.

(* ===================================================================== *)
(** * Visibility engine: the base visible set *)
(* ===================================================================== *)

(** The document with its tags replaced. *)
Definition withFilters (props : ServiceProps) (tags : list Tag) : ServiceProps :=
  {| filters := tags; fields := fields props;
     includes_for_buttons := includes_for_buttons props;
     excludes_for_buttons := excludes_for_buttons props;
     order_for_tags := order_for_tags props |}.

(** [m] with [g] applied to every value. *)
Definition mapValues {V W} (g : V -> W) (m : JsMap.t V) : JsMap.t W :=
  map (fun kv => (fst kv, g (snd kv))) m.

Lemma In_fold_addBase (ld : JsMap.t nat) (inc : JsSet.t) (fs : list Field)
    (s : JsSet.t) (y : string) :
  In y (fold_left (addBase ld inc) fs s) <->
  In y s \/ exists f, In f fs /\ f_id f = y
                      /\ (isBoundToLineage ld f = true \/ In y inc).
Proof.
  revert s. induction fs as [|f fs IH]; intros s; simpl.
  - split; [auto|]. intros [H|[f [[] _]]]. exact H.
  - rewrite IH. clear IH. unfold addBase.
    assert (E : In y (if JsSet.has inc (f_id f)
                      then JsSet.add (if isBoundToLineage ld f
                                      then JsSet.add s (f_id f) else s) (f_id f)
                      else if isBoundToLineage ld f then JsSet.add s (f_id f) else s)
                <-> In y s \/ (f_id f = y
                               /\ (isBoundToLineage ld f = true \/ In y inc))).
    { destruct (JsSet.has inc (f_id f)) eqn:Hi;
        [apply JsSet_has_In in Hi|apply JsSet_has_false in Hi];
        destruct (isBoundToLineage ld f) eqn:Hb;
        rewrite ?JsSet_In_add;
        split; intros H; intuition (subst; auto; try congruence). }
    rewrite E. split.
    + intros [[H|[H1 H2]]|[f' [H1 H2]]]; eauto 6.
    + intros [H|[f' [[-> | H1] H2]]]; eauto 6.
Qed.

Lemma In_baseVisible (ld : JsMap.t nat) (tag : Tag) (fs : list Field) (fid : string) :
  In fid (baseVisible ld tag fs) <->
  (exists f, In f fs /\ f_id f = fid
             /\ (isBoundToLineage ld f = true \/ In fid (orEmpty (t_includes tag))))
  /\ ~ In fid (orEmpty (t_excludes tag)).
Proof.
  unfold baseVisible. rewrite JsSet_In_fold_delete, In_fold_addBase.
  unfold JsSet.empty.
  split.
  - intros [[[]|[f [H1 [H2 H3]]]] H4]. rewrite JsSet_In_of_list in H4.
    split; [|exact H4].
    exists f. rewrite JsSet_In_of_list in H3. auto.
  - intros [[f [H1 [H2 H3]]] H4]. split.
    + right. exists f. rewrite JsSet_In_of_list. auto.
    + rewrite JsSet_In_of_list. exact H4.
Qed.

Lemma mapValues_get {V W} (g : V -> W) (m : JsMap.t V) (k : string) :
  JsMap.get (mapValues g m) k = option_map g (JsMap.get m k).
Proof.
  induction m as [|[a b] m IH]; simpl; [reflexivity|].
  destruct (String.eqb k a); [reflexivity|exact IH].
Qed.

Lemma mapValues_has {V W} (g : V -> W) (m : JsMap.t V) (k : string) :
  JsMap.has (mapValues g m) k = JsMap.has m k.
Proof. unfold JsMap.has. rewrite mapValues_get. now destruct (JsMap.get m k). Qed.

Lemma mapValues_set {V W} (g : V -> W) (m : JsMap.t V) (k : string) (v : V) :
  JsMap.set (mapValues g m) k (g v) = mapValues g (JsMap.set m k v).
Proof.
  induction m as [|[a b] m IH]; simpl; [reflexivity|].
  destruct (String.eqb k a); simpl; [reflexivity|now rewrite IH].
Qed.

Section Retag.

(** Tags rewritten by [g], which keeps ids and parents. *)
Variable g : Tag -> Tag.
Hypothesis g_id : forall t, t_id (g t) = t_id t.
Hypothesis g_bind : forall t, t_bind_id (g t) = t_bind_id t.

Definition retagNode (r : NodeRef) : NodeRef :=
  match r with
  | NTag id node => NTag id (g node)
  | other => other
  end.

Lemma tagById_retag (tags : list Tag) :
  tagById (map g tags) = mapValues g (tagById tags).
Proof.
  unfold tagById, JsMap.of_entries.
  assert (G : forall m,
             fold_left (fun (m : JsMap.t Tag) kv => JsMap.set m (fst kv) (snd kv))
               (map (fun t => (t_id t, t)) (map g tags)) (mapValues g m) =
             mapValues g
               (fold_left (fun (m : JsMap.t Tag) kv => JsMap.set m (fst kv) (snd kv))
                  (map (fun t => (t_id t, t)) tags) m)).
  { induction tags as [|t tags IH]; intros m; simpl; [reflexivity|].
    rewrite g_id, mapValues_set. apply IH. }
  apply (G JsMap.empty).
Qed.

Lemma parentOf_retag (byId : JsMap.t Tag) (c : Tag) :
  parentOf (mapValues g byId) (g c) = option_map g (parentOf byId c).
Proof.
  unfold parentOf. rewrite g_bind. destruct (t_bind_id c) as [p|]; [|reflexivity].
  destruct (truthyStr p); [apply mapValues_get|reflexivity].
Qed.

Lemma lineageLoop_retag (fuel : nat) (byId : JsMap.t Tag) (cur : option Tag)
    (d : nat) (guard : JsSet.t) (ld : JsMap.t nat) :
  lineageLoop fuel (mapValues g byId) (option_map g cur) d guard ld =
  lineageLoop fuel byId cur d guard ld.
Proof.
  revert cur d guard ld. induction fuel as [|fuel IH]; intros; simpl; [reflexivity|].
  destruct cur as [c|]; simpl; [|reflexivity].
  rewrite g_id. destruct (JsSet.has guard (t_id c)); [reflexivity|].
  rewrite parentOf_retag. apply IH.
Qed.

Lemma lineageDepthOf_retag (tags : list Tag) (tag : Tag) :
  lineageDepthOf (map g tags) (g tag) = lineageDepthOf tags tag.
Proof.
  unfold lineageDepthOf. rewrite tagById_retag, length_map.
  apply (lineageLoop_retag _ _ (Some tag)).
Qed.

Lemma registerTag_retag (m : NodeMap) (t : Tag) :
  registerTag (mapValues retagNode m) (g t) = mapValues retagNode (registerTag m t).
Proof.
  unfold registerTag. rewrite g_id, mapValues_has.
  destruct (JsMap.has m (t_id t)); [reflexivity|].
  apply (mapValues_set retagNode m (t_id t) (NTag (t_id t) t)).
Qed.

Lemma registerOption_retag (fid : string) (m : NodeMap) (o : FieldOption) :
  registerOption fid (mapValues retagNode m) o =
  mapValues retagNode (registerOption fid m o).
Proof.
  unfold registerOption. rewrite mapValues_has.
  destruct (JsMap.has m (o_id o)); [reflexivity|].
  apply (mapValues_set retagNode m (o_id o) (NOption (o_id o) o fid)).
Qed.

Lemma registerField_retag (m : NodeMap) (f : Field) :
  registerField (mapValues retagNode m) f = mapValues retagNode (registerField m f).
Proof.
  assert (O : forall os m1,
             fold_left (registerOption (f_id f)) os (mapValues retagNode m1) =
             mapValues retagNode (fold_left (registerOption (f_id f)) os m1)).
  { induction os as [|o os IH]; intros m1; simpl; [reflexivity|].
    rewrite registerOption_retag. apply IH. }
  unfold registerField. cbv zeta. rewrite mapValues_has.
  destruct (JsMap.has m (f_id f)); [apply O|].
  rewrite <- O. f_equal.
  apply (mapValues_set retagNode m (f_id f) (NField (f_id f) f)).
Qed.

Lemma buildNodeMap_retag (props : ServiceProps) :
  buildNodeMap (withFilters props (map g (filters props))) =
  mapValues retagNode (buildNodeMap props).
Proof.
  unfold buildNodeMap, withFilters. simpl.
  assert (T : forall tags m,
             fold_left registerTag (map g tags) (mapValues retagNode m) =
             mapValues retagNode (fold_left registerTag tags m)).
  { induction tags as [|t tags IH]; intros m; simpl; [reflexivity|].
    rewrite registerTag_retag. apply IH. }
  assert (F : forall fs m,
             fold_left registerField fs (mapValues retagNode m) =
             mapValues retagNode (fold_left registerField fs m)).
  { induction fs as [|f fs IH]; intros m; simpl; [reflexivity|].
    rewrite registerField_retag. apply IH. }
  rewrite <- F, <- T. reflexivity.
Qed.

Lemma resolveTrigger_retag (key : string) (m : NodeMap) :
  resolveTrigger key (mapValues retagNode m) = resolveTrigger key m.
Proof.
  unfold resolveTrigger. destruct (index 0 "::" key); [reflexivity|].
  rewrite mapValues_get. destruct (JsMap.get m key) as [[]|]; reflexivity.
Qed.

Lemma visState_retag (props : ServiceProps) (tag : Tag) (selected : JsSet.t) :
  t_includes (g tag) = t_includes tag ->
  t_excludes (g tag) = t_excludes tag ->
  visState (withFilters props (map g (filters props))) (g tag) selected =
  visState props tag selected.
Proof.
  intros Hi He. unfold visState.
  rewrite buildNodeMap_retag.
  change (filters (withFilters props (map g (filters props))))
    with (map g (filters props)).
  change (fields (withFilters props (map g (filters props)))) with (fields props).
  change (includes_for_buttons (withFilters props (map g (filters props))))
    with (includes_for_buttons props).
  change (excludes_for_buttons (withFilters props (map g (filters props))))
    with (excludes_for_buttons props).
  rewrite lineageDepthOf_retag.
  assert (O : forall key,
             ownerDepthForTriggerKey (mapValues retagNode (buildNodeMap props))
               (fieldById (fields props)) (lineageDepthOf (filters props) tag) key =
             ownerDepthForTriggerKey (buildNodeMap props)
               (fieldById (fields props)) (lineageDepthOf (filters props) tag) key).
  { intros key. unfold ownerDepthForTriggerKey. now rewrite resolveTrigger_retag. }
  assert (B : baseVisible (lineageDepthOf (filters props) tag) (g tag) (fields props) =
              baseVisible (lineageDepthOf (filters props) tag) tag (fields props)).
  { unfold baseVisible. now rewrite Hi, He. }
  rewrite B.
  assert (Rl : relevantTriggers
                 (ownerDepthForTriggerKey (mapValues retagNode (buildNodeMap props))
                    (fieldById (fields props)) (lineageDepthOf (filters props) tag))
                 selected =
               relevantTriggers
                 (ownerDepthForTriggerKey (buildNodeMap props)
                    (fieldById (fields props)) (lineageDepthOf (filters props) tag))
                 selected).
  { unfold relevantTriggers. apply filter_ext. intros key. now rewrite O. }
  rewrite Rl.
  assert (F : forall l acc,
             fold_left
               (applyTrigger
                  (ownerDepthForTriggerKey (mapValues retagNode (buildNodeMap props))
                     (fieldById (fields props)) (lineageDepthOf (filters props) tag))
                  (orNoMap (includes_for_buttons props))
                  (orNoMap (excludes_for_buttons props))) l acc =
             fold_left
               (applyTrigger
                  (ownerDepthForTriggerKey (buildNodeMap props)
                     (fieldById (fields props)) (lineageDepthOf (filters props) tag))
                  (orNoMap (includes_for_buttons props))
                  (orNoMap (excludes_for_buttons props))) l acc).
  { induction l as [|k l IH]; intros acc; simpl; [reflexivity|].
    rewrite IH. unfold applyTrigger. now rewrite O. }
  rewrite F. reflexivity.
Qed.

(** The visible ids only depend on the ids and parents of the tags and
    on the includes and excludes of the queried tag. *)
Lemma visibleFieldIdsUnder_retag (props : ServiceProps) (tagId : string)
    (selected : JsSet.t) :
  (forall t, t_id t = tagId ->
             t_includes (g t) = t_includes t /\ t_excludes (g t) = t_excludes t) ->
  visibleFieldIdsUnder (withFilters props (map g (filters props))) tagId selected =
  visibleFieldIdsUnder props tagId selected.
Proof.
  intros Hown. unfold visibleFieldIdsUnder.
  change (filters (withFilters props (map g (filters props))))
    with (map g (filters props)).
  rewrite tagById_retag, mapValues_get.
  destruct (JsMap.get (tagById (filters props)) tagId) as [tag|] eqn:E;
    cbn [option_map]; [|reflexivity].
  destruct (tagById_Some _ _ _ E) as [_ Hid].
  destruct (Hown tag Hid) as [Hi He].
  rewrite (visState_retag props tag selected Hi He). reflexivity.
Qed.

End Retag.

(** Tags [root -> A -> B]; [f_root] is bound to [root], [f_inc] is only
    listed in the includes of [A]. *)
Definition plainTag (id : string) (bind : option string) (inc : option (list string))
    : Tag :=
  {| t_id := id; t_label := id; t_bind_id := bind; t_service_id := None;
     t_includes := inc; t_excludes := None; t_constraints := None;
     t_constraints_origin := None; t_constraints_overrides := None; t_meta := None |}.

Definition plainField (id : string) (bind : option BindId) : Field :=
  {| f_id := id; f_label := None; f_bind_id := bind; f_button := false;
     f_options := None; f_pricing_role := None; f_quantity := false |}.

Definition lineageDoc : ServiceProps :=
  {| filters := [plainTag "root" None None;
                 plainTag "A" (Some "root") (Some ["f_inc"]);
                 plainTag "B" (Some "A") None];
     fields := [plainField "f_root" (Some (BindOne "root")); plainField "f_inc" None];
     includes_for_buttons := None;
     excludes_for_buttons := None;
     order_for_tags := None |}.


(** The tags of [lineageDoc] with the includes of every tag but [B]
    emptied. *)
Definition dropForeignIncludes (t : Tag) : Tag :=
  if String.eqb (t_id t) "B" then t
  else {| t_id := t_id t; t_label := t_label t; t_bind_id := t_bind_id t;
          t_service_id := t_service_id t;
          t_includes := None; t_excludes := t_excludes t;
          t_constraints := t_constraints t;
          t_constraints_origin := t_constraints_origin t;
          t_constraints_overrides := t_constraints_overrides t;
          t_meta := t_meta t |}.


(* ===================================================================== *)
(** * Visibility engine: trigger decisions *)
(* ===================================================================== *)

(** [prev] merged with [next], as [applyDecision] does for one field. *)
Definition mergeDecision (prev : option ButtonDecision) (next : ButtonDecision)
    : ButtonDecision :=
  match prev with
  | None => next
  | Some p =>
      if Nat.ltb (depth next) (depth p) then next
      else if Nat.ltb (depth p) (depth next) then p
      else match kind p, kind next with
           | Include, Exclude => next
           | _, _ => p
           end
  end.

(** The decisions the loop over the relevant triggers takes, in order. *)
Definition eventsOfTrigger (ownerDepth : string -> option nat)
    (incMap excMap : JsMap.t (list string)) (triggerKey : string)
    : list (string * ButtonDecision) :=
  match ownerDepth triggerKey with
  | None => []
  | Some d =>
      map (fun id => (id, {| depth := d; kind := Include |}))
        (orEmpty (JsMap.get incMap triggerKey))
      ++ map (fun id => (id, {| depth := d; kind := Exclude |}))
           (orEmpty (JsMap.get excMap triggerKey))
  end.

(** The decisions taken for field [fid], in order. *)
Definition decisionsFor (fid : string) (events : list (string * ButtonDecision))
    : list ButtonDecision :=
  map snd (filter (fun e => String.eqb (fst e) fid) events).

(** [b] is among [ds] and no decision of [ds] overrides it: none is closer,
    and if one at the same depth excludes then [b] excludes. *)
Definition wins (b : ButtonDecision) (ds : list ButtonDecision) : Prop :=
  In b ds /\
  forall x, In x ds ->
    depth b <= depth x /\ (depth x = depth b -> kind x = Exclude -> kind b = Exclude).

(** The parts of [visState] by name. *)
Definition ownerDepthIn (props : ServiceProps) (tag : Tag) : string -> option nat :=
  ownerDepthForTriggerKey (buildNodeMap props) (fieldById (fields props))
    (lineageDepthOf (filters props) tag).

(** A selected trigger owned by the lineage issues decision [b] for [fid]. *)
Definition issued (props : ServiceProps) (tag : Tag) (selected : JsSet.t)
    (fid : string) (b : ButtonDecision) : Prop :=
  exists key,
    In key selected
    /\ ownerDepthIn props tag key = Some (depth b)
    /\ In fid (orEmpty (JsMap.get
                          (match kind b with
                           | Include => orNoMap (includes_for_buttons props)
                           | Exclude => orNoMap (excludes_for_buttons props)
                           end) key)).

Lemma JsMap_set_keys_NoDup {V} (m : JsMap.t V) (k : string) (v : V) :
  NoDup (JsMap.keys m) -> NoDup (JsMap.keys (JsMap.set m k v)).
Proof.
  unfold JsMap.keys.
  assert (K : forall m, In k (map fst m) ->
                        map fst (JsMap.set m k v) = map (@fst string V) m).
  { clear m. induction m as [|[a b] m IH]; simpl; [tauto|].
    destruct (String.eqb k a) eqn:E; simpl; [reflexivity|].
    intros [H|H]; [apply String.eqb_neq in E; congruence|]. now rewrite IH. }
  assert (K' : forall m, ~ In k (map fst m) ->
                         map fst (JsMap.set m k v) = map (@fst string V) m ++ [k]).
  { clear m K. induction m as [|[a b] m IH]; simpl; [reflexivity|].
    intros H. destruct (String.eqb k a) eqn:E; simpl.
    - apply String.eqb_eq in E. subst. tauto.
    - rewrite IH; tauto. }
  intros H. destruct (in_dec string_dec k (map fst m)) as [Hin|Hnin].
  - now rewrite K.
  - rewrite K' by exact Hnin. apply NoDup_app; [exact H|repeat constructor; simpl; tauto|].
    intros a Ha [<-|[]]. exact (Hnin Ha).
Qed.

Lemma JsMap_get_None_keys {V} (m : JsMap.t V) (k : string) :
  JsMap.get m k = None <-> ~ In k (JsMap.keys m).
Proof.
  rewrite JsMap_get_keys. destruct (JsMap.get m k) as [w|]; split; try congruence.
  - intros H. exfalso. apply H. eauto.
  - intros _ [w H]. congruence.
Qed.

Lemma applyDecision_get (m : JsMap.t ButtonDecision) (f f' : string)
    (next : ButtonDecision) :
  JsMap.get (applyDecision m f next) f' =
  if String.eqb f f' then Some (mergeDecision (JsMap.get m f) next)
  else JsMap.get m f'.
Proof.
  unfold applyDecision, mergeDecision.
  destruct (String.eqb f f') eqn:E.
  - apply String.eqb_eq in E. subst f'.
    destruct (JsMap.get m f) as [p|] eqn:G.
    + destruct (Nat.ltb (depth next) (depth p)); [apply JsMap_get_set_same|].
      destruct (Nat.ltb (depth p) (depth next)); [exact G|].
      destruct (kind p), (kind next); try exact G. apply JsMap_get_set_same.
    + apply JsMap_get_set_same.
  - apply String.eqb_neq in E.
    destruct (JsMap.get m f) as [p|] eqn:G.
    + destruct (Nat.ltb (depth next) (depth p)); [now apply JsMap_get_set_other|].
      destruct (Nat.ltb (depth p) (depth next)); [reflexivity|].
      destruct (kind p), (kind next); try reflexivity. now apply JsMap_get_set_other.
    + now apply JsMap_get_set_other.
Qed.

Lemma applyDecision_keys_NoDup (m : JsMap.t ButtonDecision) (f : string)
    (next : ButtonDecision) :
  NoDup (JsMap.keys m) -> NoDup (JsMap.keys (applyDecision m f next)).
Proof.
  intros H. unfold applyDecision.
  destruct (JsMap.get m f) as [p|]; [|now apply JsMap_set_keys_NoDup].
  destruct (Nat.ltb (depth next) (depth p)); [now apply JsMap_set_keys_NoDup|].
  destruct (Nat.ltb (depth p) (depth next)); [exact H|].
  destruct (kind p), (kind next); try exact H. now apply JsMap_set_keys_NoDup.
Qed.

Definition applyEvent (m : JsMap.t ButtonDecision) (e : string * ButtonDecision)
    : JsMap.t ButtonDecision :=
  applyDecision m (fst e) (snd e).

Lemma decide_applyInclude (d : nat) (ids : list string) (acc : TriggerAcc) :
  decide (fold_left (applyInclude d) ids acc) =
  fold_left applyEvent (map (fun id => (id, {| depth := d; kind := Include |})) ids)
    (decide acc).
Proof.
  revert acc. induction ids as [|id ids IH]; intros acc; simpl; [reflexivity|].
  rewrite IH. f_equal. unfold applyInclude, applyEvent.
  now destruct (JsSet.has (revealedSeen acc) id).
Qed.

Lemma decide_applyExclude (d : nat) (ids : list string) (acc : TriggerAcc) :
  decide (fold_left (applyExclude d) ids acc) =
  fold_left applyEvent (map (fun id => (id, {| depth := d; kind := Exclude |})) ids)
    (decide acc).
Proof.
  revert acc. induction ids as [|id ids IH]; intros acc; simpl; [reflexivity|].
  now rewrite IH.
Qed.

Lemma decide_applyTriggers (ownerDepth : string -> option nat)
    (incMap excMap : JsMap.t (list string)) (keys : list string) (acc : TriggerAcc) :
  decide (fold_left (applyTrigger ownerDepth incMap excMap) keys acc) =
  fold_left applyEvent (flat_map (eventsOfTrigger ownerDepth incMap excMap) keys)
    (decide acc).
Proof.
  revert acc. induction keys as [|k keys IH]; intros acc; simpl; [reflexivity|].
  rewrite IH, fold_left_app. f_equal.
  unfold applyTrigger, eventsOfTrigger.
  destruct (ownerDepth k) as [d|]; [|reflexivity].
  now rewrite decide_applyExclude, decide_applyInclude, fold_left_app.
Qed.

Lemma fold_applyEvent_keys_NoDup (events : list (string * ButtonDecision))
    (m : JsMap.t ButtonDecision) :
  NoDup (JsMap.keys m) -> NoDup (JsMap.keys (fold_left applyEvent events m)).
Proof.
  revert m. induction events as [|e events IH]; intros m H; simpl; [exact H|].
  apply IH. now apply applyDecision_keys_NoDup.
Qed.

(** The decision kept for a field is the merge of the decisions taken for
    it, in the order they were taken. *)
Lemma fold_applyEvent_get (events : list (string * ButtonDecision))
    (m : JsMap.t ButtonDecision) (fid : string) :
  JsMap.get (fold_left applyEvent events m) fid =
  fold_left (fun o b => Some (mergeDecision o b)) (decisionsFor fid events)
    (JsMap.get m fid).
Proof.
  revert m. induction events as [|[f b] events IH]; intros m; simpl; [reflexivity|].
  rewrite IH. unfold applyEvent at 1. simpl. rewrite applyDecision_get.
  unfold decisionsFor. simpl.
  destruct (String.eqb f fid) eqn:E; simpl; [|reflexivity].
  apply String.eqb_eq in E. now subst.
Qed.

Lemma mergeDecision_wins (p : ButtonDecision) (ds : list ButtonDecision)
    (next : ButtonDecision) :
  wins p ds -> wins (mergeDecision (Some p) next) (ds ++ [next]).
Proof.
  intros [Hin Hmin]. unfold mergeDecision.
  destruct (Nat.ltb (depth next) (depth p)) eqn:L1.
  - apply Nat.ltb_lt in L1. split; [apply in_or_app; right; now left|].
    intros x Hx. apply in_app_or in Hx. destruct Hx as [Hx|[<-|[]]].
    + destruct (Hmin x Hx) as [A B]. split; [lia|]. intros. lia.
    + split; [lia|auto].
  - apply Nat.ltb_ge in L1.
    destruct (Nat.ltb (depth p) (depth next)) eqn:L2.
    + apply Nat.ltb_lt in L2. split; [apply in_or_app; now left|].
      intros x Hx. apply in_app_or in Hx. destruct Hx as [Hx|[<-|[]]].
      * now apply Hmin.
      * split; [lia|]. intros. lia.
    + apply Nat.ltb_ge in L2.
      case_eq (kind p); intros Kp; case_eq (kind next); intros Kn.
      * split; [apply in_or_app; now left|].
        intros x Hx. apply in_app_or in Hx. destruct Hx as [Hx|[<-|[]]].
        -- now apply Hmin.
        -- split; [lia|]. intros _ H. congruence.
      * split; [apply in_or_app; right; now left|].
        intros x Hx. apply in_app_or in Hx. destruct Hx as [Hx|[<-|[]]].
        -- destruct (Hmin x Hx) as [A B]. split; [lia|]. intros _ _. exact Kn.
        -- split; [lia|auto].
      * split; [apply in_or_app; now left|].
        intros x Hx. apply in_app_or in Hx. destruct Hx as [Hx|[<-|[]]].
        -- now apply Hmin.
        -- split; [lia|]. intros _ _. exact Kp.
      * split; [apply in_or_app; now left|].
        intros x Hx. apply in_app_or in Hx. destruct Hx as [Hx|[<-|[]]].
        -- now apply Hmin.
        -- split; [lia|]. intros _ _. exact Kp.
Qed.

Lemma fold_merge_wins (ds pre : list ButtonDecision) (p : ButtonDecision) :
  wins p pre ->
  exists b, fold_left (fun o b => Some (mergeDecision o b)) ds (Some p) = Some b
            /\ wins b (pre ++ ds).
Proof.
  revert pre p. induction ds as [|d ds IH]; intros pre p H; simpl.
  - exists p. now rewrite app_nil_r.
  - destruct (IH (pre ++ [d]) _ (mergeDecision_wins p pre d H)) as [b [E W]].
    exists b. split; [exact E|]. now rewrite <- app_assoc in W.
Qed.

(** Starting from no decision, the decision kept is the one that wins. *)
Lemma fold_merge_from_None (ds : list ButtonDecision) :
  match fold_left (fun o b => Some (mergeDecision o b)) ds None with
  | None => ds = []
  | Some b => wins b ds
  end.
Proof.
  destruct ds as [|d ds]; simpl; [reflexivity|].
  assert (W : wins d [d]).
  { split; [now left|]. intros x [<-|[]]. split; [lia|auto]. }
  destruct (fold_merge_wins ds [d] d W) as [b [E Hb]].
  rewrite E. exact Hb.
Qed.

(** The winner only depends on which decisions were taken, not on their
    order. *)
Lemma wins_unique (b b' : ButtonDecision) (ds ds' : list ButtonDecision) :
  (forall x, In x ds <-> In x ds') -> wins b ds -> wins b' ds' -> b = b'.
Proof.
  intros Hsame [Hin Hmin] [Hin' Hmin'].
  destruct (Hmin b' (proj2 (Hsame b') Hin')) as [A1 B1].
  destruct (Hmin' b (proj1 (Hsame b) Hin)) as [A2 B2].
  assert (D : depth b = depth b') by lia.
  destruct b as [d k], b' as [d' k']. simpl in *. subst d'. f_equal.
  destruct k, k'; try reflexivity.
  - now apply B1.
  - symmetry. now apply B2.
Qed.

Lemma In_fold_applyFinal (entries : JsMap.t ButtonDecision) (s : JsSet.t) (y : string) :
  NoDup (JsMap.keys entries) ->
  In y (fold_left applyFinal entries s) <->
  match JsMap.get entries y with
  | Some d => kind d = Include
  | None => In y s
  end.
Proof.
  revert s. induction entries as [|[k d] entries IH]; intros s H; simpl; [tauto|].
  inversion H as [|a l Hk Hrest]; subst.
  rewrite (IH _ Hrest). clear IH. unfold applyFinal. simpl.
  destruct (String.eqb y k) eqn:E.
  - apply String.eqb_eq in E. subst y.
    apply JsMap_get_None_keys in Hk. rewrite Hk.
    destruct (kind d).
    + rewrite JsSet_In_add. tauto.
    + rewrite JsSet_In_delete. split; [tauto|discriminate].
  - apply String.eqb_neq in E.
    destruct (JsMap.get entries y); [tauto|].
    destruct (kind d).
    + rewrite JsSet_In_add. tauto.
    + rewrite JsSet_In_delete. tauto.
Qed.

(** The decision kept for [fid] when the loop over the triggers is done. *)
Definition finalDecision (props : ServiceProps) (tag : Tag) (selected : JsSet.t)
    (fid : string) : option ButtonDecision :=
  JsMap.get (decide (vs_acc (visState props tag selected))) fid.

(** [b] is not overridden by [x]. *)
Definition holdsAgainst (b x : ButtonDecision) : Prop :=
  depth b <= depth x /\ (depth x = depth b -> kind x = Exclude -> kind b = Exclude).

Lemma In_decisionsFor_events (od : string -> option nat)
    (incMap excMap : JsMap.t (list string)) (keys : list string) (fid : string)
    (b : ButtonDecision) :
  In b (decisionsFor fid (flat_map (eventsOfTrigger od incMap excMap) keys)) <->
  exists key, In key keys /\ od key = Some (depth b)
              /\ In fid (orEmpty (JsMap.get (match kind b with
                                             | Include => incMap
                                             | Exclude => excMap
                                             end) key)).
Proof.
  unfold decisionsFor. rewrite in_map_iff. split.
  - intros [[f b'] [E H]]. simpl in E. subst b'.
    apply filter_In in H. destruct H as [H Hf]. simpl in Hf.
    apply String.eqb_eq in Hf. subst f.
    apply in_flat_map in H. destruct H as [key [Hk He]].
    exists key. split; [exact Hk|].
    unfold eventsOfTrigger in He. destruct (od key) as [d|]; [|contradiction].
    apply in_app_or in He. destruct He as [He|He];
      apply in_map_iff in He; destruct He as [id [E Hid]];
      inversion E; subst; simpl; auto.
  - intros [key [Hk [Hd Hin]]]. exists (fid, b). split; [reflexivity|].
    apply filter_In. simpl. split; [|apply String.eqb_refl].
    apply in_flat_map. exists key. split; [exact Hk|].
    unfold eventsOfTrigger. rewrite Hd. apply in_or_app.
    destruct b as [d k]. simpl in *. destruct k.
    + left. apply in_map_iff. exists fid. auto.
    + right. apply in_map_iff. exists fid. auto.
Qed.

Lemma issued_decisionsFor (props : ServiceProps) (tag : Tag) (selected : JsSet.t)
    (fid : string) (b : ButtonDecision) :
  In b (decisionsFor fid
          (flat_map (eventsOfTrigger (ownerDepthIn props tag)
                       (orNoMap (includes_for_buttons props))
                       (orNoMap (excludes_for_buttons props)))
             (relevantTriggers (ownerDepthIn props tag) selected))) <->
  issued props tag selected fid b.
Proof.
  rewrite In_decisionsFor_events. unfold issued, relevantTriggers. split.
  - intros [key [Hk [Hd Hin]]]. apply filter_In in Hk. exists key.
    split; [tauto|]. split; [exact Hd|]. now destruct (kind b).
  - intros [key [Hk [Hd Hin]]]. exists key. split.
    + apply filter_In. split; [exact Hk|]. now rewrite Hd.
    + split; [exact Hd|]. now destruct (kind b).
Qed.

Lemma finalDecision_fold (props : ServiceProps) (tag : Tag) (selected : JsSet.t)
    (fid : string) :
  finalDecision props tag selected fid =
  fold_left (fun o b => Some (mergeDecision o b))
    (decisionsFor fid
       (flat_map (eventsOfTrigger (ownerDepthIn props tag)
                    (orNoMap (includes_for_buttons props))
                    (orNoMap (excludes_for_buttons props)))
          (relevantTriggers (ownerDepthIn props tag) selected)))
    None.
Proof.
  unfold finalDecision, visState. cbv zeta. simpl vs_acc.
  fold (ownerDepthIn props tag).
  rewrite decide_applyTriggers. simpl decide.
  now rewrite fold_applyEvent_get.
Qed.

(** The decision kept for a field is issued by a selected trigger and holds
    against every issued decision; none is kept when none was issued. *)
Lemma finalDecision_spec (props : ServiceProps) (tag : Tag) (selected : JsSet.t)
    (fid : string) :
  match finalDecision props tag selected fid with
  | Some b => issued props tag selected fid b
              /\ forall x, issued props tag selected fid x -> holdsAgainst b x
  | None => forall x, ~ issued props tag selected fid x
  end.
Proof.
  rewrite finalDecision_fold.
  pose proof (fold_merge_from_None
                (decisionsFor fid
                   (flat_map (eventsOfTrigger (ownerDepthIn props tag)
                                (orNoMap (includes_for_buttons props))
                                (orNoMap (excludes_for_buttons props)))
                      (relevantTriggers (ownerDepthIn props tag) selected)))) as H.
  destruct (fold_left _ _ None) as [b|].
  - destruct H as [Hin Hmin]. split; [now apply issued_decisionsFor|].
    intros x Hx. apply Hmin. now apply issued_decisionsFor.
  - intros x Hx. apply issued_decisionsFor in Hx. rewrite H in Hx. exact Hx.
Qed.

Lemma holdsAgainst_unique (b b' : ButtonDecision) :
  holdsAgainst b b' -> holdsAgainst b' b -> b = b'.
Proof.
  intros [A1 B1] [A2 B2]. destruct b as [d k], b' as [d' k']. simpl in *.
  assert (d = d') by lia. subst d'. f_equal.
  destruct k, k'; try reflexivity; [now apply B1|symmetry; now apply B2].
Qed.

Lemma decide_keys_NoDup (props : ServiceProps) (tag : Tag) (selected : JsSet.t) :
  NoDup (JsMap.keys (decide (vs_acc (visState props tag selected)))).
Proof.
  unfold visState. cbv zeta. simpl vs_acc. rewrite decide_applyTriggers.
  apply fold_applyEvent_keys_NoDup. constructor.
Qed.

(** A field is in the final visible set when its kept decision includes
    it, or when there is none and it is in the base set. *)
Lemma In_vs_visible (props : ServiceProps) (tag : Tag) (selected : JsSet.t)
    (fid : string) :
  In fid (vs_visible (visState props tag selected)) <->
  match finalDecision props tag selected fid with
  | Some d => kind d = Include
  | None => In fid (vs_base (visState props tag selected))
  end.
Proof.
  unfold finalDecision.
  pose proof (decide_keys_NoDup props tag selected) as N.
  unfold visState in *. cbv zeta in *. simpl vs_visible. simpl vs_acc in *.
  simpl vs_base. now apply In_fold_applyFinal.
Qed.

Lemma In_ordered_rest (visible : JsSet.t) (first : list string) (fs : list Field)
    (y : string) :
  In y (filter (JsSet.has visible) first
        ++ filter (notIn (JsSet.of_list (filter (JsSet.has visible) first)))
             (map f_id (filter (fun f => JsSet.has visible (f_id f)) fs))) <->
  In y visible /\ (In y first \/ In y (map f_id fs)).
Proof.
  rewrite in_app_iff, !filter_In, in_map_iff.
  unfold notIn. rewrite negb_true_iff, JsSet_has_false, JsSet_In_of_list, filter_In.
  rewrite JsSet_has_In. split.
  - intros [[H1 H2]|[[f [E Hf]] H2]]; [tauto|].
    apply filter_In in Hf. destruct Hf as [Hf Hv]. apply JsSet_has_In in Hv.
    subst y. split; [exact Hv|]. right. apply in_map_iff. eauto.
  - intros [Hv [H|H]]; [tauto|].
    destruct (in_dec string_dec y first) as [Hin|Hnin]; [tauto|].
    right. split; [|tauto].
    apply in_map_iff in H. destruct H as [f [E Hf]]. exists f. split; [exact E|].
    apply filter_In. split; [exact Hf|]. apply JsSet_has_In. now rewrite E.
Qed.

(** Membership in the result of [visibleFieldIdsUnder]: the id is in the
    final visible set and it is the id of a field, or pinned, or revealed. *)
Lemma In_visibleFieldIdsUnder (props : ServiceProps) (tagId : string) (tag : Tag)
    (selected : JsSet.t) (y : string) :
  JsMap.get (tagById (filters props)) tagId = Some tag ->
  In y (visibleFieldIdsUnder props tagId selected) <->
  In y (vs_visible (visState props tag selected))
  /\ (In y (map f_id (fields props))
      \/ match (match order_for_tags props with
                | Some m => orEmpty (JsMap.get m tagId)
                | None => []
                end) with
         | [] => In y (revealedOrder (vs_acc (visState props tag selected)))
         | pinned => In y pinned
         end).
Proof.
  intros Ht. unfold visibleFieldIdsUnder. rewrite Ht. cbv zeta.
  destruct (match order_for_tags props with
            | Some m => orEmpty (JsMap.get m tagId)
            | None => []
            end) as [|p ps].
  - rewrite In_ordered_rest. tauto.
  - rewrite In_ordered_rest. tauto.
Qed.


(** Two option triggers owned by fields bound to the same tag: one
    includes [f:target], the other excludes it. *)
Definition optionOf (id : string) : FieldOption :=
  {| o_id := id; o_label := id; o_service_id := None; o_pricing_role := None |}.

Definition fieldWithOptions (id : string) (bind : option BindId) (os : list FieldOption)
    : Field :=
  {| f_id := id; f_label := None; f_bind_id := bind; f_button := false;
     f_options := Some os; f_pricing_role := None; f_quantity := false |}.

Definition tieDoc : ServiceProps :=
  {| filters := [plainTag "root" None None];
     fields := [fieldWithOptions "f:a" (Some (BindOne "root")) [optionOf "o:inc"];
                fieldWithOptions "f:b" (Some (BindOne "root")) [optionOf "o:exc"];
                plainField "f:target" (Some (BindOne "root"))];
     includes_for_buttons := Some [("o:inc", ["f:target"])];
     excludes_for_buttons := Some [("o:exc", ["f:target"])];
     order_for_tags := None |}.


(* ===================================================================== *)
(** * Visibility engine: the order of the selection *)
(* ===================================================================== *)

Lemma issued_same_keys (props : ServiceProps) (tag : Tag) (s1 s2 : JsSet.t)
    (fid : string) (b : ButtonDecision) :
  (forall k, In k s1 <-> In k s2) ->
  issued props tag s1 fid b -> issued props tag s2 fid b.
Proof.
  intros Hs [key [Hk H]]. exists key. split; [now apply Hs|exact H].
Qed.

Lemma finalDecision_same_keys (props : ServiceProps) (tag : Tag) (s1 s2 : JsSet.t)
    (fid : string) :
  (forall k, In k s1 <-> In k s2) ->
  finalDecision props tag s1 fid = finalDecision props tag s2 fid.
Proof.
  intros Hs.
  assert (Hs' : forall k, In k s2 <-> In k s1) by (intros k; symmetry; apply Hs).
  pose proof (finalDecision_spec props tag s1 fid) as S1.
  pose proof (finalDecision_spec props tag s2 fid) as S2.
  destruct (finalDecision props tag s1 fid) as [b1|],
           (finalDecision props tag s2 fid) as [b2|].
  - destruct S1 as [I1 A1], S2 as [I2 A2]. f_equal.
    apply holdsAgainst_unique.
    + apply A1. now apply (issued_same_keys props tag s2 s1).
    + apply A2. now apply (issued_same_keys props tag s1 s2).
  - destruct S1 as [I1 _]. exfalso. apply (S2 b1).
    now apply (issued_same_keys props tag s1 s2).
  - destruct S2 as [I2 _]. exfalso. apply (S1 b2).
    now apply (issued_same_keys props tag s2 s1).
  - reflexivity.
Qed.

Lemma vs_base_selected (props : ServiceProps) (tag : Tag) (s1 s2 : JsSet.t) :
  vs_base (visState props tag s1) = vs_base (visState props tag s2).
Proof. reflexivity. Qed.

(** The final visible set has the same members for the same keys. *)
Lemma vs_visible_same_keys (props : ServiceProps) (tag : Tag) (s1 s2 : JsSet.t)
    (y : string) :
  (forall k, In k s1 <-> In k s2) ->
  JsSet.has (vs_visible (visState props tag s1)) y =
  JsSet.has (vs_visible (visState props tag s2)) y.
Proof.
  intros Hs.
  assert (E : In y (vs_visible (visState props tag s1)) <->
              In y (vs_visible (visState props tag s2))).
  { rewrite !In_vs_visible, (finalDecision_same_keys props tag s1 s2 y Hs).
    rewrite (vs_base_selected props tag s1 s2). tauto. }
  destruct (JsSet.has (vs_visible (visState props tag s2)) y) eqn:H2.
  - apply JsSet_has_In, E, JsSet_has_In, H2.
  - apply JsSet_has_false. rewrite E. apply JsSet_has_false, H2.
Qed.

(** What holds of the revealed ids all along the loop over the triggers. *)
Definition revealedOk (acc : TriggerAcc) : Prop :=
  NoDup (revealedOrder acc)
  /\ forall y, JsSet.has (revealedSeen acc) y = true <-> In y (revealedOrder acc).

Lemma revealed_applyInclude (d : nat) (ids : list string) (acc : TriggerAcc) :
  revealedOk acc ->
  revealedOk (fold_left (applyInclude d) ids acc)
  /\ forall y, In y (revealedOrder (fold_left (applyInclude d) ids acc)) <->
               In y (revealedOrder acc) \/ In y ids.
Proof.
  revert acc. induction ids as [|id ids IH]; intros acc Hok; simpl.
  - split; [exact Hok|]. tauto.
  - assert (Hok' : revealedOk (applyInclude d acc id)
                   /\ forall y, In y (revealedOrder (applyInclude d acc id)) <->
                                In y (revealedOrder acc) \/ y = id).
    { destruct Hok as [N S]. unfold applyInclude.
      destruct (JsSet.has (revealedSeen acc) id) eqn:E;
        unfold revealedOk; cbn [revealedOrder revealedSeen decide].
      - split; [split; assumption|]. intros y. split; [tauto|].
        intros [H | ->]; [exact H|]. now apply S.
      - assert (Hn : ~ In id (revealedOrder acc)).
        { intros H. apply S in H. congruence. }
        split; [split|].
        + apply NoDup_app; [exact N|repeat constructor; simpl; tauto|].
          intros a Ha [<-|[]]. exact (Hn Ha).
        + intros y. rewrite JsSet_has_In, JsSet_In_add, in_app_iff.
          rewrite <- JsSet_has_In, S. simpl. intuition.
        + intros y. rewrite in_app_iff. simpl. intuition. }
    destruct Hok' as [Hok' M]. destruct (IH _ Hok') as [Hok'' M'].
    split; [exact Hok''|]. intros y. rewrite M', M. intuition.
Qed.

Lemma revealed_applyExclude (d : nat) (ids : list string) (acc : TriggerAcc) :
  revealedOrder (fold_left (applyExclude d) ids acc) = revealedOrder acc
  /\ revealedSeen (fold_left (applyExclude d) ids acc) = revealedSeen acc.
Proof.
  revert acc. induction ids as [|id ids IH]; intros acc; simpl; [tauto|].
  destruct (IH (applyExclude d acc id)) as [A B]. rewrite A, B. tauto.
Qed.

Lemma revealed_applyTriggers (od : string -> option nat)
    (incMap excMap : JsMap.t (list string)) (keys : list string) (acc : TriggerAcc) :
  revealedOk acc ->
  revealedOk (fold_left (applyTrigger od incMap excMap) keys acc)
  /\ forall y,
       In y (revealedOrder (fold_left (applyTrigger od incMap excMap) keys acc)) <->
       In y (revealedOrder acc)
       \/ exists key d, In key keys /\ od key = Some d
                        /\ In y (orEmpty (JsMap.get incMap key)).
Proof.
  revert acc. induction keys as [|k keys IH]; intros acc Hok; simpl.
  - split; [exact Hok|]. intros y. split; [tauto|].
    intros [H|[key [d [[] _]]]]. exact H.
  - assert (Hk : revealedOk (applyTrigger od incMap excMap acc k)
                 /\ forall y,
                      In y (revealedOrder (applyTrigger od incMap excMap acc k)) <->
                      In y (revealedOrder acc)
                      \/ exists d, od k = Some d
                                   /\ In y (orEmpty (JsMap.get incMap k))).
    { unfold applyTrigger. destruct (od k) as [d|].
      - destruct (revealed_applyInclude d (orEmpty (JsMap.get incMap k)) acc Hok)
          as [Hok1 M1].
        destruct (revealed_applyExclude d (orEmpty (JsMap.get excMap k))
                    (fold_left (applyInclude d) (orEmpty (JsMap.get incMap k)) acc))
          as [A B].
        split.
        + unfold revealedOk. rewrite A, B. exact Hok1.
        + intros y. rewrite A, M1. split.
          * intros [H|H]; [tauto|]. right. exists d. tauto.
          * intros [H|[d' [_ H]]]; tauto.
      - split; [exact Hok|]. intros y. split; [tauto|].
        intros [H|[d [H _]]]; [exact H|discriminate]. }
    destruct Hk as [Hk M]. destruct (IH _ Hk) as [Hok' M'].
    split; [exact Hok'|]. intros y. rewrite M', M. split.
    + intros [[H|[d [H1 H2]]]|[key [d [H1 H2]]]]; [tauto| |].
      * right. exists k, d. tauto.
      * right. exists key, d. tauto.
    + intros [H|[key [d [[-> | H1] H2]]]]; [tauto| |].
      * left. right. exists d. exact H2.
      * right. exists key, d. tauto.
Qed.

Lemma revealedOrder_spec (props : ServiceProps) (tag : Tag) (selected : JsSet.t) :
  NoDup (revealedOrder (vs_acc (visState props tag selected)))
  /\ forall y,
       In y (revealedOrder (vs_acc (visState props tag selected))) <->
       exists key d, In key selected /\ ownerDepthIn props tag key = Some d
                     /\ In y (orEmpty (JsMap.get (orNoMap (includes_for_buttons props))
                                         key)).
Proof.
  unfold visState. cbv zeta. simpl vs_acc. fold (ownerDepthIn props tag).
  assert (H0 : revealedOk {| decide := JsMap.empty; revealedOrder := [];
                             revealedSeen := JsSet.empty |}).
  { split; [constructor|]. intros y. simpl. split; [discriminate|tauto]. }
  destruct (revealed_applyTriggers (ownerDepthIn props tag)
              (orNoMap (includes_for_buttons props))
              (orNoMap (excludes_for_buttons props))
              (relevantTriggers (ownerDepthIn props tag) selected) _ H0) as [[N _] M].
  split; [exact N|]. intros y. rewrite M. simpl. unfold relevantTriggers. split.
  - intros [[]|[key [d [H1 H2]]]]. apply filter_In in H1. exists key, d. tauto.
  - intros [key [d [H1 [H2 H3]]]]. right. exists key, d. split; [|tauto].
    apply filter_In. split; [exact H1|]. now rewrite H2.
Qed.

Lemma filter_has_same (v1 v2 : JsSet.t) (l : list string) :
  (forall y, JsSet.has v1 y = JsSet.has v2 y) ->
  filter (JsSet.has v1) l = filter (JsSet.has v2) l.
Proof. intros H. apply filter_ext. exact H. Qed.

Lemma notIn_same (s1 s2 : JsSet.t) :
  (forall y, In y s1 <-> In y s2) -> forall y, notIn s1 y = notIn s2 y.
Proof.
  intros H y. unfold notIn. f_equal.
  destruct (JsSet.has s2 y) eqn:E.
  - apply JsSet_has_In, H, JsSet_has_In, E.
  - apply JsSet_has_false. rewrite H. apply JsSet_has_false, E.
Qed.

(** A revealing document: two option triggers of one field, each of which
    reveals a field that is not bound to any tag. *)
Definition revealDoc : ServiceProps :=
  {| filters := [plainTag "root" None None];
     fields := [fieldWithOptions "fb" (Some (BindOne "root"))
                  [optionOf "o1"; optionOf "o2"];
                plainField "x" None;
                plainField "y" None];
     includes_for_buttons := Some [("o1", ["x"]); ("o2", ["y"])];
     excludes_for_buttons := None;
     order_for_tags := None |}.

(** C9, as stated, fails: the same two keys inserted in the other order
    give the revealed ids in the other order. *)
Lemma selection_order_changes_list :
  (forall k, In k ["o1"; "o2"] <-> In k ["o2"; "o1"])
  /\ NoDup ["o1"; "o2"] /\ NoDup ["o2"; "o1"]
  /\ visibleFieldIdsUnder revealDoc "root" ["o1"; "o2"] = ["x"; "y"; "fb"]
  /\ visibleFieldIdsUnder revealDoc "root" ["o2"; "o1"] = ["y"; "x"; "fb"]
  /\ visibleFieldIdsUnder revealDoc "root" ["o1"; "o2"]
     <> visibleFieldIdsUnder revealDoc "root" ["o2"; "o1"].
Proof.
  split; [intros k; simpl; tauto|].
  split; [repeat constructor; simpl; intuition discriminate|].
  split; [repeat constructor; simpl; intuition discriminate|].
  split; [reflexivity|]. split; [reflexivity|]. discriminate.
Qed.

(** C9, amended.  Two selections with the same keys give the same visible
    ids: the two lists are permutations of each other, and they are equal
    when [order_for_tags] pins an order for the tag.  (Without a pinned
    order the revealed ids come first in the order in which their triggers
    were inserted into the selection.) *)
Theorem same_keys_same_visible_ids (props : ServiceProps) (tagId : string)
    (s1 s2 : JsSet.t) :
  (forall k, In k s1 <-> In k s2) ->
  Permutation (visibleFieldIdsUnder props tagId s1) (visibleFieldIdsUnder props tagId s2)
  /\ ((exists m p ps, order_for_tags props = Some m
                      /\ JsMap.get m tagId = Some (p :: ps)) ->
      visibleFieldIdsUnder props tagId s1 = visibleFieldIdsUnder props tagId s2).
Proof.
  intros Hs. unfold visibleFieldIdsUnder.
  destruct (JsMap.get (tagById (filters props)) tagId) as [tag|];
    [|split; [constructor|reflexivity]].
  cbv zeta.
  pose proof (fun y => vs_visible_same_keys props tag s1 s2 y Hs) as V.
  assert (B : map f_id (filter (fun f => JsSet.has (vs_visible (visState props tag s1))
                                           (f_id f)) (fields props)) =
              map f_id (filter (fun f => JsSet.has (vs_visible (visState props tag s2))
                                           (f_id f)) (fields props))).
  { f_equal. apply filter_ext. intros f. apply V. }
  rewrite B.
  destruct (match order_for_tags props with
            | Some m => orEmpty (JsMap.get m tagId)
            | None => []
            end) as [|p ps] eqn:Pin.
  - split.
    + destruct (revealedOrder_spec props tag s1) as [N1 M1].
      destruct (revealedOrder_spec props tag s2) as [N2 M2].
      assert (P : Permutation
                    (filter (JsSet.has (vs_visible (visState props tag s1)))
                       (revealedOrder (vs_acc (visState props tag s1))))
                    (filter (JsSet.has (vs_visible (visState props tag s2)))
                       (revealedOrder (vs_acc (visState props tag s2))))).
      { apply NoDup_Permutation; [now apply NoDup_filter|now apply NoDup_filter|].
        intros y. rewrite !filter_In, V, M1, M2. split.
        - intros [[key [d [H1 H2]]] H3]. split; [|exact H3].
          exists key, d. split; [now apply Hs|exact H2].
        - intros [[key [d [H1 H2]]] H3]. split; [|exact H3].
          exists key, d. split; [now apply Hs|exact H2]. }
      apply Permutation_app; [exact P|].
      erewrite filter_ext; [apply Permutation_refl|].
      apply notIn_same. intros y. rewrite !JsSet_In_of_list.
      split; intros H; [apply (Permutation_in _ P)|
                        apply (Permutation_in _ (Permutation_sym P))]; exact H.
    + intros [m [q [qs [Hm Hq]]]]. rewrite Hm, Hq in Pin. discriminate Pin.
  - rewrite (filter_has_same _ _ (p :: ps) V).
    split; [apply Permutation_refl|reflexivity].
Qed.

Lemma same_keys_same_visible_ids_witness :
  Permutation (visibleFieldIdsUnder revealDoc "root" ["o1"; "o2"])
    (visibleFieldIdsUnder revealDoc "root" ["o2"; "o1"]).
Proof.
  apply (same_keys_same_visible_ids revealDoc "root" ["o1"; "o2"] ["o2"; "o1"]).
  intros k. simpl. tauto.
Defined.

(* ===================================================================== *)
(** * Node registry: the first registration wins *)
(* ===================================================================== *)

(** The nodes in the order [buildNodeMap] walks them: the tags, then every
    field followed by its options. *)
Definition nodesOfField (f : Field) : list (string * NodeRef) :=
  (f_id f, NField (f_id f) f)
  :: map (fun o => (o_id o, NOption (o_id o) o (f_id f))) (orEmpty (f_options f)).

Definition nodesInOrder (props : ServiceProps) : list (string * NodeRef) :=
  map (fun t => (t_id t, NTag (t_id t) t)) (filters props)
  ++ flat_map nodesOfField (fields props).

Definition registerNode (m : NodeMap) (e : string * NodeRef) : NodeMap :=
  if JsMap.has m (fst e) then m else JsMap.set m (fst e) (snd e).

Lemma registerNode_get (es : list (string * NodeRef)) (m : NodeMap) (k : string) :
  JsMap.get (fold_left registerNode es m) k =
  match JsMap.get m k with
  | Some v => Some v
  | None => JsMap.get es k
  end.
Proof.
  revert m. induction es as [|[a b] es IH]; intros m; simpl.
  - now destruct (JsMap.get m k).
  - rewrite IH. unfold registerNode. simpl. unfold JsMap.has.
    destruct (JsMap.get m a) eqn:Ga.
    + destruct (JsMap.get m k) eqn:Gk; [reflexivity|].
      destruct (String.eqb k a) eqn:E; [|reflexivity].
      apply String.eqb_eq in E. subst. congruence.
    + rewrite JsMap_get_set. rewrite (String.eqb_sym k a).
      destruct (String.eqb a k) eqn:E.
      * apply String.eqb_eq in E. subst. now rewrite Ga.
      * reflexivity.
Qed.

Lemma buildNodeMap_registerNode (props : ServiceProps) :
  buildNodeMap props = fold_left registerNode (nodesInOrder props) JsMap.empty.
Proof.
  unfold buildNodeMap, nodesInOrder. rewrite fold_left_app.
  assert (T : forall tags m,
             fold_left registerTag tags m =
             fold_left registerNode (map (fun t => (t_id t, NTag (t_id t) t)) tags) m).
  { induction tags as [|t tags IH]; intros m; simpl; [reflexivity|]. apply IH. }
  rewrite T.
  generalize (fold_left registerNode
                (map (fun t => (t_id t, NTag (t_id t) t)) (filters props))
                JsMap.empty) as m.
  induction (fields props) as [|f fs IH]; intros m; simpl; [reflexivity|].
  rewrite fold_left_app, IH. f_equal.
  assert (O : forall os m1,
             fold_left (registerOption (f_id f)) os m1 =
             fold_left registerNode
               (map (fun o => (o_id o, NOption (o_id o) o (f_id f))) os) m1).
  { induction os as [|o os IHo]; intros m1; simpl; [reflexivity|]. apply IHo. }
  unfold registerField, nodesOfField. cbv zeta. rewrite O. reflexivity.
Qed.

(** Looking an id up in the registry gives the first node registered under
    it. *)
Lemma buildNodeMap_first (props : ServiceProps) (k : string) :
  JsMap.get (buildNodeMap props) k = JsMap.get (nodesInOrder props) k.
Proof. rewrite buildNodeMap_registerNode, registerNode_get. reflexivity. Qed.

Lemma JsMap_get_app {V} (l1 l2 : JsMap.t V) (k : string) :
  JsMap.get (l1 ++ l2) k =
  match JsMap.get l1 k with Some v => Some v | None => JsMap.get l2 k end.
Proof.
  induction l1 as [|[x y] l1 IH]; simpl; [reflexivity|].
  destruct (String.eqb k x); [reflexivity|apply IH].
Qed.

(** A tag id always resolves to a tag. *)
Lemma buildNodeMap_tag (props : ServiceProps) (k : string) :
  In k (map t_id (filters props)) ->
  exists id t, JsMap.get (buildNodeMap props) k = Some (NTag id t).
Proof.
  intros H. rewrite buildNodeMap_first. unfold nodesInOrder. rewrite JsMap_get_app.
  induction (filters props) as [|t ts IH]; simpl in *; [contradiction|].
  destruct (String.eqb k (t_id t)) eqn:E; [eauto|].
  apply String.eqb_neq in E. destruct H as [H|H]; [congruence|]. now apply IH.
Qed.

(* ===================================================================== *)
(** * Trigger-map validation *)
(* ===================================================================== *)

Definition reported (code : string) (errs : list ValidationError) (key : string) : Prop :=
  exists e, In e errs /\ e_code e = code /\ d_key (e_details e) = Some key.

Section OptionMaps.

Context {R : JsRuntime}.

(** The option [oid] exists under the field registered as [fid]. *)
Definition optionExistsUnder (props : ServiceProps) (fid oid : string) : Prop :=
  exists f o, JsMap.get (fieldById (fields props)) fid = Some f
              /\ In o (orEmpty (f_options f)) /\ o_id o = oid.

(** When a key of a trigger map is rejected: the first node registered
    under it is a tag or a field that is not a button; or no node is
    registered under it and it is not a composite [fieldId::optionId]
    (parts trimmed) that names an existing option. *)
Definition keyRejected (props : ServiceProps) (key : string) : Prop :=
  match JsMap.get (nodesInOrder props) key with
  | Some (NTag _ _) => True
  | Some (NField _ f) => f_button f = false
  | Some (NOption _ _ _) => False
  | None =>
      match parseFieldOptionKey key with
      | None => True
      | Some (fid, oid) => ~ optionExistsUnder props fid oid
      end
  end.

Lemma withAffected_key (d : Details) (ids : option (list string)) :
  d_key (withAffected d ids) = d_key d.
Proof.
  unfold withAffected. destruct ids as [l|]; [|reflexivity].
  now destruct (length l <=? 1)%nat.
Qed.

Lemma hasOption_spec (v : ValidationCtx) (fid oid : string) :
  hasOption v fid oid = true <-> optionExistsUnder (v_props v) fid oid.
Proof.
  unfold hasOption, optionExistsUnder, v_fieldById.
  destruct (JsMap.get (fieldById (fields (v_props v))) fid) as [f|].
  - rewrite existsb_exists. split.
    + intros [o [Ho E]]. apply String.eqb_eq in E. eauto.
    + intros [f' [o [[= <-] [Ho E]]]]. exists o. split; [exact Ho|].
      now apply String.eqb_eq.
  - split; [discriminate|]. intros [f [o [H _]]]. discriminate.
Qed.

Lemma validateTriggerKey_rejects (v : ValidationCtx) (key : string) :
  v_nodeMap v = buildNodeMap (v_props v) ->
  ok (validateTriggerKey v key) = false <-> keyRejected (v_props v) key.
Proof.
  intros Hm. unfold validateTriggerKey, keyRejected.
  rewrite Hm, buildNodeMap_first.
  destruct (JsMap.get (nodesInOrder (v_props v)) key) as [[id t|id f|id o fid]|]; simpl.
  - tauto.
  - tauto.
  - split; [discriminate|tauto].
  - destruct (parseFieldOptionKey key) as [[fid oid]|]; simpl; [|tauto].
    rewrite <- hasOption_spec. now destruct (hasOption v fid oid).
Qed.

Lemma badKeyError_reported (v : ValidationCtx) (keys : list string) (key : string) :
  reported "bad_option_key" (flat_map (badKeyError v) keys) key <->
  In key keys /\ ok (validateTriggerKey v key) = false.
Proof.
  unfold reported. split.
  - intros [e [Hin [_ Hk]]]. apply in_flat_map in Hin.
    destruct Hin as [k [Hkin He]]. unfold badKeyError in He.
    destruct (ok (validateTriggerKey v k)) eqn:E; [contradiction|].
    destruct He as [<-|[]]. simpl in Hk. rewrite withAffected_key in Hk.
    inversion Hk. subst. tauto.
  - intros [Hin Hok].
    exists {| e_code := "bad_option_key"; e_severity := "error";
              e_message := badKeyMessage key;
              e_nodeId := k_nodeId (validateTriggerKey v key);
              e_details := withAffected (keyDetails key)
                             (k_affected (validateTriggerKey v key)) |}.
    split; [|split; [reflexivity|simpl; now rewrite withAffected_key]].
    apply in_flat_map. exists key. split; [exact Hin|].
    unfold badKeyError. rewrite Hok. now left.
Qed.

Lemma conflictError_reported (v : ValidationCtx) (excMap : JsMap.t (list string))
    (keys : list string) (key : string) :
  reported "option_include_exclude_conflict"
    (flat_map (conflictError v excMap) keys) key <->
  In key keys /\ In key (JsMap.keys excMap).
Proof.
  unfold reported. split.
  - intros [e [Hin [_ Hk]]]. apply in_flat_map in Hin.
    destruct Hin as [k [Hkin He]]. unfold conflictError in He.
    destruct (JsMap.has excMap k) eqn:E; [|contradiction].
    destruct He as [<-|[]]. simpl in Hk. rewrite withAffected_key in Hk.
    inversion Hk. subst. split; [exact Hkin|].
    apply JsMap_get_keys. now apply JsMap_has_get.
  - intros [Hin Hex]. apply JsMap_get_keys, JsMap_has_get in Hex.
    eexists. split; [apply in_flat_map; exists key; split; [exact Hin|]|].
    + unfold conflictError. rewrite Hex. now left.
    + split; [reflexivity|]. simpl. now rewrite withAffected_key.
Qed.

Lemma reported_app (code : string) (l1 l2 : list ValidationError) (key : string) :
  reported code (l1 ++ l2) key <-> reported code l1 key \/ reported code l2 key.
Proof.
  unfold reported. split.
  - intros [e [H1 H2]]. apply in_app_or in H1. destruct H1; eauto.
  - intros [[e [H1 H2]]|[e [H1 H2]]]; exists e; (split; [|exact H2]);
      apply in_or_app; auto.
Qed.

Lemma badKeyError_code (v : ValidationCtx) (keys : list string) (code key : string) :
  code <> "bad_option_key" -> ~ reported code (flat_map (badKeyError v) keys) key.
Proof.
  intros Hc [e [Hin [Hcode _]]]. apply in_flat_map in Hin.
  destruct Hin as [k [_ He]]. unfold badKeyError in He.
  destruct (ok (validateTriggerKey v k)); [contradiction|].
  destruct He as [<-|[]]. simpl in Hcode. congruence.
Qed.

Lemma conflictError_code (v : ValidationCtx) (excMap : JsMap.t (list string))
    (keys : list string) (code key : string) :
  code <> "option_include_exclude_conflict" ->
  ~ reported code (flat_map (conflictError v excMap) keys) key.
Proof.
  intros Hc [e [Hin [Hcode _]]]. apply in_flat_map in Hin.
  destruct Hin as [k [_ He]]. unfold conflictError in He.
  destruct (JsMap.has excMap k); [|contradiction].
  destruct He as [<-|[]]. simpl in Hcode. congruence.
Qed.


End OptionMaps.

(** A document in which the id [x] is carried by a tag and by an option. *)
Definition clashDoc : ServiceProps :=
  {| filters := [plainTag "root" None None; plainTag "x" (Some "root") None];
     fields := [fieldWithOptions "f" (Some (BindOne "root")) [optionOf "x"]];
     includes_for_buttons := Some [("x", ["f"])];
     excludes_for_buttons := None;
     order_for_tags := None |}.

(** A document in which a field that is not a button has an id of the
    composite form, [a::b], while the field [a] has the option [b]. *)
Definition compositeDoc : ServiceProps :=
  {| filters := [plainTag "root" None None];
     fields := [fieldWithOptions "a" (Some (BindOne "root")) [optionOf "b"];
                plainField "a::b" (Some (BindOne "root"))];
     includes_for_buttons := Some [("a::b", ["a"])];
     excludes_for_buttons := None;
     order_for_tags := None |}.



(* ===================================================================== *)
(** * Fallback resolver *)
(* ===================================================================== *)

Definition capFlag (k : FlagKey) (cap : DgpServiceCapability) : bool :=
  match k with
  | Refill => cap_refill cap
  | Cancel => cap_cancel cap
  | Dripfeed => cap_dripfeed cap
  end.

(** The capability has every flag that the effective constraints of the
    tag set to [true]. *)
Definition fitsTag (tagId : string) (props : ServiceProps) (cap : DgpServiceCapability)
    : Prop :=
  forall tag eff k,
    find (fun t => String.eqb (t_id t) tagId) (filters props) = Some tag ->
    t_constraints tag = Some eff ->
    flag k eff = Some true ->
    capFlag k cap = true.

Lemma satisfiesTagConstraints_spec (tagId : string) (props : ServiceProps)
    (cap : DgpServiceCapability) :
  satisfiesTagConstraints tagId props cap = true <-> fitsTag tagId props cap.
Proof.
  unfold satisfiesTagConstraints, fitsTag.
  destruct (find (fun t => String.eqb (t_id t) tagId) (filters props)) as [tag|].
  - destruct (t_constraints tag) as [eff|] eqn:C.
    + destruct eff as [[[|]|] [[|]|] [[|]|]], cap as [rate [|] [|] [|]]; simpl;
        (split;
         [ intros H tag' eff' k E1 E2 Hk;
           inversion E1; subst tag'; rewrite C in E2; inversion E2; subst eff';
           destruct k; simpl in *; congruence
         | intros H; try reflexivity;
           first [ exact (H _ _ Dripfeed eq_refl C eq_refl)
                 | exact (H _ _ Refill eq_refl C eq_refl)
                 | exact (H _ _ Cancel eq_refl C eq_refl) ] ]).
    + split; [|reflexivity]. intros _ tag' eff' k E1 E2.
      inversion E1; subst tag'. congruence.
  - split; [|reflexivity]. intros _ tag' eff' k H. discriminate.
Qed.

Lemma svcEqb_eq (a b : ServiceIdRef) : svcEqb a b = true <-> a = b.
Proof.
  destruct a, b; simpl; split; try discriminate.
  - intros H. apply Z.eqb_eq in H. now subst.
  - intros [= ->]. apply Z.eqb_refl.
  - intros H. apply String.eqb_eq in H. now subst.
  - intros [= ->]. apply String.eqb_refl.
Qed.

Section FallbackFacts.

Context {R : JsRuntime}.

(** The candidate is in the catalog, passes the rate policy against the
    primary's rate and, when constraint fit is required and a tag context
    is given, fits the constraints of that tag. *)
Definition acceptable (params : FallbackParams) (cand : ServiceIdRef) : Prop :=
  exists cap,
    getCap (p_services params) cand = Some cap
    /\ passesRate (settingsRatePolicy (p_settings params))
         (rateOf (p_services params) (p_primary params)) (cap_rate cap) = true
    /\ (settingsRequireFit (p_settings params) = true ->
        forall tagId, p_tagId params = Some tagId -> tagId <> EmptyString ->
                      fitsTag tagId (p_props params) cap).

Lemma candidatePasses_spec (params : FallbackParams) (cand : ServiceIdRef) :
  candidatePasses params cand = true <-> acceptable params cand.
Proof.
  unfold candidatePasses, acceptable.
  destruct (getCap (p_services params) cand) as [cap|].
  - destruct (passesRate _ _ (cap_rate cap)) eqn:Hr; simpl.
    + destruct (p_tagId params) as [tagId|] eqn:Ht.
      * destruct (settingsRequireFit (p_settings params)) eqn:Hf; simpl.
        -- unfold truthyStr. destruct (String.eqb tagId EmptyString) eqn:E; simpl.
           ++ apply String.eqb_eq in E. split; [|reflexivity].
              intros _. exists cap. repeat split; auto.
              intros _ t [= <-] Hne. congruence.
           ++ apply String.eqb_neq in E. rewrite satisfiesTagConstraints_spec.
              split.
              ** intros H. exists cap. repeat split; auto.
                 intros _ t [= <-] _. exact H.
              ** intros [cap' [[= <-] [_ H]]]. now apply H.
        -- split; [|reflexivity]. intros _. exists cap. repeat split; auto.
           discriminate.
      * split; [|reflexivity]. intros _. exists cap. repeat split; auto.
        intros _ t H. discriminate.
    + split; [discriminate|]. intros [cap' [[= <-] [H _]]]. congruence.
  - split; [discriminate|]. intros [cap [H _]]. discriminate.
Qed.

(** Skipping the candidates already tried does not change the outcome:
    a candidate that was tried and did not end the search failed. *)
Lemma scanList_find (params : FallbackParams) (cands tried : list ServiceIdRef) :
  (forall t, In t tried -> candidatePasses params t = false) ->
  fst (scanList params cands tried) = find (candidatePasses params) cands
  /\ (find (candidatePasses params) cands = None ->
      forall t, In t (snd (scanList params cands tried)) ->
                candidatePasses params t = false).
Proof.
  revert tried. induction cands as [|c cands IH]; intros tried Ht; simpl.
  - split; [reflexivity|]. intros _. exact Ht.
  - destruct (existsb (svcEqb c) tried) eqn:E.
    + apply existsb_exists in E. destruct E as [t [Hin Heq]].
      apply svcEqb_eq in Heq. subst t. rewrite (Ht c Hin). now apply IH.
    + destruct (candidatePasses params c) eqn:P; simpl.
      * split; [reflexivity|discriminate].
      * apply IH. intros t Hin. apply in_app_or in Hin.
        destruct Hin as [Hin|[<-|[]]]; [now apply Ht|exact P].
Qed.

Lemma scanLists_find (params : FallbackParams) (lists : list (list ServiceIdRef))
    (tried : list ServiceIdRef) :
  (forall t, In t tried -> candidatePasses params t = false) ->
  scanLists params lists tried = find (candidatePasses params) (concat lists).
Proof.
  revert tried. induction lists as [|l lists IH]; intros tried Ht; simpl;
    [reflexivity|].
  destruct (scanList_find params l tried Ht) as [F N].
  destruct (scanList params l tried) as [[c|] tried'] eqn:S; simpl in *.
  - assert (G : forall xs ys, find (candidatePasses params) xs = Some c ->
                              find (candidatePasses params) (xs ++ ys) = Some c).
    { induction xs as [|x xs IHx]; intros ys; simpl; [discriminate|].
      destruct (candidatePasses params x); [auto|apply IHx]. }
    symmetry. apply G. now symmetry.
  - assert (G : forall xs ys, find (candidatePasses params) xs = None ->
                              find (candidatePasses params) (xs ++ ys) =
                              find (candidatePasses params) ys).
    { induction xs as [|x xs IHx]; intros ys; simpl; [reflexivity|].
      destruct (candidatePasses params x); [discriminate|apply IHx]. }
    rewrite G by (now symmetry). apply IH. apply N. now symmetry.
Qed.


End FallbackFacts.

(** A catalog with the primary service 1 at rate 100 and the candidates 2
    (rate 111) and 3 (rate 109); the global list of 1 tries 2 before 3. *)
Definition rateCap (r : Z) : DgpServiceCapability :=
  {| cap_rate := Some (inject_Z r); cap_dripfeed := false; cap_refill := false;
     cap_cancel := false |}.

Definition rateParams : FallbackParams :=
  {| p_primary := SvcNum 1;
     p_nodeId := None;
     p_tagId := None;
     p_services := [("1", rateCap 100); ("2", rateCap 111); ("3", rateCap 109)];
     p_fallbacks := Some {| fb_nodes := None;
                            fb_global := Some [("1", [SvcNum 2; SvcNum 3])] |};
     p_settings := Some {| requireConstraintFit := None;
                           ratePolicy := Some (WithinPct (inject_Z 10)) |};
     p_props := lineageDoc |}.


(* ===================================================================== *)
(** * Visibility simulation *)
(* ===================================================================== *)

Section Simulation.

Context {R : JsRuntime}.

Lemma runVisibilityRulesOnce_selected (v : ValidationCtx) :
  v_selectedKeys (runVisibilityRulesOnce v) = v_selectedKeys v.
Proof. reflexivity. Qed.

Lemma runVisibilityRulesOnce_props (v : ValidationCtx) :
  v_props (runVisibilityRulesOnce v) = v_props v.
Proof. reflexivity. Qed.

(** A state of the walk: at most [maxDp] triggers deep, and its selection
    is the seed with as many further keys as it is deep. *)
Definition goodState (seed : JsSet.t) (maxDp : Z) (s : State) : Prop :=
  (Z.of_nat (s_depth s) <= maxDp)%Z
  /\ NoDup (selected s)
  /\ (exists added, selected s = seed ++ added /\ length added = s_depth s).

(** What holds of the local variables of the walk at every turn of the
    loop. *)
Definition walkOk (seed : JsSet.t) (maxSt maxDp : Z) (stack : list State)
    (visited : JsSet.t) (validatedStates : nat) (explored : list State) : Prop :=
  (Z.of_nat validatedStates <= maxSt)%Z
  /\ validatedStates = length explored
  /\ map (fun s => stableKeyOfSelection (selected s)) explored = visited
  /\ NoDup visited
  /\ (forall s, In s stack -> goodState seed maxDp s)
  /\ (forall s, In s explored -> goodState seed maxDp s).

Lemma expand_good (seed : JsSet.t) (maxDp : Z) (v : ValidationCtx)
    (onlyEffectful : bool) (state s : State) :
  goodState seed maxDp state ->
  In s (expand v maxDp onlyEffectful state) ->
  goodState seed maxDp s.
Proof.
  intros [Hd [Hn [added [Hsel Hlen]]]] Hin. unfold expand in Hin.
  destruct (Z.of_nat (s_depth state) >=? maxDp)%Z eqn:E; [contradiction|].
  rewrite Z.geb_leb in E. apply Z.leb_gt in E.
  apply in_map_iff in Hin. destruct Hin as [trig [<- Ht]].
  apply filter_In in Ht. destruct Ht as [_ Ht].
  unfold notIn in Ht. apply negb_true_iff in Ht.
  unfold goodState. simpl.
  rewrite (JsSet_of_list_NoDup _ Hn). unfold JsSet.add. rewrite Ht.
  apply JsSet_has_false in Ht.
  split; [lia|]. split.
  - apply NoDup_app; [exact Hn|repeat constructor; simpl; tauto|].
    intros a Ha [<-|[]]. exact (Ht Ha).
  - exists (added ++ [trig]). rewrite Hsel, <- app_assoc, length_app. simpl.
    split; [reflexivity|lia].
Qed.

Lemma simLoop_ok (seed : JsSet.t) (maxSt maxDp : Z) (onlyEffectful : bool)
    (stack : list State) (visited : JsSet.t) (validatedStates : nat)
    (v : ValidationCtx) (explored : list State) :
  walkOk seed maxSt maxDp stack visited validatedStates explored ->
  walkOk seed maxSt maxDp []
    (sim_visited (simLoop maxSt maxDp onlyEffectful stack visited validatedStates
                    v explored))
    (sim_validatedStates (simLoop maxSt maxDp onlyEffectful stack visited
                            validatedStates v explored))
    (sim_explored (simLoop maxSt maxDp onlyEffectful stack visited validatedStates
                     v explored)).
Proof.
  funelim (simLoop maxSt maxDp onlyEffectful stack visited validatedStates v explored);
    intros Hok.
  - simpl. exact Hok.
  - simpl. destruct Hok as [A [B [C [D [_ F]]]]].
    split; [exact A|]. split; [exact B|]. split; [exact C|]. split; [exact D|].
    split; [intros s0 []|exact F].
  - apply H. destruct Hok as [A [B [C [D [E F]]]]].
    split; [exact A|]. split; [exact B|]. split; [exact C|]. split; [exact D|].
    split; [|exact F]. intros s0 Hs. apply E. now right.
  - apply H. destruct Hok as [A [B [C [D [E F]]]]].
    assert (Hlt : (Z.of_nat validatedStates < maxSt)%Z).
    { apply Z.leb_gt. rewrite <- Z.geb_leb. exact Hcap. }
    apply JsSet_has_false in Heq.
    assert (Gs : goodState seed maxDp state) by (apply E; now left).
    split; [lia|]. split; [rewrite length_app; simpl; lia|].
    split.
    { rewrite map_app, C. simpl. unfold JsSet.add.
      assert (Hf : JsSet.has visited (stableKeyOfSelection (selected state)) = false)
        by now apply JsSet_has_false.
      now rewrite Hf. }
    split.
    { now apply JsSet_NoDup_add. }
    split.
    { intros s Hs. apply in_app_or in Hs. destruct Hs as [Hs|Hs].
      - apply (expand_good seed maxDp _ onlyEffectful state s Gs Hs).
      - apply E. now right. }
    { intros s Hs. apply in_app_or in Hs. destruct Hs as [Hs|[<-|[]]].
      - now apply F.
      - exact Gs. }
Qed.

Lemma simLoop_selected_props (maxSt maxDp : Z) (onlyEffectful : bool)
    (stack : list State) (visited : JsSet.t) (validatedStates : nat)
    (v : ValidationCtx) (explored : list State) :
  v_props (sim_ctx (simLoop maxSt maxDp onlyEffectful stack visited validatedStates
                      v explored)) = v_props v.
Proof.
  funelim (simLoop maxSt maxDp onlyEffectful stack visited validatedStates v explored);
    try reflexivity.
  - exact H.
  - rewrite H. reflexivity.
Qed.

End Simulation.

Section SimulationBounds.

Context {R : JsRuntime}.

Lemma seedStack_good (v : ValidationCtx) (options : SimulateVisibilityOptions)
    (s : State) :
  In s (seedStack v options (JsSet.of_list (v_selectedKeys v))) ->
  goodState (JsSet.of_list (v_selectedKeys v)) (effectiveMaxDepth options) s.
Proof.
  unfold seedStack. rewrite <- in_rev, in_map_iff. intros [rt [<- _]].
  unfold goodState. simpl.
  rewrite (JsSet_of_list_NoDup _ (JsSet_NoDup_of_list (v_selectedKeys v))).
  split; [unfold effectiveMaxDepth; lia|].
  split; [apply JsSet_NoDup_of_list|].
  exists []. now rewrite app_nil_r.
Qed.


(** C8.  [validateVisibility] leaves the selected keys of the context as
    they were: the same keys are members before and after, whatever the
    options and whether or not the walk was cut off by the state cap; when
    the selection is a set (no key twice) it is the very same list of
    keys.  The document and the registry of the context are unchanged
    too. *)
Theorem selection_restored (v : ValidationCtx) (options : SimulateVisibilityOptions) :
  (forall k, JsSet.has (v_selectedKeys (validateVisibility v options)) k
             = JsSet.has (v_selectedKeys v) k)
  /\ (NoDup (v_selectedKeys v) ->
      v_selectedKeys (validateVisibility v options) = v_selectedKeys v)
  /\ v_props (validateVisibility v options) = v_props v.
Proof.
  unfold validateVisibility. destruct (simulate options); simpl.
  - split; [intros k; apply JsSet_has_of_list|].
    split; [apply JsSet_of_list_NoDup|].
    unfold simulateWalk. apply simLoop_selected_props.
  - split; [reflexivity|]. split; reflexivity.
Qed.

End SimulationBounds.

(** A single root tag with one option trigger that reveals a field. *)
Definition walkDoc : ServiceProps :=
  {| filters := [plainTag "root" None None];
     fields := [fieldWithOptions "f" (Some (BindOne "root")) [optionOf "o"];
                plainField "g" None];
     includes_for_buttons := Some [("f::o", ["g"])];
     excludes_for_buttons := None;
     order_for_tags := None |}.

Definition walkOptions (states depth : option Z) : SimulateVisibilityOptions :=
  {| simulate := true; maxStates := states; maxDepth := depth;
     simulateAllRoots := false; onlyEffectfulTriggers := None |}.


(** The walk does change the selection of the context on its way: here it
    is left pointing at the state with the trigger [f::o] selected. *)
Lemma walk_moves_selection :
  v_selectedKeys (sim_ctx (simulateWalk (initialCtx walkDoc []) (walkOptions None None)))
  = ["f::o"]
  /\ sim_validatedStates (simulateWalk (initialCtx walkDoc []) (walkOptions None None))
     = 2.
Proof. split; vm_compute; reflexivity. Qed.

Lemma selection_restored_witness :
  v_selectedKeys (validateVisibility (initialCtx walkDoc []) (walkOptions None None)) = [].
Proof.
  destruct (selection_restored (initialCtx walkDoc []) (walkOptions None None))
    as [_ [H _]].
  apply H. constructor.
Defined.


(* ===================================================================== *)
(** * Constraint propagation: the traversal returns *)
(* ===================================================================== *)

Lemma replaceAt_length {A} (i : nat) (x : A) (l : list A) :
  length (replaceAt i x l) = length l.
Proof.
  revert i. induction l as [|y l IH]; intros [|i]; simpl; auto.
Qed.

Lemma replaceAt_nth_same {A} (i : nat) (x : A) (l : list A) :
  i < length l -> nth_error (replaceAt i x l) i = Some x.
Proof.
  revert i. induction l as [|y l IH]; intros [|i] H; simpl in *; try lia; auto.
  apply IH. lia.
Qed.

Lemma replaceAt_nth_other {A} (i j : nat) (x : A) (l : list A) :
  i <> j -> nth_error (replaceAt i x l) j = nth_error l j.
Proof.
  revert i j. induction l as [|y l IH]; intros [|i] [|j] H; simpl; auto; try congruence.
Qed.

Lemma replaceAt_map {A B} (f : A -> B) (i : nat) (x y : A) (l : list A) :
  nth_error l i = Some y -> f x = f y -> map f (replaceAt i x l) = map f l.
Proof.
  revert i. induction l as [|z l IH]; intros [|i] H E; simpl in *; try congruence.
  f_equal. now apply IH.
Qed.

Lemma writeConstraints_id (t : Tag) (inh : Inherited) :
  t_id (writeConstraints t inh) = t_id t.
Proof. reflexivity. Qed.

Lemma filter_length_mono {A} (p q : A -> bool) (l : list A) :
  (forall x, p x = true -> q x = true) ->
  length (filter p l) <= length (filter q l).
Proof.
  intros H. induction l as [|a l IH]; simpl; [lia|].
  destruct (p a) eqn:P.
  - rewrite (H a P). simpl. lia.
  - destruct (q a); simpl; lia.
Qed.

Lemma filter_length_strict {A} (p q : A -> bool) (l : list A) (x : A) :
  (forall y, p y = true -> q y = true) ->
  In x l -> p x = false -> q x = true ->
  length (filter p l) < length (filter q l).
Proof.
  intros H Hin Hp Hq. induction l as [|a l IH]; simpl; [contradiction|].
  destruct Hin as [->|Hin].
  - rewrite Hp, Hq. simpl. pose proof (filter_length_mono p q l H). lia.
  - specialize (IH Hin). destruct (p a) eqn:P.
    + rewrite (H a P). simpl. lia.
    + destruct (q a); simpl; lia.
Qed.

Section Unvisited.

(** The ids that the traversal can still mark. *)
Variable ids : list string.

Definition unvisited (vis : JsSet.t) : list string :=
  filter (notIn vis) (nodup string_dec ids).

Lemma notIn_mono (vis vis' : JsSet.t) :
  (forall y, In y vis -> In y vis') ->
  forall x, notIn vis' x = true -> notIn vis x = true.
Proof.
  intros H x. unfold notIn. rewrite !negb_true_iff, !JsSet_has_false. auto.
Qed.

Lemma unvisited_mono (vis vis' : JsSet.t) :
  (forall y, In y vis -> In y vis') ->
  length (unvisited vis') <= length (unvisited vis).
Proof.
  intros H. apply filter_length_mono. now apply notIn_mono.
Qed.

Lemma unvisited_add (vis : JsSet.t) (x : string) :
  In x ids -> JsSet.has vis x = false ->
  length (unvisited (JsSet.add vis x)) < length (unvisited vis).
Proof.
  intros Hin Hx. apply (filter_length_strict _ _ _ x).
  - apply notIn_mono. intros y Hy. apply JsSet_In_add. now left.
  - now apply nodup_In.
  - unfold notIn. apply negb_false_iff, JsSet_has_In, JsSet_In_add. now right.
  - unfold notIn. now rewrite Hx.
Qed.

End Unvisited.

Section VisitReturns.

Variable children : JsMap.t (list nat).
Variable ids : list string.

(** The loop over the children of a visited tag. *)
Definition visitChildren (fuel : nat) (inh : Inherited) (kids : list nat)
    (acc : option PState) : option PState :=
  fold_left
    (fun acc c =>
       match acc with
       | Some s => visit fuel children c inh s
       | None => None
       end)
    kids acc.

Lemma visit_returns (fuel : nat) :
  forall i inh st,
    map t_id (ps_tags st) = ids ->
    length (unvisited ids (ps_visited st)) < fuel ->
    exists st',
      visit fuel children i inh st = Some st'
      /\ map t_id (ps_tags st') = ids
      /\ (forall y, In y (ps_visited st) -> In y (ps_visited st')).
Proof.
  induction fuel as [|fuel IH]; intros i inh st Hids Hfuel; [lia|].
  simpl. destruct (nth_error (ps_tags st) i) as [tag|] eqn:Hn; [|eauto].
  destruct (JsSet.has (ps_visited st) (t_id tag)) eqn:Hv; [eauto|].
  assert (Hin : In (t_id tag) ids).
  { rewrite <- Hids. apply in_map. eapply nth_error_In. exact Hn. }
  pose proof (unvisited_add ids (ps_visited st) (t_id tag) Hin Hv) as Hlt.
  set (st1 := {| ps_visited := JsSet.add (ps_visited st) (t_id tag);
                 ps_tags := replaceAt i (writeConstraints tag inh) (ps_tags st) |}).
  assert (H1 : map t_id (ps_tags st1) = ids).
  { unfold st1. simpl. rewrite <- Hids.
    now apply (replaceAt_map t_id i _ tag). }
  assert (M1 : forall y, In y (ps_visited st) -> In y (ps_visited st1)).
  { intros y Hy. unfold st1. simpl. apply JsSet_In_add. now left. }
  assert (L : forall kids s,
             map t_id (ps_tags s) = ids ->
             (forall y, In y (ps_visited st1) -> In y (ps_visited s)) ->
             exists st',
               fold_left
                 (fun acc c =>
                    match acc with
                    | Some s => visit fuel children c (passDown tag inh) s
                    | None => None
                    end) kids (Some s) = Some st'
               /\ map t_id (ps_tags st') = ids
               /\ (forall y, In y (ps_visited st1) -> In y (ps_visited st'))).
  { induction kids as [|c kids IHk]; intros s Hs Ms; simpl; [eauto|].
    assert (Hf : length (unvisited ids (ps_visited s)) < fuel).
    { pose proof (unvisited_mono ids _ _ Ms) as Hm.
      unfold st1 in Hm. simpl in Hm. lia. }
    destruct (IH c (passDown tag inh) s Hs Hf) as [s' [E [Hs' Ms']]].
    rewrite E. apply IHk; [exact Hs'|]. intros y Hy. apply Ms', Ms, Hy. }
  destruct (L (orEmpty (JsMap.get children (t_id tag))) st1 H1 (fun y Hy => Hy))
    as [st' [E [Hs' Ms']]].
  exists st'. split; [exact E|]. split; [exact Hs'|].
  intros y Hy. apply Ms', M1, Hy.
Qed.

End VisitReturns.

(** Propagation never runs out of fuel: it returns for every list of tags,
    cyclic or not, and it keeps the ids and the number of tags. *)
Theorem propagateConstraints_returns (tags : list Tag) :
  exists tags', propagateConstraints tags = Some tags'
                /\ map t_id tags' = map t_id tags.
Proof.
  unfold propagateConstraints. destruct tags as [|t0 ts]; [eauto|].
  remember (t0 :: ts) as tags eqn:Et. clear Et.
  assert (L : forall starts s,
             map t_id (ps_tags s) = map t_id tags ->
             length (unvisited (map t_id tags) (ps_visited s)) < S (length tags) ->
             exists s',
               fold_left (visitStart (S (length tags)) (childrenMap tags)) starts (Some s)
               = Some s'
               /\ map t_id (ps_tags s') = map t_id tags).
  { induction starts as [|r starts IH]; intros s Hs Hf; [simpl; eauto|].
    cbn [fold_left].
    destruct (visit_returns (childrenMap tags) (map t_id tags) _ r noFlags s Hs Hf)
      as [s' [E [Hs' Ms']]].
    change (visitStart (S (length tags)) (childrenMap tags) (Some s) r)
      with (visit (S (length tags)) (childrenMap tags) r noFlags s).
    rewrite E. apply IH; [exact Hs'|].
    pose proof (unvisited_mono (map t_id tags) _ _ Ms'). lia. }
  destruct (L (startsOf tags) {| ps_visited := JsSet.empty; ps_tags := tags |} eq_refl)
    as [s' [E Hs']].
  - unfold unvisited. cbn [ps_visited].
    pose proof (filter_length_le (notIn JsSet.empty) (nodup string_dec (map t_id tags)))
      as H1.
    assert (H2 : length (nodup string_dec (map t_id tags)) <= length (map t_id tags)).
    { apply NoDup_incl_length; [apply NoDup_nodup|].
      intros x Hx. now apply nodup_In in Hx. }
    rewrite length_map in H2. lia.
  - exists (ps_tags s'). rewrite E. split; [reflexivity|exact Hs'].
Qed.

(* ===================================================================== *)
(** * Constraint propagation: effective values *)
(* ===================================================================== *)

(** [chain byId t l]: [l] is the lineage of [t], from [t] itself up to a
    root, along resolvable [bind_id] parents. *)
Inductive chain (byId : JsMap.t Tag) : Tag -> list Tag -> Prop :=
| chain_root t :
    resolvedParent byId t = None -> chain byId t [t]
| chain_step t pid p l :
    resolvedParent byId t = Some pid ->
    JsMap.get byId pid = Some p ->
    chain byId p l ->
    chain byId t (t :: l).

(** What a tag inherits when the tags above it are [l], nearest first. *)
Fixpoint inhAbove (l : list Tag) : Inherited :=
  match l with
  | [] => noFlags
  | p :: l' => passDown p (inhAbove l')
  end.

(** The value declared for flag [k] by the farthest tag of [l] (the one
    closest to the root) that declares it. *)
Fixpoint rootmost (k : FlagKey) (l : list Tag) : option bool :=
  match l with
  | [] => None
  | t :: l' =>
      match rootmost k l' with
      | Some v => Some v
      | None => localFlag t k
      end
  end.

Lemma flag_mapFlags {V} (f : FlagKey -> option V) (k : FlagKey) :
  flag k (mapFlags f) = f k.
Proof. now destruct k. Qed.

Lemma flag_nonEmptyFlags {V} (r : Flags V) (k : FlagKey) :
  match nonEmptyFlags r with Some c => flag k c | None => None end = flag k r.
Proof.
  unfold nonEmptyFlags.
  destruct r as [[a|] [b|] [c|]]; destruct k; reflexivity.
Qed.

(** The effective value written to a visited tag. *)
Lemma localFlag_writeConstraints (t : Tag) (inh : Inherited) (k : FlagKey) :
  localFlag (writeConstraints t inh) k =
  match flag k inh with
  | Some (v, _) => Some v
  | None => localFlag t k
  end.
Proof.
  unfold localFlag at 1. simpl t_constraints.
  rewrite flag_nonEmptyFlags, flag_mapFlags.
  unfold flagOut, resolveFlag.
  destruct (flag k inh) as [[v o]|]; destruct (localFlag t k) as [p|];
    try reflexivity.
  now destruct (Bool.eqb p v).
Qed.

Lemma passDown_value (t : Tag) (inh : Inherited) (k : FlagKey) :
  option_map fst (flag k (passDown t inh)) =
  match option_map fst (flag k inh) with
  | Some v => Some v
  | None => localFlag t k
  end.
Proof.
  unfold passDown. rewrite flag_mapFlags. unfold flagOut, resolveFlag.
  destruct (flag k inh) as [[v o]|]; destruct (localFlag t k) as [p|];
    try reflexivity.
  now destruct (Bool.eqb p v).
Qed.

Lemma inhAbove_rootmost (l : list Tag) (k : FlagKey) :
  option_map fst (flag k (inhAbove l)) = rootmost k l.
Proof.
  induction l as [|p l IH]; simpl.
  - now destruct k.
  - rewrite passDown_value, IH. reflexivity.
Qed.

(** After the write, the effective value of a tag is the root-most
    declaration of its lineage. *)
Lemma effective_rootmost (t : Tag) (l : list Tag) (k : FlagKey) :
  localFlag (writeConstraints t (inhAbove l)) k = rootmost k (t :: l).
Proof.
  rewrite localFlag_writeConstraints. simpl. rewrite <- inhAbove_rootmost.
  now destruct (flag k (inhAbove l)) as [[v o]|].
Qed.

(** [rootmost] read as a statement about the lineage. *)
Lemma rootmost_Some (k : FlagKey) (l l1 l2 : list Tag) (a : Tag) (v : bool) :
  l = l1 ++ a :: l2 ->
  localFlag a k = Some v ->
  (forall x, In x l2 -> localFlag x k = None) ->
  rootmost k l = Some v.
Proof.
  intros -> Ha Hnone.
  assert (N : rootmost k l2 = None).
  { induction l2 as [|x l2 IH]; simpl; [reflexivity|].
    rewrite IH by (intros y Hy; apply Hnone; now right).
    apply Hnone. now left. }
  induction l1 as [|x l1 IH]; simpl.
  - now rewrite N.
  - now rewrite IH.
Qed.

Lemma rootmost_None (k : FlagKey) (l : list Tag) :
  (forall x, In x l -> localFlag x k = None) -> rootmost k l = None.
Proof.
  induction l as [|x l IH]; intros H; simpl; [reflexivity|].
  rewrite IH by (intros y Hy; apply H; now right). apply H. now left.
Qed.

Lemma chain_head (byId : JsMap.t Tag) (t : Tag) (l : list Tag) :
  chain byId t l -> exists l', l = t :: l'.
Proof. intros H. inversion H; subst; eauto. Qed.

Lemma chain_functional (byId : JsMap.t Tag) (t : Tag) (l l' : list Tag) :
  chain byId t l -> chain byId t l' -> l = l'.
Proof.
  intros H. revert l'. induction H as [t Hr|t pid p l Hp Hg Hc IH]; intros l' H'.
  - inversion H'; subst; [reflexivity|congruence].
  - inversion H'; subst; [congruence|].
    assert (pid0 = pid) by congruence. subst pid0.
    assert (p0 = p) by congruence. subst p0.
    f_equal. now apply IH.
Qed.

Lemma In_indexed_offset {A} (l : list A) (k c : nat) (x : A) :
  In (c, x) (combine (seq k (length l)) l) <-> k <= c /\ nth_error l (c - k) = Some x.
Proof.
  revert k. induction l as [|y l IH]; intros k; simpl.
  - split; [tauto|]. intros [_ H]. destruct (c - k); discriminate.
  - rewrite IH. split.
    + intros [H|[H1 H2]].
      * inversion H; subst. rewrite Nat.sub_diag. simpl. split; [lia|reflexivity].
      * split; [lia|]. replace (c - k) with (S (c - S k)) by lia. exact H2.
    + intros [H1 H2]. destruct (c - k) as [|n] eqn:E.
      * left. simpl in H2. inversion H2. f_equal. lia.
      * right. split; [lia|]. simpl in H2. replace (c - S k) with n by lia. exact H2.
Qed.

Lemma In_indexed {A} (l : list A) (c : nat) (x : A) :
  In (c, x) (indexed l) <-> nth_error l c = Some x.
Proof.
  unfold indexed. rewrite In_indexed_offset, Nat.sub_0_r. split; [tauto|].
  intros H. split; [lia|exact H].
Qed.

Lemma In_children_fold (byId : JsMap.t Tag) (L : list (nat * Tag))
    (m : JsMap.t (list nat)) (pid : string) (c : nat) :
  In c (orEmpty (JsMap.get (fold_left (addChild byId) L m) pid)) <->
  In c (orEmpty (JsMap.get m pid))
  \/ exists t, In (c, t) L /\ resolvedParent byId t = Some pid.
Proof.
  revert m. induction L as [|[c' t'] L IH]; intros m; simpl.
  - split; [tauto|]. intros [H|[t [[] _]]]. exact H.
  - rewrite IH. clear IH. unfold addChild. simpl.
    destruct (resolvedParent byId t') as [pid'|] eqn:E.
    + rewrite JsMap_get_set. destruct (String.eqb pid' pid) eqn:Ep.
      * apply String.eqb_eq in Ep. subst pid'. simpl. rewrite in_app_iff. simpl.
        split.
        -- intros [[H|[H|[]]]|[t [H1 H2]]]; eauto.
           subst. right. exists t'. split; [now left|exact E].
        -- intros [H|[t [[H1|H1] H2]]]; eauto.
           inversion H1; subst. left. right. now left.
      * apply String.eqb_neq in Ep. split.
        -- intros [H|[t [H1 H2]]]; eauto.
        -- intros [H|[t [[H1|H1] H2]]]; eauto.
           inversion H1; subst. congruence.
    + split.
      * intros [H|[t [H1 H2]]]; eauto.
      * intros [H|[t [[H1|H1] H2]]]; eauto.
        inversion H1; subst. congruence.
Qed.

(** The children recorded for [pid] are the tags whose parent resolves to
    [pid]. *)
Lemma In_childrenMap (tags : list Tag) (pid : string) (c : nat) :
  In c (orEmpty (JsMap.get (childrenMap tags) pid)) <->
  exists t, nth_error tags c = Some t /\ resolvedParent (tagById tags) t = Some pid.
Proof.
  unfold childrenMap. rewrite In_children_fold. simpl. split.
  - intros [[]|[t [H1 H2]]]. exists t. now rewrite <- In_indexed.
  - intros [t [H1 H2]]. right. exists t. now rewrite In_indexed.
Qed.

Lemma propagateConstraints_nonempty (tags : list Tag) :
  tags <> [] ->
  propagateConstraints tags =
  option_map ps_tags
    (fold_left (visitStart (S (length tags)) (childrenMap tags)) (startsOf tags)
       (Some {| ps_visited := JsSet.empty; ps_tags := tags |})).
Proof. destruct tags; [congruence|reflexivity]. Qed.

Section Forest.

(** The tags form a forest: ids are unique and every tag has a lineage
    that ends at a root. *)
Variable tags0 : list Tag.
Hypothesis ids_unique : NoDup (map t_id tags0).
Hypothesis has_lineage : forall t, In t tags0 -> exists l, chain (tagById tags0) t l.

Local Abbreviation byId := (tagById tags0).
Local Abbreviation children := (childrenMap tags0).

Lemma index_unique (i j : nat) (t t' : Tag) :
  nth_error tags0 i = Some t -> nth_error tags0 j = Some t' ->
  t_id t = t_id t' -> i = j.
Proof.
  intros Hi Hj E.
  assert (Li : i < length (map t_id tags0)).
  { rewrite length_map. apply nth_error_Some. congruence. }
  apply (proj1 (NoDup_nth_error (map t_id tags0)) ids_unique i j Li).
  rewrite !nth_error_map, Hi, Hj. simpl. now rewrite E.
Qed.

Lemma tag_unique (t t' : Tag) :
  In t tags0 -> In t' tags0 -> t_id t = t_id t' -> t = t'.
Proof.
  intros Ht Ht' E.
  apply In_nth_error in Ht. destruct Ht as [i Hi].
  apply In_nth_error in Ht'. destruct Ht' as [j Hj].
  assert (i = j) by (eapply index_unique; eauto). subst j. congruence.
Qed.

Lemma byId_get (t : Tag) : In t tags0 -> JsMap.get byId (t_id t) = Some t.
Proof.
  intros Ht.
  destruct (JsMap.get (tagById tags0) (t_id t)) as [t'|] eqn:E.
  - destruct (tagById_Some _ _ _ E) as [Hin Hid]. f_equal.
    now apply tag_unique.
  - apply tagById_None in E. exfalso. apply E. now apply in_map.
Qed.

(** The state of the traversal agrees with the lineages: a visited tag
    holds what its lineage gives, a tag not yet visited is untouched. *)
Definition agrees (st : PState) : Prop :=
  length (ps_tags st) = length tags0
  /\ forall i t l,
       nth_error tags0 i = Some t -> chain byId t (t :: l) ->
       nth_error (ps_tags st) i =
       Some (if JsSet.has (ps_visited st) (t_id t)
             then writeConstraints t (inhAbove l) else t).

Definition inheritsRight (i : nat) (inh : Inherited) : Prop :=
  forall t l, nth_error tags0 i = Some t -> chain byId t (t :: l) -> inh = inhAbove l.

Definition grows (st st' : PState) : Prop :=
  forall y, In y (ps_visited st) -> In y (ps_visited st').

(** Every tag marked between [st] and [st'] has all its children marked
    in [st']. *)
Definition closes (st st' : PState) : Prop :=
  forall pi p c ct,
    nth_error tags0 pi = Some p ->
    In (t_id p) (ps_visited st') -> ~ In (t_id p) (ps_visited st) ->
    In c (orEmpty (JsMap.get children (t_id p))) ->
    nth_error tags0 c = Some ct ->
    In (t_id ct) (ps_visited st').

Lemma chain_of (i : nat) (t : Tag) :
  nth_error tags0 i = Some t -> exists l, chain byId t (t :: l).
Proof.
  intros Hi. destruct (has_lineage t (nth_error_In _ _ Hi)) as [l Hl].
  destruct (chain_head _ _ _ Hl) as [l' ->]. eauto.
Qed.

Lemma child_inherits (i c : nat) (t : Tag) (l : list Tag) (inh : Inherited) :
  nth_error tags0 i = Some t ->
  chain byId t (t :: l) ->
  inh = inhAbove l ->
  In c (orEmpty (JsMap.get children (t_id t))) ->
  inheritsRight c (passDown t inh).
Proof.
  intros Hi Hc -> Hkid ct l' Hct Hcc.
  apply In_childrenMap in Hkid. destruct Hkid as [ct' [Hct' Hp]].
  assert (ct' = ct) by congruence. subst ct'.
  inversion Hcc as [|x pid p l'' Hp' Hg Hc']; subst; [congruence|].
  assert (pid = t_id t) by congruence. subst pid.
  rewrite (byId_get t (nth_error_In _ _ Hi)) in Hg. inversion Hg. subst p.
  rewrite (chain_functional _ _ _ _ Hc' Hc). reflexivity.
Qed.

Lemma fold_visit_None (fuel : nat) (inh : Inherited) (kids : list nat) :
  fold_left
    (fun acc c =>
       match acc with
       | Some s => visit fuel children c inh s
       | None => None
       end) kids None = None.
Proof. induction kids as [|c kids IH]; simpl; auto. Qed.

Lemma visit_correct (fuel : nat) :
  forall i inh st st',
    visit fuel children i inh st = Some st' ->
    agrees st -> inheritsRight i inh ->
    agrees st' /\ grows st st'
    /\ (forall t, nth_error tags0 i = Some t -> In (t_id t) (ps_visited st'))
    /\ closes st st'.
Proof.
  induction fuel as [|fuel IH]; intros i inh st st' Hv Hag Hinh; [discriminate|].
  simpl in Hv.
  destruct (nth_error (ps_tags st) i) as [tag|] eqn:Hn.
  2:{ inversion Hv; subst st'. split; [exact Hag|]. split; [intros y Hy; exact Hy|].
      split.
      - intros t Ht. exfalso. destruct Hag as [Hlen _].
        apply nth_error_None in Hn. rewrite Hlen in Hn.
        apply nth_error_None in Hn. congruence.
      - intros pi p c ct _ H1 H2. contradiction. }
  assert (Hlt : i < length tags0).
  { destruct Hag as [Hlen _]. rewrite <- Hlen. apply nth_error_Some. congruence. }
  destruct (nth_error tags0 i) as [t|] eqn:Hi;
    [|apply nth_error_None in Hi; lia].
  destruct (chain_of i t Hi) as [l Hl].
  pose proof (proj2 Hag i t l Hi Hl) as Hst. rewrite Hn in Hst.
  destruct (JsSet.has (ps_visited st) (t_id tag)) eqn:Hvis.
  - inversion Hv; subst st'. split; [exact Hag|]. split; [intros y Hy; exact Hy|].
    split.
    + intros t' [= <-]. apply JsSet_has_In.
      destruct (JsSet.has (ps_visited st) (t_id t)) eqn:E; [reflexivity|].
      inversion Hst; subst tag. congruence.
    + intros pi p c ct _ H1 H2. contradiction.
  - assert (Htag : tag = t).
    { destruct (JsSet.has (ps_visited st) (t_id t)) eqn:E; inversion Hst; subst tag;
        [|reflexivity]. rewrite writeConstraints_id in Hvis. congruence. }
    subst tag.
    set (st1 := {| ps_visited := JsSet.add (ps_visited st) (t_id t);
                   ps_tags := replaceAt i (writeConstraints t inh) (ps_tags st) |})
      in Hv.
    assert (Hinh' : inh = inhAbove l) by (apply (Hinh t l Hi Hl)).
    assert (Hag1 : agrees st1).
    { destruct Hag as [Hlen Hag]. split.
      - unfold st1. simpl. now rewrite replaceAt_length.
      - intros j tj lj Hj Hlj. unfold st1. simpl.
        destruct (Nat.eq_dec i j) as [->|Hne].
        + assert (tj = t) by congruence. subst tj.
          assert (lj = l)
            by (pose proof (chain_functional _ _ _ _ Hlj Hl) as X; congruence).
          subst lj.
          rewrite replaceAt_nth_same by (rewrite Hlen; exact Hlt).
          assert (E : JsSet.has (JsSet.add (ps_visited st) (t_id t)) (t_id t) = true).
          { apply JsSet_has_In, JsSet_In_add. now right. }
          rewrite E. now rewrite Hinh'.
        + rewrite replaceAt_nth_other by exact Hne.
          rewrite (Hag j tj lj Hj Hlj).
          assert (Hid : t_id tj <> t_id t).
          { intros E. apply Hne. symmetry. eapply index_unique; eauto. }
          assert (E : JsSet.has (JsSet.add (ps_visited st) (t_id t)) (t_id tj)
                      = JsSet.has (ps_visited st) (t_id tj)).
          { destruct (JsSet.has (ps_visited st) (t_id tj)) eqn:E1.
            - apply JsSet_has_In, JsSet_In_add. left. now apply JsSet_has_In.
            - apply JsSet_has_false. rewrite JsSet_In_add.
              apply JsSet_has_false in E1. tauto. }
          now rewrite E. }
    assert (G1 : grows st st1).
    { intros y Hy. unfold st1. simpl. apply JsSet_In_add. now left. }
    assert (Loop : forall kids s s',
               (forall c, In c kids ->
                          In c (orEmpty (JsMap.get children (t_id t)))) ->
               agrees s ->
               fold_left
                 (fun acc c =>
                    match acc with
                    | Some s => visit fuel children c (passDown t inh) s
                    | None => None
                    end) kids (Some s) = Some s' ->
               agrees s' /\ grows s s'
               /\ (forall c ct, In c kids -> nth_error tags0 c = Some ct ->
                                In (t_id ct) (ps_visited s'))
               /\ closes s s').
    { induction kids as [|c kids IHk]; intros s s' Hsub Hs Hf; simpl in Hf.
      - inversion Hf; subst s'. split; [exact Hs|]. split; [intros y Hy; exact Hy|].
        split; [intros c ct []|]. intros pi p c ct _ H1 H2. contradiction.
      - destruct (visit fuel children c (passDown t inh) s) as [s1|] eqn:Ev;
          [|rewrite fold_visit_None in Hf; discriminate].
        assert (Hc : inheritsRight c (passDown t inh)).
        { apply (child_inherits i c t l inh Hi Hl Hinh'). apply Hsub. now left. }
        destruct (IH c _ s s1 Ev Hs Hc) as [A1 [G [V C]]].
        destruct (IHk s1 s' (fun c' Hc' => Hsub c' (or_intror Hc')) A1 Hf)
          as [A2 [G2 [V2 C2]]].
        split; [exact A2|]. split; [intros y Hy; apply G2, G, Hy|]. split.
        + intros c' ct [<-|Hin] Hct; [apply G2, (V ct Hct)|now apply (V2 c' ct)].
        + intros pi p c' ct Hp H1 H2 Hk Hct.
          destruct (in_dec string_dec (t_id p) (ps_visited s1)) as [Hin|Hnin].
          * apply G2. now apply (C pi p c' ct).
          * now apply (C2 pi p c' ct). }
    destruct (Loop _ st1 st' (fun c Hc => Hc) Hag1 Hv) as [A [G [V C]]].
    split; [exact A|]. split; [intros y Hy; apply G, G1, Hy|]. split.
    + intros t' [= <-]. apply G. unfold st1. simpl. apply JsSet_In_add. now right.
    + intros pi p c ct Hp H1 H2 Hk Hct.
      destruct (string_dec (t_id p) (t_id t)) as [E|Hne].
      * assert (pi = i) by (eapply index_unique; eauto). subst pi.
        assert (p = t) by congruence. subst p.
        now apply (V c ct).
      * apply (C pi p c ct Hp H1); [|exact Hk|exact Hct].
        unfold st1. simpl. rewrite JsSet_In_add. tauto.
Qed.

Lemma chain_root_exists (t : Tag) (l : list Tag) :
  chain byId t l -> In t tags0 ->
  exists r, In r tags0 /\ isRootTag byId r = true.
Proof.
  induction 1 as [t Hr|t pid p l Hp Hg Hc IH]; intros Hin.
  - exists t. split; [exact Hin|]. unfold isRootTag. now rewrite Hr.
  - apply IH. now destruct (tagById_Some _ _ _ Hg).
Qed.

Lemma startsOf_roots (t0 : Tag) (r : nat) :
  In t0 tags0 ->
  In r (startsOf tags0) ->
  exists t, nth_error tags0 r = Some t /\ resolvedParent byId t = None.
Proof.
  intros H0 Hr. unfold startsOf in Hr.
  destruct (has_lineage t0 H0) as [l Hl].
  destruct (chain_root_exists t0 l Hl H0) as [rt [Hrt Hroot]].
  apply In_nth_error in Hrt. destruct Hrt as [ri Hri].
  assert (Hf : In (ri, rt) (filter (fun it => isRootTag byId (snd it)) (indexed tags0))).
  { apply filter_In. split; [now apply In_indexed|exact Hroot]. }
  destruct (filter (fun it => isRootTag byId (snd it)) (indexed tags0)) as [|x xs] eqn:Ef;
    [contradiction|].
  apply in_map_iff in Hr. destruct Hr as [[r' t] [E Hin]]. simpl in E. subst r'.
  rewrite <- Ef in Hin. apply filter_In in Hin. destruct Hin as [Hin Hroot'].
  exists t. split; [now apply In_indexed|].
  simpl in Hroot'. unfold isRootTag in Hroot'.
  now destruct (resolvedParent byId t).
Qed.

Lemma root_is_start (i : nat) (t : Tag) :
  nth_error tags0 i = Some t -> resolvedParent byId t = None ->
  In i (startsOf tags0).
Proof.
  intros Hi Hr. unfold startsOf.
  assert (Hf : In (i, t) (filter (fun it => isRootTag byId (snd it)) (indexed tags0))).
  { apply filter_In. split; [now apply In_indexed|].
    simpl. unfold isRootTag. now rewrite Hr. }
  destruct (filter (fun it => isRootTag byId (snd it)) (indexed tags0)) as [|x xs];
    [contradiction|].
  apply in_map_iff. exists (i, t). split; [reflexivity|exact Hf].
Qed.

Lemma starts_correct (fuel : nat) (starts : list nat) :
  forall st st',
    (forall r, In r starts ->
               exists t, nth_error tags0 r = Some t /\ resolvedParent byId t = None) ->
    fold_left (visitStart fuel children) starts (Some st) = Some st' ->
    agrees st ->
    agrees st' /\ grows st st'
    /\ (forall r t, In r starts -> nth_error tags0 r = Some t ->
                    In (t_id t) (ps_visited st'))
    /\ closes st st'.
Proof.
  induction starts as [|r starts IH]; intros st st' Hroots Hf Hag; simpl in Hf.
  - inversion Hf; subst st'. split; [exact Hag|]. split; [intros y Hy; exact Hy|].
    split; [intros r t []|]. intros pi p c ct _ H1 H2. contradiction.
  - destruct (visit fuel children r noFlags st) as [s1|] eqn:Ev.
    2:{ exfalso. clear - Hf. induction starts as [|x xs IHx]; simpl in Hf;
          [discriminate|auto]. }
    assert (Hr : inheritsRight r noFlags).
    { intros t l Ht Hl. destruct (Hroots r (or_introl eq_refl)) as [t' [Ht' Hroot]].
      assert (t' = t) by congruence. subst t'.
      inversion Hl; subst; [reflexivity|congruence]. }
    destruct (visit_correct fuel r noFlags st s1 Ev Hag Hr) as [A1 [G [V C]]].
    destruct (IH s1 st' (fun r' Hr' => Hroots r' (or_intror Hr')) Hf A1)
      as [A2 [G2 [V2 C2]]].
    split; [exact A2|]. split; [intros y Hy; apply G2, G, Hy|]. split.
    + intros r' t [<-|Hin] Ht; [apply G2, (V t Ht)|now apply (V2 r' t)].
    + intros pi p c ct Hp H1 H2 Hk Hct.
      destruct (in_dec string_dec (t_id p) (ps_visited s1)) as [Hin|Hnin].
      * apply G2. now apply (C pi p c ct).
      * now apply (C2 pi p c ct).
Qed.

(** After the traversal every tag holds what its lineage gives. *)
Lemma propagate_lineage (tags' : list Tag) :
  propagateConstraints tags0 = Some tags' ->
  forall i t l,
    nth_error tags0 i = Some t -> chain byId t (t :: l) ->
    nth_error tags' i = Some (writeConstraints t (inhAbove l)).
Proof.
  intros Hp i t l Hi Hl.
  assert (Hne : tags0 <> []) by (intros E; rewrite E in Hi; destruct i; discriminate).
  rewrite (propagateConstraints_nonempty tags0 Hne) in Hp.
  set (st0 := {| ps_visited := JsSet.empty; ps_tags := tags0 |}) in Hp.
  destruct (fold_left (visitStart (S (length tags0)) children) (startsOf tags0) (Some st0))
    as [st'|] eqn:Ef; [|discriminate].
  simpl in Hp. inversion Hp; subst tags'. clear Hp.
  assert (Hag0 : agrees st0).
  { split; [reflexivity|]. intros j tj lj Hj _. exact Hj. }
  destruct (starts_correct _ _ st0 st' (fun r Hr => startsOf_roots t r (nth_error_In _ _ Hi) Hr) Ef Hag0)
    as [A [_ [V C]]].
  assert (All : forall t l, chain byId t l ->
                 forall i, nth_error tags0 i = Some t -> In (t_id t) (ps_visited st')).
  { clear i t l Hi Hl. induction 1 as [t Hr|t pid p l Hpar Hg Hc IH]; intros i Hi.
    - apply (V i t); [now apply (root_is_start i t)|exact Hi].
    - destruct (tagById_Some _ _ _ Hg) as [Hpin Hpid]. subst pid.
      destruct (In_nth_error _ _ Hpin) as [pi Hpi].
      apply (C pi p i t Hpi (IH pi Hpi)); [intros []| |exact Hi].
      apply In_childrenMap. exists t. split; [exact Hi|exact Hpar]. }
  rewrite (proj2 A i t l Hi Hl).
  assert (E : JsSet.has (ps_visited st') (t_id t) = true).
  { apply JsSet_has_In. apply (All t (t :: l) Hl i Hi). }
  now rewrite E.
Qed.

End Forest.

(** The nearest declaration of flag [k] on a lineage [l] (nearest tag
    first), as the documentation words the effective value. *)
Fixpoint nearestDeclared (k : FlagKey) (l : list Tag) : option bool :=
  match l with
  | [] => None
  | t :: l' =>
      match localFlag t k with
      | Some v => Some v
      | None => nearestDeclared k l'
      end
  end.

(** C1 (amended): on a forest of tags (unique ids, every lineage ends at
    a root) propagation returns, and for every tag and every flag the
    effective value is the value declared by the farthest tag of the
    lineage (the one closest to the root, the tag itself included) that
    declares the flag; when no tag of the lineage declares it, the flag
    stays unset. *)
Theorem propagation_rootmost_declaration (tags : list Tag) :
  NoDup (map t_id tags) ->
  (forall t, In t tags -> exists l, chain (tagById tags) t l) ->
  exists tags',
    propagateConstraints tags = Some tags'
    /\ map t_id tags' = map t_id tags
    /\ forall i t l k,
         nth_error tags i = Some t -> chain (tagById tags) t l ->
         exists t',
           nth_error tags' i = Some t'
           /\ (forall l1 a l2 v,
                  l = l1 ++ a :: l2 ->
                  localFlag a k = Some v ->
                  (forall x, In x l2 -> localFlag x k = None) ->
                  localFlag t' k = Some v)
           /\ ((forall x, In x l -> localFlag x k = None) -> localFlag t' k = None).
Proof.
  intros Hnd Hlin.
  destruct (propagateConstraints_returns tags) as [tags' [Hp Hids]].
  exists tags'. split; [exact Hp|]. split; [exact Hids|].
  intros i t l k Hi Hl.
  destruct (chain_head _ _ _ Hl) as [l0 ->].
  exists (writeConstraints t (inhAbove l0)).
  split; [exact (propagate_lineage tags Hnd Hlin tags' Hp i t l0 Hi Hl)|].
  rewrite effective_rootmost. split.
  - intros l1 a l2 v E Ha Hnone. exact (rootmost_Some k _ l1 l2 a v E Ha Hnone).
  - apply rootmost_None.
Qed.

(** A root that declares [refill: true] and a child that declares
    [refill: false]. *)
Definition flagTag (id : string) (bind : option string) (r : option bool) : Tag :=
  {| t_id := id; t_label := id; t_bind_id := bind; t_service_id := None;
     t_includes := None; t_excludes := None;
     t_constraints := Some {| refill := r; cancel := None; dripfeed := None |};
     t_constraints_origin := None; t_constraints_overrides := None; t_meta := None |}.

Definition overrideTags : list Tag :=
  [flagTag "root" None (Some true); flagTag "a" (Some "root") (Some false)].

Definition overrideInput : JsVal :=
  JObj [("filters",
         JArr [JObj [("id", JStr "root"); ("label", JStr "root");
                     ("constraints", JObj [("refill", JBool true)])];
               JObj [("id", JStr "a"); ("label", JStr "a"); ("bind_id", JStr "root");
                     ("constraints", JObj [("refill", JBool false)])]]);
        ("fields", JArr [])].

Lemma overrideTags_forest :
  NoDup (map t_id overrideTags)
  /\ (forall t, In t overrideTags -> exists l, chain (tagById overrideTags) t l)
  /\ chain (tagById overrideTags) (flagTag "a" (Some "root") (Some false))
       [flagTag "a" (Some "root") (Some false); flagTag "root" None (Some true)].
Proof.
  assert (Hr : chain (tagById overrideTags) (flagTag "root" None (Some true))
                 [flagTag "root" None (Some true)]).
  { apply chain_root. reflexivity. }
  assert (Ha : chain (tagById overrideTags) (flagTag "a" (Some "root") (Some false))
                 [flagTag "a" (Some "root") (Some false); flagTag "root" None (Some true)]).
  { apply (chain_step _ _ "root" (flagTag "root" None (Some true)));
      [reflexivity|reflexivity|exact Hr]. }
  split; [|split; [|exact Ha]].
  - simpl. repeat constructor; simpl; intuition discriminate.
  - intros t [<-|[<-|[]]]; eauto.
Defined.

(** C1, as stated, fails: the child declares [refill: false] itself, so
    the nearest declaration on its lineage is [false], but its effective
    value after propagation, and after [normalise], is the root's
    [true]. *)
Lemma nearest_declaration_overridden :
  nearestDeclared Refill
    [flagTag "a" (Some "root") (Some false); flagTag "root" None (Some true)] = Some false
  /\ option_map (map (fun t => localFlag t Refill)) (propagateConstraints overrideTags)
     = Some [Some true; Some true]
  /\ normalise overrideInput
     = Returned
         (JObj [("filters",
                 JArr (map tagToJs
                         [writeConstraints (flagTag "root" None (Some true)) noFlags;
                          writeConstraints (flagTag "a" (Some "root") (Some false))
                            (inhAbove [flagTag "root" None (Some true)])]));
                ("fields", JArr []); ("schema_version", JStr "1.0")])
  /\ localFlag (writeConstraints (flagTag "a" (Some "root") (Some false))
                  (inhAbove [flagTag "root" None (Some true)])) Refill
     <> nearestDeclared Refill
          [flagTag "a" (Some "root") (Some false); flagTag "root" None (Some true)].
Proof.
  split; [reflexivity|]. split; [vm_compute; reflexivity|].
  split; [vm_compute; reflexivity|]. vm_compute. discriminate.
Qed.

Lemma propagation_rootmost_declaration_witness :
  exists t',
    option_map (fun l => nth_error l 1) (propagateConstraints overrideTags) = Some (Some t')
    /\ localFlag t' Refill = Some true
    /\ localFlag t' Cancel = None.
Proof.
  destruct overrideTags_forest as [Hnd [Hlin Ha]].
  destruct (propagation_rootmost_declaration overrideTags Hnd Hlin) as [tags' [Hp [_ H]]].
  destruct (H 1 _ _ Refill eq_refl Ha) as [t' [Ht' [Hsome _]]].
  destruct (H 1 _ _ Cancel eq_refl Ha) as [t'' [Ht'' [_ Hnone]]].
  assert (t'' = t') by congruence. subst t''.
  exists t'. rewrite Hp. cbn [option_map]. rewrite Ht'. split; [reflexivity|]. split.
  - apply (Hsome [flagTag "a" (Some "root") (Some false)]
             (flagTag "root" None (Some true)) [] true);
      [reflexivity|reflexivity|intros x []].
  - apply Hnone. intros x [<-|[<-|[]]]; reflexivity.
Defined.

(* ===================================================================== *)
(** * Normalisation: the shape of the canonical document *)
(* ===================================================================== *)

Definition canonicalKeys : list string :=
  ["filters"; "fields"; "includes_for_options"; "excludes_for_options";
   "schema_version"; "fallbacks"].

Lemma optProp_keys (k : string) (o : option JsVal) (x : string) :
  In x (JsMap.keys (optProp k o)) -> x = k.
Proof. destruct o; simpl; intuition. Qed.

Lemma JsMap_keys_app {V} (m1 m2 : JsMap.t V) :
  JsMap.keys (m1 ++ m2) = JsMap.keys m1 ++ JsMap.keys m2.
Proof. unfold JsMap.keys. apply map_app. Qed.

Lemma jsGet_absent (kvs : JsMap.t JsVal) (k : string) :
  ~ In k (JsMap.keys kvs) -> jsGet (JObj kvs) k = JUndefined.
Proof.
  intros H. simpl. destruct (JsMap.get kvs k) as [v|] eqn:E; [|reflexivity].
  exfalso. apply H. apply JsMap_get_keys. eauto.
Qed.

Section NormaliseShape.

Context {R : JsRuntime}.

(** What a returning call of [normalise] has computed. *)
Lemma normaliseWith_returned (defRole : PricingRole) (x out : JsVal) :
  normaliseWith defRole x = Returned out ->
  exists rootIncludes rootExcludes tags',
    isObject x = true
    /\ rootList (jsGet x "rootIncludes") = Some rootIncludes
    /\ rootList (jsGet x "rootExcludes") = Some rootExcludes
    /\ propagateConstraints (normaliseTags x rootIncludes rootExcludes) = Some tags'
    /\ out =
       JObj ([("filters", JArr (map tagToJs tags'));
              ("fields", JArr (normaliseFields x defRole))]
             ++ optProp "includes_for_options"
                  (option_map stringMapToJs
                     (toStringArrayMap
                        (nullish (jsGet x "includes_for_options")
                           (nullish (jsGet x "includesForOptions") JUndefined))))
             ++ optProp "excludes_for_options"
                  (option_map stringMapToJs
                     (toStringArrayMap
                        (nullish (jsGet x "excludes_for_options")
                           (nullish (jsGet x "excludeForOptions") JUndefined))))
             ++ [("schema_version",
                  JStr (match jsGet x "schema_version" with
                        | JStr s => s
                        | _ => "1.0"
                        end))]
             ++ optProp "fallbacks"
                  (option_map fallbackToJs (coerceFallbacks (jsGet x "fallbacks")))).
Proof.
  unfold normaliseWith. intros H.
  destruct (isObject x) eqn:Ho; [|discriminate]. cbn [negb] in H. cbv zeta in H.
  destruct (rootList (jsGet x "rootIncludes")) as [ri|] eqn:Ei; [|discriminate].
  destruct (rootList (jsGet x "rootExcludes")) as [re|] eqn:Ee; [|discriminate].
  destruct (propagateConstraints (normaliseTags x ri re)) as [tags'|] eqn:Ep;
    [|discriminate].
  inversion H. exists ri, re, tags'. repeat (split; [reflexivity || assumption|]).
  reflexivity.
Qed.


End NormaliseShape.

(** An input that carries the three button and order maps. *)
Definition buttonMapsInput : JsVal :=
  JObj [("filters", JArr [JObj [("id", JStr "root"); ("label", JStr "Root")]]);
        ("fields", JArr [JObj [("id", JStr "f"); ("button", JBool true)];
                         JObj [("id", JStr "g")]]);
        ("includes_for_buttons", JObj [("f", JArr [JStr "g"])]);
        ("excludes_for_buttons", JObj [("f", JArr [JStr "h"])]);
        ("order_for_tags", JObj [("root", JArr [JStr "g"; JStr "f"])])].


(* ===================================================================== *)
(** * Normalisation applied twice *)
(* ===================================================================== *)

Definition optVal (o : option JsVal) : JsVal :=
  match o with
  | Some v => v
  | None => JUndefined
  end.

Lemma get_optProp (k k' : string) (o : option JsVal) :
  JsMap.get (optProp k o) k' = if String.eqb k' k then o else None.
Proof. destruct o; simpl; destruct (String.eqb k' k); reflexivity. Qed.

Lemma JsMap_set_fresh {V} (m : JsMap.t V) (k : string) (v : V) :
  ~ In k (JsMap.keys m) -> JsMap.set m k v = m ++ [(k, v)].
Proof.
  induction m as [|[a b] m IH]; simpl; intros H; [reflexivity|].
  destruct (String.eqb k a) eqn:E.
  - apply String.eqb_eq in E. subst. tauto.
  - rewrite IH by tauto. reflexivity.
Qed.

Lemma JsMap_set_same {V} (m : JsMap.t V) (k : string) (v : V) :
  JsMap.get m k = Some v -> JsMap.set m k v = m.
Proof.
  induction m as [|[a b] m IH]; simpl; [discriminate|].
  destruct (String.eqb k a) eqn:E.
  - intros [= ->]. reflexivity.
  - intros H. now rewrite IH.
Qed.

Lemma JsMap_set_In {V} (m : JsMap.t V) (k : string) (v : V) (k' : string) (v' : V) :
  In (k', v') (JsMap.set m k v) -> In (k', v') m \/ (k' = k /\ v' = v).
Proof.
  induction m as [|[a b] m IH]; simpl.
  - intros [[= <- <-]|[]]. now right.
  - destruct (String.eqb k a) eqn:E; simpl.
    + apply String.eqb_eq in E. subst a.
      intros [[= <- <-]|H]; [now right|left; now right].
    + intros [H|H]; [left; now left|]. destruct (IH H); [left; now right|now right].
Qed.

Lemma filter_all {A} (p : A -> bool) (l : list A) :
  Forall (fun x => p x = true) l -> filter p l = l.
Proof.
  induction 1 as [|x l Hx _ IH]; simpl; [reflexivity|]. now rewrite Hx, IH.
Qed.

Lemma Forall_filter_true {A} (p : A -> bool) (l : list A) :
  Forall (fun x => p x = true) (filter p l).
Proof. apply Forall_forall. intros x Hx. now apply filter_In in Hx. Qed.

Section Twice.

Context {R : JsRuntime}.

Definition keepStr (s : string) : bool := truthyStr s && nonBlank s.

(** A list of strings as [toStringArray] and [dedupe] leave it. *)
Definition cleanStrings (v : list string) : Prop :=
  v <> [] /\ NoDup v /\ Forall (fun s => keepStr s = true) v.

Lemma toStringArray_keeps (v : JsVal) :
  Forall (fun s => keepStr s = true) (toStringArray v).
Proof. destruct v; simpl; try constructor. apply Forall_filter_true. Qed.

Lemma toStringArray_jsStrings (v : list string) :
  Forall (fun s => keepStr s = true) v -> toStringArray (jsStrings v) = v.
Proof.
  intros H. unfold jsStrings, toStringArray. rewrite map_map.
  rewrite (map_ext _ (fun s => s)) by (intros s; apply toStr_str).
  rewrite map_id. now apply filter_all.
Qed.

Lemma dedupe_nonempty (l : list string) : l <> [] -> dedupe l <> [].
Proof.
  destruct l as [|a l]; [congruence|]. intros _ E.
  assert (H : In a (dedupe (a :: l))) by (apply JsSet_In_of_list; now left).
  rewrite E in H. exact H.
Qed.

Lemma dedupe_clean (l : list string) :
  l <> [] -> Forall (fun s => keepStr s = true) l -> cleanStrings (dedupe l).
Proof.
  intros Hne Hk. split; [now apply dedupe_nonempty|].
  split; [apply JsSet_NoDup_of_list|].
  apply Forall_forall. intros s Hs. unfold dedupe in Hs.
  rewrite JsSet_In_of_list in Hs.
  exact (proj1 (Forall_forall _ _) Hk s Hs).
Qed.

(** A map as [toStringArrayMap] leaves it. *)
Definition cleanMap (m : JsMap.t (list string)) : Prop :=
  NoDup (JsMap.keys m)
  /\ forall k v, In (k, v) m -> truthyStr k = true /\ cleanStrings v.

Lemma toStringArrayMapStep_clean (out : JsMap.t (list string)) (kv : string * JsVal) :
  cleanMap out -> cleanMap (toStringArrayMapStep out kv).
Proof.
  intros [Hnd Hall]. unfold toStringArrayMapStep.
  destruct (truthyStr (fst kv)) eqn:Ek; [|now split].
  destruct (toStringArray (snd kv)) as [|a arr] eqn:Ea; [now split|].
  split; [now apply JsMap_set_keys_NoDup|].
  intros k v Hin. apply JsMap_set_In in Hin. destruct Hin as [Hin|[-> ->]].
  - now apply Hall.
  - split; [exact Ek|]. apply dedupe_clean; [discriminate|].
    rewrite <- Ea. apply toStringArray_keeps.
Qed.

Lemma toStringArrayMap_clean (src : JsVal) (m : JsMap.t (list string)) :
  toStringArrayMap src = Some m -> cleanMap m /\ m <> [].
Proof.
  unfold toStringArrayMap. destruct (isObject src); [|discriminate].
  assert (H : forall es out, cleanMap out ->
                             cleanMap (fold_left toStringArrayMapStep es out)).
  { induction es as [|e es IH]; intros out Ho; simpl; [exact Ho|].
    apply IH. now apply toStringArrayMapStep_clean. }
  specialize (H (entries src) JsMap.empty).
  destruct (fold_left toStringArrayMapStep (entries src) JsMap.empty) as [|e m'];
    [discriminate|].
  intros [= <-]. split; [|discriminate].
  apply H. split; [constructor|intros k v []].
Qed.

Lemma toStringArrayMap_rebuild (m acc : JsMap.t (list string)) :
  NoDup (JsMap.keys (acc ++ m)) ->
  (forall k v, In (k, v) m -> truthyStr k = true /\ cleanStrings v) ->
  fold_left toStringArrayMapStep
    (map (fun kv => (fst kv, jsStrings (snd kv))) m) acc = acc ++ m.
Proof.
  revert acc. induction m as [|[k v] m IH]; intros acc Hnd Hall; simpl.
  - now rewrite app_nil_r.
  - destruct (Hall k v (or_introl eq_refl)) as [Hk [Hne [Hv Hkeep]]].
    unfold toStringArrayMapStep at 2. cbn [fst snd]. rewrite Hk.
    rewrite (toStringArray_jsStrings v Hkeep).
    destruct v as [|a v']; [congruence|].
    unfold dedupe. rewrite (JsSet_of_list_NoDup _ Hv).
    assert (Hfresh : ~ In k (JsMap.keys acc)).
    { rewrite JsMap_keys_app in Hnd. simpl in Hnd.
      apply NoDup_remove_2 in Hnd. intros H. apply Hnd. apply in_or_app. now left. }
    rewrite (JsMap_set_fresh acc k _ Hfresh).
    rewrite IH.
    + now rewrite <- app_assoc.
    + rewrite <- app_assoc. exact Hnd.
    + intros k' w Hin. apply Hall. now right.
Qed.

(** The canonical form of an option map is read back unchanged. *)
Lemma toStringArrayMap_round (src : JsVal) (m : JsMap.t (list string)) :
  toStringArrayMap src = Some m ->
  toStringArrayMap (stringMapToJs m) = Some m.
Proof.
  intros H. destruct (toStringArrayMap_clean src m H) as [[Hnd Hall] Hne].
  unfold toStringArrayMap, stringMapToJs. cbn [isObject entries].
  rewrite (toStringArrayMap_rebuild m JsMap.empty Hnd Hall).
  simpl. destruct m; [congruence|reflexivity].
Qed.

(* ------------------------------ fallbacks ------------------------- *)

Lemma existsb_svcEqb (x : ServiceIdRef) (l : list ServiceIdRef) :
  existsb (svcEqb x) l = true <-> In x l.
Proof.
  rewrite existsb_exists. split.
  - intros [y [Hy E]]. apply svcEqb_eq in E. now subst.
  - intros H. exists x. split; [exact H|now apply svcEqb_eq].
Qed.

Lemma dedupeSvc_fold_In (l acc : list ServiceIdRef) (y : ServiceIdRef) :
  In y (fold_left (fun acc x => if existsb (svcEqb x) acc then acc else acc ++ [x]) l acc)
  <-> In y acc \/ In y l.
Proof.
  revert acc. induction l as [|a l IH]; intros acc; simpl; [tauto|].
  rewrite IH. destruct (existsb (svcEqb a) acc) eqn:E.
  - apply existsb_svcEqb in E. split; [tauto|]. intros [H|[<-|H]]; auto.
  - rewrite in_app_iff. simpl. tauto.
Qed.

Lemma dedupeSvc_fold_NoDup (l acc : list ServiceIdRef) :
  NoDup acc ->
  NoDup (fold_left (fun acc x => if existsb (svcEqb x) acc then acc else acc ++ [x]) l acc).
Proof.
  revert acc. induction l as [|a l IH]; intros acc H; simpl; [exact H|].
  apply IH. destruct (existsb (svcEqb a) acc) eqn:E; [exact H|].
  assert (Ha : ~ In a acc).
  { intros Hin. apply existsb_svcEqb in Hin. congruence. }
  apply NoDup_app; [exact H|repeat constructor; intros []|].
  intros x Hx [<-|[]]. contradiction.
Qed.

Lemma dedupeSvc_fold_id (l acc : list ServiceIdRef) :
  NoDup (acc ++ l) ->
  fold_left (fun acc x => if existsb (svcEqb x) acc then acc else acc ++ [x]) l acc
  = acc ++ l.
Proof.
  revert acc. induction l as [|a l IH]; intros acc H; simpl.
  - now rewrite app_nil_r.
  - assert (Ha : existsb (svcEqb a) acc = false).
    { destruct (existsb (svcEqb a) acc) eqn:E; [|reflexivity].
      apply existsb_svcEqb in E. apply NoDup_remove_2 in H.
      exfalso. apply H. apply in_or_app. now left. }
    rewrite Ha. rewrite IH; rewrite <- app_assoc; [reflexivity|exact H].
Qed.

Lemma toServiceId_svcToJs (x : ServiceIdRef) : toServiceId (svcToJs x) = x.
Proof. now destruct x. Qed.

(** A candidate list as [coerceFallbacks] stores it under [key]. *)
Definition keptUnder (key : string) (x : ServiceIdRef) : bool :=
  negb (isEmptySvc x) && negb (String.eqb (toStr (svcToJs x)) key).

Definition cleanCandidates (key : string) (v : list ServiceIdRef) : Prop :=
  NoDup v /\ Forall (fun x => keptUnder key x = true) v.

Lemma cleanList_clean (key : string) (v : JsVal) : cleanCandidates key (cleanList key v).
Proof.
  unfold cleanList, dedupeSvc. split.
  - apply dedupeSvc_fold_NoDup. constructor.
  - apply Forall_forall. intros x Hx. apply dedupeSvc_fold_In in Hx.
    destruct Hx as [[]|Hx]. apply filter_In in Hx. destruct Hx as [Hx Hk].
    unfold keptUnder. rewrite Hk, andb_true_r.
    destruct v; simpl in Hx; try contradiction.
    now apply filter_In in Hx.
Qed.

Lemma cleanList_of_clean (key : string) (v : list ServiceIdRef) :
  cleanCandidates key v -> cleanList key (JArr (map svcToJs v)) = v.
Proof.
  intros [Hnd Hall]. unfold cleanList, toServiceIdArray.
  rewrite map_map. rewrite (map_ext _ (fun x => x)) by apply toServiceId_svcToJs.
  rewrite map_id.
  rewrite (filter_all (fun x => negb (isEmptySvc x))).
  2:{ eapply Forall_impl; [|exact Hall]. intros x Hx. unfold keptUnder in Hx.
      now apply andb_true_iff in Hx. }
  rewrite filter_all.
  2:{ eapply Forall_impl; [|exact Hall]. intros x Hx. unfold keptUnder in Hx.
      now apply andb_true_iff in Hx. }
  unfold dedupeSvc. now rewrite dedupeSvc_fold_id.
Qed.

Definition cleanFallbackMap (m : JsMap.t (list ServiceIdRef)) : Prop :=
  NoDup (JsMap.keys m)
  /\ forall k v, In (k, v) m -> v <> [] /\ cleanCandidates k v.

Lemma fallbackStep_clean (es : list (string * JsVal)) (out : JsMap.t (list ServiceIdRef)) :
  cleanFallbackMap out -> cleanFallbackMap (fold_left fallbackStep es out).
Proof.
  revert out. induction es as [|e es IH]; intros out Ho; simpl; [exact Ho|].
  apply IH. destruct Ho as [Hnd Hall]. unfold fallbackStep.
  destruct (cleanList (fst e) (snd e)) as [|a c] eqn:Ec; [now split|].
  split; [now apply JsMap_set_keys_NoDup|].
  intros k v Hin. apply JsMap_set_In in Hin. destruct Hin as [Hin|[-> ->]].
  - now apply Hall.
  - split; [discriminate|]. rewrite <- Ec. apply cleanList_clean.
Qed.

Lemma fallbackStep_rebuild (m acc : JsMap.t (list ServiceIdRef)) :
  NoDup (JsMap.keys (acc ++ m)) ->
  (forall k v, In (k, v) m -> v <> [] /\ cleanCandidates k v) ->
  fold_left fallbackStep
    (map (fun kv => (fst kv, JArr (map svcToJs (snd kv)))) m) acc = acc ++ m.
Proof.
  revert acc. induction m as [|[k v] m IH]; intros acc Hnd Hall; simpl.
  - now rewrite app_nil_r.
  - destruct (Hall k v (or_introl eq_refl)) as [Hne Hc].
    unfold fallbackStep at 2. cbn [fst snd].
    rewrite (cleanList_of_clean k v Hc).
    destruct v as [|a v']; [congruence|].
    assert (Hfresh : ~ In k (JsMap.keys acc)).
    { rewrite JsMap_keys_app in Hnd. simpl in Hnd.
      apply NoDup_remove_2 in Hnd. intros H. apply Hnd. apply in_or_app. now left. }
    rewrite (JsMap_set_fresh acc k _ Hfresh).
    rewrite IH.
    + now rewrite <- app_assoc.
    + rewrite <- app_assoc. exact Hnd.
    + intros k' w Hin. apply Hall. now right.
Qed.

Lemma empty_fallback_clean : cleanFallbackMap (@JsMap.empty (list ServiceIdRef)).
Proof. split; [constructor|intros k v []]. Qed.

(** Reading the canonical [fallbacks] object back keeps the [global]
    map and finds no [nodes]: the key [nodes] itself is read as a node
    id, and its value is not an array. *)
Lemma coerceFallbacks_again (src : JsVal) (fb : ServiceFallback) :
  coerceFallbacks src = Some fb ->
  coerceFallbacks (fallbackToJs fb) =
  match fb_global fb with
  | Some g => Some {| fb_nodes := None; fb_global := Some g |}
  | None => None
  end.
Proof.
  intros H.
  assert (Hg : forall g, fb_global fb = Some g -> cleanFallbackMap g /\ g <> []).
  { unfold coerceFallbacks in H. destruct (isObject src); [|discriminate].
    cbv zeta in H.
    destruct (isObject (jsGet src "global")).
    - pose proof (fallbackStep_clean (entries (jsGet src "global")) JsMap.empty
                    empty_fallback_clean) as Hc.
      destruct (fold_left fallbackStep (entries (jsGet src "global")) JsMap.empty)
        as [|e g0].
      + simpl in H.
        destruct (nonEmptyMap _) in H; [|discriminate].
        inversion H; subst fb. simpl. discriminate.
      + simpl in H.
        destruct (nonEmptyMap _) in H; inversion H; subst fb; simpl;
          intros g [= <-]; (split; [exact Hc|discriminate]).
    - destruct (nonEmptyMap _) in H; [|discriminate].
      inversion H; subst fb. simpl. discriminate. }
  assert (Hnodes : forall o nn,
             fold_left fallbackStep
               (filter (fun kv => negb (String.eqb (fst kv) "global"))
                  (optProp "global" o ++ optProp "nodes" (option_map svcMapToJs nn)))
               JsMap.empty = []).
  { intros [o|] [nn|]; reflexivity. }
  unfold coerceFallbacks, fallbackToJs. cbn [isObject entries]. cbv zeta.
  rewrite Hnodes. cbn [nonEmptyMap].
  destruct (fb_global fb) as [g|] eqn:Eg.
  - destruct (Hg g eq_refl) as [[Hnd Hall] Hne].
    assert (Hget : forall rest,
               jsGet (JObj (optProp "global" (option_map svcMapToJs (Some g)) ++ rest))
                 "global" = svcMapToJs g) by reflexivity.
    rewrite Hget. unfold svcMapToJs. cbn [isObject entries].
    rewrite (fallbackStep_rebuild g JsMap.empty Hnd Hall). simpl.
    destruct g; [congruence|reflexivity].
  - assert (Hget : forall nn,
               jsGet (JObj (optProp "global" (option_map svcMapToJs None)
                            ++ optProp "nodes" (option_map svcMapToJs nn)))
                 "global" = JUndefined) by (intros [nn|]; reflexivity).
    rewrite Hget. reflexivity.
Qed.

(* ------------------------- fields and options --------------------- *)

Definition strOr (v : JsVal) (dflt : string) : string :=
  match str v with
  | Some s => s
  | None => dflt
  end.

Lemma strOr_again (v : JsVal) (dflt : string) :
  strOr (JStr (strOr v dflt)) dflt = strOr v dflt.
Proof.
  unfold strOr. destruct (str v) as [s|] eqn:E.
  - destruct v; simpl in E; try discriminate.
    destruct (nonBlank s0) eqn:En; [|discriminate]. inversion E; subst s0.
    simpl. now rewrite En.
  - simpl. now destruct (nonBlank dflt).
Qed.

Lemma str_again (v : JsVal) :
  str (optVal (option_map JStr (str v))) = str v.
Proof.
  destruct (str v) as [s|] eqn:E; [|reflexivity].
  destruct v; simpl in E; try discriminate.
  destruct (nonBlank s0) eqn:En; [|discriminate]. inversion E; subst s0.
  simpl. now rewrite En.
Qed.

Lemma coerceRole_roleToJs (r inherit : PricingRole) :
  coerceRole (roleToJs r) inherit = r.
Proof. now destruct r. Qed.

Lemma toNumberOrUndefined_again (o : option Z) :
  toNumberOrUndefined (nullish (optVal (option_map JNum o)) JUndefined) = o.
Proof. destruct o as [n|]; simpl; [apply toNumber_num|reflexivity]. Qed.

(** The object built by [coerceOption]. *)
Definition optionObj (id label : string) (value service_id : option JsVal)
    (role : PricingRole) (meta : option JsVal) : JsVal :=
  JObj ([("id", JStr id); ("label", JStr label)]
        ++ optProp "value" value
        ++ optProp "service_id" service_id
        ++ [("pricing_role", roleToJs role)]
        ++ optProp "meta" meta).

Lemma optionObj_get (id label : string) (value service_id : option JsVal)
    (role : PricingRole) (meta : option JsVal) :
  let o := optionObj id label value service_id role meta in
  jsGet o "id" = JStr id
  /\ jsGet o "label" = JStr label
  /\ jsGet o "value" = optVal value
  /\ jsGet o "service_id" = optVal service_id
  /\ jsGet o "serviceId" = JUndefined
  /\ jsGet o "pricing_role" = roleToJs role
  /\ jsGet o "meta" = optVal meta.
Proof. destruct value, service_id, meta; repeat split; reflexivity. Qed.

Lemma coerceOption_again (r r' : PricingRole) (src : JsVal) :
  coerceOption r' (coerceOption r src) = coerceOption r src.
Proof.
  unfold coerceOption at 2. cbv zeta.
  set (s := if isObject src then src else JObj []).
  fold (strOr (jsGet s "id") EmptyString). fold (strOr (jsGet s "label") EmptyString).
  set (value := match jsGet s "value" with
                | JStr x => Some (JStr x)
                | JNum n => Some (JNum n)
                | _ => None
                end).
  set (sid := toNumberOrUndefined (nullish (jsGet s "service_id") (jsGet s "serviceId"))).
  set (role := coerceRole (jsGet s "pricing_role") r).
  set (meta := if isObject (jsGet s "meta") then Some (jsGet s "meta") else None).
  fold (optionObj (strOr (jsGet s "id") EmptyString) (strOr (jsGet s "label") EmptyString)
          value (option_map JNum sid) role meta).
  destruct (optionObj_get (strOr (jsGet s "id") EmptyString)
              (strOr (jsGet s "label") EmptyString) value (option_map JNum sid) role meta)
    as [G1 [G2 [G3 [G4 [G5 [G6 G7]]]]]].
  unfold coerceOption. cbv zeta.
  change (isObject (optionObj (strOr (jsGet s "id") EmptyString)
                      (strOr (jsGet s "label") EmptyString) value
                      (option_map JNum sid) role meta)) with true.
  cbv iota. rewrite G1, G2, G3, G4, G5, G6, G7.
  fold (strOr (JStr (strOr (jsGet s "id") EmptyString)) EmptyString).
  fold (strOr (JStr (strOr (jsGet s "label") EmptyString)) EmptyString).
  rewrite !strOr_again, coerceRole_roleToJs.
  assert (Ev : match optVal value with
               | JStr x => Some (JStr x)
               | JNum n => Some (JNum n)
               | _ => None
               end = value).
  { unfold value. destruct (jsGet s "value"); reflexivity. }
  rewrite Ev.
  assert (Es : toNumberOrUndefined (nullish (optVal (option_map JNum sid)) JUndefined)
               = sid) by apply toNumberOrUndefined_again.
  rewrite Es.
  assert (Em : (if isObject (optVal meta) then Some (optVal meta) else None) = meta).
  { unfold meta. destruct (isObject (jsGet s "meta")) eqn:E; simpl; [now rewrite E|].
    reflexivity. }
  rewrite Em. reflexivity.
Qed.

Lemma trimmed_fixed (l : list JsVal) (s : string) :
  In s (map (fun b => trim (toStr b)) l) -> trim s = s.
Proof.
  intros H. apply in_map_iff in H. destruct H as [b [<- _]]. apply trim_idem.
Qed.

Lemma normaliseBindId_again (bind : JsVal) :
  normaliseBindId (nullish (optVal (normaliseBindId bind))
                     (nullish JUndefined JUndefined))
  = normaliseBindId bind.
Proof.
  destruct bind; try reflexivity.
  - simpl. destruct (truthyStr (trim s)) eqn:E; [|reflexivity].
    simpl. now rewrite trim_idem, E.
  - remember (normaliseBindId (JArr items)) as nb eqn:Enb.
    unfold normaliseBindId in Enb.
    set (raw := map (fun b => trim (toStr b)) items) in Enb.
    assert (Hd : NoDup (dedupe (filter truthyStr raw))) by apply JsSet_NoDup_of_list.
    assert (Hin : forall s, In s (dedupe (filter truthyStr raw)) ->
                            trim s = s /\ truthyStr s = true).
    { intros s Hs. unfold dedupe in Hs. rewrite JsSet_In_of_list in Hs.
      apply filter_In in Hs. destruct Hs as [Hs Ht].
      split; [exact (trimmed_fixed items s Hs)|exact Ht]. }
    destruct (dedupe (filter truthyStr raw)) as [|a [|b arr]] eqn:Ed; subst nb.
    + reflexivity.
    + destruct (Hin a (or_introl eq_refl)) as [Ha Ht]. simpl. now rewrite Ha, Ht.
    + cbn [optVal nullish jsStrings normaliseBindId].
      rewrite map_map.
      rewrite (map_ext_in _ (fun s => s)).
      2:{ intros s Hs. rewrite toStr_str. now apply Hin. }
      rewrite map_id.
      rewrite filter_all.
      2:{ apply Forall_forall. intros s Hs. now apply Hin. }
      unfold dedupe. rewrite (JsSet_of_list_NoDup _ Hd). reflexivity.
Qed.

Lemma coerceMeta_again (m : JsVal) : coerceMeta (optVal (coerceMeta m)) = coerceMeta m.
Proof.
  remember (coerceMeta m) as cm eqn:Ecm. unfold coerceMeta in Ecm.
  destruct (isObject m); [|now subst cm]. cbv zeta in Ecm. subst cm.
  cbn [optVal]. unfold coerceMeta. cbn [isObject entries]. cbv zeta.
  destruct (JsMap.has (entries m) "multi") eqn:E.
  - assert (G : JsMap.get (JsMap.set (entries m) "multi"
                             (JBool (truthy (match JsMap.get (entries m) "multi" with
                                             | Some x => x
                                             | None => JUndefined
                                             end)))) "multi"
                = Some (JBool (truthy (match JsMap.get (entries m) "multi" with
                                       | Some x => x
                                       | None => JUndefined
                                       end)))) by apply JsMap_get_set_same.
    unfold JsMap.has at 1. rewrite G. cbn [truthy].
    rewrite (JsMap_set_same _ _ _ G). reflexivity.
  - now rewrite E.
Qed.

(** The object built by [coerceField]. *)
Definition fieldObj (id : JsVal) (type : string)
    (bind_id name options component : option JsVal) (role : PricingRole)
    (label placeholder helperText labelClassName : string) (required : bool)
    (axis labelAxis : string) (extra meta : option JsVal) : JsVal :=
  JObj
    ([("id", id); ("type", JStr type)]
     ++ optProp "bind_id" bind_id
     ++ optProp "name" name
     ++ optProp "options" options
     ++ optProp "component" component
     ++ [("pricing_role", roleToJs role);
         ("label", JStr label);
         ("placeholder", JStr placeholder);
         ("helperText", JStr helperText);
         ("helperTextPos", JStr "bottom");
         ("labelClassName", JStr labelClassName);
         ("required", JBool required);
         ("axis", JStr axis);
         ("labelAxis", JStr labelAxis)]
     ++ optProp "extra" extra
     ++ optProp "meta" meta).

Lemma fieldObj_get (id : JsVal) (type : string)
    (bind_id name options component : option JsVal) (role : PricingRole)
    (label placeholder helperText labelClassName : string) (required : bool)
    (axis labelAxis : string) (extra meta : option JsVal) :
  let o := fieldObj id type bind_id name options component role label placeholder
             helperText labelClassName required axis labelAxis extra meta in
  (jsGet o "id" = id /\ jsGet o "type" = JStr type
   /\ jsGet o "bind_id" = optVal bind_id /\ jsGet o "bind" = JUndefined
   /\ jsGet o "name" = optVal name /\ jsGet o "options" = optVal options
   /\ jsGet o "component" = optVal component)
  /\ (jsGet o "pricing_role" = roleToJs role /\ jsGet o "label" = JStr label
      /\ jsGet o "placeholder" = JStr placeholder
      /\ jsGet o "helperText" = JStr helperText
      /\ jsGet o "labelClassName" = JStr labelClassName)
  /\ (jsGet o "required" = JBool required /\ jsGet o "axis" = JStr axis
      /\ jsGet o "labelAxis" = JStr labelAxis
      /\ jsGet o "extra" = optVal extra /\ jsGet o "meta" = optVal meta
      /\ jsIn "extra" o = match extra with Some _ => true | None => false end).
Proof.
  destruct bind_id, name, options, component, extra, meta; repeat split; reflexivity.
Qed.

Lemma coerceField_again (r r' : PricingRole) (src : JsVal) :
  coerceField r' (coerceField r src) = coerceField r src.
Proof.
  unfold coerceField at 2. cbv zeta.
  set (s := if isObject src then src else JObj []).
  fold (strOr (jsGet s "type") "text"). fold (strOr (jsGet s "label") EmptyString).
  set (ty := strOr (jsGet s "type") "text").
  set (lbl := strOr (jsGet s "label") EmptyString).
  set (idv := match str (jsGet s "id") with Some x => JStr x | None => JUndefined end).
  set (bind := normaliseBindId
                 (nullish (jsGet s "bind_id") (nullish (jsGet s "bind") JUndefined))).
  set (name := match jsGet s "name" with
               | JStr x => if truthyStr x then Some (JStr x) else None
               | _ => None
               end).
  set (role := coerceRole (jsGet s "pricing_role") r).
  set (options := match jsGet s "options" with
                  | JArr (o :: os) => Some (JArr (map (coerceOption role) (o :: os)))
                  | _ => None
                  end).
  set (component := if String.eqb ty "custom"
                    then option_map JStr (str (jsGet s "component")) else None).
  set (extra := match (if jsIn "extra" s then jsGet s "extra" else JUndefined) with
                | JUndefined => None
                | x => Some x
                end).
  set (meta := coerceMeta (jsGet s "meta")).
  set (ph := stringOr (jsGet s "placeholder") EmptyString).
  set (ht := stringOr (jsGet s "helperText") EmptyString).
  set (lc := stringOr (jsGet s "labelClassName") EmptyString).
  set (req := truthy (jsGet s "required")).
  set (ax := axisOr (jsGet s "axis") "y").
  set (lax := axisOr (jsGet s "labelAxis") "x").
  fold (fieldObj idv ty bind name options component role lbl ph ht lc req ax lax
          extra meta).
  destruct (fieldObj_get idv ty bind name options component role lbl ph ht lc req ax lax
              extra meta)
    as [[G1 [G2 [G3 [G4 [G5 [G6 G7]]]]]] [[G8 [G9 [G10 [G11 G12]]]]
        [G13 [G14 [G15 [G16 [G17 G18]]]]]]].
  unfold coerceField. cbv zeta.
  change (isObject (fieldObj idv ty bind name options component role lbl ph ht lc req
                      ax lax extra meta)) with true.
  cbv iota.
  rewrite G1, G2, G3, G4, G5, G6, G7, G8, G9, G10, G11, G12, G13, G14, G15, G16, G17, G18.
  fold (strOr (JStr ty) "text"). fold (strOr (JStr lbl) EmptyString).
  assert (T1 : strOr (JStr ty) "text" = ty) by apply strOr_again.
  assert (T2 : strOr (JStr lbl) EmptyString = lbl) by apply strOr_again.
  rewrite T1, T2.
  rewrite coerceRole_roleToJs.
  assert (E1 : match str idv with Some x => JStr x | None => JUndefined end = idv).
  { unfold idv. destruct (str (jsGet s "id")) as [x|] eqn:E; [|reflexivity].
    assert (Hx : str (JStr x) = Some x).
    { destruct (jsGet s "id"); simpl in E; try discriminate.
      destruct (nonBlank s0) eqn:En; [|discriminate]. inversion E; subst s0.
      simpl. now rewrite En. }
    now rewrite Hx. }
  rewrite E1.
  assert (E2 : normaliseBindId (nullish (optVal bind) (nullish JUndefined JUndefined))
               = bind) by apply normaliseBindId_again.
  rewrite E2.
  assert (E3 : match optVal name with
               | JStr x => if truthyStr x then Some (JStr x) else None
               | _ => None
               end = name).
  { unfold name. destruct (jsGet s "name"); try reflexivity.
    destruct (truthyStr s0) eqn:E; simpl; [now rewrite E|reflexivity]. }
  rewrite E3.
  assert (E4 : match optVal options with
               | JArr (o :: os) => Some (JArr (map (coerceOption role) (o :: os)))
               | _ => None
               end = options).
  { unfold options. destruct (jsGet s "options") as [| | | | |[|o os]|]; try reflexivity.
    cbn [optVal]. cbn [map]. rewrite coerceOption_again. rewrite map_map.
    rewrite (map_ext _ (coerceOption role)) by (intros a; apply coerceOption_again).
    reflexivity. }
  rewrite E4.
  assert (E5 : (if String.eqb ty "custom"
                then option_map JStr (str (optVal component)) else None) = component).
  { unfold component. destruct (String.eqb ty "custom"); [|reflexivity].
    now rewrite str_again. }
  rewrite E5.
  assert (E6 : match (if match extra with Some _ => true | None => false end
                      then optVal extra else JUndefined) with
               | JUndefined => None
               | x => Some x
               end = extra).
  { unfold extra.
    destruct (if jsIn "extra" s then jsGet s "extra" else JUndefined); reflexivity. }
  rewrite E6.
  assert (E7 : coerceMeta (optVal meta) = meta) by apply coerceMeta_again.
  rewrite E7.
  assert (E8 : axisOr (JStr ax) "y" = ax /\ axisOr (JStr lax) "x" = lax).
  { unfold ax, lax, axisOr. split.
    - destruct (jsGet s "axis"); try reflexivity.
      destruct (String.eqb s0 "x" || String.eqb s0 "y") eqn:E; [now rewrite E|reflexivity].
    - destruct (jsGet s "labelAxis"); try reflexivity.
      destruct (String.eqb s0 "x" || String.eqb s0 "y") eqn:E; [now rewrite E|reflexivity]. }
  destruct E8 as [E8 E9]. rewrite E8, E9.
  reflexivity.
Qed.

(* ------------------------------- tags ----------------------------- *)

Lemma tagToJs_get (t : Tag) :
  (jsGet (tagToJs t) "id" = JStr (t_id t)
   /\ jsGet (tagToJs t) "label" = JStr (t_label t)
   /\ jsGet (tagToJs t) "bind_id" = optVal (option_map JStr (t_bind_id t))
   /\ jsGet (tagToJs t) "bindId" = JUndefined
   /\ jsGet (tagToJs t) "service_id" = optVal (option_map JNum (t_service_id t))
   /\ jsGet (tagToJs t) "serviceId" = JUndefined)
  /\ (jsGet (tagToJs t) "constraints"
      = optVal (option_map (flagsToJs JBool) (t_constraints t))
      /\ jsGet (tagToJs t) "includes" = optVal (option_map jsStrings (t_includes t))
      /\ jsGet (tagToJs t) "excludes" = optVal (option_map jsStrings (t_excludes t))
      /\ jsGet (tagToJs t) "meta" = optVal (t_meta t)).
Proof.
  destruct t as [id label [b|] [n|] [inc|] [exc|] [c|] [o|] [v|] [m|]];
    repeat split; reflexivity.
Qed.

Lemma coerceConstraints_flagsToJs (c : option (Flags bool)) :
  coerceConstraints (optVal (option_map (flagsToJs JBool) c)) = c.
Proof.
  destruct c as [[[a|] [b|] [d|]]|]; try reflexivity;
    try destruct a; try destruct b; try destruct d; reflexivity.
Qed.

(** A string that [str] accepts, or the default [""]. *)
Definition okStr (s : string) : Prop := strOr (JStr s) EmptyString = s.

Definition okLists (o : option (list string)) : Prop :=
  forall l, o = Some l -> cleanStrings l.

(** What [coerceTag] guarantees about a tag, apart from its lists. *)
Definition coreOk (t : Tag) : Prop :=
  okStr (t_id t) /\ okStr (t_label t)
  /\ (forall b, t_bind_id t = Some b -> nonBlank b = true)
  /\ (forall m, t_meta t = Some m -> isObject m = true).

Lemma orNone_clean (v : JsVal) : okLists (orNone (toStringArray v)).
Proof.
  intros l H. unfold orNone in H.
  destruct (toStringArray v) as [|a arr] eqn:E; [discriminate|].
  inversion H. apply dedupe_clean; [discriminate|].
  rewrite <- E. apply toStringArray_keeps.
Qed.

Lemma orNone_again (o : option (list string)) :
  okLists o -> orNone (toStringArray (optVal (option_map jsStrings o))) = o.
Proof.
  intros H. destruct o as [l|]; [|reflexivity].
  destruct (H l eq_refl) as [Hne [Hnd Hk]]. cbn [option_map optVal].
  rewrite (toStringArray_jsStrings l Hk). unfold orNone.
  destruct l; [congruence|]. unfold dedupe. now rewrite (JsSet_of_list_NoDup _ Hnd).
Qed.

Lemma str_nonBlank (v : JsVal) (s : string) : str v = Some s -> nonBlank s = true.
Proof.
  destruct v; simpl; try discriminate.
  destruct (nonBlank s0) eqn:E; [|discriminate]. now intros [= <-].
Qed.

Lemma coerceTag_ok (src : JsVal) :
  coreOk (coerceTag src)
  /\ okLists (t_includes (coerceTag src)) /\ okLists (t_excludes (coerceTag src)).
Proof.
  unfold coerceTag. cbv zeta.
  set (s := if isObject src then src else JObj []).
  split; [|split; cbn [t_includes t_excludes]; apply orNone_clean].
  split; [|split; [|split]]; cbn [t_id t_label t_bind_id t_meta].
  - apply (strOr_again (jsGet s "id") EmptyString).
  - apply (strOr_again (jsGet s "label") EmptyString).
  - intros b H. destruct (str (jsGet s "bind_id")) as [b'|] eqn:E.
    + inversion H; subst. eapply str_nonBlank; eauto.
    + eapply str_nonBlank; eauto.
  - intros m H. destruct (isObject (jsGet s "meta")) eqn:E; [|discriminate].
    now inversion H; subst.
Qed.

(** A tag of the canonical document, read again by [coerceTag]. *)
Lemma recoerce_core (t : Tag) :
  coreOk t ->
  t_id (coerceTag (tagToJs t)) = t_id t
  /\ t_label (coerceTag (tagToJs t)) = t_label t
  /\ t_bind_id (coerceTag (tagToJs t)) = t_bind_id t
  /\ t_service_id (coerceTag (tagToJs t)) = t_service_id t
  /\ t_meta (coerceTag (tagToJs t)) = t_meta t
  /\ t_constraints (coerceTag (tagToJs t)) = t_constraints t.
Proof.
  intros [Hid [Hl [Hb Hm]]].
  destruct (tagToJs_get t) as [[G1 [G2 [G3 [G4 [G5 G6]]]]] [G7 [G8 [G9 G10]]]].
  unfold coerceTag. cbv zeta.
  change (isObject (tagToJs t)) with true. cbv iota.
  cbn [t_id t_label t_bind_id t_service_id t_meta t_constraints].
  rewrite G1, G2, G3, G4, G5, G6, G7, G10.
  split; [exact Hid|]. split; [exact Hl|]. split.
  { destruct (t_bind_id t) as [b|] eqn:E; [|reflexivity].
    cbn [option_map optVal str]. now rewrite (Hb b eq_refl). }
  split.
  { change (nullish (optVal (option_map JNum (t_service_id t))) JUndefined)
      with (nullish (optVal (option_map JNum (t_service_id t))) JUndefined).
    apply toNumberOrUndefined_again. }
  split.
  { destruct (t_meta t) as [m|] eqn:E; [|reflexivity].
    cbn [optVal]. now rewrite (Hm m eq_refl). }
  apply coerceConstraints_flagsToJs.
Qed.

Lemma recoerce_lists (t : Tag) :
  (okLists (t_includes t) -> t_includes (coerceTag (tagToJs t)) = t_includes t)
  /\ (okLists (t_excludes t) -> t_excludes (coerceTag (tagToJs t)) = t_excludes t).
Proof.
  destruct (tagToJs_get t) as [_ [_ [G8 [G9 _]]]].
  unfold coerceTag. cbv zeta.
  change (isObject (tagToJs t)) with true. cbv iota.
  cbn [t_includes t_excludes]. rewrite G8, G9.
  split; apply orNone_again.
Qed.

End Twice.

(* ------------------- propagation keeps, and repeats ------------------ *)

Section Keeps.

Context {B : Type} (f : Tag -> B).
Hypothesis f_write : forall t inh, f (writeConstraints t inh) = f t.

Lemma visit_keeps (children : JsMap.t (list nat)) (fuel : nat) :
  forall i inh st st',
    visit fuel children i inh st = Some st' ->
    map f (ps_tags st') = map f (ps_tags st).
Proof.
  induction fuel as [|fuel IH]; intros i inh st st' H; [discriminate|].
  simpl in H. destruct (nth_error (ps_tags st) i) as [tag|] eqn:Hn;
    [|now inversion H].
  destruct (JsSet.has (ps_visited st) (t_id tag)); [now inversion H|].
  set (st1 := {| ps_visited := JsSet.add (ps_visited st) (t_id tag);
                 ps_tags := replaceAt i (writeConstraints tag inh) (ps_tags st) |}) in H.
  assert (H1 : map f (ps_tags st1) = map f (ps_tags st)).
  { unfold st1. simpl. apply (replaceAt_map f i _ tag _ Hn). apply f_write. }
  rewrite <- H1. clear H1. revert H. generalize st1. clear st1.
  induction (orEmpty (JsMap.get children (t_id tag))) as [|c kids IHk];
    intros s H; simpl in H.
  - now inversion H.
  - destruct (visit fuel children c (passDown tag inh) s) as [s1|] eqn:Ev.
    + rewrite (IHk s1 H). exact (IH _ _ _ _ Ev).
    + exfalso. clear - H. induction kids as [|x xs IHx]; simpl in H;
        [discriminate|auto].
Qed.

Lemma propagateConstraints_keeps (tags tags' : list Tag) :
  propagateConstraints tags = Some tags' -> map f tags' = map f tags.
Proof.
  destruct tags as [|t0 ts]; [now intros [= <-]|].
  remember (t0 :: ts) as tags eqn:Et.
  assert (Hne : tags <> []) by (subst; discriminate). clear Et.
  rewrite (propagateConstraints_nonempty tags Hne).
  assert (L : forall n starts st st',
             fold_left (visitStart n (childrenMap tags)) starts (Some st)
             = Some st' -> map f (ps_tags st') = map f (ps_tags st)).
  { intros n. induction starts as [|r starts IH]; intros st st' Hf; cbn [fold_left] in Hf.
    - now inversion Hf.
    - change (visitStart n (childrenMap tags) (Some st) r)
        with (visit n (childrenMap tags) r noFlags st) in Hf.
      destruct (visit n (childrenMap tags) r noFlags st) as [s1|] eqn:Ev.
      + rewrite (IH s1 st' Hf). exact (visit_keeps _ _ _ _ _ _ Ev).
      + exfalso. clear - Hf. induction starts as [|x xs IHx]; simpl in Hf;
          [discriminate|auto]. }
  intros H.
  destruct (fold_left (visitStart (S (length tags)) (childrenMap tags)) (startsOf tags)
              (Some {| ps_visited := JsSet.empty; ps_tags := tags |}))
    as [st'|] eqn:Ef; [|discriminate].
  simpl in H. inversion H; subst tags'. exact (L _ _ _ _ Ef).
Qed.

End Keeps.

(** Two tags with the same id and the same parent reference. *)
Definition linked (a b : Tag) : Prop :=
  t_id a = t_id b /\ t_bind_id a = t_bind_id b.

Definition linkOf (t : Tag) : string * option string := (t_id t, t_bind_id t).

Lemma linked_ids (A B : list Tag) :
  map linkOf A = map linkOf B -> map t_id A = map t_id B.
Proof.
  intros H. change t_id with (fun t => fst (linkOf t)).
  rewrite <- (map_map linkOf fst A), <- (map_map linkOf fst B). now rewrite H.
Qed.

Lemma linked_nth (A B : list Tag) (i : nat) (a : Tag) :
  map linkOf A = map linkOf B -> nth_error A i = Some a ->
  exists b, nth_error B i = Some b /\ linked a b.
Proof.
  intros H Ha.
  assert (E : nth_error (map linkOf B) i = Some (linkOf a)).
  { rewrite <- H, nth_error_map, Ha. reflexivity. }
  rewrite nth_error_map in E. destruct (nth_error B i) as [b|]; [|discriminate].
  exists b. split; [reflexivity|]. simpl in E. unfold linkOf in E.
  inversion E. now split.
Qed.

Lemma resolvedParent_linked (A B : list Tag) (a b : Tag) :
  map t_id A = map t_id B -> linked a b ->
  resolvedParent (tagById A) a = resolvedParent (tagById B) b.
Proof.
  intros H [_ Hb]. unfold resolvedParent. rewrite <- Hb.
  destruct (t_bind_id a) as [pid|]; [|reflexivity].
  assert (E : JsMap.has (tagById A) pid = JsMap.has (tagById B) pid).
  { unfold JsMap.has.
    destruct (JsMap.get (tagById A) pid) eqn:EA; destruct (JsMap.get (tagById B) pid) eqn:EB;
      try reflexivity; exfalso.
    - apply tagById_None in EB. apply EB. rewrite <- H.
      destruct (tagById_Some _ _ _ EA) as [Hin <-]. now apply in_map.
    - apply tagById_None in EA. apply EA. rewrite H.
      destruct (tagById_Some _ _ _ EB) as [Hin <-]. now apply in_map. }
  now rewrite E.
Qed.

(** The same position in two lists of tags. *)
Definition paired (A B : list Tag) (x y : Tag) : Prop :=
  exists j, nth_error A j = Some x /\ nth_error B j = Some y.

Lemma chain_transfer (A B : list Tag) :
  map linkOf A = map linkOf B ->
  NoDup (map t_id A) ->
  forall a l, chain (tagById A) a l ->
  forall i, nth_error A i = Some a ->
  exists b lb, nth_error B i = Some b /\ chain (tagById B) b lb
               /\ Forall2 (paired A B) l lb.
Proof.
  intros HL Hnd a l Hc.
  pose proof (linked_ids A B HL) as Hids.
  induction Hc as [a Hr|a pid p l Hp Hg Hc IH]; intros i Hi.
  - destruct (linked_nth A B i a HL Hi) as [b [Hb Hab]].
    exists b, [b]. split; [exact Hb|]. split.
    + apply chain_root. now rewrite <- (resolvedParent_linked A B a b Hids Hab).
    + constructor; [|constructor]. exists i. now split.
  - destruct (linked_nth A B i a HL Hi) as [b [Hb Hab]].
    destruct (tagById_Some _ _ _ Hg) as [Hpin Hpid].
    destruct (In_nth_error _ _ Hpin) as [j Hj].
    destruct (IH j Hj) as [pb [lpb [Hpb [Hcb Hf]]]].
    exists b, (b :: lpb). split; [exact Hb|]. split.
    + apply (chain_step _ b pid pb lpb).
      * now rewrite <- (resolvedParent_linked A B a b Hids Hab).
      * destruct (linked_nth A B j p HL Hj) as [pb' [Hpb' [Hidp _]]].
        assert (pb' = pb) by congruence. subst pb'.
        rewrite <- Hpid, Hidp. apply byId_get; [now rewrite <- Hids|].
        eapply nth_error_In. exact Hpb.
      * exact Hcb.
    + constructor; [|exact Hf]. exists i. now split.
Qed.

Lemma rootmost_transfer (byId : JsMap.t Tag) (P : Tag -> Tag -> Prop) (k : FlagKey) :
  (forall x y lx, P x y -> chain byId x lx -> localFlag y k = rootmost k lx) ->
  forall t l, chain byId t l ->
  forall l2, Forall2 P l l2 -> rootmost k l2 = rootmost k l.
Proof.
  intros HP t l Hc.
  induction Hc as [t Hr|t pid p l Hp Hg Hc IH]; intros l2 Hf.
  - inversion Hf as [|x y lx ly Hxy Hrest]; subst. inversion Hrest; subst.
    simpl. apply (HP t y [t] Hxy). now apply chain_root.
  - inversion Hf as [|x y lx ly Hxy Hrest]; subst.
    simpl. rewrite (IH ly Hrest).
    pose proof (HP t y (t :: l) Hxy (chain_step _ t pid p l Hp Hg Hc)) as E.
    simpl in E. rewrite E. now destruct (rootmost k l).
Qed.

Lemma constraints_ext (a b : Tag) (inhA inhB : Inherited) :
  (forall k, localFlag (writeConstraints a inhA) k = localFlag (writeConstraints b inhB) k) ->
  t_constraints (writeConstraints a inhA) = t_constraints (writeConstraints b inhB).
Proof.
  intros H.
  pose proof (H Refill) as H1. pose proof (H Cancel) as H2. pose proof (H Dripfeed) as H3.
  unfold localFlag in H1, H2, H3. cbn [t_constraints writeConstraints] in *.
  rewrite !flag_nonEmptyFlags, !flag_mapFlags in H1, H2, H3.
  unfold mapFlags. now rewrite H1, H2, H3.
Qed.

(** Propagation over its own result: on a forest, a second propagation
    over tags that carry the effective values of the first one gives the
    same constraints again. *)
Lemma propagate_again (tags ty tags2 tz : list Tag) :
  NoDup (map t_id tags) ->
  (forall t, In t tags -> exists l, chain (tagById tags) t l) ->
  propagateConstraints tags = Some ty ->
  map linkOf tags2 = map linkOf ty ->
  map t_constraints tags2 = map t_constraints ty ->
  propagateConstraints tags2 = Some tz ->
  map t_constraints tz = map t_constraints ty.
Proof.
  intros Hnd Hlin Hp HL2 HC2 Hp2.
  assert (HL1 : map linkOf ty = map linkOf tags).
  { apply (propagateConstraints_keeps linkOf); [reflexivity|exact Hp]. }
  assert (HL : map linkOf tags = map linkOf tags2) by congruence.
  pose proof (linked_ids _ _ HL) as Hids.
  assert (Hnd2 : NoDup (map t_id tags2)) by now rewrite <- Hids.
  assert (Hlen : length tags2 = length tags).
  { rewrite <- (length_map t_id tags2), <- Hids. apply length_map. }
  assert (Hlin2 : forall t, In t tags2 -> exists l, chain (tagById tags2) t l).
  { intros t2 Hin. destruct (In_nth_error _ _ Hin) as [i Hi].
    destruct (nth_error tags i) as [t|] eqn:Ht.
    - destruct (Hlin t (nth_error_In _ _ Ht)) as [l Hl].
      destruct (chain_transfer tags tags2 HL Hnd t l Hl i Ht) as [b [lb [Hb [Hcb _]]]].
      assert (b = t2) by congruence. subst b. eauto.
    - apply nth_error_None in Ht. assert (i < length tags2) by (apply nth_error_Some; congruence).
      lia. }
  apply nth_error_ext. intros i. rewrite !nth_error_map.
  destruct (nth_error tags i) as [t|] eqn:Ht.
  2:{ apply nth_error_None in Ht.
      assert (Lz : length tz = length tags2).
      { rewrite <- (length_map t_id tz), (propagateConstraints_keeps t_id
                                             (fun _ _ => eq_refl) _ _ Hp2).
        apply length_map. }
      assert (Ly : length ty = length tags).
      { rewrite <- (length_map linkOf ty), HL1. apply length_map. }
      rewrite (proj2 (nth_error_None tz i)) by lia.
      rewrite (proj2 (nth_error_None ty i)) by lia. reflexivity. }
  destruct (Hlin t (nth_error_In _ _ Ht)) as [l Hl].
  destruct (chain_head _ _ _ Hl) as [l0 ->].
  destruct (chain_transfer tags tags2 HL Hnd t _ Hl i Ht) as [t2 [l2 [Ht2 [Hc2 Hf]]]].
  destruct (chain_head _ _ _ Hc2) as [l20 ->].
  rewrite (propagate_lineage tags Hnd Hlin ty Hp i t l0 Ht Hl).
  rewrite (propagate_lineage tags2 Hnd2 Hlin2 tz Hp2 i t2 l20 Ht2 Hc2).
  cbn [option_map]. f_equal. apply constraints_ext. intros k.
  rewrite !effective_rootmost.
  refine (rootmost_transfer (tagById tags) (paired tags tags2) k _ t _ Hl _ Hf).
  intros x y lx [j [Hx Hy]] Hlx.
  destruct (chain_head _ _ _ Hlx) as [lx0 ->].
  pose proof (propagate_lineage tags Hnd Hlin ty Hp j x lx0 Hx Hlx) as Hyj.
  assert (Ec : t_constraints y = t_constraints (writeConstraints x (inhAbove lx0))).
  { assert (E : nth_error (map t_constraints tags2) j
                = nth_error (map t_constraints ty) j) by now rewrite HC2.
    rewrite !nth_error_map, Hy, Hyj in E. cbn [option_map] in E.
    injection E as E. exact E. }
  rewrite <- effective_rootmost. unfold localFlag. now rewrite Ec.
Qed.

Lemma Forall_by_map {A B} (g : A -> B) (P : A -> Prop) (l l' : list A) :
  (forall a b, g a = g b -> P a -> P b) ->
  map g l = map g l' -> Forall P l -> Forall P l'.
Proof.
  intros HP. revert l'. induction l as [|a l IH]; intros [|b l'] E H; simpl in E;
    try discriminate; [constructor|].
  inversion E. inversion H; subst. constructor; [eapply HP; eauto|now apply IH].
Qed.

Lemma existsb_by_map {A B} (g : A -> B) (p : A -> bool) (l l' : list A) :
  (forall a b, g a = g b -> p a = p b) ->
  map g l = map g l' -> existsb p l = existsb p l'.
Proof.
  intros HP. revert l'. induction l as [|a l IH]; intros [|b l'] E; simpl in E;
    try discriminate; [reflexivity|].
  inversion E. simpl. rewrite (HP a b) by assumption. f_equal. now apply IH.
Qed.

(** The attributes of a tag that propagation does not touch. *)
Definition coreOf (t : Tag)
    : string * string * option string * option Z * option JsVal :=
  (t_id t, t_label t, t_bind_id t, t_service_id t, t_meta t).

Definition listsOf (t : Tag) : option (list string) * option (list string) :=
  (t_includes t, t_excludes t).

(** The object returned by [normalise]. *)
Definition docObj (filters_ fields_ : JsVal) (inc exc : option JsVal) (version : string)
    (fb : option JsVal) : JsVal :=
  JObj ([("filters", filters_); ("fields", fields_)]
        ++ optProp "includes_for_options" inc
        ++ optProp "excludes_for_options" exc
        ++ [("schema_version", JStr version)]
        ++ optProp "fallbacks" fb).

Lemma docObj_get (filters_ fields_ : JsVal) (inc exc : option JsVal) (version : string)
    (fb : option JsVal) :
  let d := docObj filters_ fields_ inc exc version fb in
  (jsGet d "filters" = filters_ /\ jsGet d "fields" = fields_
   /\ jsGet d "includes_for_options" = optVal inc
   /\ jsGet d "includesForOptions" = JUndefined
   /\ jsGet d "excludes_for_options" = optVal exc
   /\ jsGet d "excludeForOptions" = JUndefined)
  /\ (jsGet d "schema_version" = JStr version
      /\ jsGet d "fallbacks" = optVal fb
      /\ jsGet d "rootIncludes" = JUndefined
      /\ jsGet d "rootExcludes" = JUndefined).
Proof. destruct inc, exc, fb; repeat split; reflexivity. Qed.

Section TwiceMain.

Context {R : JsRuntime}.

(** The runtime's [trim] leaves something of the two literals of the
    injected root tag. *)
Hypothesis root_id_kept : nonBlank "root" = true.
Hypothesis root_label_kept : nonBlank "Root" = true.

Lemma rootTag_ok : coreOk rootTag.
Proof.
  split; [|split; [|split]]; simpl; try discriminate.
  - unfold okStr, strOr, str. now rewrite root_id_kept.
  - unfold okStr, strOr, str. now rewrite root_label_kept.
Qed.

Lemma migrateRoot_core (ri re : list string) (t : Tag) :
  coreOf (migrateRoot ri re t) = coreOf t.
Proof. unfold migrateRoot. now destruct (isRootId t). Qed.

Lemma coreOk_by_core (a b : Tag) : coreOf a = coreOf b -> coreOk a -> coreOk b.
Proof.
  unfold coreOf, coreOk. intros E. inversion E as [[E1 E2 E3 E4 E5]].
  now rewrite E1, E2, E3, E5.
Qed.

Lemma isRootId_by_core (a b : Tag) : coreOf a = coreOf b -> isRootId a = isRootId b.
Proof. unfold coreOf, isRootId. intros E. inversion E as [[E1 E2 E3 E4 E5]]. now rewrite E1. Qed.

(** The tags before propagation. *)
Lemma normaliseTags_ok (x : JsVal) (ri re : list string) :
  Forall coreOk (normaliseTags x ri re)
  /\ existsb isRootId (normaliseTags x ri re) = true
  /\ Forall (fun t => (isRootId t = false \/ (ri = [] /\ re = [])) ->
                      okLists (t_includes t) /\ okLists (t_excludes t))
       (normaliseTags x ri re).
Proof.
  unfold normaliseTags. cbv zeta.
  set (tags0 := match nullish (jsGet x "filters") (nullish (jsGet x "tags") (JArr [])) with
                | JArr l => map coerceTag l
                | _ => []
                end).
  assert (H0 : Forall (fun t => coreOk t /\ okLists (t_includes t)
                                /\ okLists (t_excludes t)) tags0).
  { unfold tags0.
    destruct (nullish (jsGet x "filters") (nullish (jsGet x "tags") (JArr [])));
      try constructor.
    apply Forall_forall. intros t Ht. apply in_map_iff in Ht.
    destruct Ht as [src [<- _]]. apply coerceTag_ok. }
  set (tags1 := if existsb isRootId tags0 then tags0 else rootTag :: tags0).
  assert (H1 : Forall (fun t => coreOk t /\ okLists (t_includes t)
                                /\ okLists (t_excludes t)) tags1).
  { unfold tags1. destruct (existsb isRootId tags0); [exact H0|].
    constructor; [|exact H0]. split; [apply rootTag_ok|]. split; intros l; discriminate. }
  assert (R1 : existsb isRootId tags1 = true).
  { unfold tags1. destruct (existsb isRootId tags0) eqn:E; [exact E|reflexivity]. }
  assert (M : forall a b, Forall coreOk tags1
               /\ Forall coreOk (map (migrateRoot a b) tags1)
               /\ existsb isRootId (map (migrateRoot a b) tags1) = true
               /\ Forall (fun t => isRootId t = false ->
                                   okLists (t_includes t) /\ okLists (t_excludes t))
                    (map (migrateRoot a b) tags1)).
  { intros a b.
    assert (C1 : Forall coreOk tags1).
    { eapply Forall_impl; [|exact H1]. now intros t [H _]. }
    split; [exact C1|]. split; [|split].
    - apply (Forall_by_map coreOf coreOk tags1); [apply coreOk_by_core| |exact C1].
      rewrite map_map. apply map_ext. intros t. symmetry. apply migrateRoot_core.
    - rewrite <- R1. apply (existsb_by_map coreOf); [apply isRootId_by_core|].
      rewrite map_map. apply map_ext. intros t. apply migrateRoot_core.
    - apply Forall_forall. intros t Ht. apply in_map_iff in Ht.
      destruct Ht as [t1 [<- Hin]]. intros Hr.
      pose proof (proj1 (Forall_forall _ _) H1 t1 Hin) as [_ Hl].
      unfold migrateRoot in *. destruct (isRootId t1) eqn:E; [|exact Hl].
      unfold isRootId in Hr, E. cbn [t_id] in Hr. congruence. }
  destruct ri as [|a ri]; [destruct re as [|b re]|].
  - split; [|split; [exact R1|]].
    + eapply Forall_impl; [|exact H1]. now intros t [H _].
    + eapply Forall_impl; [|exact H1]. intros t [_ H] _. exact H.
  - destruct (M [] (b :: re)) as [_ [M1 [M2 M3]]]. split; [exact M1|]. split; [exact M2|].
    eapply Forall_impl; [|exact M3]. intros t H [Hr|[_ Hr]]; [now apply H|discriminate].
  - destruct (M (a :: ri) re) as [_ [M1 [M2 M3]]]. split; [exact M1|]. split; [exact M2|].
    eapply Forall_impl; [|exact M3]. intros t H [Hr|[Hr _]]; [now apply H|discriminate].
Qed.

Lemma normaliseFields_fixed (x : JsVal) (r r' : PricingRole) :
  map (coerceField r') (normaliseFields x r) = normaliseFields x r.
Proof.
  unfold normaliseFields. destruct (nullish (jsGet x "fields") (JArr [])); try reflexivity.
  rewrite map_map. apply map_ext. intros f. apply coerceField_again.
Qed.

Lemma toStringArrayMap_again (src : JsVal) :
  toStringArrayMap
    (nullish (optVal (option_map stringMapToJs (toStringArrayMap src)))
       (nullish JUndefined JUndefined))
  = toStringArrayMap src.
Proof.
  destruct (toStringArrayMap src) as [m|] eqn:E; [|reflexivity].
  cbn [option_map optVal]. unfold stringMapToJs at 1. cbn [nullish].
  exact (toStringArrayMap_round src m E).
Qed.

Lemma fallbackToJs_global (fb : ServiceFallback) :
  jsGet (fallbackToJs fb) "global" = optVal (option_map svcMapToJs (fb_global fb)).
Proof. unfold fallbackToJs. destruct (fb_global fb), (fb_nodes fb); reflexivity. Qed.

Lemma recoerce_all (ty : list Tag) :
  Forall coreOk ty ->
  map coreOf (map (fun t => coerceTag (tagToJs t)) ty) = map coreOf ty
  /\ map linkOf (map (fun t => coerceTag (tagToJs t)) ty) = map linkOf ty
  /\ map t_constraints (map (fun t => coerceTag (tagToJs t)) ty) = map t_constraints ty.
Proof.
  intros H. rewrite !map_map. repeat split; apply map_ext_in; intros t Ht;
    destruct (recoerce_core t (proj1 (Forall_forall _ _) H t Ht))
      as [E1 [E2 [E3 [E4 [E5 E6]]]]].
  - unfold coreOf. now rewrite E1, E2, E3, E4, E5.
  - unfold linkOf. now rewrite E1, E3.
  - exact E6.
Qed.


End TwiceMain.

(** A legacy document: option maps, a field with an option, global and
    node-scoped fallbacks next to the tags of [overrideInput]. *)
Definition legacyInput : JsVal :=
  JObj [("filters",
         JArr [JObj [("id", JStr "root"); ("label", JStr "Root");
                     ("constraints", JObj [("refill", JBool true)])];
               JObj [("id", JStr "a"); ("label", JStr "A"); ("bindId", JStr "root");
                     ("includes", JArr [JStr "g"; JStr "g"]);
                     ("constraints", JObj [("refill", JBool false)])]]);
        ("fields",
         JArr [JObj [("id", JStr "f"); ("bind", JArr [JStr " root "]);
                     ("options", JArr [JObj [("id", JStr "o"); ("label", JStr "O");
                                             ("serviceId", JNum 7)]])];
               JObj [("id", JStr "g"); ("label", JStr "G")]]);
        ("includesForOptions", JObj [("f::o", JArr [JStr "g"; JStr ""])]);
        ("fallbacks",
         JObj [("global", JObj [("1", JArr [JNum 2; JNum 3; JNum 2])]);
               ("f", JArr [JNum 5])])].

Definition tagAt (i : nat) (d : JsVal) : JsVal :=
  match jsGet d "filters" with
  | JArr l => nth i l JUndefined
  | _ => JUndefined
  end.



(* ===================================================================== *)
(** * Further properties of the normaliser *)
(* ===================================================================== *)

(** The array that [normalise] reads the tags from. *)
Definition rawTags (x : JsVal) : list JsVal :=
  match nullish (jsGet x "filters") (nullish (jsGet x "tags") (JArr [])) with
  | JArr l => l
  | _ => []
  end.

Definition originFlag (t : Tag) (k : FlagKey) : option string :=
  match t_constraints_origin t with
  | Some c => flag k c
  | None => None
  end.

Definition overrideFlag (t : Tag) (k : FlagKey) : option Override :=
  match t_constraints_overrides t with
  | Some c => flag k c
  | None => None
  end.

Lemma originFlag_writeConstraints (t : Tag) (inh : Inherited) (k : FlagKey) :
  originFlag (writeConstraints t inh) k = fo_origin (flagOut t inh k).
Proof.
  unfold originFlag. cbn [t_constraints_origin writeConstraints].
  now rewrite flag_nonEmptyFlags, flag_mapFlags.
Qed.

Lemma overrideFlag_writeConstraints (t : Tag) (inh : Inherited) (k : FlagKey) :
  overrideFlag (writeConstraints t inh) k = fo_override (flagOut t inh k).
Proof.
  unfold overrideFlag. cbn [t_constraints_overrides writeConstraints].
  now rewrite flag_nonEmptyFlags, flag_mapFlags.
Qed.

Lemma nextFlag_writeConstraints (t : Tag) (inh : Inherited) (k : FlagKey) :
  localFlag (writeConstraints t inh) k = fo_next (flagOut t inh k).
Proof.
  unfold localFlag. cbn [t_constraints writeConstraints].
  now rewrite flag_nonEmptyFlags, flag_mapFlags.
Qed.

Lemma inhAbove_origin (l : list Tag) (k : FlagKey) (v : bool) (o : string) :
  flag k (inhAbove l) = Some (v, o) -> In o (map t_id l).
Proof.
  revert v o. induction l as [|p l IH]; intros v o H; simpl in H.
  - destruct k; discriminate.
  - unfold passDown in H. rewrite flag_mapFlags in H.
    unfold flagOut, resolveFlag in H.
    destruct (flag k (inhAbove l)) as [[v0 o0]|] eqn:E;
      destruct (localFlag p k) as [a|]; simpl in H;
      try destruct (Bool.eqb a v0); simpl in H; try discriminate;
      inversion H; subst; simpl; eauto.
Qed.

Section NormaliserFacts.

Context {R : JsRuntime}.

(** X1: [normalise] throws exactly for an input that is not an object,
    with the message of [toObject]; for an object it returns an object
    (propagation never runs out of fuel), unless a legacy [rootIncludes]
    or [rootExcludes] array holds something that is not a string, the
    one case the model leaves open. *)
Theorem normalise_accepts_objects (defRole : PricingRole) (x : JsVal) :
  match normaliseWith defRole x with
  | Thrown m => isObject x = false /\ m = "normalise(): expected an object payload"
  | Returned y => isObject x = true /\ isObject y = true
  | IllTyped =>
      isObject x = true
      /\ (rootList (jsGet x "rootIncludes") = None
          \/ rootList (jsGet x "rootExcludes") = None)
  | OutOfFuel => False
  end.
Proof.
  unfold normaliseWith. destruct (isObject x) eqn:Ho; cbn [negb]; [|now split].
  cbv zeta.
  destruct (rootList (jsGet x "rootIncludes")) as [ri|] eqn:Ei; [|split; auto].
  destruct (rootList (jsGet x "rootExcludes")) as [re|] eqn:Ee; [|split; auto].
  destruct (propagateConstraints_returns (normaliseTags x ri re)) as [tags' [E _]].
  rewrite E. now split.
Qed.


(** X3: [coerceField] is idempotent, and once a field is coerced the
    default pricing role no longer matters: coercing the result again,
    under any default role, gives the same field object (bind ids stay
    trimmed and duplicate free, options keep their role, [meta.multi]
    stays a boolean). *)
Theorem coerceField_idempotent (r r' : PricingRole) (src : JsVal) :
  coerceField r' (coerceField r src) = coerceField r src
  /\ coerceField r (coerceField r src) = coerceField r src.
Proof. split; apply coerceField_again. Qed.

(** X4: [normaliseBindId] never returns an empty binding: the result is
    absent, or one non-empty trimmed string, or an array of at least two
    distinct non-empty trimmed strings (an array of one id collapses to
    the string). *)
Theorem normaliseBindId_shape (bind : JsVal) :
  match normaliseBindId bind with
  | None => True
  | Some (JStr s) => s <> EmptyString /\ trim s = s
  | Some (JArr items) =>
      exists ids,
        items = map JStr ids /\ 2 <= length ids /\ NoDup ids
        /\ forall s, In s ids -> s <> EmptyString /\ trim s = s
  | Some _ => False
  end.
Proof.
  assert (T : forall s, truthyStr s = true -> s <> EmptyString).
  { intros s H E. subst s. discriminate H. }
  destruct bind; simpl; auto.
  - destruct (truthyStr (trim s)) eqn:E; [|exact I].
    split; [now apply T|apply trim_idem].
  - set (raw := map (fun b => trim (toStr b)) items).
    assert (Hd : NoDup (dedupe (filter truthyStr raw))) by apply JsSet_NoDup_of_list.
    assert (Hin : forall s, In s (dedupe (filter truthyStr raw)) ->
                            s <> EmptyString /\ trim s = s).
    { intros s Hs. unfold dedupe in Hs. rewrite JsSet_In_of_list in Hs.
      apply filter_In in Hs. destruct Hs as [Hs Ht].
      split; [now apply T|exact (trimmed_fixed items s Hs)]. }
    destruct (dedupe (filter truthyStr raw)) as [|a [|b arr]] eqn:Ed.
    + exact I.
    + apply Hin. now left.
    + exists (a :: b :: arr). split; [reflexivity|]. split; [simpl; lia|].
      split; [exact Hd|exact Hin].
Qed.

(** X5: a map returned by [toStringArrayMap] is never empty, has
    distinct non-empty keys, and every list in it is non-empty, free of
    duplicates and free of empty or blank strings; written out as an
    object and read again it is the same map. *)
Theorem toStringArrayMap_canonical (src : JsVal) :
  match toStringArrayMap src with
  | None => True
  | Some m =>
      m <> []
      /\ NoDup (JsMap.keys m)
      /\ (forall k v, In (k, v) m ->
            k <> EmptyString /\ v <> [] /\ NoDup v
            /\ forall s, In s v -> s <> EmptyString /\ nonBlank s = true)
      /\ toStringArrayMap (stringMapToJs m) = Some m
  end.
Proof.
  destruct (toStringArrayMap src) as [m|] eqn:E; [|exact I].
  destruct (toStringArrayMap_clean src m E) as [[Hnd Hall] Hne].
  split; [exact Hne|]. split; [exact Hnd|]. split.
  - intros k v Hin. destruct (Hall k v Hin) as [Hk [Hv [Hd Hf]]].
    split; [intros ->; discriminate Hk|]. split; [exact Hv|]. split; [exact Hd|].
    intros s Hs. pose proof (proj1 (Forall_forall _ _) Hf s Hs) as Hkeep.
    unfold keepStr in Hkeep. apply andb_true_iff in Hkeep. destruct Hkeep as [A B].
    split; [intros ->; discriminate A|exact B].
  - exact (toStringArrayMap_round src m E).
Qed.

(** X6: [coerceFallbacks] returns nothing or at least one of [global]
    and [nodes]; a map it returns is not empty and has distinct keys, and
    every candidate list in it is non-empty, has no duplicate, no empty
    string and no candidate that is the key itself (compared as
    strings). *)
Theorem coerceFallbacks_sanitised (src : JsVal) :
  match coerceFallbacks src with
  | None => True
  | Some fb =>
      (fb_global fb <> None \/ fb_nodes fb <> None)
      /\ forall m, fb_global fb = Some m \/ fb_nodes fb = Some m ->
           m <> [] /\ NoDup (JsMap.keys m)
           /\ forall k v, In (k, v) m ->
                v <> [] /\ NoDup v
                /\ forall c, In c v ->
                     c <> SvcStr EmptyString /\ toStr (svcToJs c) <> k
  end.
Proof.
  destruct (coerceFallbacks src) as [fb|] eqn:E; [|exact I].
  unfold coerceFallbacks in E. destruct (isObject src); [|discriminate]. cbv zeta in E.
  assert (C : forall es, cleanFallbackMap (fold_left fallbackStep es JsMap.empty)).
  { intros es. apply fallbackStep_clean. apply empty_fallback_clean. }
  assert (N : forall m m' : JsMap.t (list ServiceIdRef), nonEmptyMap m = Some m' ->
                m' = m /\ m <> []).
  { intros [|e m] m' H; simpl in H; [discriminate|]. inversion H. split; [reflexivity|discriminate]. }
  assert (K : forall m, cleanFallbackMap m -> m <> [] ->
                m <> [] /\ NoDup (JsMap.keys m)
                /\ forall k v, In (k, v) m ->
                     v <> [] /\ NoDup v
                     /\ forall c, In c v ->
                          c <> SvcStr EmptyString /\ toStr (svcToJs c) <> k).
  { intros m [Hnd Hall] Hne. split; [exact Hne|]. split; [exact Hnd|].
    intros k v Hin. destruct (Hall k v Hin) as [Hv [Hd Hk]].
    split; [exact Hv|]. split; [exact Hd|].
    intros c Hc. pose proof (proj1 (Forall_forall _ _) Hk c Hc) as Hkept.
    unfold keptUnder in Hkept. apply andb_true_iff in Hkept. destruct Hkept as [A B].
    split.
    - intros ->. discriminate A.
    - apply negb_true_iff in B. now apply String.eqb_neq in B. }
  set (nodes := nonEmptyMap
                  (fold_left fallbackStep
                     (filter (fun kv => negb (String.eqb (fst kv) "global")) (entries src))
                     JsMap.empty)) in E.
  set (glob := if isObject (jsGet src "global")
               then nonEmptyMap (fold_left fallbackStep (entries (jsGet src "global"))
                                   JsMap.empty)
               else None) in E.
  assert (Hn : forall m, nodes = Some m -> cleanFallbackMap m /\ m <> []).
  { intros m Hm. unfold nodes in Hm. apply N in Hm. destruct Hm as [-> Hne].
    split; [apply C|exact Hne]. }
  assert (Hg : forall m, glob = Some m -> cleanFallbackMap m /\ m <> []).
  { intros m Hm. unfold glob in Hm. destruct (isObject (jsGet src "global")); [|discriminate].
    apply N in Hm. destruct Hm as [-> Hne]. split; [apply C|exact Hne]. }
  assert (Efb : fb = {| fb_nodes := nodes; fb_global := glob |}
                /\ (glob <> None \/ nodes <> None)).
  { destruct nodes as [n|]; destruct glob as [g|]; inversion E; split; auto;
      try (right; discriminate); left; discriminate. }
  destruct Efb as [-> Hsome]. cbn [fb_global fb_nodes].
  split; [exact Hsome|].
  intros m [Hm|Hm]; [destruct (Hg m Hm)|destruct (Hn m Hm)]; now apply K.
Qed.

(** X7: the canonical [fallbacks] object is not read back in full:
    given the object that [coerceFallbacks] returned, [coerceFallbacks]
    keeps its [global] map unchanged and finds no [nodes], because the
    key [nodes] itself is taken for a node id whose value is not an
    array; an object with [nodes] only is read as no fallbacks at all. *)
Theorem coerceFallbacks_canonical_input (src : JsVal) (fb : ServiceFallback) :
  coerceFallbacks src = Some fb ->
  coerceFallbacks (fallbackToJs fb) =
  match fb_global fb with
  | Some g => Some {| fb_nodes := None; fb_global := Some g |}
  | None => None
  end.
Proof. apply coerceFallbacks_again. Qed.

End NormaliserFacts.

(** Node-scoped fallbacks only, in the legacy shape. *)
Definition nodeFallbacks : JsVal := JObj [("f", JArr [JNum 5; JNum 6])].


Lemma coerceFallbacks_canonical_input_witness :
  exists fb,
    coerceFallbacks nodeFallbacks = Some fb
    /\ fb_nodes fb = Some [("f", [SvcNum 5; SvcNum 6])]
    /\ coerceFallbacks (fallbackToJs fb) = None.
Proof.
  destruct (coerceFallbacks nodeFallbacks) as [fb|] eqn:E;
    [|vm_compute in E; discriminate E].
  exists fb. split; [reflexivity|].
  pose proof (coerceFallbacks_canonical_input nodeFallbacks fb E) as H.
  vm_compute in E. injection E as <-. split; [reflexivity|exact H].
Defined.

(* ===================================================================== *)
(** * Further properties of constraint propagation *)
(* ===================================================================== *)

(** X8: [propagateConstraints] returns for every list of tags, be it
    cyclic, with repeated ids or with dangling parents (the [visited]
    set bounds the recursion), and it rewrites nothing but
    [constraints], [constraints_origin] and [constraints_overrides]:
    ids, labels, [bind_id], [service_id], [meta], [includes] and
    [excludes] of every tag stay as they were, in the same order. *)
Theorem propagateConstraints_total (tags : list Tag) :
  exists tags',
    propagateConstraints tags = Some tags'
    /\ length tags' = length tags
    /\ map coreOf tags' = map coreOf tags
    /\ map listsOf tags' = map listsOf tags.
Proof.
  destruct (propagateConstraints_returns tags) as [tags' [E Hids]].
  exists tags'. split; [exact E|]. split.
  - rewrite <- (length_map t_id tags'), Hids. apply length_map.
  - split; [apply (propagateConstraints_keeps coreOf)|apply (propagateConstraints_keeps listsOf)];
      try exact E; reflexivity.
Qed.

(** X9: the provenance that propagation records on a forest.  For a tag
    [t] with lineage [l] and its result [t']: an origin is recorded for a
    flag exactly when the flag has an effective value, and the origin is
    the id of a tag of the lineage; an override is recorded exactly when
    the tag declared a value and the effective value differs from it,
    and then [from] is the declared value, [to] the effective one and
    [origin] the recorded origin. *)
Theorem propagation_provenance (tags tags' : list Tag) (i : nat) (t t' : Tag)
    (l : list Tag) (k : FlagKey) :
  NoDup (map t_id tags) ->
  (forall t, In t tags -> exists l, chain (tagById tags) t l) ->
  propagateConstraints tags = Some tags' ->
  nth_error tags i = Some t ->
  chain (tagById tags) t l ->
  nth_error tags' i = Some t' ->
  (originFlag t' k = None <-> localFlag t' k = None)
  /\ (forall o, originFlag t' k = Some o -> In o (map t_id l))
  /\ (forall o, overrideFlag t' k = Some o ->
        localFlag t k = Some (ov_from o)
        /\ localFlag t' k = Some (ov_to o)
        /\ ov_from o <> ov_to o
        /\ originFlag t' k = Some (ov_origin o))
  /\ (forall a b, localFlag t k = Some a -> localFlag t' k = Some b -> a <> b ->
        overrideFlag t' k = Some {| ov_from := a; ov_to := b;
                                    ov_origin := match originFlag t' k with
                                                 | Some o => o
                                                 | None => EmptyString
                                                 end |}).
Proof.
  intros Hnd Hlin Hp Hi Hl Hi'.
  destruct (chain_head _ _ _ Hl) as [l0 ->].
  pose proof (propagate_lineage tags Hnd Hlin tags' Hp i t l0 Hi Hl) as E.
  rewrite Hi' in E. injection E as ->.
  rewrite originFlag_writeConstraints, overrideFlag_writeConstraints,
    nextFlag_writeConstraints.
  unfold flagOut, resolveFlag.
  pose proof (inhAbove_origin l0 k) as Ho.
  destruct (flag k (inhAbove l0)) as [[v o0]|]; destruct (localFlag t k) as [p|];
    simpl.
  - destruct (Bool.eqb p v) eqn:Eb; simpl.
    + apply Bool.eqb_prop in Eb. subst p.
      split; [split; discriminate|]. split; [intros o [= <-]; now left|].
      split; [intros o; discriminate|]. intros a b [= <-] [= <-] Hne. congruence.
    + apply Bool.eqb_false_iff in Eb.
      split; [split; discriminate|]. split; [intros o [= <-]; right; eauto|].
      split; [|intros a b [= <-] [= <-] _; reflexivity].
      intros o [= <-]. simpl. auto.
  - split; [split; discriminate|]. split; [intros o [= <-]; right; eauto|].
    split; [intros o; discriminate|]. intros a b; discriminate.
  - split; [split; discriminate|]. split; [intros o [= <-]; now left|].
    split; [intros o; discriminate|]. intros a b [= <-] [= <-] Hne. congruence.
  - split; [split; reflexivity|]. split; [intros o; discriminate|].
    split; [intros o; discriminate|]. intros a b; discriminate.
Qed.

(** X10: after propagation on a forest the flags are monotone along a
    lineage: whatever effective value a tag's parent has for a flag,
    the tag has the same effective value, and a tag whose parent has no
    effective value keeps its own declaration. *)
Theorem propagation_child_follows_parent (tags tags' : list Tag) (i j : nat)
    (t p t' p' : Tag) (k : FlagKey) :
  NoDup (map t_id tags) ->
  (forall t, In t tags -> exists l, chain (tagById tags) t l) ->
  propagateConstraints tags = Some tags' ->
  nth_error tags i = Some t -> nth_error tags j = Some p ->
  resolvedParent (tagById tags) t = Some (t_id p) ->
  nth_error tags' i = Some t' -> nth_error tags' j = Some p' ->
  localFlag t' k = match localFlag p' k with
                   | Some v => Some v
                   | None => localFlag t k
                   end.
Proof.
  intros Hnd Hlin Hp Hi Hj Hpar Hi' Hj'.
  destruct (Hlin p (nth_error_In _ _ Hj)) as [lp Hlp].
  destruct (chain_head _ _ _ Hlp) as [lp0 ->].
  assert (Hl : chain (tagById tags) t (t :: p :: lp0)).
  { apply (chain_step _ t (t_id p) p); [exact Hpar| |exact Hlp].
    apply byId_get; [exact Hnd|]. eapply nth_error_In; eauto. }
  pose proof (propagate_lineage tags Hnd Hlin tags' Hp i t _ Hi Hl) as E.
  pose proof (propagate_lineage tags Hnd Hlin tags' Hp j p _ Hj Hlp) as E'.
  rewrite Hi' in E. rewrite Hj' in E'. injection E as ->. injection E' as ->.
  change (passDown p (inhAbove lp0)) with (inhAbove (p :: lp0)).
  rewrite (effective_rootmost t (p :: lp0) k), (effective_rootmost p lp0 k). reflexivity.
Qed.

Lemma propagation_provenance_witness :
  exists t',
    option_map (fun l => nth_error l 1) (propagateConstraints overrideTags) = Some (Some t')
    /\ overrideFlag t' Refill
       = Some {| ov_from := false; ov_to := true; ov_origin := "root" |}.
Proof.
  destruct overrideTags_forest as [Hnd [Hlin Ha]].
  destruct (propagateConstraints overrideTags) as [tags'|] eqn:Hp;
    [|vm_compute in Hp; discriminate Hp].
  destruct (nth_error tags' 1) as [t'|] eqn:Ht;
    [|vm_compute in Hp; injection Hp as <-; discriminate Ht].
  exists t'. split; [cbn [option_map]; now rewrite Ht|].
  destruct (propagation_provenance overrideTags tags' 1 _ t' _ Refill Hnd Hlin Hp
              eq_refl Ha Ht) as [_ [_ [_ H]]].
  assert (Ev : localFlag t' Refill = Some true /\ originFlag t' Refill = Some "root").
  { vm_compute in Hp. injection Hp as <-. injection Ht as <-. split; reflexivity. }
  destruct Ev as [Ev Eo].
  rewrite (H false true eq_refl Ev (fun E => Bool.diff_false_true E)). now rewrite Eo.
Defined.

Lemma propagation_child_follows_parent_witness :
  exists t',
    option_map (fun l => nth_error l 1) (propagateConstraints overrideTags) = Some (Some t')
    /\ localFlag t' Refill = Some true.
Proof.
  destruct overrideTags_forest as [Hnd [Hlin Ha]].
  destruct (propagateConstraints overrideTags) as [tags'|] eqn:Hp;
    [|vm_compute in Hp; discriminate Hp].
  destruct (nth_error tags' 1) as [t'|] eqn:Ht;
    [|vm_compute in Hp; injection Hp as <-; discriminate Ht].
  destruct (nth_error tags' 0) as [p'|] eqn:Ht0;
    [|vm_compute in Hp; injection Hp as <-; discriminate Ht0].
  exists t'. split; [cbn [option_map]; now rewrite Ht|].
  rewrite (propagation_child_follows_parent overrideTags tags' 1 0 _ _ t' p' Refill
             Hnd Hlin Hp eq_refl eq_refl eq_refl Ht Ht0).
  vm_compute in Hp. injection Hp as <-. injection Ht0 as <-. reflexivity.
Defined.

(* ===================================================================== *)
(** * Further properties of the visibility engine *)
(* ===================================================================== *)

Lemma NoDup_map_filter {A B} (key : A -> B) (keep : A -> bool) :
  forall xs : list A, NoDup (map key xs) -> NoDup (map key (filter keep xs)).
Proof.
  intros xs. induction xs as [|a xs IH]; simpl; intros H; [constructor|].
  inversion H as [|x xs' Hx Hxs]; subst.
  destruct (keep a); simpl; [|now apply IH].
  constructor; [|now apply IH].
  intros Hin. apply Hx. apply in_map_iff in Hin. destruct Hin as [b [E Hb]].
  apply filter_In in Hb. apply in_map_iff. exists b. tauto.
Qed.

Lemma NoDup_filter_list {A} (p : A -> bool) (l : list A) : NoDup l -> NoDup (filter p l).
Proof.
  intros H. rewrite <- (map_id (filter p l)). apply NoDup_map_filter. now rewrite map_id.
Qed.

Lemma NoDup_ordered_rest (visible : JsSet.t) (first base : list string) :
  NoDup first -> NoDup base ->
  NoDup (filter (JsSet.has visible) first
         ++ filter (notIn (JsSet.of_list (filter (JsSet.has visible) first))) base).
Proof.
  intros Hf Hb. apply NoDup_app.
  - now apply NoDup_filter_list.
  - now apply NoDup_filter_list.
  - intros x Hx Hy. apply filter_In in Hy. destruct Hy as [_ Hy].
    unfold notIn in Hy. apply negb_true_iff in Hy. apply JsSet_has_false in Hy.
    apply Hy. now apply JsSet_In_of_list.
Qed.

Lemma fieldById_Some (fs : list Field) (id : string) (f : Field) :
  JsMap.get (fieldById fs) id = Some f -> In f fs /\ f_id f = id.
Proof.
  unfold fieldById. rewrite JsMap_get_of_entries. intros H.
  apply JsMap_get_In in H. rewrite <- in_rev in H.
  apply in_map_iff in H. destruct H as [f' [E Hin]].
  inversion E; subst. split; [exact Hin|reflexivity].
Qed.

Lemma fieldById_None (fs : list Field) (id : string) :
  JsMap.get (fieldById fs) id = None <-> ~ In id (map f_id fs).
Proof.
  unfold fieldById. rewrite JsMap_get_of_entries.
  assert (K : In id (map f_id fs) <->
              In id (JsMap.keys (rev (map (fun f => (f_id f, f)) fs)))).
  { unfold JsMap.keys. rewrite <- map_rev, map_map. simpl.
    rewrite map_rev, <- in_rev. tauto. }
  rewrite K. apply JsMap_get_None_keys.
Qed.

(** The pinned order of a tag. *)
Definition pinnedOrder (props : ServiceProps) (tagId : string) : list string :=
  match order_for_tags props with
  | Some m => orEmpty (JsMap.get m tagId)
  | None => []
  end.

(** X11: when the field ids of the document are distinct and the order
    pinned for the tag (if any) has no repetition, the list returned by
    [visibleFieldIdsUnder] has no repetition, whatever is selected; the
    ids revealed by triggers are listed once even when several triggers
    reveal them. *)
Theorem visible_ids_no_repetition (props : ServiceProps) (tagId : string)
    (selected : JsSet.t) :
  NoDup (map f_id (fields props)) ->
  NoDup (pinnedOrder props tagId) ->
  NoDup (visibleFieldIdsUnder props tagId selected).
Proof.
  intros Hf Hp. unfold visibleFieldIdsUnder.
  destruct (JsMap.get (tagById (filters props)) tagId) as [tag|]; [|constructor].
  cbv zeta. fold (pinnedOrder props tagId).
  assert (Hb : NoDup (map f_id
                        (filter (fun f => JsSet.has (vs_visible (visState props tag selected))
                                            (f_id f)) (fields props)))).
  { now apply NoDup_map_filter. }
  destruct (pinnedOrder props tagId) as [|p ps] eqn:Ep.
  - apply NoDup_ordered_rest; [|exact Hb].
    apply (proj1 (revealedOrder_spec props tag selected)).
  - now apply NoDup_ordered_rest.
Qed.


(** X13: [visibleFieldsUnder] returns the fields of the visible ids, in
    the same order, and drops the ids that name no field of the document
    (an id revealed by a trigger or pinned in [order_for_tags] need not
    be a field): its ids are the visible ids that are field ids, and
    every field it returns is a field of the document. *)
Theorem visibleFieldsUnder_ids (props : ServiceProps) (tagId : string)
    (selected : JsSet.t) :
  map f_id (visibleFieldsUnder props tagId selected)
  = filter (JsMap.has (fieldById (fields props)))
      (visibleFieldIdsUnder props tagId selected)
  /\ (forall f, In f (visibleFieldsUnder props tagId selected) -> In f (fields props))
  /\ (forall id, In id (map f_id (fields props)) ->
        In id (visibleFieldIdsUnder props tagId selected) ->
        In id (map f_id (visibleFieldsUnder props tagId selected))).
Proof.
  unfold visibleFieldsUnder. cbv zeta.
  generalize (visibleFieldIdsUnder props tagId selected). intros ids.
  assert (A : map f_id
                (flat_map (fun id => match JsMap.get (fieldById (fields props)) id with
                                     | Some f => [f]
                                     | None => []
                                     end) ids)
              = filter (JsMap.has (fieldById (fields props))) ids).
  { induction ids as [|id ids IH]; [reflexivity|].
    cbn [flat_map filter]. rewrite map_app, IH. unfold JsMap.has at 2.
    destruct (JsMap.get (fieldById (fields props)) id) as [f|] eqn:E; [|reflexivity].
    simpl. now rewrite (proj2 (fieldById_Some _ _ _ E)). }
  split; [exact A|]. split.
  - intros f Hf. apply in_flat_map in Hf. destruct Hf as [id [_ Hf]].
    destruct (JsMap.get (fieldById (fields props)) id) as [g|] eqn:E; [|contradiction].
    destruct Hf as [<-|[]]. exact (proj1 (fieldById_Some _ _ _ E)).
  - intros id Hid Hin. rewrite A. apply filter_In. split; [exact Hin|].
    unfold JsMap.has.
    destruct (JsMap.get (fieldById (fields props)) id) eqn:E; [reflexivity|].
    apply fieldById_None in E. contradiction.
Qed.

Lemma visible_ids_no_repetition_witness :
  NoDup (visibleFieldIdsUnder walkDoc "root" ["f::o"; "f::o"]).
Proof.
  apply visible_ids_no_repetition.
  - simpl. repeat constructor; simpl; intuition discriminate.
  - constructor.
Defined.


Lemma unvisited_le (ids : list string) (vis : JsSet.t) :
  length (unvisited ids vis) <= length ids.
Proof.
  unfold unvisited.
  pose proof (filter_length_le (notIn vis) (nodup string_dec ids)) as H1.
  assert (H2 : length (nodup string_dec ids) <= length ids).
  { apply NoDup_incl_length; [apply NoDup_nodup|].
    intros x Hx. now apply nodup_In in Hx. }
  lia.
Qed.

Lemma unvisited_none (ids : list string) (vis : JsSet.t) (x : string) :
  length (unvisited ids vis) = 0 -> In x ids -> JsSet.has vis x = true.
Proof.
  intros H Hx. destruct (JsSet.has vis x) eqn:E; [reflexivity|].
  exfalso. unfold unvisited in H. apply length_zero_iff_nil in H.
  assert (Hin : In x (filter (notIn vis) (nodup string_dec ids))).
  { apply filter_In. split; [now apply nodup_In|]. unfold notIn. now rewrite E. }
  rewrite H in Hin. exact Hin.
Qed.

Lemma parentOf_In (tags : list Tag) (c p : Tag) :
  parentOf (tagById tags) c = Some p -> In (t_id p) (map t_id tags).
Proof.
  unfold parentOf. destruct (t_bind_id c) as [pid|]; [|discriminate].
  destruct (truthyStr pid); [|discriminate]. intros H.
  destruct (tagById_Some _ _ _ H) as [Hin _]. now apply in_map.
Qed.

(** Once the walk is among the tags of the document, fuel above the
    number of ids not yet met is never used up. *)
Lemma lineageLoop_fuel (tags : list Tag) (fuel : nat) :
  forall extra cur d guard ld,
    (forall c, cur = Some c -> In (t_id c) (map t_id tags)) ->
    length (unvisited (map t_id tags) guard) <= fuel ->
    lineageLoop (fuel + extra) (tagById tags) cur d guard ld
    = lineageLoop fuel (tagById tags) cur d guard ld.
Proof.
  induction fuel as [|fuel IH]; intros extra cur d guard ld Hcur Hm.
  - simpl. destruct extra as [|e]; [reflexivity|]. simpl.
    destruct cur as [c|]; [|reflexivity].
    assert (Hz : length (unvisited (map t_id tags) guard) = 0) by lia.
    now rewrite (unvisited_none _ _ _ Hz (Hcur c eq_refl)).
  - simpl. destruct cur as [c|]; [|reflexivity].
    destruct (JsSet.has guard (t_id c)) eqn:Hg; [reflexivity|].
    apply IH.
    + intros p Hp. eapply parentOf_In. exact Hp.
    + pose proof (unvisited_add (map t_id tags) guard (t_id c) (Hcur c eq_refl) Hg). lia.
Qed.

(** Entries of the lineage map for ids already met are not written again. *)
Lemma lineageLoop_keeps (byId : JsMap.t Tag) (fuel : nat) :
  forall cur d guard ld id,
    JsSet.has guard id = true ->
    JsMap.get (lineageLoop fuel byId cur d guard ld) id = JsMap.get ld id.
Proof.
  induction fuel as [|fuel IH]; intros cur d guard ld id Hid; [reflexivity|].
  simpl. destruct cur as [c|]; [|reflexivity].
  destruct (JsSet.has guard (t_id c)) eqn:Hg; [reflexivity|].
  rewrite IH.
  - apply JsMap_get_set_other. intros E. subst id. congruence.
  - apply JsSet_has_In. apply JsSet_In_add. left. now apply JsSet_has_In.
Qed.

(** X14: the lineage walk of [visibleFieldIdsUnder] ends on every
    document, also when [bind_id] references form a cycle: it meets every
    tag at most once, so it takes at most one turn per tag after the
    first (more fuel changes nothing).  The walk puts the tag itself at
    depth 0 and a parent that is another tag at depth 1. *)
Theorem lineage_walk_ends (tags : list Tag) (tag : Tag) (extra : nat) :
  lineageLoop (S (length tags) + extra) (tagById tags) (Some tag) 0 JsSet.empty JsMap.empty
  = lineageDepthOf tags tag
  /\ JsMap.get (lineageDepthOf tags tag) (t_id tag) = Some 0
  /\ (forall p, parentOf (tagById tags) tag = Some p -> t_id p <> t_id tag ->
        JsMap.get (lineageDepthOf tags tag) (t_id p) = Some 1).
Proof.
  split; [|split].
  - unfold lineageDepthOf. cbn [Nat.add lineageLoop]. cbn [JsSet.has JsSet.empty existsb].
    apply lineageLoop_fuel.
    + intros p Hp. eapply parentOf_In. exact Hp.
    + rewrite <- (length_map t_id tags). apply unvisited_le.
  - unfold lineageDepthOf. cbn [lineageLoop]. cbn [JsSet.has JsSet.empty existsb].
    rewrite lineageLoop_keeps.
    + apply JsMap_get_set_same.
    + apply JsSet_has_In. apply JsSet_In_add. now right.
  - intros p Hp Hne. unfold lineageDepthOf. cbn [lineageLoop].
    cbn [JsSet.has JsSet.empty existsb]. rewrite Hp.
    destruct tags as [|t0 ts].
    { exfalso. unfold parentOf in Hp. destruct (t_bind_id tag); [|discriminate].
      destruct (truthyStr s); discriminate. }
    cbn [length lineageLoop].
    assert (Hg : JsSet.has (JsSet.add JsSet.empty (t_id tag)) (t_id p) = false).
    { apply JsSet_has_false. rewrite JsSet_In_add. intros [[]|E]. now apply Hne. }
    rewrite Hg. rewrite lineageLoop_keeps.
    + apply JsMap_get_set_same.
    + apply JsSet_has_In. apply JsSet_In_add. now right.
Qed.

(* ===================================================================== *)
(** * Further properties of the node registry and of trigger keys *)
(* ===================================================================== *)

Lemma substring_length_le (s : string) (n m : nat) :
  String.length (substring n m s) <= String.length s - n.
Proof.
  revert n m. induction s as [|c s IH]; intros n m.
  - destruct n, m; simpl; lia.
  - destruct n as [|n].
    + destruct m as [|m]; simpl; [lia|]. specialize (IH 0 m). lia.
    + simpl. apply IH.
Qed.

Lemma substring_add (s : string) (n a b : nat) :
  substring n (a + b) s = (substring n a s ++ substring (n + a) b s)%string.
Proof.
  revert n a. induction s as [|c s IH]; intros n a.
  - destruct n, a, b; reflexivity.
  - destruct n as [|n].
    + destruct a as [|a]; [reflexivity|].
      simpl. f_equal. exact (IH 0 a).
    + simpl. apply IH.
Qed.

Lemma substring_all (s : string) : substring 0 (String.length s) s = s.
Proof. induction s as [|c s IH]; simpl; [reflexivity|]. now rewrite IH. Qed.

Lemma substring_middle (a b c : string) :
  substring (String.length a) (String.length b) (a ++ b ++ c)%string = b.
Proof.
  induction a as [|x a IH]; simpl; [|exact IH].
  induction b as [|y b IHb]; simpl.
  - now destruct c.
  - now rewrite IHb.
Qed.

Lemma append_length (a b : string) :
  String.length (a ++ b)%string = String.length a + String.length b.
Proof. induction a as [|x a IH]; simpl; [reflexivity|]. now rewrite IH. Qed.

(** A key split at its first ["::"]. *)
Lemma split_at_index (key : string) (idx : nat) :
  index 0 "::" key = Some idx ->
  key = (substring 0 idx key ++ "::" ++ sliceFrom (idx + 2) key)%string
  /\ forall f o, key = (f ++ "::" ++ o)%string -> idx <= String.length f.
Proof.
  intros H. pose proof (index_correct1 _ _ _ _ H) as Hsub. simpl in Hsub.
  assert (Hlen : idx + 2 <= String.length key).
  { pose proof (substring_length_le key idx 2) as L. rewrite Hsub in L. simpl in L. lia. }
  split.
  - unfold sliceFrom.
    pose proof (substring_add key idx 2 (String.length key - (idx + 2))) as P1.
    rewrite Hsub in P1.
    pose proof (substring_add key 0 idx (2 + (String.length key - (idx + 2)))) as P2.
    cbn [Nat.add] in P1, P2. rewrite P1 in P2. rewrite <- P2.
    replace (idx + S (S (String.length key - (idx + 2)))) with (String.length key) by lia.
    symmetry. apply substring_all.
  - intros f o E. destruct (Nat.le_gt_cases idx (String.length f)) as [L|L]; [exact L|].
    exfalso. apply (index_correct2 _ _ _ _ H (String.length f)); [lia|exact L|].
    rewrite E. exact (substring_middle f "::" o).
Qed.

Definition nodeId (r : NodeRef) : string :=
  match r with
  | NTag id _ => id
  | NField id _ => id
  | NOption id _ _ => id
  end.

Definition optionIds (props : ServiceProps) : list string :=
  flat_map (fun f => map o_id (orEmpty (f_options f))) (fields props).

Lemma nodesInOrder_keys (props : ServiceProps) (id : string) :
  In id (JsMap.keys (nodesInOrder props)) <->
  In id (map t_id (filters props)) \/ In id (map f_id (fields props))
  \/ In id (optionIds props).
Proof.
  unfold nodesInOrder. rewrite JsMap_keys_app, in_app_iff.
  unfold JsMap.keys at 1. rewrite map_map. simpl.
  assert (F : In id (JsMap.keys (flat_map nodesOfField (fields props))) <->
              In id (map f_id (fields props)) \/ In id (optionIds props)).
  { unfold optionIds. induction (fields props) as [|f fs IH]; simpl; [tauto|].
    rewrite JsMap_keys_app, !in_app_iff, IH.
    unfold nodesOfField, JsMap.keys. simpl. rewrite map_map. simpl. tauto. }
  rewrite F. tauto.
Qed.

Lemma nodesInOrder_ids (props : ServiceProps) (id : string) (r : NodeRef) :
  In (id, r) (nodesInOrder props) -> nodeId r = id.
Proof.
  unfold nodesInOrder. rewrite in_app_iff. intros [H|H].
  - apply in_map_iff in H. destruct H as [t [E _]]. now inversion E.
  - apply in_flat_map in H. destruct H as [f [_ H]]. unfold nodesOfField in H.
    destruct H as [E|H]; [now inversion E|].
    apply in_map_iff in H. destruct H as [o [E _]]. now inversion E.
Qed.

Lemma JsMap_get_map_find {A V} (key : A -> string) (val : A -> V) (l : list A) (k : string) :
  JsMap.get (map (fun a => (key a, val a)) l) k
  = option_map val (find (fun a => String.eqb (key a) k) l).
Proof.
  induction l as [|a l IH]; simpl; [reflexivity|].
  rewrite (String.eqb_sym k (key a)). destruct (String.eqb (key a) k); [reflexivity|exact IH].
Qed.

(** X15: [buildNodeMap] registers exactly the ids of the tags, fields and
    options of the document; the node found under an id carries that id;
    and when several nodes share an id the first registered wins, so the
    id of a tag always leads to the first tag with that id, never to a
    field or an option of the same id. *)
Theorem buildNodeMap_registers (props : ServiceProps) (id : string) :
  (JsMap.has (buildNodeMap props) id = true <->
   In id (map t_id (filters props)) \/ In id (map f_id (fields props))
   \/ In id (optionIds props))
  /\ (forall r, JsMap.get (buildNodeMap props) id = Some r -> nodeId r = id)
  /\ (forall t, find (fun t => String.eqb (t_id t) id) (filters props) = Some t ->
        JsMap.get (buildNodeMap props) id = Some (NTag id t)).
Proof.
  rewrite buildNodeMap_first. split; [|split].
  - rewrite JsMap_has_get, buildNodeMap_first, <- JsMap_get_keys.
    apply nodesInOrder_keys.
  - intros r H. apply JsMap_get_In in H. eapply nodesInOrder_ids. exact H.
  - intros t Ht. unfold nodesInOrder. rewrite JsMap_get_app.
    rewrite (JsMap_get_map_find t_id (fun t => NTag (t_id t) t)), Ht. simpl.
    apply find_some in Ht. destruct Ht as [_ E]. apply String.eqb_eq in E. now rewrite E.
Qed.

(** X16: how [resolveTrigger] reads a key.  A key that contains ["::"]
    is always a composite, whatever the registry holds under it: its
    field part is the text before the first ["::"] and its option part
    all the text after it (neither is trimmed), and the two reassemble
    to the key.  A key without ["::"] is looked up in the registry: it
    resolves to the kind and id of the registered node, and to nothing
    when the registry has no such key. *)
Theorem resolveTrigger_reading (key : string) (nodeMap : NodeMap) :
  match resolveTrigger key nodeMap with
  | Some (TComposite k f o) =>
      k = key /\ key = (f ++ "::" ++ o)%string
      /\ forall f' o', key = (f' ++ "::" ++ o')%string -> String.length f <= String.length f'
  | Some (TTag k id) =>
      k = key /\ index 0 "::" key = None
      /\ exists t, JsMap.get nodeMap key = Some (NTag id t)
  | Some (TField k id) =>
      k = key /\ index 0 "::" key = None
      /\ exists f, JsMap.get nodeMap key = Some (NField id f)
  | Some (TOption k id fid) =>
      k = key /\ index 0 "::" key = None
      /\ exists o, JsMap.get nodeMap key = Some (NOption id o fid)
  | None => index 0 "::" key = None /\ JsMap.get nodeMap key = None
  end.
Proof.
  unfold resolveTrigger. destruct (index 0 "::" key) as [idx|] eqn:E.
  - destruct (split_at_index key idx E) as [A B].
    split; [reflexivity|]. split; [exact A|].
    intros f' o' E'. specialize (B f' o' E').
    pose proof (substring_length_le key 0 idx) as L.
    assert (L2 : String.length (substring 0 idx key) <= idx).
    { clear. revert idx. induction key as [|c s IH]; intros [|n]; simpl; try lia.
      specialize (IH n). lia. }
    lia.
  - destruct (JsMap.get nodeMap key) as [[id t|id f|id o fid]|]; eauto.
Qed.

Section ParseKey.

Context {R : JsRuntime}.

(** X17: [parseFieldOptionKey] accepts a key only if it contains ["::"]
    and both sides of the first ["::"] are non-empty after trimming; the
    parts it returns are those two sides, trimmed.  So a key that
    [resolveTrigger] reads as a composite with a blank side is no valid
    field-option key. *)
Theorem parseFieldOptionKey_reading (key : string) :
  match parseFieldOptionKey key with
  | Some (f, o) =>
      f <> EmptyString /\ o <> EmptyString /\ trim f = f /\ trim o = o
      /\ exists f0 o0,
           key = (f0 ++ "::" ++ o0)%string /\ f = trim f0 /\ o = trim o0
           /\ forall m, resolveTrigger key m = Some (TComposite key f0 o0)
  | None =>
      index 0 "::" key = None
      \/ exists f0 o0,
           key = (f0 ++ "::" ++ o0)%string
           /\ (trim f0 = EmptyString \/ trim o0 = EmptyString)
  end.
Proof.
  unfold parseFieldOptionKey. destruct (index 0 "::" key) as [idx|] eqn:E; [|now left].
  destruct (split_at_index key idx E) as [A _]. cbv zeta.
  assert (T : forall s, truthyStr s = true <-> s <> EmptyString).
  { intros s. unfold truthyStr. rewrite negb_true_iff. apply String.eqb_neq. }
  destruct (truthyStr (trim (substring 0 idx key))) eqn:Ef;
    [destruct (truthyStr (trim (sliceFrom (idx + 2) key))) eqn:Eo|]; simpl.
  - split; [now apply T|]. split; [now apply T|].
    split; [apply trim_idem|]. split; [apply trim_idem|].
    exists (substring 0 idx key), (sliceFrom (idx + 2) key).
    split; [exact A|]. split; [reflexivity|]. split; [reflexivity|].
    intros m. unfold resolveTrigger. now rewrite E.
  - right. exists (substring 0 idx key), (sliceFrom (idx + 2) key).
    split; [exact A|]. right.
    destruct (string_dec (trim (sliceFrom (idx + 2) key)) EmptyString) as [Z|Z]; [exact Z|].
    apply T in Z. congruence.
  - right. exists (substring 0 idx key), (sliceFrom (idx + 2) key).
    split; [exact A|]. left.
    destruct (string_dec (trim (substring 0 idx key)) EmptyString) as [Z|Z]; [exact Z|].
    apply T in Z. congruence.
Qed.

End ParseKey.

(* ===================================================================== *)
(** * Further properties of the visibility rules and of the simulation *)
(* ===================================================================== *)

Section RuleFacts.

Context {R : JsRuntime}.

(** The findings that one run of the rules adds. *)
Definition ruleFindings (v : ValidationCtx) : list ValidationError :=
  flat_map (duplicateLabels v) (v_tags v)
  ++ flat_map (quantityMarkers v) (v_tags v)
  ++ flat_map (utilityWithoutBase v) (v_tags v).

Lemma dedupe_fold_spec (es : list ValidationError) :
  forall (seen : JsSet.t) (kept : list ValidationError),
    (forall k, In k seen <-> In k (map keyOfErr kept)) ->
    NoDup (map keyOfErr kept) ->
    let r := fold_left dedupeStep es (seen, kept) in
    (forall k, In k (fst r) <-> In k (map keyOfErr (snd r)))
    /\ NoDup (map keyOfErr (snd r))
    /\ (exists more, snd r = kept ++ more /\ forall e, In e more -> In e es)
    /\ (forall e, In e es -> In (keyOfErr e) (map keyOfErr (snd r))).
Proof.
  induction es as [|e es IH]; intros seen kept Hs Hnd; cbn [fold_left].
  - cbv zeta. simpl. split; [exact Hs|]. split; [exact Hnd|].
    split; [exists []; split; [now rewrite app_nil_r|intros e []]|intros e []].
  - assert (Est : dedupeStep (seen, kept) e
                  = if JsSet.has seen (keyOfErr e) then (seen, kept)
                    else (JsSet.add seen (keyOfErr e), kept ++ [e])) by reflexivity.
    rewrite Est. clear Est. cbv zeta.
    destruct (JsSet.has seen (keyOfErr e)) eqn:E.
    + destruct (IH seen kept Hs Hnd) as [A [B [[more [C1 C2]] D]]].
      split; [exact A|]. split; [exact B|]. split.
      * exists more. split; [exact C1|]. intros x Hx. right. now apply C2.
      * intros x [Hx|Hx]; [subst x|now apply D].
        apply JsSet_has_In in E. apply Hs in E. rewrite C1, map_app.
        apply in_or_app. now left.
    + apply JsSet_has_false in E.
      assert (Hs' : forall k, In k (JsSet.add seen (keyOfErr e)) <->
                              In k (map keyOfErr (kept ++ [e]))).
      { intros k. rewrite JsSet_In_add, map_app, in_app_iff, Hs. simpl. split.
        - intros [H| ->]; [now left|right; now left].
        - intros [H|[H|[]]]; [now left|right; now symmetry]. }
      assert (Hnd' : NoDup (map keyOfErr (kept ++ [e]))).
      { rewrite map_app. simpl. apply NoDup_app; [exact Hnd|repeat constructor; intros []|].
        intros x Hx [<-|[]]. apply E. now apply Hs. }
      destruct (IH _ _ Hs' Hnd') as [A [B [[more [C1 C2]] D]]].
      split; [exact A|]. split; [exact B|]. split.
      * exists (e :: more). split; [rewrite <- app_assoc in C1; exact C1|].
        intros x [Hx|Hx]; [now left|right; now apply C2].
      * intros x [Hx|Hx]; [subst x|now apply D].
        apply in_map. rewrite C1. apply in_or_app. left. apply in_or_app. right. now left.
Qed.

Lemma dedupe_fold_fixed (es : list ValidationError) :
  forall (seen : JsSet.t) (kept : list ValidationError),
    (forall k, In k seen -> ~ In k (map keyOfErr es)) ->
    NoDup (map keyOfErr es) ->
    snd (fold_left dedupeStep es (seen, kept)) = kept ++ es.
Proof.
  induction es as [|e es IH]; intros seen kept Hs Hnd; cbn [fold_left].
  - simpl. now rewrite app_nil_r.
  - assert (Est : dedupeStep (seen, kept) e
                  = if JsSet.has seen (keyOfErr e) then (seen, kept)
                    else (JsSet.add seen (keyOfErr e), kept ++ [e])) by reflexivity.
    rewrite Est. clear Est. inversion Hnd as [|x xs Hx Hxs]; subst.
    assert (E : JsSet.has seen (keyOfErr e) = false).
    { apply JsSet_has_false. intros H. apply (Hs _ H). now left. }
    rewrite E. rewrite IH; [now rewrite <- app_assoc| |exact Hxs].
    intros k Hk Hin. apply JsSet_In_add in Hk. destruct Hk as [Hk| ->].
    + apply (Hs k Hk). now right.
    + contradiction.
Qed.

Lemma dedupeErrorsInPlace_spec (v : ValidationCtx) (startIndex : nat) :
  exists kept,
    v_errors (dedupeErrorsInPlace v startIndex) = firstn startIndex (v_errors v) ++ kept
    /\ NoDup (map keyOfErr kept)
    /\ (forall e, In e kept -> In e (skipn startIndex (v_errors v)))
    /\ (forall e, In e (skipn startIndex (v_errors v)) ->
          In (keyOfErr e) (map keyOfErr kept))
    /\ dedupeErrorsInPlace (dedupeErrorsInPlace v startIndex) startIndex
       = dedupeErrorsInPlace v startIndex.
Proof.
  unfold dedupeErrorsInPlace at 1. cbv zeta. cbn [v_errors].
  destruct (dedupe_fold_spec (skipn startIndex (v_errors v)) JsSet.empty [])
    as [_ [B [[more [C1 C2]] D]]]; [intros k; simpl; tauto|constructor|].
  cbv zeta in B, C1, D. simpl in C1.
  set (kept := snd (fold_left dedupeStep (skipn startIndex (v_errors v)) (JsSet.empty, [])))
    in *.
  exists kept. split; [reflexivity|]. split; [exact B|]. split.
  { intros e He. apply C2. now rewrite <- C1. }
  split; [exact D|].
  unfold dedupeErrorsInPlace. cbv zeta. cbn [v_errors v_props v_nodeMap v_selectedKeys].
  fold kept.
  assert (Hf : firstn startIndex (firstn startIndex (v_errors v) ++ kept)
               = firstn startIndex (v_errors v)
               /\ skipn startIndex (firstn startIndex (v_errors v) ++ kept) = kept).
  { destruct (Nat.le_gt_cases startIndex (length (v_errors v))) as [L|L].
    - assert (Hl : length (firstn startIndex (v_errors v)) = startIndex)
        by (apply firstn_length_le; exact L).
      split.
      + rewrite <- Hl at 1. rewrite firstn_app, Nat.sub_diag, firstn_all. simpl.
        now rewrite app_nil_r.
      + rewrite <- Hl at 1. rewrite skipn_app, Nat.sub_diag, skipn_all. reflexivity.
    - assert (Hk : kept = []).
      { unfold kept. rewrite skipn_all2 by lia. reflexivity. }
      rewrite Hk, app_nil_r, firstn_firstn, Nat.min_id. split; [reflexivity|].
      apply skipn_all2. rewrite length_firstn. lia. }
  destruct Hf as [Hf1 Hf2]. rewrite Hf1, Hf2.
  rewrite (dedupe_fold_fixed kept JsSet.empty []); [reflexivity|intros k []|exact B].
Qed.

(** X18: [dedupeErrorsInPlace] touches only the findings from
    [startIndex] on: the findings before it stay, and after it one
    finding is kept for every key (code, node, tag, other, message) that
    occurred, so no two kept findings have the same key and no key is
    lost; the kept findings are findings that were there.  Running it
    again changes nothing. *)
Theorem dedupeErrorsInPlace_keeps_one_per_key (v : ValidationCtx) (startIndex : nat) :
  exists kept,
    v_errors (dedupeErrorsInPlace v startIndex) = firstn startIndex (v_errors v) ++ kept
    /\ NoDup (map keyOfErr kept)
    /\ (forall e, In e kept -> In e (skipn startIndex (v_errors v)))
    /\ (forall e, In e (skipn startIndex (v_errors v)) ->
          In (keyOfErr e) (map keyOfErr kept))
    /\ dedupeErrorsInPlace (dedupeErrorsInPlace v startIndex) startIndex
       = dedupeErrorsInPlace v startIndex.
Proof. exact (dedupeErrorsInPlace_spec v startIndex). Qed.

Lemma runVisibilityRulesOnce_errors (v : ValidationCtx) :
  v_errors (runVisibilityRulesOnce v) = v_errors v ++ ruleFindings v.
Proof. reflexivity. Qed.

Lemma ruleFindings_ext (v1 v2 : ValidationCtx) :
  v_props v1 = v_props v2 -> v_selectedKeys v1 = v_selectedKeys v2 ->
  ruleFindings v1 = ruleFindings v2.
Proof.
  intros Hp Hs.
  unfold ruleFindings, duplicateLabels, quantityMarkers, utilityWithoutBase,
    fieldsVisibleUnder, v_tags.
  now rewrite Hp, Hs.
Qed.

(** The walk only appends findings and leaves the registry alone. *)
Lemma simLoop_appends (maxSt maxDp : Z) (onlyEffectful : bool)
    (stack : list State) (visited : JsSet.t) (validatedStates : nat)
    (v : ValidationCtx) (explored : list State) :
  (exists more,
      v_errors (sim_ctx (simLoop maxSt maxDp onlyEffectful stack visited validatedStates
                           v explored)) = v_errors v ++ more)
  /\ v_nodeMap (sim_ctx (simLoop maxSt maxDp onlyEffectful stack visited validatedStates
                           v explored)) = v_nodeMap v.
Proof.
  funelim (simLoop maxSt maxDp onlyEffectful stack visited validatedStates v explored).
  - split; [exists []; now rewrite app_nil_r|reflexivity].
  - split; [exists []; now rewrite app_nil_r|reflexivity].
  - exact H.
  - destruct H as [[more Hm] Hn]. split.
    + exists (ruleFindings (setSelectedKeys v (selected state)) ++ more).
      rewrite Hm, runVisibilityRulesOnce_errors. cbn [setSelectedKeys v_errors].
      now rewrite <- app_assoc.
    + rewrite Hn. reflexivity.
Qed.

(** The first turn of the walk validates the state on top of the stack. *)
Lemma simLoop_first (maxSt maxDp : Z) (onlyEffectful : bool)
    (stack : list State) (visited : JsSet.t) (validatedStates : nat)
    (v : ValidationCtx) (explored : list State) :
  forall state rest,
    stack = state :: rest ->
    (Z.of_nat validatedStates < maxSt)%Z ->
    JsSet.has visited (stableKeyOfSelection (selected state)) = false ->
    exists more,
      v_errors (sim_ctx (simLoop maxSt maxDp onlyEffectful stack visited validatedStates
                           v explored))
      = v_errors v ++ ruleFindings (setSelectedKeys v (selected state)) ++ more.
Proof.
  funelim (simLoop maxSt maxDp onlyEffectful stack visited validatedStates v explored);
    intros st rs Est Hlt Hvis.
  - discriminate.
  - exfalso.
    match goal with H : (_ >=? _)%Z = true |- _ =>
      pose proof H as Hge; rewrite Z.geb_leb in Hge; apply Z.leb_le in Hge; lia end.
  - inversion Est; subst. congruence.
  - inversion Est; subst.
    destruct (simLoop_appends maxSt maxDp onlyEffectful
                (expand (runVisibilityRulesOnce (setSelectedKeys v (selected st)))
                   maxDp onlyEffectful st ++ rs)
                (JsSet.add visited (stableKeyOfSelection (selected st)))
                (S validatedStates)
                (runVisibilityRulesOnce (setSelectedKeys v (selected st)))
                (explored ++ [st])) as [[more Hm] _].
    exists more. rewrite Hm, runVisibilityRulesOnce_errors.
    cbn [setSelectedKeys v_errors]. now rewrite <- app_assoc.
Qed.

End RuleFacts.

Section VisibilityFacts.

Context {R : JsRuntime}.

(** X19: [validateVisibility] only appends findings: the findings that
    were there before stay in place at the front, and the document and
    the node registry of the context are not touched, with or without
    simulation; with simulation no two appended findings have the same
    key. *)
Theorem validateVisibility_appends (v : ValidationCtx) (options : SimulateVisibilityOptions) :
  exists added,
    v_errors (validateVisibility v options) = v_errors v ++ added
    /\ v_props (validateVisibility v options) = v_props v
    /\ v_nodeMap (validateVisibility v options) = v_nodeMap v
    /\ (simulate options = false -> added = ruleFindings v)
    /\ (simulate options = true -> NoDup (map keyOfErr added)).
Proof.
  unfold validateVisibility. destruct (simulate options); cbn [negb].
  - cbv zeta.
    destruct (simLoop_appends (effectiveMaxStates options) (effectiveMaxDepth options)
                (effectiveOnlyEffectful options)
                (seedStack v options (JsSet.of_list (v_selectedKeys v)))
                JsSet.empty 0 v []) as [[more Hm] Hn].
    fold (simulateWalk v options) in Hm, Hn.
    set (w := setSelectedKeys (sim_ctx (simulateWalk v options))
                (JsSet.of_list (v_selectedKeys v))).
    assert (Hw : v_errors w = v_errors v ++ more) by exact Hm.
    destruct (dedupeErrorsInPlace_spec w (length (v_errors v)))
      as [kept [K1 [K2 _]]].
    exists kept. rewrite K1, Hw, firstn_app, Nat.sub_diag, firstn_all. simpl.
    rewrite app_nil_r.
    split; [reflexivity|]. split.
    { unfold dedupeErrorsInPlace, w. cbn [v_props setSelectedKeys].
      apply simLoop_selected_props. }
    split; [exact Hn|]. split; [discriminate|]. intros _. exact K2.
  - exists (ruleFindings v). split; [reflexivity|]. split; [reflexivity|].
    split; [reflexivity|]. split; [reflexivity|discriminate].
Qed.

Lemma resolveRootTags_nonempty (tags : list Tag) :
  tags <> [] -> resolveRootTags tags <> [].
Proof.
  intros H. unfold resolveRootTags. destruct (filter hasNoBind tags) eqn:E.
  - destruct tags; [congruence|discriminate].
  - discriminate.
Qed.


End VisibilityFacts.


Section RuleReports.

Context {R : JsRuntime}.

(** The trimmed, non-empty labels of a list of fields, in order. *)
Definition shownLabels (fs : list Field) : list string :=
  filter truthyStr
    (map (fun f => trim (match f_label f with Some l => l | None => EmptyString end)) fs).

Lemma NoDup_snoc {A} (l : list A) (x : A) : NoDup (l ++ [x]) <-> NoDup l /\ ~ In x l.
Proof.
  split.
  - intros H. apply NoDup_remove in H. rewrite app_nil_r in H. exact H.
  - intros [H1 H2]. apply NoDup_app; [exact H1|repeat constructor; intros []|].
    intros y Hy [<-|[]]. contradiction.
Qed.

Lemma shownLabels_snoc (fs : list Field) (f : Field) :
  shownLabels (fs ++ [f])
  = shownLabels fs
    ++ (if truthyStr (trim (match f_label f with Some l => l | None => EmptyString end))
        then [trim (match f_label f with Some l => l | None => EmptyString end)]
        else []).
Proof.
  unfold shownLabels. rewrite map_app, filter_app. simpl.
  now destruct (truthyStr (trim match f_label f with Some l => l | None => "" end)).
Qed.

Lemma duplicateLabels_fold (tagId : string) (fs : list Field) :
  forall done acc,
    (forall l, JsMap.has (fst acc) l = true <-> In l (shownLabels done)) ->
    (snd acc = [] <-> NoDup (shownLabels done)) ->
    (snd (fold_left (duplicateLabelStep tagId) fs acc) = []
     <-> NoDup (shownLabels (done ++ fs))).
Proof.
  induction fs as [|f fs IH]; intros done acc Hseen Herr.
  - simpl. now rewrite app_nil_r.
  - cbn [fold_left].
    replace (done ++ f :: fs) with ((done ++ [f]) ++ fs) by (now rewrite <- app_assoc).
    apply IH.
    + intros l. rewrite shownLabels_snoc. unfold duplicateLabelStep. cbv zeta.
      set (label := trim (match f_label f with Some l => l | None => EmptyString end)).
      destruct (truthyStr label) eqn:Et.
      * destruct (JsMap.get (fst acc) label) as [other|] eqn:Eg; cbn [fst].
        -- rewrite Hseen, in_app_iff. simpl. split; [tauto|].
           intros [H|[<-|[]]]; [exact H|]. apply Hseen. unfold JsMap.has. now rewrite Eg.
        -- unfold JsMap.has. rewrite JsMap_get_set, in_app_iff. simpl.
           destruct (String.eqb label l) eqn:El.
           ++ apply String.eqb_eq in El. subst l. split; [tauto|reflexivity].
           ++ apply String.eqb_neq in El. specialize (Hseen l). unfold JsMap.has in Hseen.
              rewrite Hseen. split; [tauto|]. intros [H|[H|[]]]; [exact H|contradiction].
      * rewrite app_nil_r. apply Hseen.
    + rewrite shownLabels_snoc. unfold duplicateLabelStep. cbv zeta.
      set (label := trim (match f_label f with Some l => l | None => EmptyString end)).
      destruct (truthyStr label) eqn:Et.
      * rewrite NoDup_snoc.
        destruct (JsMap.get (fst acc) label) as [other|] eqn:Eg; cbn [snd].
        -- split.
           ++ intros H. apply app_eq_nil in H. destruct H as [_ H]. discriminate.
           ++ intros [_ H]. exfalso. apply H. apply Hseen. unfold JsMap.has. now rewrite Eg.
        -- rewrite Herr. split; [|tauto]. intros H. split; [exact H|].
           intros Hin. apply Hseen in Hin. unfold JsMap.has in Hin. now rewrite Eg in Hin.
      * now rewrite app_nil_r.
Qed.

(** X21: the duplicate-label rule is silent for a tag exactly when the
    trimmed, non-empty labels of the fields visible under it are
    pairwise different (fields without a label, or with a blank one, are
    not compared); every finding it gives is a [duplicate_visible_label]
    error anchored at a visible field. *)
Theorem duplicateLabels_silent_iff (v : ValidationCtx) (t : Tag) :
  (duplicateLabels v t = [] <-> NoDup (shownLabels (fieldsVisibleUnder v (t_id t))))
  /\ forall e, In e (duplicateLabels v t) ->
       e_code e = "duplicate_visible_label"
       /\ exists f, In f (fieldsVisibleUnder v (t_id t)) /\ e_nodeId e = Some (f_id f).
Proof.
  split.
  - unfold duplicateLabels.
    apply (duplicateLabels_fold (t_id t) (fieldsVisibleUnder v (t_id t)) [] (JsMap.empty, [])).
    + intros l. simpl. split; [discriminate|intros []].
    + simpl. split; [constructor|reflexivity].
  - unfold duplicateLabels.
    assert (G : forall fs acc e,
               In e (snd (fold_left (duplicateLabelStep (t_id t)) fs acc)) ->
               In e (snd acc)
               \/ (e_code e = "duplicate_visible_label"
                   /\ exists f, In f fs /\ e_nodeId e = Some (f_id f))).
    { induction fs as [|f fs IH]; intros acc e He; [now left|].
      cbn [fold_left] in He. destruct (IH _ _ He) as [H|[Hc [g [Hg Hn]]]].
      - unfold duplicateLabelStep in H. cbv zeta in H.
        destruct (truthyStr (trim match f_label f with Some l => l | None => "" end));
          [|now left].
        destruct (JsMap.get (fst acc) _) in H; cbn [snd] in H; [|now left].
        apply in_app_or in H. destruct H as [H|[<-|[]]]; [now left|].
        right. split; [reflexivity|]. exists f. split; [now left|reflexivity].
      - right. split; [exact Hc|]. exists g. split; [now right|exact Hn]. }
    intros e He. destruct (G _ _ _ He) as [[]|H]. exact H.
Qed.

Definition isPriced (o : FieldOption) : bool :=
  match o_service_id o with Some _ => true | None => false end.

Lemma In_pricedOptions (f : Field) (o : FieldOption) (r : PricingRole) :
  In (o, r) (pricedOptions f) <->
  In o (orEmpty (f_options f)) /\ isPriced o = true /\ r = roleOf f o.
Proof.
  unfold pricedOptions. rewrite in_map_iff. split.
  - intros [o' [E H]]. inversion E; subst. apply filter_In in H. tauto.
  - intros [H1 [H2 ->]]. exists o. split; [reflexivity|]. apply filter_In. tauto.
Qed.

(** X22: the pricing and quantity rules.  For a tag, [utility_without_base]
    is reported exactly when some option of a visible field carries a
    service id and every such option is utility-priced (its own role, else
    its field's, else base); [quantity_multiple_markers] is reported
    exactly when at least two visible fields are quantity markers.  Each
    rule gives at most one finding per tag, anchored at the tag. *)
Theorem pricing_and_quantity_rules (v : ValidationCtx) (t : Tag) :
  (utilityWithoutBase v t <> [] <->
   (exists f o, In f (fieldsVisibleUnder v (t_id t)) /\ In o (orEmpty (f_options f))
                /\ isPriced o = true)
   /\ (forall f o, In f (fieldsVisibleUnder v (t_id t)) -> In o (orEmpty (f_options f)) ->
                   isPriced o = true -> roleOf f o = Utility))
  /\ (quantityMarkers v t <> [] <->
      2 <= length (filter f_quantity (fieldsVisibleUnder v (t_id t))))
  /\ (forall e, In e (utilityWithoutBase v t ++ quantityMarkers v t) ->
        e_nodeId e = Some (t_id t))
  /\ length (utilityWithoutBase v t) <= 1 /\ length (quantityMarkers v t) <= 1.
Proof.
  split; [|split; [|split; [|split]]].
  - unfold utilityWithoutBase. cbv zeta.
    set (priced := flat_map pricedOptions (fieldsVisibleUnder v (t_id t))).
    assert (P : forall o r, In (o, r) priced <->
                  exists f, In f (fieldsVisibleUnder v (t_id t))
                            /\ In o (orEmpty (f_options f)) /\ isPriced o = true
                            /\ r = roleOf f o).
    { intros o r. unfold priced. rewrite in_flat_map. split.
      - intros [f [Hf H]]. apply In_pricedOptions in H. exists f. tauto.
      - intros [f [Hf H]]. exists f. split; [exact Hf|]. now apply In_pricedOptions. }
    set (utils := filter (fun p => negb (isBaseRole (snd p))) priced).
    rewrite length_map. fold utils.
    destruct (existsb (fun p => isBaseRole (snd p)) priced) eqn:Eb.
    + rewrite andb_false_r. split; [congruence|]. intros [_ Hall]. exfalso.
      apply existsb_exists in Eb. destruct Eb as [[o r] [Hin Hr]].
      apply P in Hin. destruct Hin as [f [Hf [Ho [Hp ->]]]].
      rewrite (Hall f o Hf Ho Hp) in Hr. discriminate.
    + rewrite andb_true_r.
      assert (Hall : forall f o, In f (fieldsVisibleUnder v (t_id t)) ->
                       In o (orEmpty (f_options f)) -> isPriced o = true ->
                       roleOf f o = Utility).
      { intros f o Hf Ho Hp. destruct (roleOf f o) eqn:Er; [|reflexivity]. exfalso.
        assert (Hin : In (o, Base) priced) by (apply P; exists f; now rewrite Er).
        assert (Hex : existsb (fun p => isBaseRole (snd p)) priced = true).
        { apply existsb_exists. exists (o, Base). split; [exact Hin|reflexivity]. }
        congruence. }
      destruct utils as [|u us] eqn:Eu; simpl.
      * split; [congruence|]. intros [[f [o [Hf [Ho Hp]]]] _]. exfalso.
        assert (Hin : In (o, roleOf f o) utils).
        { unfold utils. apply filter_In. split; [apply P; exists f; tauto|].
          simpl. now rewrite (Hall f o Hf Ho Hp). }
        rewrite Eu in Hin. exact Hin.
      * split; [|discriminate]. intros _. split; [|exact Hall].
        assert (Hin : In u utils) by (rewrite Eu; now left).
        unfold utils in Hin. apply filter_In in Hin. destruct Hin as [Hin _].
        destruct u as [o r]. apply P in Hin. destruct Hin as [f [Hf [Ho [Hp _]]]].
        exists f, o. tauto.
  - unfold quantityMarkers. cbv zeta. rewrite length_map.
    destruct (Nat.ltb 1 (length (filter f_quantity (fieldsVisibleUnder v (t_id t))))) eqn:E.
    + apply Nat.ltb_lt in E. split; [intros _; lia|discriminate].
    + apply Nat.ltb_ge in E. split; [congruence|lia].
  - intros e He. apply in_app_or in He. destruct He as [He|He].
    + unfold utilityWithoutBase in He. cbv zeta in He.
      destruct (_ && _) in He; [|contradiction]. destruct He as [<-|[]]. reflexivity.
    + unfold quantityMarkers in He. cbv zeta in He.
      destruct (Nat.ltb _ _) in He; [|contradiction]. destruct He as [<-|[]]. reflexivity.
  - unfold utilityWithoutBase. cbv zeta. destruct (_ && _); simpl; lia.
  - unfold quantityMarkers. cbv zeta. destruct (Nat.ltb _ _); simpl; lia.
Qed.

End RuleReports.

(* ===================================================================== *)
(** * Sorting of keys and the signature of a selection *)
(* ===================================================================== *)

Lemma string_compare_refl (s : string) : String.compare s s = Eq.
Proof.
  induction s as [|c s IH]; simpl; [reflexivity|].
  unfold Ascii.compare. now rewrite N.compare_refl.
Qed.

Lemma string_compare_trans_le (a : string) :
  forall b c,
    String.compare a b <> Gt -> String.compare b c <> Gt -> String.compare a c <> Gt.
Proof.
  induction a as [|x a IH]; intros [|y b] [|z c]; simpl; try congruence.
  unfold Ascii.compare.
  destruct (N.compare_spec (N_of_ascii x) (N_of_ascii y)) as [E1|L1|G1];
    destruct (N.compare_spec (N_of_ascii y) (N_of_ascii z)) as [E2|L2|G2];
    try congruence; intros H1 H2.
  - rewrite E1, E2, N.compare_refl. now apply (IH b c).
  - rewrite E1. apply N.compare_lt_iff in L2. now rewrite L2.
  - rewrite <- E2. apply N.compare_lt_iff in L1. now rewrite L1.
  - assert (L : (N_of_ascii x < N_of_ascii z)%N) by lia.
    apply N.compare_lt_iff in L. now rewrite L.
Qed.

Lemma string_leb_trans (a b c : string) :
  String.leb a b = true -> String.leb b c = true -> String.leb a c = true.
Proof.
  unfold String.leb. intros H1 H2.
  pose proof (string_compare_trans_le a b c) as T.
  destruct (String.compare a b); destruct (String.compare b c);
    destruct (String.compare a c); try reflexivity; try discriminate;
    exfalso; apply T; congruence.
Qed.

Lemma string_leb_refl (a : string) : String.leb a a = true.
Proof. unfold String.leb. now rewrite string_compare_refl. Qed.

Definition lebP (a b : string) : Prop := String.leb a b = true.

Lemma insertSorted_perm (x : string) (l : list string) :
  Permutation (insertSorted x l) (x :: l).
Proof.
  induction l as [|y l IH]; simpl; [reflexivity|].
  destruct (String.leb x y); [reflexivity|].
  rewrite IH. apply perm_swap.
Qed.

Lemma sortStrings_perm (l : list string) : Permutation (sortStrings l) l.
Proof.
  induction l as [|x l IH]; simpl; [reflexivity|].
  rewrite insertSorted_perm. now constructor.
Qed.

Lemma insertSorted_sorted (x : string) (l : list string) :
  StronglySorted lebP l -> StronglySorted lebP (insertSorted x l).
Proof.
  induction l as [|y l IH]; intros H; simpl.
  - repeat constructor.
  - inversion H as [|a b Hs Hall]; subst.
    destruct (String.leb x y) eqn:E.
    + constructor; [exact H|]. constructor; [exact E|].
      eapply Forall_impl; [|exact Hall]. intros z Hz. eapply string_leb_trans; eauto.
    + constructor; [now apply IH|].
      assert (Hyx : lebP y x).
      { destruct (String.leb_total x y) as [T|T]; [congruence|exact T]. }
      apply Forall_forall. intros z Hz.
      apply (Permutation_in _ (insertSorted_perm x l)) in Hz.
      destruct Hz as [<-|Hz]; [exact Hyx|].
      exact (proj1 (Forall_forall _ _) Hall z Hz).
Qed.

Lemma sortStrings_sorted (l : list string) : StronglySorted lebP (sortStrings l).
Proof.
  induction l as [|x l IH]; simpl; [constructor|]. now apply insertSorted_sorted.
Qed.

Lemma sorted_perm_eq (l1 : list string) :
  forall l2, StronglySorted lebP l1 -> StronglySorted lebP l2 ->
             Permutation l1 l2 -> l1 = l2.
Proof.
  induction l1 as [|a l1 IH]; intros l2 H1 H2 P.
  - apply Permutation_nil in P. now subst.
  - destruct l2 as [|b l2]; [apply Permutation_sym, Permutation_nil in P; discriminate|].
    inversion H1 as [|? ? S1 A1]; subst. inversion H2 as [|? ? S2 A2]; subst.
    assert (Hab : lebP a b).
    { assert (Hin : In b (a :: l1)) by (apply (Permutation_in _ (Permutation_sym P)); now left).
      destruct Hin as [<-|Hin]; [apply string_leb_refl|].
      exact (proj1 (Forall_forall _ _) A1 b Hin). }
    assert (Hba : lebP b a).
    { assert (Hin : In a (b :: l2)) by (apply (Permutation_in _ P); now left).
      destruct Hin as [<-|Hin]; [apply string_leb_refl|].
      exact (proj1 (Forall_forall _ _) A2 a Hin). }
    assert (a = b) by (apply String.leb_antisym; assumption). subst b.
    f_equal. apply IH; [exact S1|exact S2|]. eapply Permutation_cons_inv. exact P.
Qed.

Lemma sortStrings_sorted_id (l : list string) : StronglySorted lebP l -> sortStrings l = l.
Proof.
  intros H. apply sorted_perm_eq; [apply sortStrings_sorted|exact H|apply sortStrings_perm].
Qed.

(** X23: the signature by which the simulation recognises a selection
    depends on the keys only, not on the order in which they were
    selected: two selections with the same keys have the same signature.
    The converse fails for keys that contain the separator: the one key
    [a|b] has the signature of the two keys [a] and [b]. *)
Theorem stableKeyOfSelection_same_keys (s1 s2 : JsSet.t) :
  NoDup s1 -> NoDup s2 ->
  (forall k, In k s1 <-> In k s2) ->
  stableKeyOfSelection s1 = stableKeyOfSelection s2
  /\ forall a b, String.leb a b = true ->
       stableKeyOfSelection [(a ++ "|" ++ b)%string] = stableKeyOfSelection [b; a].
Proof.
  intros H1 H2 Hk. split.
  - unfold stableKeyOfSelection. f_equal.
    apply sorted_perm_eq; try apply sortStrings_sorted.
    rewrite !sortStrings_perm. now apply NoDup_Permutation.
  - intros a b Hab. unfold stableKeyOfSelection.
    assert (E : sortStrings [b; a] = [a; b]).
    { apply sorted_perm_eq; [apply sortStrings_sorted| |].
      - repeat constructor. exact Hab.
      - rewrite sortStrings_perm. apply perm_swap. }
    rewrite E. cbn [sortStrings fold_right insertSorted String.concat].
    reflexivity.
Qed.

Lemma stableKeyOfSelection_same_keys_witness :
  stableKeyOfSelection ["f::o"; "b"] = stableKeyOfSelection ["b"; "f::o"].
Proof.
  apply stableKeyOfSelection_same_keys.
  - repeat constructor; simpl; intuition discriminate.
  - repeat constructor; simpl; intuition discriminate.
  - intros k. simpl. tauto.
Defined.


(* ===================================================================== *)
(** * Fallback diagnostics (src/core/utils/fallback.ts) *)
(* ===================================================================== *)

Inductive FallbackScope := ScopeNode | ScopeGlobal.

Inductive FailReason :=
| UnknownService
| NoPrimary
| RateViolation
| ConstraintMismatch
| Cycle
| NoTagContext.

Record FailedFallbackContext := {
  ff_scope : FallbackScope;
  ff_nodeId : option string;
  ff_primary : ServiceIdRef;
  ff_candidate : ServiceIdRef;
  ff_tagContext : option string;
  ff_reason : FailReason
}.

(** [bindIdsToArray(bind)] *)
Definition bindIdsToArray (bind : option BindId) : list string :=
  match bind with
  | None => []
  | Some (BindOne b) => if truthyStr b then [b] else []
  | Some (BindMany l) => l
  end.

Definition hasOptionId (nodeId : string) (f : Field) : bool :=
  existsb (fun o => String.eqb (o_id o) nodeId) (orEmpty (f_options f)).

(** [primaryForNode(props, nodeId)]: the service id of the node and the
    tags under which its candidates are judged. *)
Definition primaryForNode (props : ServiceProps) (nodeId : string)
    : option Z * list string :=
  match find (fun t => String.eqb (t_id t) nodeId) (filters props) with
  | Some tag => (t_service_id tag, [t_id tag])
  | None =>
      match find (hasOptionId nodeId) (fields props) with
      | None => (None, [])
      | Some field =>
          match find (fun o => String.eqb (o_id o) nodeId) (orEmpty (f_options field)) with
          | Some opt => (o_service_id opt, bindIdsToArray (f_bind_id field))
          | None => (None, [])
          end
      end
  end.

Section Diagnostics.

Context {R : JsRuntime}.

Definition nodeFinding (nodeId : string) (primary cand : ServiceIdRef)
    (tagContext : option string) (reason : FailReason) : FailedFallbackContext :=
  {| ff_scope := ScopeNode; ff_nodeId := Some nodeId; ff_primary := primary;
     ff_candidate := cand; ff_tagContext := tagContext; ff_reason := reason |}.

Definition globalFinding (primary : string) (cand : ServiceIdRef) (reason : FailReason)
    : FailedFallbackContext :=
  {| ff_scope := ScopeGlobal; ff_nodeId := None; ff_primary := SvcStr primary;
     ff_candidate := cand; ff_tagContext := None; ff_reason := reason |}.

(** The body of the loop over the candidates of one node. *)
Definition nodeCandidate (props : ServiceProps) (services : DgpServiceMap)
    (settings : option FallbackSettings) (nodeId : string) (primary : ServiceIdRef)
    (tagContexts : list string) (cand : ServiceIdRef) : list FailedFallbackContext :=
  match getCap services cand with
  | None => [nodeFinding nodeId primary cand None UnknownService]
  | Some cap =>
      if String.eqb (toStr (svcToJs cand)) (toStr (svcToJs primary))
      then [nodeFinding nodeId primary cand None Cycle]
      else if negb (passesRate (settingsRatePolicy settings) (rateOf services primary)
                      (cap_rate cap))
      then [nodeFinding nodeId primary cand None RateViolation]
      else
        match tagContexts with
        | [] => [nodeFinding nodeId primary cand None NoTagContext]
        | _ =>
            flat_map
              (fun tagId =>
                 if (if settingsRequireFit settings
                     then satisfiesTagConstraints tagId props cap else true)
                 then []
                 else [nodeFinding nodeId primary cand (Some tagId) ConstraintMismatch])
              tagContexts
        end
  end.

Definition nodeEntry (props : ServiceProps) (services : DgpServiceMap)
    (settings : option FallbackSettings) (e : string * list ServiceIdRef)
    : list FailedFallbackContext :=
  match primaryForNode props (fst e) with
  | (Some n, tagContexts) =>
      if Z.eqb n 0
      then [nodeFinding (fst e) (SvcStr EmptyString) (SvcStr EmptyString) None NoPrimary]
      else flat_map (nodeCandidate props services settings (fst e) (SvcNum n) tagContexts)
             (snd e)
  | (None, _) =>
      [nodeFinding (fst e) (SvcStr EmptyString) (SvcStr EmptyString) None NoPrimary]
  end.

(** The body of the loop over the candidates of one global entry. *)
Definition globalCandidate (services : DgpServiceMap) (settings : option FallbackSettings)
    (primary : string) (cand : ServiceIdRef) : list FailedFallbackContext :=
  match getCap services cand with
  | None => [globalFinding primary cand UnknownService]
  | Some cap =>
      if String.eqb (toStr (svcToJs cand)) primary
      then [globalFinding primary cand Cycle]
      else if negb (passesRate (settingsRatePolicy settings)
                      (rateOf services (SvcStr primary)) (cap_rate cap))
      then [globalFinding primary cand RateViolation]
      else []
  end.

Definition globalEntry (services : DgpServiceMap) (settings : option FallbackSettings)
    (e : string * list ServiceIdRef) : list FailedFallbackContext :=
  flat_map (globalCandidate services settings (fst e)) (snd e).

(** [collectFailedFallbacks(props, services, settings)]: [fallbacks] is
    [props.fallbacks]; the findings come in the order of the entries of
    the two maps. *)
Definition collectFailedFallbacks (props : ServiceProps) (fallbacks : option ServiceFallback)
    (services : DgpServiceMap) (settings : option FallbackSettings)
    : list FailedFallbackContext :=
  let nodes := match fallbacks with Some fb => orNoMap (fb_nodes fb) | None => JsMap.empty end in
  let glob := match fallbacks with Some fb => orNoMap (fb_global fb) | None => JsMap.empty end in
  flat_map (nodeEntry props services settings) nodes
  ++ flat_map (globalEntry services settings) glob.

End Diagnostics.

Section DiagnosticsFacts.

Context {R : JsRuntime}.

(** A candidate of a global list that strict checking has nothing to say
    about: its capability is known, it is not the primary itself, and its
    rate passes the policy against the rate of the primary. *)
Definition globallyFine (services : DgpServiceMap) (settings : option FallbackSettings)
    (primary : string) (cand : ServiceIdRef) : Prop :=
  exists cap,
    getCap services cand = Some cap
    /\ toStr (svcToJs cand) <> primary
    /\ passesRate (settingsRatePolicy settings) (rateOf services (SvcStr primary))
         (cap_rate cap) = true.

(** The same for a candidate of a node: moreover the node has a tag to be
    judged under, and the candidate fits every such tag when the fit is
    required. *)
Definition fineUnderNode (props : ServiceProps) (services : DgpServiceMap)
    (settings : option FallbackSettings) (primary : ServiceIdRef)
    (tagContexts : list string) (cand : ServiceIdRef) : Prop :=
  exists cap,
    getCap services cand = Some cap
    /\ toStr (svcToJs cand) <> toStr (svcToJs primary)
    /\ passesRate (settingsRatePolicy settings) (rateOf services primary)
         (cap_rate cap) = true
    /\ tagContexts <> []
    /\ (settingsRequireFit settings = true ->
        forall tagId, In tagId tagContexts -> fitsTag tagId props cap).

(** What a finding of the global scope says about its candidate. *)
Definition globalReason (services : DgpServiceMap) (settings : option FallbackSettings)
    (primary : string) (cand : ServiceIdRef) (reason : FailReason) : Prop :=
  match reason with
  | UnknownService => getCap services cand = None
  | Cycle => getCap services cand <> None /\ toStr (svcToJs cand) = primary
  | RateViolation =>
      toStr (svcToJs cand) <> primary
      /\ exists cap,
           getCap services cand = Some cap
           /\ passesRate (settingsRatePolicy settings)
                (rateOf services (SvcStr primary)) (cap_rate cap) = false
  | _ => False
  end.

(** What a finding of the node scope says about its candidate. *)
Definition nodeReason (props : ServiceProps) (services : DgpServiceMap)
    (settings : option FallbackSettings) (primary : ServiceIdRef)
    (tagContexts : list string) (f : FailedFallbackContext) : Prop :=
  let cand := ff_candidate f in
  match ff_reason f with
  | UnknownService => getCap services cand = None
  | Cycle => getCap services cand <> None
             /\ toStr (svcToJs cand) = toStr (svcToJs primary)
  | NoPrimary => False
  | reason =>
      exists cap,
        getCap services cand = Some cap
        /\ toStr (svcToJs cand) <> toStr (svcToJs primary)
        /\ match reason with
           | RateViolation =>
               passesRate (settingsRatePolicy settings) (rateOf services primary)
                 (cap_rate cap) = false
           | NoTagContext =>
               passesRate (settingsRatePolicy settings) (rateOf services primary)
                 (cap_rate cap) = true
               /\ tagContexts = []
           | _ =>
               passesRate (settingsRatePolicy settings) (rateOf services primary)
                 (cap_rate cap) = true
               /\ settingsRequireFit settings = true
               /\ exists tagId,
                    ff_tagContext f = Some tagId /\ In tagId tagContexts
                    /\ ~ fitsTag tagId props cap
           end
  end.

Lemma globalCandidate_cases (services : DgpServiceMap) (settings : option FallbackSettings)
    (primary : string) (cand : ServiceIdRef) :
  (globalCandidate services settings primary cand = []
   /\ globallyFine services settings primary cand)
  \/ (exists reason,
        globalCandidate services settings primary cand
        = [globalFinding primary cand reason]
        /\ ~ globallyFine services settings primary cand
        /\ globalReason services settings primary cand reason).
Proof.
  unfold globalCandidate, globallyFine, globalReason.
  destruct (getCap services cand) as [cap|] eqn:Ec.
  - destruct (String.eqb (toStr (svcToJs cand)) primary) eqn:Es.
    + apply String.eqb_eq in Es. right. exists Cycle. split; [reflexivity|]. split.
      * intros [c [_ [H _]]]. contradiction.
      * split; [discriminate|exact Es].
    + apply String.eqb_neq in Es.
      destruct (passesRate (settingsRatePolicy settings) (rateOf services (SvcStr primary))
                  (cap_rate cap)) eqn:Ep; simpl.
      * left. split; [reflexivity|]. exists cap. auto.
      * right. exists RateViolation. split; [reflexivity|]. split.
        -- intros [c [Hc [_ Hp]]]. inversion Hc; subst. congruence.
        -- split; [exact Es|]. exists cap. auto.
  - right. exists UnknownService. split; [reflexivity|]. split; [|reflexivity].
    intros [c [Hc _]]. discriminate.
Qed.

Lemma nodeCandidate_finding (props : ServiceProps) (services : DgpServiceMap)
    (settings : option FallbackSettings) (nodeId : string) (primary : ServiceIdRef)
    (tagContexts : list string) (cand : ServiceIdRef) (f : FailedFallbackContext) :
  In f (nodeCandidate props services settings nodeId primary tagContexts cand) ->
  f = nodeFinding nodeId primary cand (ff_tagContext f) (ff_reason f)
  /\ nodeReason props services settings primary tagContexts f
  /\ ~ fineUnderNode props services settings primary tagContexts cand.
Proof.
  unfold nodeCandidate, nodeReason, fineUnderNode. cbv zeta.
  destruct (getCap services cand) as [cap|] eqn:Ec.
  - destruct (String.eqb (toStr (svcToJs cand)) (toStr (svcToJs primary))) eqn:Es.
    { apply String.eqb_eq in Es. intros [<-|[]]. cbn. rewrite Ec.
      split; [reflexivity|]. split; [split; [discriminate|exact Es]|].
      intros [c [_ [H _]]]. contradiction. }
    apply String.eqb_neq in Es.
    destruct (passesRate (settingsRatePolicy settings) (rateOf services primary)
                (cap_rate cap)) eqn:Ep; cbn [negb].
    + destruct tagContexts as [|t0 ts] eqn:Et.
      { intros [<-|[]]. cbn. split; [reflexivity|]. split.
        - exists cap. auto.
        - intros [c [_ [_ [_ [H _]]]]]. now apply H. }
      rewrite <- Et. intros H. apply in_flat_map in H. destruct H as [tagId [Hin H]].
      destruct (settingsRequireFit settings) eqn:Ef; [|contradiction].
      destruct (satisfiesTagConstraints tagId props cap) eqn:Est; [contradiction|].
      destruct H as [<-|[]]. cbn. split; [reflexivity|].
      assert (Hn : ~ fitsTag tagId props cap).
      { intros F. apply satisfiesTagConstraints_spec in F. congruence. }
      split.
      * exists cap. repeat split; auto. exists tagId. auto.
      * intros [c [Hc [_ [_ [_ H]]]]]. inversion Hc; subst c.
        apply Hn. now apply H.
    + intros [<-|[]]. cbn. split; [reflexivity|]. split.
      * exists cap. auto.
      * intros [c [Hc [_ [H _]]]]. inversion Hc; subst c. congruence.
  - intros [<-|[]]. cbn. rewrite Ec. split; [reflexivity|]. split; [reflexivity|].
    intros [c [Hc _]]. discriminate.
Qed.

Lemma nodeCandidate_silent (props : ServiceProps) (services : DgpServiceMap)
    (settings : option FallbackSettings) (nodeId : string) (primary : ServiceIdRef)
    (tagContexts : list string) (cand : ServiceIdRef) :
  nodeCandidate props services settings nodeId primary tagContexts cand = [] ->
  fineUnderNode props services settings primary tagContexts cand.
Proof.
  unfold nodeCandidate, fineUnderNode.
  destruct (getCap services cand) as [cap|] eqn:Ec; [|discriminate].
  destruct (String.eqb (toStr (svcToJs cand)) (toStr (svcToJs primary))) eqn:Es;
    [discriminate|].
  apply String.eqb_neq in Es.
  destruct (passesRate (settingsRatePolicy settings) (rateOf services primary)
              (cap_rate cap)) eqn:Ep; cbn [negb]; [|discriminate].
  destruct tagContexts as [|t0 ts] eqn:Et; [discriminate|]. rewrite <- Et.
  intros H. exists cap. split; [reflexivity|]. split; [exact Es|]. split; [exact Ep|].
  split; [rewrite Et; discriminate|].
  intros Ef tagId Hin. apply satisfiesTagConstraints_spec.
  destruct (satisfiesTagConstraints tagId props cap) eqn:Est; [reflexivity|].
  exfalso.
  assert (Hf : In (nodeFinding nodeId primary cand (Some tagId) ConstraintMismatch)
                 (flat_map
                    (fun tagId0 =>
                       if (if settingsRequireFit settings
                           then satisfiesTagConstraints tagId0 props cap else true)
                       then []
                       else [nodeFinding nodeId primary cand (Some tagId0)
                               ConstraintMismatch])
                    tagContexts)).
  { apply in_flat_map. exists tagId. split; [exact Hin|]. rewrite Ef, Est. now left. }
  rewrite H in Hf. exact Hf.
Qed.

Lemma nodeEntry_scope (props : ServiceProps) (services : DgpServiceMap)
    (settings : option FallbackSettings) (e : string * list ServiceIdRef)
    (f : FailedFallbackContext) :
  In f (nodeEntry props services settings e) ->
  ff_scope f = ScopeNode /\ ff_nodeId f = Some (fst e).
Proof.
  unfold nodeEntry.
  destruct (primaryForNode props (fst e)) as [[n|] ctx].
  - destruct (Z.eqb n 0); [intros [<-|[]]; now split|].
    intros H. apply in_flat_map in H. destruct H as [cand [_ H]].
    apply nodeCandidate_finding in H. destruct H as [-> _]. now split.
  - intros [<-|[]]. now split.
Qed.

Lemma globalEntry_scope (services : DgpServiceMap) (settings : option FallbackSettings)
    (e : string * list ServiceIdRef) (f : FailedFallbackContext) :
  In f (globalEntry services settings e) -> ff_scope f = ScopeGlobal.
Proof.
  unfold globalEntry. intros H. apply in_flat_map in H. destruct H as [cand [_ H]].
  destruct (globalCandidate_cases services settings (fst e) cand) as [[E _]|[r [E _]]];
    rewrite E in H; [contradiction|].
  destruct H as [<-|[]]. reflexivity.
Qed.

(** Where the findings of the global scope come from. *)
Lemma global_finding_origin (props : ServiceProps) (fb : ServiceFallback)
    (services : DgpServiceMap) (settings : option FallbackSettings)
    (f : FailedFallbackContext) :
  In f (collectFailedFallbacks props (Some fb) services settings) ->
  ff_scope f = ScopeGlobal ->
  exists k l,
    In (k, l) (orNoMap (fb_global fb)) /\ In (ff_candidate f) l
    /\ f = globalFinding k (ff_candidate f) (ff_reason f)
    /\ ~ globallyFine services settings k (ff_candidate f)
    /\ globalReason services settings k (ff_candidate f) (ff_reason f).
Proof.
  unfold collectFailedFallbacks. cbv zeta. intros Hf Hs.
  apply in_app_or in Hf. destruct Hf as [Hf|Hf].
  { apply in_flat_map in Hf. destruct Hf as [e [_ Hf]].
    apply nodeEntry_scope in Hf. destruct Hf as [Hf _]. congruence. }
  apply in_flat_map in Hf. destruct Hf as [[k l] [Hkl Hf]].
  unfold globalEntry in Hf. cbn [fst snd] in Hf.
  apply in_flat_map in Hf. destruct Hf as [cand [Hc Hf]].
  destruct (globalCandidate_cases services settings k cand) as [[E _]|[r [E [Hn Hr]]]];
    rewrite E in Hf; [contradiction|].
  destruct Hf as [<-|[]]. exists k, l. cbn [ff_candidate ff_reason globalFinding].
  auto.
Qed.

Lemma global_finding_made (props : ServiceProps) (fb : ServiceFallback)
    (services : DgpServiceMap) (settings : option FallbackSettings)
    (k : string) (l : list ServiceIdRef) (cand : ServiceIdRef) (f : FailedFallbackContext) :
  In (k, l) (orNoMap (fb_global fb)) -> In cand l ->
  In f (globalCandidate services settings k cand) ->
  In f (collectFailedFallbacks props (Some fb) services settings).
Proof.
  intros Hkl Hc Hf. unfold collectFailedFallbacks. cbv zeta.
  apply in_or_app. right. apply in_flat_map. exists (k, l). split; [exact Hkl|].
  unfold globalEntry. cbn [fst snd]. apply in_flat_map. exists cand. auto.
Qed.

(** Where the findings about a node come from. *)
Lemma node_finding_entry (props : ServiceProps) (fb : ServiceFallback)
    (services : DgpServiceMap) (settings : option FallbackSettings)
    (n : string) (f : FailedFallbackContext) :
  In f (collectFailedFallbacks props (Some fb) services settings) ->
  ff_scope f = ScopeNode -> ff_nodeId f = Some n ->
  exists l,
    In (n, l) (orNoMap (fb_nodes fb)) /\ In f (nodeEntry props services settings (n, l)).
Proof.
  unfold collectFailedFallbacks. cbv zeta. intros Hf Hs Hn.
  apply in_app_or in Hf. destruct Hf as [Hf|Hf].
  - apply in_flat_map in Hf. destruct Hf as [[n' l] [Hnl Hf]].
    pose proof (nodeEntry_scope _ _ _ _ _ Hf) as [_ Hid]. cbn [fst] in Hid.
    assert (n' = n) by congruence. subst n'. exists l. auto.
  - apply in_flat_map in Hf. destruct Hf as [e [_ Hf]].
    apply globalEntry_scope in Hf. congruence.
Qed.

Lemma node_finding_origin (props : ServiceProps) (fb : ServiceFallback)
    (services : DgpServiceMap) (settings : option FallbackSettings)
    (n : string) (p : Z) (ctxs : list string) (f : FailedFallbackContext) :
  primaryForNode props n = (Some p, ctxs) -> p <> 0%Z ->
  In f (collectFailedFallbacks props (Some fb) services settings) ->
  ff_scope f = ScopeNode -> ff_nodeId f = Some n ->
  exists l cand,
    In (n, l) (orNoMap (fb_nodes fb)) /\ In cand l
    /\ In f (nodeCandidate props services settings n (SvcNum p) ctxs cand).
Proof.
  intros Hp Hp0 Hf Hs Hn.
  destruct (node_finding_entry _ _ _ _ _ _ Hf Hs Hn) as [l [Hnl He]].
  unfold nodeEntry in He. cbn [fst snd] in He. rewrite Hp in He.
  apply Z.eqb_neq in Hp0. rewrite Hp0 in He.
  apply in_flat_map in He. destruct He as [cand [Hc He]]. exists l, cand. auto.
Qed.

Lemma node_finding_made (props : ServiceProps) (fb : ServiceFallback)
    (services : DgpServiceMap) (settings : option FallbackSettings)
    (n : string) (p : Z) (ctxs : list string) (l : list ServiceIdRef)
    (cand : ServiceIdRef) (f : FailedFallbackContext) :
  primaryForNode props n = (Some p, ctxs) -> p <> 0%Z ->
  In (n, l) (orNoMap (fb_nodes fb)) -> In cand l ->
  In f (nodeCandidate props services settings n (SvcNum p) ctxs cand) ->
  In f (collectFailedFallbacks props (Some fb) services settings).
Proof.
  intros Hp Hp0 Hnl Hc Hf. unfold collectFailedFallbacks. cbv zeta.
  apply in_or_app. left. apply in_flat_map. exists (n, l). split; [exact Hnl|].
  unfold nodeEntry. cbn [fst snd]. rewrite Hp. apply Z.eqb_neq in Hp0. rewrite Hp0.
  apply in_flat_map. exists cand. auto.
Qed.

(** X25: what [collectFailedFallbacks] reports about the global lists.  A
    candidate is passed over in silence exactly when its capability is
    known, it is not its own primary (compared as strings) and its rate
    passes the policy; otherwise it gets a finding whose reason is the
    first that applies of [unknown_service], [cycle], [rate_violation].
    Every finding of the global scope stems from a candidate of a global
    list and carries no node id and no tag context. *)
Theorem global_fallbacks_reading (props : ServiceProps) (fb : ServiceFallback)
    (services : DgpServiceMap) (settings : option FallbackSettings) :
  let out := collectFailedFallbacks props (Some fb) services settings in
  (forall f, In f out -> ff_scope f = ScopeGlobal ->
     exists k l,
       In (k, l) (orNoMap (fb_global fb)) /\ In (ff_candidate f) l
       /\ f = globalFinding k (ff_candidate f) (ff_reason f)
       /\ globalReason services settings k (ff_candidate f) (ff_reason f))
  /\ (forall k l cand,
        In (k, l) (orNoMap (fb_global fb)) -> In cand l ->
        (globallyFine services settings k cand <->
         ~ exists f, In f out /\ ff_scope f = ScopeGlobal
                     /\ ff_primary f = SvcStr k /\ ff_candidate f = cand)).
Proof.
  cbv zeta. split.
  - intros f Hf Hs.
    destruct (global_finding_origin _ _ _ _ _ Hf Hs) as [k [l [A [B [C [_ D]]]]]].
    exists k, l. auto.
  - intros k l cand Hkl Hc. split.
    + intros Hfine [f [Hf [Hs [Hp Hcand]]]].
      destruct (global_finding_origin _ _ _ _ _ Hf Hs) as [k' [l' [_ [_ [C [Hn _]]]]]].
      rewrite C in Hp. cbn [ff_primary globalFinding] in Hp.
      inversion Hp; subst k' cand. contradiction.
    + intros Hno.
      destruct (globalCandidate_cases services settings k cand) as [[_ F]|[r [E _]]];
        [exact F|].
      exfalso. apply Hno. exists (globalFinding k cand r).
      split; [|now repeat split].
      apply (global_finding_made props fb services settings k l cand); auto.
      rewrite E. now left.
Qed.

(** X26: what [collectFailedFallbacks] reports about a node of the node lists.
    A node whose primary service is missing or 0 (also a node id that is
    neither a tag nor an option) gets the finding [no_primary] and
    nothing else: its candidates are not examined.  Under a node with a
    primary, a candidate is passed over in silence exactly when its
    capability is known, it is not the primary, its rate passes, the node
    has a tag context and, where the fit is required, the candidate fits
    every tag context; every finding about the node names the primary and
    gives the first reason that applies; and a [constraint_mismatch] is
    reported for each tag context the candidate does not fit, also when
    it fits another one. *)
Theorem node_fallbacks_reading (props : ServiceProps) (fb : ServiceFallback)
    (services : DgpServiceMap) (settings : option FallbackSettings)
    (n : string) (l : list ServiceIdRef) :
  In (n, l) (orNoMap (fb_nodes fb)) ->
  let out := collectFailedFallbacks props (Some fb) services settings in
  let noPrimary :=
    nodeFinding n (SvcStr EmptyString) (SvcStr EmptyString) None NoPrimary in
  (fst (primaryForNode props n) = None \/ fst (primaryForNode props n) = Some 0%Z ->
   In noPrimary out
   /\ forall f, In f out -> ff_scope f = ScopeNode -> ff_nodeId f = Some n ->
        f = noPrimary)
  /\ (forall p ctxs,
        primaryForNode props n = (Some p, ctxs) -> p <> 0%Z ->
        (forall f, In f out -> ff_scope f = ScopeNode -> ff_nodeId f = Some n ->
           ff_primary f = SvcNum p
           /\ nodeReason props services settings (SvcNum p) ctxs f)
        /\ (forall cand, In cand l ->
              (fineUnderNode props services settings (SvcNum p) ctxs cand <->
               ~ exists f, In f out /\ ff_scope f = ScopeNode
                           /\ ff_nodeId f = Some n /\ ff_candidate f = cand))
        /\ (forall cand cap tagId,
              In cand l -> In tagId ctxs ->
              getCap services cand = Some cap ->
              toStr (svcToJs cand) <> toStr (JNum p) ->
              passesRate (settingsRatePolicy settings) (rateOf services (SvcNum p))
                (cap_rate cap) = true ->
              settingsRequireFit settings = true ->
              ~ fitsTag tagId props cap ->
              In (nodeFinding n (SvcNum p) cand (Some tagId) ConstraintMismatch) out)).
Proof.
  intros Hnl. cbv zeta. split.
  - intros Hp.
    assert (E : forall l', nodeEntry props services settings (n, l')
                = [nodeFinding n (SvcStr EmptyString) (SvcStr EmptyString) None NoPrimary]).
    { intros l'. unfold nodeEntry. cbn [fst snd].
      destruct (primaryForNode props n) as [[z|] ctx]; cbn [fst] in Hp.
      - destruct Hp as [Hp|Hp]; [discriminate|]. inversion Hp; subst z. reflexivity.
      - reflexivity. }
    split.
    + unfold collectFailedFallbacks. cbv zeta. apply in_or_app. left.
      apply in_flat_map. exists (n, l). split; [exact Hnl|]. rewrite E. now left.
    + intros f Hf Hs Hn.
      destruct (node_finding_entry _ _ _ _ _ _ Hf Hs Hn) as [l' [_ He]].
      rewrite E in He. destruct He as [<-|[]]. reflexivity.
  - intros p ctxs Hp Hp0. split; [|split].
    + intros f Hf Hs Hn.
      destruct (node_finding_origin _ _ _ _ _ _ _ _ Hp Hp0 Hf Hs Hn)
        as [l' [cand [_ [_ Hc]]]].
      apply nodeCandidate_finding in Hc. destruct Hc as [Ef [Hr _]].
      split; [rewrite Ef; reflexivity|exact Hr].
    + intros cand Hc. split.
      * intros Hfine [f [Hf [Hs [Hn Hcand]]]].
        destruct (node_finding_origin _ _ _ _ _ _ _ _ Hp Hp0 Hf Hs Hn)
          as [l' [cand' [_ [_ Hin]]]].
        apply nodeCandidate_finding in Hin. destruct Hin as [Ef [_ Hnot]].
        rewrite Ef in Hcand. cbn [ff_candidate nodeFinding] in Hcand. subst cand'.
        contradiction.
      * intros Hno. apply (nodeCandidate_silent props services settings n).
        destruct (nodeCandidate props services settings n (SvcNum p) ctxs cand)
          as [|f fs] eqn:E; [reflexivity|].
        exfalso. apply Hno. exists f.
        assert (Hin : In f (nodeCandidate props services settings n (SvcNum p) ctxs cand))
          by (rewrite E; now left).
        split; [apply (node_finding_made props fb services settings n p ctxs l cand);
                auto|].
        apply nodeCandidate_finding in Hin. destruct Hin as [Ef _]. rewrite Ef.
        now repeat split.
    + intros cand cap tagId Hc Ht Hcap Hne Hrate Hfit Hnot.
      apply (node_finding_made props fb services settings n p ctxs l cand); auto.
      unfold nodeCandidate. rewrite Hcap.
      apply String.eqb_neq in Hne. cbn [svcToJs]. rewrite Hne, Hrate. cbn [negb].
      destruct ctxs as [|c0 cs] eqn:Ec; [contradiction|]. rewrite <- Ec in *.
      apply in_flat_map. exists tagId. split; [exact Ht|]. rewrite Hfit.
      destruct (satisfiesTagConstraints tagId props cap) eqn:Es.
      * apply satisfiesTagConstraints_spec in Es. contradiction.
      * now left.
Qed.

Lemma getCap_by_key (services : DgpServiceMap) (primary : ServiceIdRef) :
  numberKey (JStr (toStr (svcToJs primary))) = numberKey (svcToJs primary) ->
  getCap services (SvcStr (toStr (svcToJs primary))) = getCap services primary.
Proof.
  intros H. unfold getCap. cbn [svcToJs]. now rewrite H, toStr_str.
Qed.

(** X27: resolution against diagnostics.  Whatever [resolveServiceFallback]
    returns for a primary is a candidate that [collectFailedFallbacks]
    (same catalog, settings and fallbacks) cannot report in the global
    list of that primary as an unknown service or a rate violation: the
    one complaint left is [cycle], because resolution does not compare
    the candidate with the primary.  The key of the global list is
    [String(primary)]; the hypothesis says that this key read back as a
    number names the same property, as it does in JavaScript. *)
Theorem resolved_fallback_diagnostics (params : FallbackParams) (fb : ServiceFallback)
    (cand : ServiceIdRef) :
  numberKey (JStr (toStr (svcToJs (p_primary params))))
  = numberKey (svcToJs (p_primary params)) ->
  p_fallbacks params = Some fb ->
  resolveServiceFallback params = Some cand ->
  forall f,
    In f (collectFailedFallbacks (p_props params) (p_fallbacks params)
            (p_services params) (p_settings params)) ->
    ff_scope f = ScopeGlobal ->
    ff_primary f = SvcStr (toStr (svcToJs (p_primary params))) ->
    ff_candidate f = cand ->
    ff_reason f = Cycle
    /\ toStr (svcToJs cand) = toStr (svcToJs (p_primary params)).
Proof.
  intros Hkey Hfb Hres f Hf Hs Hp Hc.
  unfold resolveServiceFallback in Hres.
  rewrite scanLists_find in Hres by (intros t []).
  apply find_some in Hres. destruct Hres as [_ Hpass].
  apply candidatePasses_spec in Hpass. destruct Hpass as [cap [Hcap [Hrate _]]].
  rewrite Hfb in Hf.
  destruct (global_finding_origin _ _ _ _ _ Hf Hs) as [k [l [_ [_ [Ef [_ Hr]]]]]].
  rewrite Ef in Hp. cbn [ff_primary globalFinding] in Hp. inversion Hp; subst k.
  rewrite Hc in Hr. unfold globalReason in Hr.
  destruct (ff_reason f); try contradiction.
  - congruence.
  - destruct Hr as [_ [cap' [Hcap' Hr]]].
    unfold rateOf in Hr, Hrate. rewrite (getCap_by_key _ _ Hkey) in Hr.
    assert (cap' = cap) by congruence. subst cap'. congruence.
  - destruct Hr as [_ Hr]. split; [reflexivity|exact Hr].
Qed.

(** The three rate policies are nested for a non-negative primary rate
    and a non-negative percentage: a candidate that is at least [pct]
    percent cheaper passes [lte_primary], and a candidate that passes
    [lte_primary] passes [within_pct]; and no policy lets a candidate
    pass when its rate or the rate of the primary is unknown. *)
Theorem rate_policies_nested (pct p c : Q) :
  (0 <= pct)%Q -> (0 <= p)%Q ->
  (passesRate (AtLeastPctLower pct) (Some p) (Some c) = true ->
   passesRate LtePrimary (Some p) (Some c) = true)
  /\ (passesRate LtePrimary (Some p) (Some c) = true ->
      passesRate (WithinPct pct) (Some p) (Some c) = true)
  /\ (forall policy r, passesRate policy None r = false /\ passesRate policy r None = false).
Proof.
  intros Hpct Hp.
  assert (M : (0 <= p * (pct / 100))%Q).
  { apply Qmult_le_0_compat; [exact Hp|].
    unfold Qdiv. apply Qmult_le_0_compat; [exact Hpct|]. discriminate. }
  split; [|split].
  - simpl. rewrite !Qle_bool_iff. intros H.
    assert (E : (p * (1 - pct / 100) == p - p * (pct / 100))%Q) by ring.
    rewrite E in H. lra.
  - simpl. rewrite !Qle_bool_iff. intros H.
    assert (E : (p * (1 + pct / 100) == p + p * (pct / 100))%Q) by ring.
    rewrite E. lra.
  - intros policy [r|]; split; try reflexivity; destruct policy; reflexivity.
Qed.

End DiagnosticsFacts.

(** A document with one tag served by service 1, a catalog with the
    services 1 (rate 100) and 2 (rate 111), and fallback lists that name
    a node that does not exist and the primary as its own fallback. *)
Definition serviceTag (id : string) (service : option Z) : Tag :=
  {| t_id := id; t_label := id; t_bind_id := None; t_service_id := service;
     t_includes := None; t_excludes := None; t_constraints := None;
     t_constraints_origin := None; t_constraints_overrides := None; t_meta := None |}.

Definition fallbackDoc : ServiceProps :=
  {| filters := [serviceTag "root" (Some 1%Z)];
     fields := [];
     includes_for_buttons := None;
     excludes_for_buttons := None;
     order_for_tags := None |}.

Definition fallbackLists : ServiceFallback :=
  {| fb_nodes := Some [("root", [SvcNum 2; SvcNum 1]); ("ghost", [SvcNum 2])];
     fb_global := Some [("1", [SvcNum 1; SvcNum 3])] |}.

Definition fallbackCatalog : DgpServiceMap := [("1", rateCap 100); ("2", rateCap 111)].

Definition cycleParams : FallbackParams :=
  {| p_primary := SvcNum 1;
     p_nodeId := None;
     p_tagId := None;
     p_services := fallbackCatalog;
     p_fallbacks := Some fallbackLists;
     p_settings := None;
     p_props := fallbackDoc |}.

Lemma node_fallbacks_reading_witness :
  In (nodeFinding "ghost" (SvcStr EmptyString) (SvcStr EmptyString) None NoPrimary)
    (collectFailedFallbacks fallbackDoc (Some fallbackLists) fallbackCatalog None).
Proof.
  apply (node_fallbacks_reading fallbackDoc fallbackLists fallbackCatalog None
           "ghost" [SvcNum 2]).
  - simpl. right. left. reflexivity.
  - left. reflexivity.
Defined.

Lemma resolved_fallback_diagnostics_witness :
  resolveServiceFallback cycleParams = Some (SvcNum 1)
  /\ forall f,
       In f (collectFailedFallbacks fallbackDoc (Some fallbackLists) fallbackCatalog None) ->
       ff_scope f = ScopeGlobal -> ff_primary f = SvcStr "1" ->
       ff_candidate f = SvcNum 1 ->
       ff_reason f = Cycle /\ toStr (svcToJs (SvcNum 1)) = toStr (svcToJs (SvcNum 1)).
Proof.
  split; [reflexivity|].
  intros f Hf Hs Hp Hc.
  apply (resolved_fallback_diagnostics cycleParams fallbackLists (SvcNum 1));
    [reflexivity|reflexivity|reflexivity|exact Hf|exact Hs|exact Hp|exact Hc].
Defined.

Lemma rate_policies_nested_witness :
  passesRate (AtLeastPctLower (inject_Z 10)) (Some (inject_Z 100)) (Some (inject_Z 90)) = true
  /\ passesRate LtePrimary (Some (inject_Z 100)) (Some (inject_Z 90)) = true.
Proof.
  split; [reflexivity|].
  apply (rate_policies_nested (inject_Z 10) (inject_Z 100) (inject_Z 90));
    [discriminate|discriminate|reflexivity].
Defined.

(* ===================================================================== *)
(** * Content hash (src/utils/service-props-id.ts) *)
(* ===================================================================== *)

Section Fnv32.

Local Open Scope Z_scope.

(** [ToUint32] and [ToInt32] of a number that is an integer. *)
Definition toUint32 (x : Z) : Z := x mod 2 ^ 32.

Definition toInt32 (x : Z) : Z :=
  let u := x mod 2 ^ 32 in if u <? 2 ^ 31 then u else u - 2 ^ 32.

(** [a ^ b] *)
Definition xor32 (a b : Z) : Z := toInt32 (Z.lxor (toInt32 a) (toInt32 b)).

(** [a << k] *)
Definition shl32 (a k : Z) : Z := toInt32 (Z.shiftl (toInt32 a) (k mod 32)).

(** [str.charCodeAt(i)] *)
Definition charCode (c : ascii) : Z := Z.of_nat (nat_of_ascii c).

(** One turn of the loop of [fnv1a32]: the sum is an exact sum of
    numbers and [>>> 0] brings it back to 32 bits. *)
Definition fnvStep (h : Z) (c : ascii) : Z :=
  let h := xor32 h (charCode c) in
  toUint32 (h + (shl32 h 1 + shl32 h 4 + shl32 h 7 + shl32 h 8 + shl32 h 24)).

Fixpoint fnvLoop (str : string) (h : Z) : Z :=
  match str with
  | EmptyString => h
  | String c rest => fnvLoop rest (fnvStep h c)
  end.

Definition digit36 (d : Z) : ascii :=
  if d <? 10 then ascii_of_nat (Z.to_nat (48 + d)) else ascii_of_nat (Z.to_nat (87 + d)).

(** [n.toString(36)] for a non-negative integer, least digit first into
    the accumulator. *)
Fixpoint base36Digits (fuel : nat) (n : Z) (acc : string) : string :=
  match fuel with
  | O => acc
  | S fuel' =>
      let acc' := String (digit36 (n mod 36)) acc in
      if n / 36 =? 0 then acc' else base36Digits fuel' (n / 36) acc'
  end.

(** Seven digits hold every number below [36 ^ 7], so every 32-bit one
    ([base36Digits_fuel]). *)
Definition toBase36 (n : Z) : string := base36Digits 7 n EmptyString.

(** [fnv1a32(str)] before and after [h.toString(36)] *)
Definition fnv1a32Number (str : string) : Z := fnvLoop str 2166136261.

Definition fnv1a32 (str : string) : string := toBase36 (fnv1a32Number str).

(** Reading a base-36 numeral back. *)
Definition digitValue (c : ascii) : Z :=
  let n := Z.of_nat (nat_of_ascii c) in
  if n <? 58 then n - 48 else n - 87.

Definition parse36 (s : string) : Z :=
  fold_left (fun v c => v * 36 + digitValue c) (list_ascii_of_string s) 0.

(** The FNV-1a hash as it is defined: xor the octet in, multiply by the
    prime, keep 32 bits. *)
Definition FNV_PRIME : Z := 16777619.

Definition fnv1aReference (str : string) : Z :=
  fold_left (fun h c => (Z.lxor h (charCode c) * FNV_PRIME) mod 2 ^ 32)
    (list_ascii_of_string str) 2166136261.

Lemma toInt32_cong (x : Z) : exists q, toInt32 x = x + q * 2 ^ 32.
Proof.
  unfold toInt32. cbv zeta.
  pose proof (Z.div_mod x (2 ^ 32) ltac:(lia)) as E.
  destruct (x mod 2 ^ 32 <? 2 ^ 31).
  - exists (- (x / 2 ^ 32)). lia.
  - exists (- (x / 2 ^ 32) - 1). lia.
Qed.

Lemma lxor_mod32 (a b : Z) :
  Z.lxor a b mod 2 ^ 32 = Z.lxor (a mod 2 ^ 32) (b mod 2 ^ 32).
Proof.
  apply Z.bits_inj'. intros n Hn.
  destruct (Z.lt_ge_cases n 32) as [L|G].
  - rewrite Z.mod_pow2_bits_low by lia.
    rewrite !Z.lxor_spec, !Z.mod_pow2_bits_low by lia. reflexivity.
  - rewrite Z.mod_pow2_bits_high by lia.
    rewrite Z.lxor_spec, !Z.mod_pow2_bits_high by lia. reflexivity.
Qed.

Lemma toInt32_mod (x : Z) : toInt32 x mod 2 ^ 32 = x mod 2 ^ 32.
Proof.
  destruct (toInt32_cong x) as [q ->]. apply Z.mod_add. lia.
Qed.

Lemma xor32_cong (h c : Z) :
  0 <= h < 2 ^ 32 -> 0 <= c < 2 ^ 32 ->
  exists q, xor32 h c = Z.lxor h c + q * 2 ^ 32.
Proof.
  intros Hh Hc. unfold xor32.
  destruct (toInt32_cong (Z.lxor (toInt32 h) (toInt32 c))) as [q ->].
  assert (E : Z.lxor (toInt32 h) (toInt32 c) mod 2 ^ 32 = Z.lxor h c).
  { rewrite lxor_mod32, !toInt32_mod, !Z.mod_small by lia. reflexivity. }
  pose proof (Z.div_mod (Z.lxor (toInt32 h) (toInt32 c)) (2 ^ 32) ltac:(lia)) as D.
  rewrite E in D.
  exists (q + Z.lxor (toInt32 h) (toInt32 c) / 2 ^ 32). lia.
Qed.

Lemma shl32_cong (a k : Z) :
  0 <= k < 32 -> exists q, shl32 a k = a * 2 ^ k + q * 2 ^ 32.
Proof.
  intros Hk. unfold shl32. rewrite (Z.mod_small k) by lia.
  destruct (toInt32_cong (Z.shiftl (toInt32 a) k)) as [q ->].
  rewrite Z.shiftl_mul_pow2 by lia.
  destruct (toInt32_cong a) as [r ->].
  exists (q + r * 2 ^ k). lia.
Qed.

Lemma lxor_range (h c : Z) :
  0 <= h < 2 ^ 32 -> 0 <= c < 2 ^ 32 -> 0 <= Z.lxor h c < 2 ^ 32.
Proof.
  intros Hh Hc.
  assert (E : Z.lxor h c mod 2 ^ 32 = Z.lxor h c).
  { rewrite lxor_mod32, !Z.mod_small by lia. reflexivity. }
  rewrite <- E. apply Z.mod_pos_bound. lia.
Qed.

Lemma charCode_range (c : ascii) : 0 <= charCode c < 2 ^ 32.
Proof.
  unfold charCode. pose proof (nat_ascii_bounded c). lia.
Qed.

Lemma fnvStep_prime (h : Z) (c : ascii) :
  0 <= h < 2 ^ 32 ->
  fnvStep h c = (Z.lxor h (charCode c) * FNV_PRIME) mod 2 ^ 32.
Proof.
  intros Hh. unfold fnvStep, toUint32, FNV_PRIME. cbv zeta.
  destruct (xor32_cong h (charCode c) Hh (charCode_range c)) as [q0 E0].
  set (x := xor32 h (charCode c)) in *.
  destruct (shl32_cong x 1 ltac:(lia)) as [q1 ->].
  destruct (shl32_cong x 4 ltac:(lia)) as [q4 ->].
  destruct (shl32_cong x 7 ltac:(lia)) as [q7 ->].
  destruct (shl32_cong x 8 ltac:(lia)) as [q8 ->].
  destruct (shl32_cong x 24 ltac:(lia)) as [q24 ->].
  rewrite E0.
  replace (Z.lxor h (charCode c) + q0 * 2 ^ 32
           + ((Z.lxor h (charCode c) + q0 * 2 ^ 32) * 2 ^ 1 + q1 * 2 ^ 32
              + ((Z.lxor h (charCode c) + q0 * 2 ^ 32) * 2 ^ 4 + q4 * 2 ^ 32)
              + ((Z.lxor h (charCode c) + q0 * 2 ^ 32) * 2 ^ 7 + q7 * 2 ^ 32)
              + ((Z.lxor h (charCode c) + q0 * 2 ^ 32) * 2 ^ 8 + q8 * 2 ^ 32)
              + ((Z.lxor h (charCode c) + q0 * 2 ^ 32) * 2 ^ 24 + q24 * 2 ^ 32)))
    with (Z.lxor h (charCode c) * 16777619
          + (q0 * 16777619 + q1 + q4 + q7 + q8 + q24) * 2 ^ 32) by lia.
  apply Z.mod_add. lia.
Qed.

Lemma fnvLoop_reference (str : string) :
  forall h, 0 <= h < 2 ^ 32 ->
    fnvLoop str h
    = fold_left (fun h c => (Z.lxor h (charCode c) * FNV_PRIME) mod 2 ^ 32)
        (list_ascii_of_string str) h
    /\ 0 <= fnvLoop str h < 2 ^ 32.
Proof.
  induction str as [|c rest IH]; intros h Hh; cbn [fnvLoop list_ascii_of_string fold_left].
  - split; [reflexivity|exact Hh].
  - rewrite (fnvStep_prime h c Hh). apply IH. apply Z.mod_pos_bound. lia.
Qed.

Lemma base36Digits_fuel (fuel : nat) :
  forall n acc, 0 <= n < 36 ^ Z.of_nat (S fuel) ->
    forall extra,
      base36Digits (S fuel + extra) n acc = base36Digits (S fuel) n acc
      /\ (String.length acc < String.length (base36Digits (S fuel) n acc)
          <= S fuel + String.length acc)%nat.
Proof.
  induction fuel as [|fuel IH]; intros n acc Hn extra.
  - assert (E : n / 36 = 0) by (apply Z.div_small; simpl in Hn; lia).
    cbn [base36Digits Nat.add]. cbv zeta. rewrite E. cbn [Z.eqb String.length].
    split; [reflexivity|lia].
  - remember (S fuel) as m eqn:Em.
    cbn [base36Digits Nat.add]. cbv zeta.
    destruct (n / 36 =? 0) eqn:E.
    + split; [reflexivity|]. cbn [String.length]. lia.
    + assert (Hq : 0 <= n / 36 < 36 ^ Z.of_nat m).
      { split; [apply Z.div_pos; lia|].
        apply Z.div_lt_upper_bound; [lia|].
        rewrite Nat2Z.inj_succ, Z.pow_succ_r in Hn by lia. lia. }
      subst m.
      destruct (IH (n / 36) (String (digit36 (n mod 36)) acc) Hq extra) as [A B].
      split; [exact A|]. cbn [String.length] in B. lia.
Qed.

Lemma digitValue_digit36 (d : Z) : 0 <= d < 36 -> digitValue (digit36 d) = d.
Proof.
  intros Hd.
  assert (A : forallb (fun k => digitValue (digit36 (Z.of_nat k)) =? Z.of_nat k)
                (seq 0 36) = true) by (vm_compute; reflexivity).
  rewrite forallb_forall in A.
  specialize (A (Z.to_nat d)). rewrite Z2Nat.id in A by lia.
  apply Z.eqb_eq, A, in_seq. lia.
Qed.

Lemma list_ascii_app (a b : string) :
  list_ascii_of_string (a ++ b) = list_ascii_of_string a ++ list_ascii_of_string b.
Proof.
  induction a as [|c a IH]; simpl; [reflexivity|now rewrite IH].
Qed.

Lemma base36Digits_value (fuel : nat) :
  forall n acc, 0 <= n < 36 ^ Z.of_nat (S fuel) ->
    exists ds, base36Digits (S fuel) n acc = (ds ++ acc)%string /\ parse36 ds = n.
Proof.
  induction fuel as [|fuel IH]; intros n acc Hn.
  - assert (E : n / 36 = 0) by (apply Z.div_small; simpl in Hn; lia).
    cbn [base36Digits]. cbv zeta. rewrite E. cbn [Z.eqb].
    exists (String (digit36 (n mod 36)) EmptyString). split; [reflexivity|].
    unfold parse36. cbn [list_ascii_of_string fold_left].
    rewrite digitValue_digit36 by (apply Z.mod_pos_bound; lia).
    rewrite Z.mod_small; simpl in Hn; lia.
  - remember (S fuel) as m eqn:Em.
    cbn [base36Digits]. cbv zeta.
    pose proof (Z.div_mod n 36 ltac:(lia)) as D.
    pose proof (Z.mod_pos_bound n 36 ltac:(lia)) as B.
    destruct (n / 36 =? 0) eqn:E.
    + apply Z.eqb_eq in E.
      exists (String (digit36 (n mod 36)) EmptyString). split; [reflexivity|].
      unfold parse36. cbn [list_ascii_of_string fold_left].
      rewrite digitValue_digit36 by exact B. lia.
    + assert (Hq : 0 <= n / 36 < 36 ^ Z.of_nat m).
      { split; [apply Z.div_pos; lia|].
        apply Z.div_lt_upper_bound; [lia|].
        rewrite Nat2Z.inj_succ, Z.pow_succ_r in Hn by lia. lia. }
      subst m.
      destruct (IH (n / 36) (String (digit36 (n mod 36)) acc) Hq) as [ds [A V]].
      exists (ds ++ String (digit36 (n mod 36)) EmptyString)%string. split.
      * rewrite A. clear. induction ds as [|c ds IHd]; simpl; [reflexivity|].
        now rewrite IHd.
      * unfold parse36 in *. rewrite list_ascii_app, fold_left_app, V.
        cbn [list_ascii_of_string fold_left].
        rewrite digitValue_digit36 by exact B. lia.
Qed.

Lemma parse36_toBase36 (n : Z) : 0 <= n < 2 ^ 32 -> parse36 (toBase36 n) = n.
Proof.
  intros Hn. unfold toBase36.
  destruct (base36Digits_value 6 n EmptyString) as [ds [A V]].
  { change (36 ^ Z.of_nat 7) with 78364164096. lia. }
  rewrite A. clear A. replace (ds ++ EmptyString)%string with ds; [exact V|].
  clear. induction ds as [|c ds IH]; simpl; [reflexivity|now rewrite <- IH].
Qed.

Lemma fnv1a32Number_range (str : string) : 0 <= fnv1a32Number str < 2 ^ 32.
Proof. apply fnvLoop_reference. lia. Qed.

Lemma fnv1a32_length (str : string) : (1 <= String.length (fnv1a32 str) <= 7)%nat.
Proof.
  pose proof (fnv1a32Number_range str) as R.
  destruct (base36Digits_fuel 6 (fnv1a32Number str) EmptyString) with (extra := O)
    as [_ L].
  { change (36 ^ Z.of_nat 7) with 78364164096. lia. }
  unfold fnv1a32, toBase36. cbn [String.length] in L. lia.
Qed.

(** X28: [fnv1a32] is the 32-bit FNV-1a hash of the character codes:
    the shifts and the sum of its loop are the multiplication by the
    prime 16777619 with 32-bit overflow, as its comment says, although
    [^] and [<<] yield signed numbers on the way; the hash stays within
    32 bits.  The base-36 text has one to seven characters (seven turns
    of the digit loop are enough, more change nothing) and reads back as
    the hash, so two strings get the same text exactly when they have
    the same 32-bit hash. *)
Theorem fnv1a32_reading (str : string) :
  fnv1a32Number str = fnv1aReference str
  /\ 0 <= fnv1a32Number str < 2 ^ 32
  /\ (1 <= String.length (fnv1a32 str) <= 7)%nat
  /\ (forall extra, base36Digits (7 + extra) (fnv1a32Number str) EmptyString
                    = fnv1a32 str)
  /\ parse36 (fnv1a32 str) = fnv1a32Number str
  /\ (forall other, fnv1a32 str = fnv1a32 other <->
                    fnv1a32Number str = fnv1a32Number other).
Proof.
  pose proof fnv1a32Number_range as R.
  assert (B : 0 <= fnv1a32Number str < 36 ^ Z.of_nat 7).
  { change (36 ^ Z.of_nat 7) with 78364164096. specialize (R str). lia. }
  split; [apply fnvLoop_reference; lia|]. split; [apply R|].
  split; [apply fnv1a32_length|]. split; [|split].
  - intros extra. apply (base36Digits_fuel 6 _ EmptyString B extra).
  - apply parse36_toBase36, R.
  - intros other. split.
    + intros E. unfold fnv1a32 in E.
      rewrite <- (parse36_toBase36 _ (R str)), <- (parse36_toBase36 _ (R other)).
      now rewrite E.
    + intros E. unfold fnv1a32. now rewrite E.
Qed.

End Fnv32.

(** [ServicePropsIdOptions] *)
Record ServicePropsIdOptions := {
  orderInsensitiveArrays : option bool;
  dropKeys : option (list string);
  prefix : option string;
  hashLen : option Z
}.

Definition isUndefined (v : JsVal) : bool :=
  match v with JUndefined => true | _ => false end.

(** [s.slice(0, e)] for an integer [e] *)
Definition sliceTo (s : string) (e : Z) : string :=
  let len := Z.of_nat (String.length s) in
  let e' := if (e <? 0)%Z then Z.max (len + e) 0 else Z.min e len in
  substring 0 (Z.to_nat e') s.

(** [s.split("").reverse().join("")] *)
Definition reverseString (s : string) : string :=
  string_of_list_ascii (rev (list_ascii_of_string s)).

Section StructuralId.

(** [JSON.stringify] on a value that is not [undefined]. *)
Variable stableStringify : JsVal -> string.

(** [.sort((a, b) => (a.k < b.k ? -1 : a.k > b.k ? 1 : 0))]: the sort
    is stable. *)
Fixpoint insertByKey (x : string * JsVal) (l : list (string * JsVal))
    : list (string * JsVal) :=
  match l with
  | [] => [x]
  | y :: l' => if String.leb (fst x) (fst y) then x :: l else y :: insertByKey x l'
  end.

Definition sortByKey (l : list (string * JsVal)) : list (string * JsVal) :=
  fold_right insertByKey [] l.

Definition sortItems (items : list JsVal) : list JsVal :=
  map snd (sortByKey (map (fun v => (stableStringify v, v)) items)).

(** The loop over the sorted keys of an object: [canon] holds the
    canonical form of [value[k]] for every key [k]. *)
Definition canonicalEntries (canon : JsMap.t JsVal) (keys : list string)
    : JsMap.t JsVal :=
  fold_left
    (fun out k =>
       match JsMap.get canon k with
       | Some v => if isUndefined v then out else JsMap.set out k v
       | None => out
       end)
    keys JsMap.empty.

Definition keptKeys (drop : list string) (keys : list string) : list string :=
  sortStrings (filter (fun k => negb (existsb (String.eqb k) drop)) keys).

(** [canonicalize(value, opts)].  The values of the model are
    [undefined], [null], booleans, numbers, strings, arrays and plain
    objects, so the branches for dates and for other objects are not
    met.  The source canonicalises [value[k]] when it comes to the key
    [k]; here every property is canonicalised first and read then. *)
Fixpoint canonicalize (orderInsensitive : bool) (drop : list string) (value : JsVal)
    : JsVal :=
  match value with
  | JUndefined => JUndefined
  | JNull => JNull
  | JBool _ | JNum _ | JStr _ => value
  | JArr arr =>
      let items :=
        filter (fun v => negb (isUndefined v))
          (map (canonicalize orderInsensitive drop) arr) in
      if orderInsensitive then JArr (sortItems items) else JArr items
  | JObj props =>
      let canon :=
        (fix each (l : list (string * JsVal)) : list (string * JsVal) :=
           match l with
           | [] => []
           | (k, v) :: rest => (k, canonicalize orderInsensitive drop v) :: each rest
           end) props in
      JObj (canonicalEntries canon (keptKeys drop (JsMap.keys props)))
  end.

(** [servicePropsId(props, options)]; [None] is the [TypeError] that
    [fnv1a32] raises on the payload [undefined]. *)
Definition servicePropsId (props : JsVal) (options : ServicePropsIdOptions)
    : option string :=
  let orderInsensitive :=
    match orderInsensitiveArrays options with Some b => b | None => false end in
  let drop := match dropKeys options with Some l => l | None => [] end in
  let pre := match prefix options with Some p => p | None => "sp" end in
  let len := match hashLen options with Some n => n | None => 12%Z end in
  let canonical := canonicalize orderInsensitive drop props in
  if isUndefined canonical then None
  else
    let payload := stableStringify canonical in
    let h1 := fnv1a32 payload in
    let h2 := fnv1a32 (reverseString payload) in
    Some (pre ++ "_" ++ sliceTo (h1 ++ h2) len)%string.

(** Two values that differ at most in the order in which objects list
    their properties. *)
#[warning="-register-all"] Inductive sameContent : JsVal -> JsVal -> Prop :=
| same_value (v : JsVal) : sameContent v v
| same_items (xs ys : list JsVal) :
    Forall2 sameContent xs ys -> sameContent (JArr xs) (JArr ys)
| same_properties (p q : list (string * JsVal)) :
    NoDup (JsMap.keys p) -> NoDup (JsMap.keys q) ->
    (forall k a, JsMap.get p k = Some a ->
                 exists b, JsMap.get q k = Some b /\ sameContent a b) ->
    (forall k, In k (JsMap.keys q) -> In k (JsMap.keys p)) ->
    sameContent (JObj p) (JObj q).

Lemma JsVal_nested_ind (P : JsVal -> Prop) :
  P JUndefined -> P JNull -> (forall b, P (JBool b)) -> (forall n, P (JNum n)) ->
  (forall s, P (JStr s)) ->
  (forall items, Forall P items -> P (JArr items)) ->
  (forall props, Forall (fun kv => P (snd kv)) props -> P (JObj props)) ->
  forall v, P v.
Proof.
  intros Hu Hn Hb Hz Hs Ha Ho. fix IH 1.
  intros [| |b|n|s|items|props];
    [exact Hu|exact Hn|apply Hb|apply Hz|apply Hs| |].
  - apply Ha. induction items as [|x items IHi]; constructor; [apply IH|exact IHi].
  - apply Ho. induction props as [|[k x] props IHp]; constructor; [apply IH|exact IHp].
Qed.

Lemma canonicalize_object (o : bool) (drop : list string) (props : list (string * JsVal)) :
  canonicalize o drop (JObj props)
  = JObj (canonicalEntries (map (fun kv => (fst kv, canonicalize o drop (snd kv))) props)
            (keptKeys drop (JsMap.keys props))).
Proof.
  cbn [canonicalize]. f_equal. f_equal.
  induction props as [|[k v] props IH]; [reflexivity|]. cbn [map fst snd]. now rewrite IH.
Qed.

Lemma get_map_values {V W} (f : V -> W) (m : JsMap.t V) (k : string) :
  JsMap.get (map (fun kv => (fst kv, f (snd kv))) m) k = option_map f (JsMap.get m k).
Proof.
  induction m as [|[a b] m IH]; simpl; [reflexivity|].
  destruct (String.eqb k a); [reflexivity|exact IH].
Qed.

Lemma canonicalEntries_ext (c1 c2 : JsMap.t JsVal) (keys : list string) :
  (forall k, In k keys -> JsMap.get c1 k = JsMap.get c2 k) ->
  canonicalEntries c1 keys = canonicalEntries c2 keys.
Proof.
  unfold canonicalEntries. generalize (@JsMap.empty JsVal).
  induction keys as [|k keys IH]; intros out H; [reflexivity|].
  cbn [fold_left]. rewrite (H k) by now left. apply IH. intros k' Hk. apply H. now right.
Qed.

Lemma keptKeys_perm (drop : list string) (k1 k2 : list string) :
  Permutation k1 k2 -> keptKeys drop k1 = keptKeys drop k2.
Proof.
  intros P. unfold keptKeys.
  apply sorted_perm_eq; try apply sortStrings_sorted.
  rewrite !sortStrings_perm.
  induction P; simpl.
  - reflexivity.
  - destruct (negb (existsb (String.eqb x) drop)); [now constructor|assumption].
  - destruct (negb (existsb (String.eqb x) drop)), (negb (existsb (String.eqb y) drop));
      try reflexivity. apply perm_swap.
  - etransitivity; eassumption.
Qed.

Lemma In_keptKeys (drop : list string) (keys : list string) (k : string) :
  In k (keptKeys drop keys) <-> In k keys /\ ~ In k drop.
Proof.
  unfold keptKeys. split.
  - intros H. apply (Permutation_in _ (sortStrings_perm _)) in H.
    apply filter_In in H. destruct H as [H1 H2]. split; [exact H1|].
    intros Hd. apply negb_true_iff in H2.
    assert (E : existsb (String.eqb k) drop = true).
    { apply existsb_exists. exists k. split; [exact Hd|apply String.eqb_refl]. }
    congruence.
  - intros [H1 H2]. apply (Permutation_in _ (Permutation_sym (sortStrings_perm _))).
    apply filter_In. split; [exact H1|]. apply negb_true_iff.
    destruct (existsb (String.eqb k) drop) eqn:E; [|reflexivity].
    apply existsb_exists in E. destruct E as [x [Hx E]]. apply String.eqb_eq in E.
    subst x. contradiction.
Qed.

Lemma canonicalize_sameContent (o : bool) (drop : list string) (x : JsVal) :
  forall y, sameContent x y -> canonicalize o drop x = canonicalize o drop y.
Proof.
  induction x as [| |b|n|s|items IH|props IH] using JsVal_nested_ind;
    intros y S; inversion S; subst; try reflexivity.
  - (* arrays *)
    assert (E : map (canonicalize o drop) items = map (canonicalize o drop) ys).
    { clear S. revert IH. match goal with H : Forall2 _ _ _ |- _ => induction H end.
      - reflexivity.
      - intros IH. inversion IH; subst. cbn [map]. f_equal; auto. }
    cbn [canonicalize]. now rewrite E.
  - (* objects *)
    match goal with
    | Hp : NoDup (JsMap.keys props), Hq : NoDup (JsMap.keys q),
      Hv : forall k a, JsMap.get props k = Some a -> _,
      Hk : forall k, In k (JsMap.keys q) -> _ |- _ =>
        rename Hp into Np; rename Hq into Nq; rename Hv into Sv; rename Hk into Sk
    end.
    rewrite !canonicalize_object.
    assert (P : Permutation (JsMap.keys props) (JsMap.keys q)).
    { apply NoDup_Permutation; [exact Np|exact Nq|]. intros k. split; [|apply Sk].
      intros Hk. apply JsMap_get_keys in Hk. destruct Hk as [a Ha].
      destruct (Sv k a Ha) as [b [Hb _]]. apply JsMap_get_keys. eauto. }
    rewrite (keptKeys_perm drop _ _ P). f_equal.
    apply canonicalEntries_ext. intros k Hk. rewrite !get_map_values.
    destruct (JsMap.get props k) as [a|] eqn:Ea.
    + destruct (Sv k a Ea) as [b [Hb Sab]]. rewrite Hb. cbn [option_map]. f_equal.
      apply JsMap_get_In in Ea. rewrite Forall_forall in IH.
      apply (IH (k, a) Ea). exact Sab.
    + apply In_keptKeys in Hk. destruct Hk as [Hk _].
      apply JsMap_get_keys in Hk. destruct Hk as [b Hb].
      exfalso. apply JsMap_get_None_keys in Ea. apply Ea.
      apply Sk. apply JsMap_get_keys. eauto.
Qed.

(** The shape of a canonical value: no [undefined] inside arrays and
    objects, the keys of every object ascending, distinct and none of
    them dropped, and, when the order of arrays is not to matter, the
    items of every array ascending by their stringified form. *)
Definition byStringified (a b : JsVal) : Prop :=
  lebP (stableStringify a) (stableStringify b).

#[warning="-register-all"] Inductive Canonical (o : bool) (drop : list string)
    : JsVal -> Prop :=
| canonical_undefined : Canonical o drop JUndefined
| canonical_null : Canonical o drop JNull
| canonical_bool (b : bool) : Canonical o drop (JBool b)
| canonical_num (n : Z) : Canonical o drop (JNum n)
| canonical_str (s : string) : Canonical o drop (JStr s)
| canonical_arr (items : list JsVal) :
    Forall (Canonical o drop) items ->
    Forall (fun v => isUndefined v = false) items ->
    (o = true -> StronglySorted byStringified items) ->
    Canonical o drop (JArr items)
| canonical_obj (props : list (string * JsVal)) :
    Forall (fun kv => Canonical o drop (snd kv)) props ->
    Forall (fun kv => isUndefined (snd kv) = false) props ->
    StronglySorted lebP (JsMap.keys props) ->
    NoDup (JsMap.keys props) ->
    (forall k, In k (JsMap.keys props) -> ~ In k drop) ->
    Canonical o drop (JObj props).

Definition byKey (a b : string * JsVal) : Prop := lebP (fst a) (fst b).

Lemma string_leb_total (a b : string) : String.leb a b = false -> String.leb b a = true.
Proof.
  unfold String.leb. rewrite (String.compare_antisym a b).
  destruct (String.compare b a); simpl; congruence.
Qed.

Lemma insertByKey_perm (x : string * JsVal) (l : list (string * JsVal)) :
  Permutation (insertByKey x l) (x :: l).
Proof.
  induction l as [|y l IH]; simpl; [reflexivity|].
  destruct (String.leb (fst x) (fst y)); [reflexivity|].
  rewrite IH. apply perm_swap.
Qed.

Lemma sortByKey_perm (l : list (string * JsVal)) : Permutation (sortByKey l) l.
Proof.
  induction l as [|x l IH]; simpl; [reflexivity|].
  rewrite insertByKey_perm. now constructor.
Qed.

Lemma insertByKey_sorted (x : string * JsVal) (l : list (string * JsVal)) :
  StronglySorted byKey l -> StronglySorted byKey (insertByKey x l).
Proof.
  induction l as [|y l IH]; intros H; simpl.
  - repeat constructor.
  - inversion H as [|y' l' Hl Hy]; subst.
    destruct (String.leb (fst x) (fst y)) eqn:E.
    + constructor; [exact H|]. constructor; [exact E|].
      rewrite Forall_forall in *. intros z Hz. unfold byKey, lebP in *.
      eapply string_leb_trans; [exact E|apply Hy, Hz].
    + constructor; [apply IH, Hl|].
      rewrite Forall_forall in *. intros z Hz.
      apply (Permutation_in _ (insertByKey_perm x l)) in Hz.
      destruct Hz as [<-|Hz]; [apply string_leb_total, E|apply Hy, Hz].
Qed.

Lemma sortByKey_sorted (l : list (string * JsVal)) : StronglySorted byKey (sortByKey l).
Proof.
  induction l as [|x l IH]; simpl; [constructor|]. now apply insertByKey_sorted.
Qed.

Lemma sortByKey_sorted_id (l : list (string * JsVal)) :
  StronglySorted byKey l -> sortByKey l = l.
Proof.
  induction l as [|x l IH]; intros H; [reflexivity|].
  inversion H as [|x' l' Hl Hx]; subst. cbn [sortByKey fold_right].
  fold (sortByKey l). rewrite (IH Hl).
  destruct l as [|y l]; [reflexivity|]. cbn [insertByKey].
  inversion Hx as [|y' l' Hy _]; subst. unfold byKey, lebP in Hy. now rewrite Hy.
Qed.

Lemma sortItems_perm (items : list JsVal) : Permutation (sortItems items) items.
Proof.
  unfold sortItems. rewrite sortByKey_perm, map_map. cbn [snd]. now rewrite map_id.
Qed.

Lemma sortItems_sorted (items : list JsVal) : StronglySorted byStringified (sortItems items).
Proof.
  unfold sortItems.
  set (l := map (fun v => (stableStringify v, v)) items).
  assert (K : Forall (fun kv => fst kv = stableStringify (snd kv)) (sortByKey l)).
  { rewrite Forall_forall. intros kv Hkv.
    apply (Permutation_in _ (sortByKey_perm l)) in Hkv.
    apply in_map_iff in Hkv. destruct Hkv as [v [<- _]]. reflexivity. }
  pose proof (sortByKey_sorted l) as S.
  induction S as [|kv rest Hrest IH Hkv]; cbn [map]; [constructor|].
  inversion K as [|kv' rest' Ekv Krest]; subst.
  constructor; [apply IH, Krest|].
  rewrite Forall_forall in *. intros v Hv. apply in_map_iff in Hv.
  destruct Hv as [kv' [<- Hin]]. unfold byStringified.
  rewrite <- Ekv, <- (Krest kv' Hin). apply Hkv, Hin.
Qed.

Lemma sortItems_sorted_id (items : list JsVal) :
  StronglySorted byStringified items -> sortItems items = items.
Proof.
  intros H. unfold sortItems. rewrite sortByKey_sorted_id.
  - rewrite map_map. cbn [snd]. apply map_id.
  - induction H as [|v rest Hrest IH Hv]; cbn [map]; constructor; [exact IH|].
    rewrite Forall_forall in *. intros kv Hkv. apply in_map_iff in Hkv.
    destruct Hkv as [w [<- Hw]]. apply Hv, Hw.
Qed.

(** The loop that fills [out]: what it holds after the keys [keys]. *)
Definition entryStep (canon : JsMap.t JsVal) (out : JsMap.t JsVal) (k : string)
    : JsMap.t JsVal :=
  match JsMap.get canon k with
  | Some v => if isUndefined v then out else JsMap.set out k v
  | None => out
  end.

Lemma JsMap_set_keys_cases {V} (m : JsMap.t V) (k : string) (v : V) :
  (In k (JsMap.keys m) /\ JsMap.keys (JsMap.set m k v) = JsMap.keys m)
  \/ (~ In k (JsMap.keys m) /\ JsMap.set m k v = m ++ [(k, v)]).
Proof.
  destruct (in_dec string_dec k (JsMap.keys m)) as [H|H].
  - left. split; [exact H|]. unfold JsMap.keys in *.
    induction m as [|[a b] m IH]; simpl in *; [contradiction|].
    destruct (String.eqb k a) eqn:E; simpl; [reflexivity|].
    f_equal. apply IH. destruct H as [H|H]; [|exact H].
    apply String.eqb_neq in E. congruence.
  - right. split; [exact H|now apply JsMap_set_fresh].
Qed.

Lemma canonicalEntries_shape (P : JsVal -> Prop) (canon : JsMap.t JsVal)
    (keys : list string) :
  (forall k v, JsMap.get canon k = Some v -> P v) ->
  forall out,
    StronglySorted lebP (JsMap.keys out ++ keys) ->
    NoDup (JsMap.keys out) ->
    Forall (fun kv => P (snd kv) /\ isUndefined (snd kv) = false) out ->
    let r := fold_left (entryStep canon) keys out in
    StronglySorted lebP (JsMap.keys r) /\ NoDup (JsMap.keys r)
    /\ Forall (fun kv => P (snd kv) /\ isUndefined (snd kv) = false) r
    /\ forall k, In k (JsMap.keys r) -> In k (JsMap.keys out) \/ In k keys.
Proof.
  intros HP. induction keys as [|k keys IH]; intros out S N F; cbn [fold_left]; cbv zeta.
  - rewrite app_nil_r in S. repeat split; auto.
  - assert (S' : StronglySorted lebP (JsMap.keys out ++ keys)).
    { clear -S. induction (JsMap.keys out) as [|a l IHl]; simpl in *.
      - now inversion S.
      - inversion S as [|a' l' Sl Ha]; subst. constructor; [now apply IHl|].
        rewrite Forall_forall in *. intros x Hx. apply Ha.
        apply in_app_or in Hx. apply in_or_app. destruct Hx; [now left|right; now right]. }
    assert (Keep : forall out', JsMap.keys out' = JsMap.keys out ->
              Forall (fun kv => P (snd kv) /\ isUndefined (snd kv) = false) out' ->
              let r := fold_left (entryStep canon) keys out' in
              StronglySorted lebP (JsMap.keys r) /\ NoDup (JsMap.keys r)
              /\ Forall (fun kv => P (snd kv) /\ isUndefined (snd kv) = false) r
              /\ forall k0, In k0 (JsMap.keys r) ->
                            In k0 (JsMap.keys out) \/ In k0 (k :: keys)).
    { intros out' Ek F'. cbv zeta.
      destruct (IH out') as [A [B [C D]]]; [now rewrite Ek|now rewrite Ek|exact F'|].
      repeat split; auto. intros k0 H0. destruct (D k0 H0) as [H|H].
      - left. now rewrite <- Ek.
      - right. now right. }
    remember (entryStep canon out k) as out1 eqn:E1. unfold entryStep in E1.
    destruct (JsMap.get canon k) as [v|] eqn:Ev; [|subst out1; now apply Keep].
    destruct (isUndefined v) eqn:Eu; [subst out1; now apply Keep|].
    subst out1.
    destruct (JsMap_set_keys_cases out k v) as [[Hin Ek]|[Hnot Es]].
    + apply Keep; [exact Ek|].
      rewrite Forall_forall in *. intros kv Hkv. destruct kv as [a b].
      apply JsMap_set_In in Hkv. destruct Hkv as [Hkv|[-> ->]]; [now apply F|].
      split; [eapply HP; exact Ev|exact Eu].
    + rewrite Es.
      destruct (IH (out ++ [(k, v)])) as [A [B [C D]]].
      * unfold JsMap.keys. rewrite map_app. cbn [map fst]. rewrite <- app_assoc.
        exact S.
      * unfold JsMap.keys. rewrite map_app. cbn [map fst].
        apply NoDup_app; [exact N|repeat constructor; intros []|].
        intros x Hx [<-|[]]. contradiction.
      * apply Forall_app. split; [exact F|]. constructor; [|constructor].
        split; [eapply HP; exact Ev|exact Eu].
      * repeat split; auto. intros k0 H0. destruct (D k0 H0) as [H|H].
        -- unfold JsMap.keys in H. rewrite map_app in H. apply in_app_or in H.
           destruct H as [H|[<-|[]]]; [now left|right; now left].
        -- right. now right.
Qed.

Lemma canonicalEntries_fold (canon : JsMap.t JsVal) (keys : list string) :
  canonicalEntries canon keys = fold_left (entryStep canon) keys JsMap.empty.
Proof. reflexivity. Qed.

Lemma keptKeys_sorted (drop keys : list string) : StronglySorted lebP (keptKeys drop keys).
Proof. apply sortStrings_sorted. Qed.

Lemma canonicalize_canonical (o : bool) (drop : list string) (v : JsVal) :
  Canonical o drop (canonicalize o drop v).
Proof.
  induction v as [| |b|n|s|items IH|props IH] using JsVal_nested_ind;
    [constructor|constructor|constructor|constructor|constructor| |].
  - (* arrays *)
    set (kept := filter (fun v => negb (isUndefined v)) (map (canonicalize o drop) items)).
    assert (A : Forall (Canonical o drop) kept).
    { rewrite Forall_forall in *. intros x Hx. apply filter_In in Hx.
      destruct Hx as [Hx _]. apply in_map_iff in Hx. destruct Hx as [y [<- Hy]].
      now apply IH. }
    assert (B : Forall (fun v => isUndefined v = false) kept).
    { rewrite Forall_forall. intros x Hx. apply filter_In in Hx.
      destruct Hx as [_ Hx]. now apply negb_true_iff in Hx. }
    cbn [canonicalize]. fold kept. destruct o.
    + constructor.
      * rewrite Forall_forall in *. intros x Hx. apply A.
        apply (Permutation_in _ (sortItems_perm kept)). exact Hx.
      * rewrite Forall_forall in *. intros x Hx. apply B.
        apply (Permutation_in _ (sortItems_perm kept)). exact Hx.
      * intros _. apply sortItems_sorted.
    + constructor; [exact A|exact B|discriminate].
  - (* objects *)
    rewrite canonicalize_object, canonicalEntries_fold.
    destruct (canonicalEntries_shape (Canonical o drop)
                (map (fun kv => (fst kv, canonicalize o drop (snd kv))) props)
                (keptKeys drop (JsMap.keys props))) with (out := @JsMap.empty JsVal)
      as [A [B [C D]]].
    + intros k v Hv. rewrite get_map_values in Hv.
      destruct (JsMap.get props k) as [a|] eqn:Ea; [|discriminate].
      cbn [option_map] in Hv. inversion Hv; subst v.
      apply JsMap_get_In in Ea. rewrite Forall_forall in IH. apply (IH (k, a) Ea).
    + apply keptKeys_sorted.
    + constructor.
    + constructor.
    + constructor.
      * rewrite Forall_forall in *. intros kv Hkv. now apply C.
      * rewrite Forall_forall in *. intros kv Hkv. now apply C.
      * exact A.
      * exact B.
      * intros k Hk. destruct (D k Hk) as [[]|H]. now apply In_keptKeys in H.
Qed.

Lemma canonicalEntries_rebuild (suf : list (string * JsVal)) :
  forall pre,
    NoDup (JsMap.keys (pre ++ suf)) ->
    Forall (fun kv => isUndefined (snd kv) = false) suf ->
    fold_left (entryStep (pre ++ suf)) (JsMap.keys suf) pre = pre ++ suf.
Proof.
  induction suf as [|[k v] suf IH]; intros pre N F; cbn [JsMap.keys map fold_left fst].
  - now rewrite app_nil_r.
  - inversion F as [|kv rest Hv Hrest]; subst. cbn [snd] in Hv.
    assert (Hk : ~ In k (JsMap.keys pre)).
    { unfold JsMap.keys in *. rewrite map_app in N. cbn [map fst] in N.
      apply NoDup_remove_2 in N. intros H. apply N. apply in_or_app. now left. }
    assert (G : JsMap.get (pre ++ (k, v) :: suf) k = Some v).
    { clear -Hk. induction pre as [|[a b] pre IHp]; simpl.
      - now rewrite String.eqb_refl.
      - destruct (String.eqb k a) eqn:E.
        + apply String.eqb_eq in E. subst. exfalso. apply Hk. now left.
        + apply IHp. intros H. apply Hk. now right. }
    assert (E1 : entryStep (pre ++ (k, v) :: suf) pre k = pre ++ [(k, v)]).
    { unfold entryStep. now rewrite G, Hv, (JsMap_set_fresh pre k v Hk). }
    rewrite E1.
    replace (pre ++ (k, v) :: suf) with ((pre ++ [(k, v)]) ++ suf)
      by (now rewrite <- app_assoc).
    apply IH; [now rewrite <- app_assoc|exact Hrest].
Qed.

Lemma canonical_fixed (o : bool) (drop : list string) (v : JsVal) :
  Canonical o drop v -> canonicalize o drop v = v.
Proof.
  induction v as [| |b|n|s|items IH|props IH] using JsVal_nested_ind;
    intros C; try reflexivity.
  - inversion C as [| | | | |items' A B S|]; subst.
    assert (E : map (canonicalize o drop) items = items).
    { clear -IH A. induction items as [|x items IHi]; [reflexivity|].
      inversion IH; subst. inversion A; subst. cbn [map]. f_equal; auto. }
    cbn [canonicalize]. rewrite E.
    assert (Fl : filter (fun v => negb (isUndefined v)) items = items).
    { clear -B. induction items as [|x items IHi]; [reflexivity|].
      inversion B as [|x' l' Hx Hl]; subst. cbn [filter]. rewrite Hx. cbn [negb].
      f_equal. now apply IHi. }
    rewrite Fl. destruct o; [|reflexivity]. now rewrite sortItems_sorted_id by auto.
  - inversion C as [| | | | | |props' A B S N D]; subst.
    rewrite canonicalize_object.
    assert (E : map (fun kv => (fst kv, canonicalize o drop (snd kv))) props = props).
    { clear -IH A. induction props as [|[k x] props IHp]; [reflexivity|].
      inversion IH; subst. inversion A; subst. cbn [map fst snd] in *. f_equal; auto.
      f_equal. auto. }
    rewrite E.
    assert (K : keptKeys drop (JsMap.keys props) = JsMap.keys props).
    { unfold keptKeys.
      assert (Fl : filter (fun k => negb (existsb (String.eqb k) drop)) (JsMap.keys props)
                   = JsMap.keys props).
      { clear -D. induction (JsMap.keys props) as [|k l IHl]; [reflexivity|].
        cbn [filter].
        assert (Ek : existsb (String.eqb k) drop = false).
        { destruct (existsb (String.eqb k) drop) eqn:Ex; [|reflexivity].
          apply existsb_exists in Ex. destruct Ex as [x [Hx Ex]].
          apply String.eqb_eq in Ex. subst x. exfalso. apply (D k); [now left|exact Hx]. }
        rewrite Ek. cbn [negb]. f_equal. apply IHl. intros k' Hk'. apply D. now right. }
      rewrite Fl. now apply sortStrings_sorted_id. }
    rewrite K, canonicalEntries_fold. f_equal.
    apply (canonicalEntries_rebuild props []); [exact N|exact B].
Qed.

Lemma canonicalize_undefined (o : bool) (drop : list string) (v : JsVal) :
  isUndefined (canonicalize o drop v) = true <-> v = JUndefined.
Proof.
  destruct v; cbn [canonicalize isUndefined]; try (split; [discriminate|discriminate]).
  - split; reflexivity.
  - destruct o; cbn [isUndefined]; split; discriminate.
Qed.

Lemma substring_prefix_length (s : string) (n : nat) :
  String.length (substring 0 n s) = Nat.min n (String.length s).
Proof.
  revert n. induction s as [|c s IH]; intros [|n]; simpl; try reflexivity.
  now rewrite IH.
Qed.

Lemma substring_beyond (s : string) (n : nat) :
  String.length s <= n -> substring 0 n s = s.
Proof.
  revert n. induction s as [|c s IH]; intros [|n] H; simpl in *; try reflexivity; try lia.
  rewrite IH by lia. reflexivity.
Qed.

(** X29: the id does not depend on the order in which objects list
    their properties, at any depth: two values with the same content
    have the same canonical form and, under every choice of options, the
    same id (or both are refused). *)
Theorem servicePropsId_key_order (x y : JsVal) :
  sameContent x y ->
  (forall o drop, canonicalize o drop x = canonicalize o drop y)
  /\ forall options, servicePropsId x options = servicePropsId y options.
Proof.
  intros S. split.
  - intros o drop. now apply canonicalize_sameContent.
  - intros options. unfold servicePropsId. cbv zeta.
    now rewrite (canonicalize_sameContent _ _ x y S).
Qed.


(** The form of the id.  [servicePropsId] fails for [undefined] only (the payload is
    then [undefined] and [fnv1a32] reads its length).  Otherwise the id
    is the prefix ([sp] by default), an underscore and a piece of the
    two hashes written one after the other: their first [hashLen]
    characters (12 by default; all but the last [-hashLen] for a
    negative [hashLen]).  The two hashes have 2 to 14 characters
    together, so with the default length some of the second hash does
    not reach the id whenever they have more than 12. *)
Lemma servicePropsId_shape (props : JsVal) (options : ServicePropsIdOptions) :
  (servicePropsId props options = None <-> props = JUndefined)
  /\ forall id, servicePropsId props options = Some id ->
       exists hashes,
         (2 <= String.length hashes <= 14)%nat
         /\ (exists payload,
               hashes = (fnv1a32 payload ++ fnv1a32 (reverseString payload))%string)
         /\ id = ((match prefix options with Some p => p | None => "sp" end)
                  ++ "_"
                  ++ sliceTo hashes
                       (match hashLen options with Some n => n | None => 12%Z end))%string
         /\ (forall n, hashLen options = Some n -> (0 <= n)%Z ->
               sliceTo hashes n = substring 0 (Z.to_nat n) hashes
               /\ String.length (sliceTo hashes n)
                  = Nat.min (Z.to_nat n) (String.length hashes))
         /\ (hashLen options = None ->
               String.length (sliceTo hashes 12) = Nat.min 12 (String.length hashes)).
Proof.
  unfold servicePropsId. cbv zeta.
  set (o := match orderInsensitiveArrays options with Some b => b | None => false end).
  set (drop := match dropKeys options with Some l => l | None => [] end).
  pose proof (canonicalize_undefined o drop props) as U.
  destruct (isUndefined (canonicalize o drop props)) eqn:E.
  - split; [split; [intros _; now apply U|reflexivity]|discriminate].
  - split.
    { split; [discriminate|]. intros H. apply U in H. discriminate. }
    intros id [= <-].
    set (payload := stableStringify (canonicalize o drop props)).
    exists (fnv1a32 payload ++ fnv1a32 (reverseString payload))%string.
    pose proof (fnv1a32_length payload) as L1.
    pose proof (fnv1a32_length (reverseString payload)) as L2.
    assert (Slice : forall h n, (0 <= n)%Z ->
              sliceTo h n = substring 0 (Z.to_nat n) h
              /\ String.length (sliceTo h n) = Nat.min (Z.to_nat n) (String.length h)).
    { intros h n Hn. unfold sliceTo. cbv zeta.
      assert (En : (n <? 0)%Z = false) by (apply Z.ltb_ge; exact Hn). rewrite En.
      destruct (Z.le_gt_cases n (Z.of_nat (String.length h))) as [Le|Gt].
      - rewrite Z.min_l by exact Le. split; [reflexivity|apply substring_prefix_length].
      - rewrite Z.min_r by lia. rewrite Nat2Z.id, substring_all.
        rewrite (substring_beyond h (Z.to_nat n)) by lia. split; [reflexivity|lia]. }
    split; [rewrite append_length; lia|].
    split; [exists payload; reflexivity|].
    split; [reflexivity|]. split.
    + intros n _ Hn. now apply Slice.
    + intros _. apply (Slice _ 12%Z). lia.
Qed.

End StructuralId.

(** Two objects with the same properties in another order, nested in an
    array. *)
Definition keyOrderLeft : JsVal :=
  JArr [JObj [("a", JNum 1); ("b", JStr "x")]].

Definition keyOrderRight : JsVal :=
  JArr [JObj [("b", JStr "x"); ("a", JNum 1)]].

Lemma keyOrder_sameContent : sameContent keyOrderLeft keyOrderRight.
Proof.
  apply same_items. constructor; [|constructor].
  apply same_properties.
  - repeat constructor; simpl; intuition discriminate.
  - repeat constructor; simpl; intuition discriminate.
  - intros k a. simpl.
    destruct (String.eqb k "a") eqn:Ea.
    + intros [= <-]. apply String.eqb_eq in Ea. subst k. exists (JNum 1).
      split; [reflexivity|apply same_value].
    + destruct (String.eqb k "b") eqn:Eb; [|discriminate].
      intros [= <-]. exists (JStr "x"). split; [reflexivity|apply same_value].
  - simpl. tauto.
Defined.

Definition defaultIdOptions : ServicePropsIdOptions :=
  {| orderInsensitiveArrays := None; dropKeys := None; prefix := None; hashLen := None |}.

Lemma servicePropsId_key_order_witness :
  servicePropsId asciiToStr keyOrderLeft defaultIdOptions
  = servicePropsId asciiToStr keyOrderRight defaultIdOptions.
Proof.
  apply (servicePropsId_key_order asciiToStr keyOrderLeft keyOrderRight).
  exact keyOrder_sameContent.
Defined.
